(** * GPT-2 forward pass, tensor layout and AdamW update of [train_gpt2.c]

    A shallow embedding of the numerical core of [llm.c/train_gpt2.c]:
    the tensor layout planner, the kernel library, the forward pass and
    the AdamW update, followed by the properties of the design document
    that are proved about them.  Parts III to VIII add the sampler,
    [zero_parameters] and the generation loop of [main], and further
    properties of the kernels and of the forward pass.

    Modelling conventions.
    - C [int] and [size_t] values are integers in [Z].  Inside the kernels
      index arithmetic is exact: the kernels are meant for dimensions whose
      products fit the C types.  The layout planner, whose purpose is the
      size arithmetic, is modelled with the 64-bit wrap-around of [size_t]
      written out.
    - A [float*] is a pointer [(block, offset)]; the heap is a family of
      blocks of floats, one per [malloc]/[calloc] site of the program.
      Pointer arithmetic moves the offset inside the block.
    - The kernels are parameterised by the arithmetic on [float]
      ([FloatOps]), and the properties are proved for any arithmetic,
      IEEE-754 single precision included: a value that the program leaves
      is given as the float expression that the code evaluates, with its
      order of operations.  Where a property needs facts of the arithmetic
      (the infinities, the rounding error of an operation) they are
      hypotheses ([infinity_laws], [rounding_laws]).  The instance over
      the real numbers, which is exact, and its extension by the special
      values of IEEE 754 run the theorems on concrete inputs; the value of
      [random_f32], whose float operations do not round, is given in the
      exact instance. *)

From Stdlib Require Import ZArith List Bool Lia Reals Lra Psatz.
Import ListNotations.
Open Scope Z_scope.

(* ================================================================== *)
(** * Part I: the embedding of the program *)
(* ================================================================== *)

(** ** Counted loops *)

(** [iter_from n i body s] runs [body i], [body (i+1)], ... for [n] rounds. *)
Fixpoint iter_from {S : Type} (n : nat) (i : Z) (body : Z -> S -> S) (s : S) : S :=
  match n with
  | O => s
  | Datatypes.S k => iter_from k (i + 1) body (body i s)
  end.

(** [for (int i = lo; i < hi; i++) body] *)
Definition for_loop {S : Type} (lo hi : Z) (body : Z -> S -> S) (s : S) : S :=
  iter_from (Z.to_nat (hi - lo)) lo body s.

(** [iter_step n i step body s]: [n] rounds, the counter advancing by [step]. *)
Fixpoint iter_step {S : Type} (n : nat) (i step : Z) (body : Z -> S -> S) (s : S) : S :=
  match n with
  | O => s
  | Datatypes.S k => iter_step k (i + step) step body (body i s)
  end.

(** [for (int i = lo; i < hi; i += step) body], for a positive [step]. *)
Definition for_loop_step {S : Type} (lo hi step : Z) (body : Z -> S -> S) (s : S) : S :=
  iter_step (Z.to_nat ((hi - lo + step - 1) / step)) lo step body s.

(** ** Machine integers of the layout planner *)

Definition SIZE_MAX1 : Z := 2 ^ 64.

(** Conversion of an [int] to [size_t], and the result of a [size_t]
    operation: the value modulo [2^64]. *)
Definition to_size_t (x : Z) : Z := x mod SIZE_MAX1.
Definition size_mul (a b : Z) : Z := to_size_t (a * b).
Definition size_add (a b : Z) : Z := to_size_t (a + b).

(** ** GPT-2 model definition *)

Record GPT2Config := mkConfig {
  max_seq_len : Z;        (* max sequence length, e.g. 1024 *)
  vocab_size : Z;         (* vocab size, e.g. 50257 *)
  padded_vocab_size : Z;  (* padded to e.g. %128==0, 50304 *)
  num_layers : Z;         (* number of layers, e.g. 12 *)
  num_heads : Z;          (* number of heads in attention, e.g. 12 *)
  channels : Z            (* number of channels, e.g. 768 *)
}.

Definition NUM_PARAMETER_TENSORS : nat := 16.
Definition NUM_ACTIVATION_TENSORS : nat := 23.

(** [fill_in_parameter_sizes]: the sixteen element counts, in the order of
    the fields of [ParameterTensors]. *)
Definition fill_in_parameter_sizes (config : GPT2Config) : list Z :=
  let Vp := to_size_t (padded_vocab_size config) in
  let C := to_size_t (channels config) in
  let maxT := to_size_t (max_seq_len config) in
  let L := to_size_t (num_layers config) in
  [ size_mul Vp C;                             (* wte *)
    size_mul maxT C;                           (* wpe *)
    size_mul L C;                              (* ln1w *)
    size_mul L C;                              (* ln1b *)
    size_mul (size_mul L (size_mul 3 C)) C;    (* qkvw *)
    size_mul L (size_mul 3 C);                 (* qkvb *)
    size_mul (size_mul L C) C;                 (* attprojw *)
    size_mul L C;                              (* attprojb *)
    size_mul L C;                              (* ln2w *)
    size_mul L C;                              (* ln2b *)
    size_mul (size_mul L (size_mul 4 C)) C;    (* fcw *)
    size_mul L (size_mul 4 C);                 (* fcb *)
    size_mul (size_mul L C) (size_mul 4 C);    (* fcprojw *)
    size_mul L C;                              (* fcprojb *)
    C;                                         (* lnfw *)
    C ].                                       (* lnfb *)

(** [fill_in_activation_sizes]: the twenty-three element counts.  [B] and
    [T] are [int]s: a product that starts with [B * T] is formed in [int]
    before it meets a [size_t]. *)
Definition fill_in_activation_sizes (config : GPT2Config) (B T : Z) : list Z :=
  let C := to_size_t (channels config) in
  let NH := to_size_t (num_heads config) in
  let L := to_size_t (num_layers config) in
  let Vp := to_size_t (padded_vocab_size config) in
  let BT := to_size_t (B * T) in
  let LB := size_mul L (to_size_t B) in
  let LBT := size_mul LB (to_size_t T) in
  [ size_mul BT C;                                               (* encoded *)
    size_mul LBT C;                                              (* ln1 *)
    LBT;                                                         (* ln1_mean *)
    LBT;                                                         (* ln1_rstd *)
    size_mul (size_mul LBT 3) C;                                 (* qkv *)
    size_mul LBT C;                                              (* atty *)
    size_mul (size_mul (size_mul LB NH) (to_size_t T)) (to_size_t T);  (* preatt *)
    size_mul (size_mul (size_mul LB NH) (to_size_t T)) (to_size_t T);  (* att *)
    size_mul LBT C;                                              (* attproj *)
    size_mul LBT C;                                              (* residual2 *)
    size_mul LBT C;                                              (* ln2 *)
    LBT;                                                         (* ln2_mean *)
    LBT;                                                         (* ln2_rstd *)
    size_mul (size_mul LBT 4) C;                                 (* fch *)
    size_mul (size_mul LBT 4) C;                                 (* fch_gelu *)
    size_mul LBT C;                                              (* fcproj *)
    size_mul LBT C;                                              (* residual3 *)
    size_mul BT C;                                               (* lnf *)
    to_size_t (B * T);                                           (* lnf_mean *)
    to_size_t (B * T);                                           (* lnf_rstd *)
    size_mul BT Vp;                                              (* logits *)
    size_mul BT Vp;                                              (* probs *)
    to_size_t (B * T) ].                                         (* losses *)

(** The accumulation [num += sizes[i]] of both allocators, in [size_t]. *)
Definition count_elements (sizes : list Z) : Z :=
  fold_left size_add sizes 0.

(** The byte count handed to [mallocCheck], [num * sizeof(float)], is a
    [size_t] too; the buffer holds that many bytes, four to a float. *)
Definition malloc_floats (num : Z) : Z := size_mul num 4 / 4.

(** The carving loop [*(ptrs[i]) = it; it += sizes[i]]: the offset of
    each view, in floats from the start of the buffer. *)
Fixpoint carve (it : Z) (sizes : list Z) : list Z :=
  match sizes with
  | [] => []
  | s :: rest => it :: carve (it + s) rest
  end.

(** ** Heap of floats *)

(** One block per allocation site of the program. *)
Inductive block : Type :=
| params_block   (* model->params_memory, malloc_and_point_parameters *)
| acts_block     (* model->acts_memory, malloc_and_point_activations *)
| grads_block    (* shadow_model->params_memory *)
| shadow_acts_block (* shadow_model->acts_memory *)
| m_block        (* const_model->m_memory, calloc in gpt2_update *)
| v_block.       (* const_model->v_memory, calloc in gpt2_update *)

Definition block_eq_dec (a b : block) : {a = b} + {a <> b}.
Proof. decide equality. Defined.

(** A [float*]: a block and an offset counted in floats. *)
Definition ptr : Type := (block * Z)%type.

Definition padd (p : ptr) (k : Z) : ptr := (fst p, snd p + k).
Infix "+!" := padd (at level 50, left associativity).

Definition ptr_eqb (p q : ptr) : bool :=
  (if block_eq_dec (fst p) (fst q) then true else false) && (snd p =? snd q).

(** ** Arithmetic on [float] *)

Class FloatOps (F : Type) : Type := {
  fzero : F;                (* 0.0f *)
  fone : F;                 (* 1.0f *)
  fadd : F -> F -> F;
  fsub : F -> F -> F;
  fmul : F -> F -> F;
  fdiv : F -> F -> F;
  fneg : F -> F;
  fsqrt : F -> F;           (* sqrtf *)
  fexp : F -> F;            (* expf *)
  flog : F -> F;            (* logf *)
  ftanh : F -> F;           (* tanhf *)
  fpow : F -> F -> F;       (* powf *)
  fltb : F -> F -> bool;    (* a < b *)
  feqb : F -> F -> bool;    (* a == b *)
  of_int : Z -> F;          (* conversion of an integer to float *)
  fdec : Z -> Z -> F;       (* the decimal literal m * 10^e *)
  fpi : F                   (* M_PI *)
}.

Section Kernels.

Context {F : Type} {ops : FloatOps F}.

Definition mem : Type := block -> Z -> F.

Definition load (m : mem) (p : ptr) : F := m (fst p) (snd p).

Definition store (m : mem) (p : ptr) (v : F) : mem :=
  fun b o => if ptr_eqb (b, o) p then v else m b o.

(** [calloc] at the allocation site of block [blk]: a zeroed block. *)
Definition calloc (blk : block) (m : mem) : mem :=
  fun b o => if block_eq_dec b blk then fzero else m b o.

(** A local array [float a[n]], indexed by position. *)
Definition upd (a : Z -> F) (i : Z) (v : F) : Z -> F :=
  fun j => if j =? i then v else a j.

(** ** All the individual layers' forward passes
    B = batch_size, T = sequence_length, C = channels, V = vocab_size *)

Definition encoder_forward (out : ptr) (inp : Z -> Z) (wte wpe : ptr)
  (B T C : Z) (m : mem) : mem :=
  for_loop 0 B (fun b m =>
    for_loop 0 T (fun t m =>
      (* seek to the output position in out[b,t,:] *)
      let out_bt := out +! (b * T * C + t * C) in
      (* get the index of the token at inp[b, t] *)
      let ix := inp (b * T + t) in
      let wte_ix := wte +! (ix * C) in
      let wpe_t := wpe +! (t * C) in
      for_loop 0 C (fun i m =>
        store m (out_bt +! i) (fadd (load m (wte_ix +! i)) (load m (wpe_t +! i)))) m) m) m.

Definition layernorm_forward (out mean rstd inp weight bias : ptr)
  (B T C : Z) (m : mem) : mem :=
  let eps := fdec 1 (-5) in
  for_loop 0 B (fun b m =>
    for_loop 0 T (fun t m =>
      (* seek to the input position inp[b,t,:] *)
      let x := inp +! (b * T * C + t * C) in
      (* calculate the mean *)
      let mu := for_loop 0 C (fun i mu => fadd mu (load m (x +! i))) fzero in
      let mu := fdiv mu (of_int C) in
      (* calculate the variance (without any bias correction) *)
      let v := for_loop 0 C (fun i v =>
                 let xshift := fsub (load m (x +! i)) mu in
                 fadd v (fmul xshift xshift)) fzero in
      let v := fdiv v (of_int C) in
      (* calculate the rstd (reciprocal standard deviation) *)
      let s := fdiv fone (fsqrt (fadd v eps)) in
      let out_bt := out +! (b * T * C + t * C) in
      let m := for_loop 0 C (fun i m =>
                 let n := fmul s (fsub (load m (x +! i)) mu) in
                 let o := fadd (fmul n (load m (weight +! i))) (load m (bias +! i)) in
                 store m (out_bt +! i) o) m in
      (* cache the mean and rstd for the backward pass later *)
      let m := store m (mean +! (b * T + t)) mu in
      store m (rstd +! (b * T + t)) s) m) m.

(** [(bias != NULL) ? bias[o] : 0.0f] *)
Definition bias_or_zero (m : mem) (bias : option ptr) (o : Z) : F :=
  match bias with
  | Some bp => load m (bp +! o)
  | None => fzero
  end.

Definition matmul_forward_naive (out inp weight : ptr) (bias : option ptr)
  (B T C OC : Z) (m : mem) : mem :=
  for_loop 0 B (fun b m =>
    for_loop 0 T (fun t m =>
      let bt := b * T + t in
      for_loop 0 OC (fun o m =>
        let val := bias_or_zero m bias o in
        let val := for_loop 0 C (fun i val =>
                     fadd val (fmul (load m (inp +! (bt * C + i)))
                                    (load m (weight +! (o * C + i))))) val in
        store m (out +! (bt * OC + o)) val) m) m) m.

Definition LOOP_UNROLL : Z := 8.

Definition matmul_forward (out inp weight : ptr) (bias : option ptr)
  (B T C OC : Z) (m : mem) : mem :=
  (* make sure the tiled loop will be correct or fallback to naive version *)
  if negb (Z.rem (B * T) LOOP_UNROLL =? 0) then
    matmul_forward_naive out inp weight bias B T C OC m
  else
    for_loop_step 0 (B * T) LOOP_UNROLL (fun obt m =>
      for_loop 0 OC (fun o m =>
        (* we'll keep LOOP_UNROLL many results in registers *)
        let result := for_loop 0 LOOP_UNROLL (fun ibt result =>
                        upd result ibt (bias_or_zero m bias o)) (fun _ => fzero) in
        let result := for_loop 0 C (fun i result =>
                        let w := load m (weight +! (i + o * C)) in
                        for_loop 0 LOOP_UNROLL (fun ibt result =>
                          let bt := obt + ibt in
                          upd result ibt
                            (fadd (result ibt) (fmul (load m (inp +! (bt * C + i))) w)))
                          result) result in
        (* write back results to main memory *)
        for_loop 0 LOOP_UNROLL (fun ibt m =>
          let bt := obt + ibt in
          store m (out +! (bt * OC + o)) (result ibt)) m) m) m.

Definition attention_forward (out preatt att inp : ptr)
  (B T C NH : Z) (m : mem) : mem :=
  let C3 := C * 3 in
  let hs := Z.quot C NH in (* head size *)
  let scale := fdiv fone (fsqrt (of_int hs)) in
  for_loop 0 B (fun b m =>
    for_loop 0 T (fun t m =>
      for_loop 0 NH (fun h m =>
        let query_t := inp +! (b * T * C3 + t * C3 + h * hs) in
        let preatt_bth := preatt +! (b * NH * T * T + h * T * T + t * T) in
        let att_bth := att +! (b * NH * T * T + h * T * T + t * T) in
        (* pass 1: calculate query dot key and maxval *)
        let '(m, maxval) :=
          for_loop 0 (t + 1) (fun t2 '(m, maxval) =>
            let key_t2 := inp +! (b * T * C3 + t2 * C3 + h * hs + C) in
            (* (query_t) dot (key_t2) *)
            let val := for_loop 0 hs (fun i val =>
                         fadd val (fmul (load m (query_t +! i)) (load m (key_t2 +! i))))
                         fzero in
            let val := fmul val scale in
            let maxval := if fltb maxval val then val else maxval in
            (store m (preatt_bth +! t2) val, maxval))
          (m, fneg (fdec 10000 0)) in
        (* pass 2: calculate the exp and keep track of sum *)
        let '(m, expsum) :=
          for_loop 0 (t + 1) (fun t2 '(m, expsum) =>
            let expv := fexp (fsub (load m (preatt_bth +! t2)) maxval) in
            (store m (att_bth +! t2) expv, fadd expsum expv))
          (m, fzero) in
        let expsum_inv := if feqb expsum fzero then fzero else fdiv fone expsum in
        (* pass 3: normalize to get the softmax *)
        let m := for_loop 0 T (fun t2 m =>
                   if t2 <=? t then
                     store m (att_bth +! t2) (fmul (load m (att_bth +! t2)) expsum_inv)
                   else
                     (* causal attention mask *)
                     store m (att_bth +! t2) fzero) m in
        (* pass 4: accumulate weighted values into the output of attention *)
        let out_bth := out +! (b * T * C + t * C + h * hs) in
        let m := for_loop 0 hs (fun i m => store m (out_bth +! i) fzero) m in
        for_loop 0 (t + 1) (fun t2 m =>
          let value_t2 := inp +! (b * T * C3 + t2 * C3 + h * hs + C * 2) in
          let att_btht2 := load m (att_bth +! t2) in
          for_loop 0 hs (fun i m =>
            store m (out_bth +! i)
              (fadd (load m (out_bth +! i)) (fmul att_btht2 (load m (value_t2 +! i))))) m) m)
      m) m) m.

Definition GELU_SCALING_FACTOR : F := fsqrt (fdiv (fdec 2 0) fpi).

Definition gelu_forward (out inp : ptr) (N : Z) (m : mem) : mem :=
  for_loop 0 N (fun i m =>
    let x := load m (inp +! i) in
    let cube := fmul (fmul (fmul (fdec 44715 (-6)) x) x) x in
    store m (out +! i)
      (fmul (fmul (fdec 5 (-1)) x)
            (fadd fone (ftanh (fmul GELU_SCALING_FACTOR (fadd x cube)))))) m.

Definition residual_forward (out inp1 inp2 : ptr) (N : Z) (m : mem) : mem :=
  for_loop 0 N (fun i m =>
    store m (out +! i) (fadd (load m (inp1 +! i)) (load m (inp2 +! i)))) m.

Definition softmax_forward (probs logits : ptr) (B T V Vp : Z) (m : mem) : mem :=
  for_loop 0 B (fun b m =>
    for_loop 0 T (fun t m =>
      (* probs <- softmax(logits) *)
      let logits_bt := logits +! (b * T * Vp + t * Vp) in
      let probs_bt := probs +! (b * T * Vp + t * Vp) in
      (* maxval is only calculated and subtracted for numerical stability *)
      let maxval := for_loop 0 V (fun i maxval =>
                      if fltb maxval (load m (logits_bt +! i))
                      then load m (logits_bt +! i) else maxval)
                      (fneg (fdec 10000 0)) in
      let '(m, sum) :=
        for_loop 0 V (fun i '(m, sum) =>
          let m := store m (probs_bt +! i)
                     (fexp (fsub (load m (logits_bt +! i)) maxval)) in
          (m, fadd sum (load m (probs_bt +! i))))
        (m, fzero) in
      (* note we only loop to V, leaving the padded dimensions *)
      let m := for_loop 0 V (fun i m =>
                 store m (probs_bt +! i) (fdiv (load m (probs_bt +! i)) sum)) m in
      (* forcing the probabilities here to be zero *)
      for_loop V Vp (fun i m => store m (probs_bt +! i) fzero) m) m) m.

Definition crossentropy_forward (losses probs : ptr) (targets : Z -> Z)
  (B T Vp : Z) (m : mem) : mem :=
  for_loop 0 B (fun b m =>
    for_loop 0 T (fun t m =>
      (* loss = -log(probs[target]) *)
      let probs_bt := probs +! (b * T * Vp + t * Vp) in
      let ix := targets (b * T + t) in
      store m (losses +! (b * T + t)) (fneg (flog (load m (probs_bt +! ix))))) m) m.

(** ** The parameters and the activations of the model *)

Record ParameterTensors := mkParams {
  wte : ptr;       (* (V, C) *)
  wpe : ptr;       (* (maxT, C) *)
  ln1w : ptr;      (* (L, C) *)
  ln1b : ptr;      (* (L, C) *)
  qkvw : ptr;      (* (L, 3*C, C) *)
  qkvb : ptr;      (* (L, 3*C) *)
  attprojw : ptr;  (* (L, C, C) *)
  attprojb : ptr;  (* (L, C) *)
  ln2w : ptr;      (* (L, C) *)
  ln2b : ptr;      (* (L, C) *)
  fcw : ptr;       (* (L, 4*C, C) *)
  fcb : ptr;       (* (L, 4*C) *)
  fcprojw : ptr;   (* (L, C, 4*C) *)
  fcprojb : ptr;   (* (L, C) *)
  lnfw : ptr;      (* (C) *)
  lnfb : ptr       (* (C) *)
}.

Record ActivationTensors := mkActs {
  encoded : ptr;    (* (B, T, C) *)
  ln1 : ptr;        (* (L, B, T, C) *)
  ln1_mean : ptr;   (* (L, B, T) *)
  ln1_rstd : ptr;   (* (L, B, T) *)
  qkv : ptr;        (* (L, B, T, 3*C) *)
  atty : ptr;       (* (L, B, T, C) *)
  preatt : ptr;     (* (L, B, NH, T, T) *)
  att : ptr;        (* (L, B, NH, T, T) *)
  attproj : ptr;    (* (L, B, T, C) *)
  residual2 : ptr;  (* (L, B, T, C) *)
  ln2 : ptr;        (* (L, B, T, C) *)
  ln2_mean : ptr;   (* (L, B, T) *)
  ln2_rstd : ptr;   (* (L, B, T) *)
  fch : ptr;        (* (L, B, T, 4*C) *)
  fch_gelu : ptr;   (* (L, B, T, 4*C) *)
  fcproj : ptr;     (* (L, B, T, C) *)
  residual3 : ptr;  (* (L, B, T, C) *)
  lnf : ptr;        (* (B, T, C) *)
  lnf_mean : ptr;   (* (B, T) *)
  lnf_rstd : ptr;   (* (B, T) *)
  logits : ptr;     (* (B, T, V) *)
  probs : ptr;      (* (B, T, V) *)
  losses : ptr      (* (B, T) *)
}.

(** [ptrs[i]], for a buffer that starts at [base]. *)
Definition view (base : ptr) (offsets : list Z) (i : nat) : ptr :=
  base +! nth i offsets 0.

(** allocate memory for the parameters and point the individual tensors
    to the right places; [params_memory] is the pointer returned by
    [mallocCheck]. *)
Definition malloc_and_point_parameters (params_memory : ptr) (param_sizes : list Z)
  : ParameterTensors :=
  let ptrs := view params_memory (carve 0 (firstn NUM_PARAMETER_TENSORS param_sizes)) in
  mkParams (ptrs 0%nat) (ptrs 1%nat) (ptrs 2%nat) (ptrs 3%nat) (ptrs 4%nat) (ptrs 5%nat)
           (ptrs 6%nat) (ptrs 7%nat) (ptrs 8%nat) (ptrs 9%nat) (ptrs 10%nat) (ptrs 11%nat)
           (ptrs 12%nat) (ptrs 13%nat) (ptrs 14%nat) (ptrs 15%nat).

Definition malloc_and_point_activations (acts_memory : ptr) (act_sizes : list Z)
  : ActivationTensors :=
  let ptrs := view acts_memory (carve 0 (firstn NUM_ACTIVATION_TENSORS act_sizes)) in
  mkActs (ptrs 0%nat) (ptrs 1%nat) (ptrs 2%nat) (ptrs 3%nat) (ptrs 4%nat) (ptrs 5%nat)
         (ptrs 6%nat) (ptrs 7%nat) (ptrs 8%nat) (ptrs 9%nat) (ptrs 10%nat) (ptrs 11%nat)
         (ptrs 12%nat) (ptrs 13%nat) (ptrs 14%nat) (ptrs 15%nat) (ptrs 16%nat) (ptrs 17%nat)
         (ptrs 18%nat) (ptrs 19%nat) (ptrs 20%nat) (ptrs 21%nat) (ptrs 22%nat).

Record GPT2 := mkGPT2 {
  params : ParameterTensors;
  param_sizes : list Z;
  params_memory : ptr;
  act_sizes : list Z;
  acts : ActivationTensors;
  acts_memory : ptr
}.

Record GPT2Const := mkGPT2Const {
  config : GPT2Config;
  (* buffers for the AdamW optimizer, [m_memory] and [v_memory]: NULL until
     the first update, then allocated together *)
  adam_memory : option (ptr * ptr);
  mean_loss : F;   (* after a forward pass with targets, the mean loss *)
  num_parameters : Z
}.

(** ** The forward pass *)

(** The call of a kernel, with its arguments. *)
Inductive kernel_call : Type :=
| KEncoder (out : ptr) (inp : Z -> Z) (wte wpe : ptr) (B T C : Z)
| KLayernorm (out mean rstd inp weight bias : ptr) (B T C : Z)
| KMatmul (out inp weight : ptr) (bias : option ptr) (B T C OC : Z)
| KAttention (out preatt att inp : ptr) (B T C NH : Z)
| KGelu (out inp : ptr) (N : Z)
| KResidual (out inp1 inp2 : ptr) (N : Z)
| KSoftmax (probs logits : ptr) (B T V Vp : Z)
| KCrossentropy (losses probs : ptr) (targets : Z -> Z) (B T Vp : Z).

Definition run_kernel (k : kernel_call) : mem -> mem :=
  match k with
  | KEncoder out inp wte wpe B T C => encoder_forward out inp wte wpe B T C
  | KLayernorm out mean rstd inp weight bias B T C =>
      layernorm_forward out mean rstd inp weight bias B T C
  | KMatmul out inp weight bias B T C OC => matmul_forward out inp weight bias B T C OC
  | KAttention out preatt att inp B T C NH => attention_forward out preatt att inp B T C NH
  | KGelu out inp N => gelu_forward out inp N
  | KResidual out inp1 inp2 N => residual_forward out inp1 inp2 N
  | KSoftmax probs logits B T V Vp => softmax_forward probs logits B T V Vp
  | KCrossentropy losses probs targets B T Vp =>
      crossentropy_forward losses probs targets B T Vp
  end.

(** The machine: the heap, and the kernels called so far, oldest first. *)
Record machine := mkMachine {
  heap : mem;
  calls : list kernel_call
}.

(** A kernel call: the kernel runs on the heap and the call is recorded. *)
Definition call (k : kernel_call) (s : machine) : machine :=
  mkMachine (run_kernel k (heap s)) (calls s ++ [k]).

(** The two [assert]s of the validation loop, for position [i]; the
    vocabulary size is a [size_t] there, so that [inputs[i] < V] compares
    two [size_t]. *)
Definition valid_position (V : Z) (inputs : Z -> Z) (targets : option (Z -> Z)) (i : Z)
  : bool :=
  ((0 <=? inputs i) && (to_size_t (inputs i) <? to_size_t V))
  && match targets with
     | Some tg => (0 <=? tg i) && (to_size_t (tg i) <? to_size_t V)
     | None => true
     end.

(** One layer of the loop of [gpt2_forward]. *)
Definition gpt2_forward_layer (model_consts : GPT2Const)
  (params : ParameterTensors) (acts : ActivationTensors) (B T : Z)
  (l : Z) (s : machine) : machine :=
  let C := channels (config model_consts) in
  let NH := num_heads (config model_consts) in
  let residual := if l =? 0 then encoded acts
                  else residual3 acts +! ((l - 1) * B * T * C) in
  (* get the pointers of the weights for this layer *)
  let l_ln1w := ln1w params +! (l * C) in
  let l_ln1b := ln1b params +! (l * C) in
  let l_qkvw := qkvw params +! (l * 3 * C * C) in
  let l_qkvb := qkvb params +! (l * 3 * C) in
  let l_attprojw := attprojw params +! (l * C * C) in
  let l_attprojb := attprojb params +! (l * C) in
  let l_ln2w := ln2w params +! (l * C) in
  let l_ln2b := ln2b params +! (l * C) in
  let l_fcw := fcw params +! (l * 4 * C * C) in
  let l_fcb := fcb params +! (l * 4 * C) in
  let l_fcprojw := fcprojw params +! (l * C * 4 * C) in
  let l_fcprojb := fcprojb params +! (l * C) in
  (* get the pointers of the activations for this layer *)
  let l_ln1 := ln1 acts +! (l * B * T * C) in
  let l_ln1_mean := ln1_mean acts +! (l * B * T) in
  let l_ln1_rstd := ln1_rstd acts +! (l * B * T) in
  let l_qkv := qkv acts +! (l * B * T * 3 * C) in
  let l_atty := atty acts +! (l * B * T * C) in
  let l_preatt := preatt acts +! (l * B * NH * T * T) in
  let l_att := att acts +! (l * B * NH * T * T) in
  let l_attproj := attproj acts +! (l * B * T * C) in
  let l_residual2 := residual2 acts +! (l * B * T * C) in
  let l_ln2 := ln2 acts +! (l * B * T * C) in
  let l_ln2_mean := ln2_mean acts +! (l * B * T) in
  let l_ln2_rstd := ln2_rstd acts +! (l * B * T) in
  let l_fch := fch acts +! (l * B * T * 4 * C) in
  let l_fch_gelu := fch_gelu acts +! (l * B * T * 4 * C) in
  let l_fcproj := fcproj acts +! (l * B * T * C) in
  let l_residual3 := residual3 acts +! (l * B * T * C) in
  (* now do the forward pass *)
  let s := call (KLayernorm l_ln1 l_ln1_mean l_ln1_rstd residual l_ln1w l_ln1b B T C) s in
  let s := call (KMatmul l_qkv l_ln1 l_qkvw (Some l_qkvb) B T C (3 * C)) s in
  let s := call (KAttention l_atty l_preatt l_att l_qkv B T C NH) s in
  let s := call (KMatmul l_attproj l_atty l_attprojw (Some l_attprojb) B T C C) s in
  let s := call (KResidual l_residual2 residual l_attproj (B * T * C)) s in
  let s := call (KLayernorm l_ln2 l_ln2_mean l_ln2_rstd l_residual2 l_ln2w l_ln2b B T C) s in
  let s := call (KMatmul l_fch l_ln2 l_fcw (Some l_fcb) B T C (4 * C)) s in
  let s := call (KGelu l_fch_gelu l_fch (B * T * 4 * C)) s in
  let s := call (KMatmul l_fcproj l_fch_gelu l_fcprojw (Some l_fcprojb) B T (4 * C) C) s in
  call (KResidual l_residual3 l_residual2 l_fcproj (B * T * C)) s.

(** The block [if (targets != NULL) ... else ...] that ends [gpt2_forward]:
    the machine after it and the value stored in [mean_loss]. *)
Definition gpt2_forward_loss (acts : ActivationTensors) (targets : option (Z -> Z))
  (B T Vp : Z) (s : machine) : machine * F :=
  match targets with
  | Some tg =>
      let s := call (KCrossentropy (losses acts) (probs acts) tg B T Vp) s in
      let mean_loss := for_loop 0 (B * T) (fun i mean_loss =>
                         fadd mean_loss (load (heap s) (losses acts +! i))) fzero in
      (s, fdiv mean_loss (of_int (B * T)))
  | None => (s, fneg fone) (* -1.0f will designate no loss *)
  end.

(** [gpt2_forward]: [None] when an [assert] fails, otherwise the machine
    after the pass, the updated [model_consts] and the value written to
    [*res].  The hyperparameters reach the kernels as the [int]s of the
    configuration. *)
Definition gpt2_forward (model : GPT2) (model_consts : GPT2Const)
  (inputs : Z -> Z) (targets : option (Z -> Z)) (B T : Z) (s : machine)
  : option (machine * GPT2Const * F) :=
  (* validate inputs *)
  let V := vocab_size (config model_consts) in
  let Vp := padded_vocab_size (config model_consts) in
  if negb (for_loop 0 (B * T) (fun i ok => ok && valid_position V inputs targets i) true)
  then None
  else
    (* forward pass *)
    let params := params model in
    let acts := acts model in
    let C := channels (config model_consts) in
    let L := num_layers (config model_consts) in
    let s := call (KEncoder (encoded acts) inputs (wte params) (wpe params) B T C) s in
    let s := for_loop 0 L (gpt2_forward_layer model_consts params acts B T) s in
    let residual := residual3 acts +! ((L - 1) * B * T * C) in
    let s := call (KLayernorm (lnf acts) (lnf_mean acts) (lnf_rstd acts) residual
                     (lnfw params) (lnfb params) B T C) s in
    let s := call (KMatmul (logits acts) (lnf acts) (wte params) None B T C Vp) s in
    let s := call (KSoftmax (probs acts) (logits acts) B T V Vp) s in
    (* compute the loss if targets are available *)
    let '(s, loss) := gpt2_forward_loss acts targets B T Vp s in
    Some (s, mkGPT2Const (config model_consts) (adam_memory model_consts) loss
                         (num_parameters model_consts), loss).

(** ** The AdamW update *)

(** The heap together with the addresses read so far, oldest first. *)
Record ustate := mkUstate {
  uheap : mem;
  reads : list ptr
}.

Definition uload (p : ptr) (s : ustate) : F * ustate :=
  (load (uheap s) p, mkUstate (uheap s) (reads s ++ [p])).

Definition ustore (p : ptr) (v : F) (s : ustate) : ustate :=
  mkUstate (store (uheap s) p v) (reads s).

(** The body of the loop of [gpt2_update] for element [i]; the two
    [printf] of element 0 read [params_memory[0]]. *)
Definition gpt2_update_element (params_memory grads_memory m_memory v_memory : ptr)
  (learning_rate beta1 beta2 eps weight_decay : F) (t : Z) (i : Z) (s : ustate) : ustate :=
  let '(param, s) := uload (params_memory +! i) s in
  let '(grad, s) := uload (grads_memory +! i) s in
  let s := ustore (grads_memory +! i) fzero s in
  (* update the first moment (momentum) *)
  let '(mi, s) := uload (m_memory +! i) s in
  let m := fadd (fmul beta1 mi) (fmul (fsub fone beta1) grad) in
  (* update the second moment (RMSprop) *)
  let '(vi, s) := uload (v_memory +! i) s in
  let v := fadd (fmul beta2 vi) (fmul (fmul (fsub fone beta2) grad) grad) in
  (* bias-correct both moments *)
  let m_hat := fdiv m (fsub fone (fpow beta1 (of_int t))) in
  let v_hat := fdiv v (fsub fone (fpow beta2 (of_int t))) in
  let s := if i =? 0 then snd (uload (params_memory +! i) s) else s in
  let update := fmul learning_rate
                  (fadd (fdiv m_hat (fadd (fsqrt v_hat) eps)) (fmul weight_decay param)) in
  (* update *)
  let s := ustore (m_memory +! i) m s in
  let s := ustore (v_memory +! i) v s in
  let '(old, s) := uload (params_memory +! i) s in
  let s := ustore (params_memory +! i) (fsub old update) s in
  if i =? 0 then snd (uload (params_memory +! i) s) else s.

Definition gpt2_update (model shadow_model : GPT2) (const_model : GPT2Const)
  (learning_rate beta1 beta2 eps weight_decay : F) (t : Z) (s : ustate)
  : GPT2Const * ustate :=
  (* lazily allocate the memory for m_memory and v_memory *)
  let '(m_memory, v_memory, s) :=
    match adam_memory const_model with
    | None => ((m_block, 0), (v_block, 0),
               mkUstate (calloc v_block (calloc m_block (uheap s))) (reads s))
    | Some (mp, vp) => (mp, vp, s)
    end in
  let s := for_loop 0 (num_parameters const_model)
             (gpt2_update_element (params_memory model) (params_memory shadow_model)
                m_memory v_memory learning_rate beta1 beta2 eps weight_decay t) s in
  (mkGPT2Const (config const_model) (Some (m_memory, v_memory)) (mean_loss const_model)
               (num_parameters const_model), s).

End Kernels.

(** ** Exact arithmetic: the instance over the real numbers *)

Definition Rltb (a b : R) : bool := if Rlt_dec a b then true else false.
Definition Reqb (a b : R) : bool := if Req_dec_T a b then true else false.
Definition Rdec (m e : Z) : R := (IZR m * powerRZ 10 e)%R.

(** [powf]: the integer power when the exponent is an integer. *)
Definition Rpowf (x y : R) : R :=
  if Req_dec_T (IZR (Int_part y)) y then powerRZ x (Int_part y) else Rpower x y.

#[export] Instance RealOps : FloatOps R := {|
  fzero := 0%R;
  fone := 1%R;
  fadd := Rplus;
  fsub := Rminus;
  fmul := Rmult;
  fdiv := Rdiv;
  fneg := Ropp;
  fsqrt := sqrt;
  fexp := exp;
  flog := ln;
  ftanh := tanh;
  fpow := Rpowf;
  fltb := Rltb;
  feqb := Reqb;
  of_int := IZR;
  fdec := Rdec;
  fpi := PI
|}.

(** ** Exact arithmetic with the special values of IEEE 754 *)

Inductive xreal : Type :=
| Fin (r : R)   (* a finite number *)
| PInf          (* +infinity *)
| NInf          (* -infinity *)
| NaN.

Definition xneg (x : xreal) : xreal :=
  match x with
  | Fin r => Fin (- r)
  | PInf => NInf
  | NInf => PInf
  | NaN => NaN
  end.

Definition xadd (x y : xreal) : xreal :=
  match x, y with
  | NaN, _ | _, NaN => NaN
  | Fin a, Fin b => Fin (a + b)
  | PInf, NInf | NInf, PInf => NaN
  | PInf, _ | _, PInf => PInf
  | NInf, _ | _, NInf => NInf
  end.

Definition xsub (x y : xreal) : xreal := xadd x (xneg y).

(** The sign of a real: [Gt] positive, [Eq] zero, [Lt] negative. *)
Definition Rsign (r : R) : comparison :=
  if Rlt_dec 0 r then Gt else if Rlt_dec r 0 then Lt else Eq.

Definition xsign (x : xreal) : option comparison :=
  match x with
  | Fin r => Some (Rsign r)
  | PInf => Some Gt
  | NInf => Some Lt
  | NaN => None
  end.

(** An infinity of the sign of a product or quotient; [NaN] at zero. *)
Definition xinf_signed (s1 s2 : comparison) : xreal :=
  match s1, s2 with
  | Eq, _ | _, Eq => NaN
  | Gt, Gt | Lt, Lt => PInf
  | _, _ => NInf
  end.

Definition xmul (x y : xreal) : xreal :=
  match x, y with
  | NaN, _ | _, NaN => NaN
  | Fin a, Fin b => Fin (a * b)
  | Fin a, PInf => xinf_signed (Rsign a) Gt
  | Fin a, NInf => xinf_signed (Rsign a) Lt
  | PInf, Fin b => xinf_signed Gt (Rsign b)
  | NInf, Fin b => xinf_signed Lt (Rsign b)
  | PInf, PInf | NInf, NInf => PInf
  | PInf, NInf | NInf, PInf => NInf
  end.

Definition xdiv (x y : xreal) : xreal :=
  match x, y with
  | NaN, _ | _, NaN => NaN
  | Fin a, Fin b =>
      match Rsign b with
      | Eq => xinf_signed (Rsign a) Gt   (* x / 0 *)
      | _ => Fin (a / b)
      end
  | Fin _, _ => Fin 0
  | PInf, Fin b => match Rsign b with Lt => NInf | _ => PInf end
  | NInf, Fin b => match Rsign b with Lt => PInf | _ => NInf end
  | _, _ => NaN
  end.

Definition xsqrt (x : xreal) : xreal :=
  match x with
  | Fin r => match Rsign r with Lt => NaN | _ => Fin (sqrt r) end
  | PInf => PInf
  | _ => NaN
  end.

Definition xexp (x : xreal) : xreal :=
  match x with
  | Fin r => Fin (exp r)
  | PInf => PInf
  | NInf => Fin 0
  | NaN => NaN
  end.

Definition xlog (x : xreal) : xreal :=
  match x with
  | Fin r => match Rsign r with Lt => NaN | Eq => NInf | Gt => Fin (ln r) end
  | PInf => PInf
  | _ => NaN
  end.

Definition xtanh (x : xreal) : xreal :=
  match x with
  | Fin r => Fin (tanh r)
  | PInf => Fin 1
  | NInf => Fin (-1)
  | NaN => NaN
  end.

(** [powf] on finite arguments; its many cases at the infinities are not
    modelled ([NaN]), and nothing below depends on them. *)
Definition xpow (x y : xreal) : xreal :=
  match x, y with
  | Fin a, Fin b =>
      match Rsign a, Rsign b with
      | Eq, Lt => PInf
      | _, _ => Fin (Rpowf a b)
      end
  | _, _ => NaN
  end.

Definition xltb (x y : xreal) : bool :=
  match x, y with
  | Fin a, Fin b => Rltb a b
  | NInf, Fin _ | NInf, PInf | Fin _, PInf => true
  | _, _ => false
  end.

Definition xeqb (x y : xreal) : bool :=
  match x, y with
  | Fin a, Fin b => Reqb a b
  | PInf, PInf | NInf, NInf => true
  | _, _ => false
  end.

#[export] Instance XrealOps : FloatOps xreal := {|
  fzero := Fin 0;
  fone := Fin 1;
  fadd := xadd;
  fsub := xsub;
  fmul := xmul;
  fdiv := xdiv;
  fneg := xneg;
  fsqrt := xsqrt;
  fexp := xexp;
  flog := xlog;
  ftanh := xtanh;
  fpow := xpow;
  fltb := xltb;
  feqb := xeqb;
  of_int := fun z => Fin (IZR z);
  fdec := fun m e => Fin (Rdec m e);
  fpi := Fin PI
|}.

(* ================================================================== *)
(** * Part II: properties *)
(* ================================================================== *)

(** ** Reasoning about counted loops *)

Section Loops.

Context {S : Type}.
Implicit Types (body : Z -> S -> S) (s : S).

Lemma iter_from_invariant (P : Z -> S -> Prop) body n :
  forall i s,
    P i s ->
    (forall j s', i <= j < i + Z.of_nat n -> P j s' -> P (j + 1) (body j s')) ->
    P (i + Z.of_nat n) (iter_from n i body s).
Proof.
  induction n as [|n IH]; intros i s Hs Hstep.
  - simpl. now rewrite Z.add_0_r.
  - cbn [iter_from].
    replace (i + Z.of_nat (Datatypes.S n)) with ((i + 1) + Z.of_nat n) by lia.
    apply IH.
    + apply Hstep; [lia | assumption].
    + intros j s' Hj. apply Hstep. lia.
Qed.

Lemma for_loop_invariant (P : Z -> S -> Prop) lo hi body s :
  lo <= hi ->
  P lo s ->
  (forall i s', lo <= i < hi -> P i s' -> P (i + 1) (body i s')) ->
  P hi (for_loop lo hi body s).
Proof.
  intros Hle Hs Hstep. unfold for_loop.
  replace hi with (lo + Z.of_nat (Z.to_nat (hi - lo))) at 1 by lia.
  apply iter_from_invariant; [assumption|].
  intros j s' Hj. apply Hstep. lia.
Qed.

Lemma for_loop_empty lo hi body s :
  hi <= lo -> for_loop lo hi body s = s.
Proof.
  intros H. unfold for_loop. replace (Z.to_nat (hi - lo)) with O by lia. reflexivity.
Qed.

Lemma for_loop_head lo hi body s :
  lo < hi -> for_loop lo hi body s = for_loop (lo + 1) hi body (body lo s).
Proof.
  intros H. unfold for_loop.
  replace (Z.to_nat (hi - lo)) with (Datatypes.S (Z.to_nat (hi - (lo + 1)))) by lia.
  reflexivity.
Qed.

(** A property kept by every round holds after the loop. *)
Lemma for_loop_preserve (Q : S -> Prop) lo hi body s :
  Q s ->
  (forall i s', lo <= i < hi -> Q s' -> Q (body i s')) ->
  Q (for_loop lo hi body s).
Proof.
  intros Hs Hstep.
  destruct (Z_le_gt_dec lo hi) as [Hle|Hgt].
  - apply (for_loop_invariant (fun _ => Q)); auto.
  - rewrite for_loop_empty by lia. assumption.
Qed.

(** A property set up by round [i0] and kept by the other rounds holds
    after the loop. *)
Lemma for_loop_pick (Q : S -> Prop) lo hi body s i0 :
  lo <= i0 < hi ->
  (forall s', Q (body i0 s')) ->
  (forall i s', lo <= i < hi -> i <> i0 -> Q s' -> Q (body i s')) ->
  Q (for_loop lo hi body s).
Proof.
  intros Hi0 Hset Hkeep.
  assert (H : (fun i s' => i0 < i -> Q s') hi (for_loop lo hi body s)).
  { apply for_loop_invariant; [lia | intros; lia |].
    intros i s' Hi IH Hlt.
    destruct (Z.eq_dec i i0) as [->|Hne].
    - apply Hset.
    - apply Hkeep; [assumption | assumption | apply IH; lia]. }
  apply H. lia.
Qed.

Lemma iter_from_snoc body n :
  forall i s,
    iter_from (Datatypes.S n) i body s = body (i + Z.of_nat n) (iter_from n i body s).
Proof.
  induction n as [|n IH]; intros i s.
  - cbn. now rewrite Z.add_0_r.
  - change (iter_from (Datatypes.S (Datatypes.S n)) i body s)
      with (iter_from (Datatypes.S n) (i + 1) body (body i s)).
    rewrite IH.
    change (iter_from (Datatypes.S n) i body s)
      with (iter_from n (i + 1) body (body i s)).
    f_equal. lia.
Qed.

Lemma for_loop_tail lo hi body s :
  lo < hi -> for_loop lo hi body s = body (hi - 1) (for_loop lo (hi - 1) body s).
Proof.
  intros H. unfold for_loop.
  replace (Z.to_nat (hi - lo)) with (Datatypes.S (Z.to_nat (hi - 1 - lo))) by lia.
  rewrite iter_from_snoc. f_equal. lia.
Qed.

Lemma for_loop_ext lo hi body body' s :
  (forall i s', lo <= i < hi -> body i s' = body' i s') ->
  for_loop lo hi body s = for_loop lo hi body' s.
Proof.
  intros Hext.
  destruct (Z_le_gt_dec lo hi) as [Hle|Hgt].
  - apply (for_loop_invariant
             (fun i s' => s' = for_loop lo i body' s) lo hi body s Hle).
    + now rewrite for_loop_empty by lia.
    + intros i s' Hi ->. rewrite (for_loop_tail lo (i + 1)) by lia.
      replace (i + 1 - 1) with i by lia. apply Hext. assumption.
  - now rewrite !for_loop_empty by lia.
Qed.

End Loops.

(** Two loops over the same range, run side by side. *)
Lemma for_loop_rel {S1 S2 : Type} (R : S1 -> S2 -> Prop) lo hi
  (body1 : Z -> S1 -> S1) (body2 : Z -> S2 -> S2) s1 s2 :
  R s1 s2 ->
  (forall i a b, lo <= i < hi -> R a b -> R (body1 i a) (body2 i b)) ->
  R (for_loop lo hi body1 s1) (for_loop lo hi body2 s2).
Proof.
  intros Hs Hstep.
  destruct (Z_le_gt_dec lo hi) as [Hle|Hgt].
  - apply (for_loop_invariant
             (fun i a => R a (for_loop lo i body2 s2)) lo hi body1 s1 Hle).
    + now rewrite for_loop_empty by lia.
    + intros i a Hi IH. rewrite (for_loop_tail lo (i + 1)) by lia.
      replace (i + 1 - 1) with i by lia. apply Hstep; assumption.
  - now rewrite !for_loop_empty by lia.
Qed.

(** ** The tensor layout planner *)

(** The arrays [ptrs[]] of the two allocators: the fields in the order in
    which the carving loop assigns them. *)
Definition parameter_ptrs (p : ParameterTensors) : list ptr :=
  [ wte p; wpe p; ln1w p; ln1b p; qkvw p; qkvb p; attprojw p; attprojb p;
    ln2w p; ln2b p; fcw p; fcb p; fcprojw p; fcprojb p; lnfw p; lnfb p ].

Definition activation_ptrs (a : ActivationTensors) : list ptr :=
  [ encoded a; ln1 a; ln1_mean a; ln1_rstd a; qkv a; atty a; preatt a; att a;
    attproj a; residual2 a; ln2 a; ln2_mean a; ln2_rstd a; fch a; fch_gelu a;
    fcproj a; residual3 a; lnf a; lnf_mean a; lnf_rstd a; logits a; probs a;
    losses a ].

(** The sum of a list of sizes, as a mathematical integer. *)
Definition total (sizes : list Z) : Z := fold_right Z.add 0 sizes.

(** Element [a] of the block of [base] lies in the view that starts at
    [p] and holds [n] floats. *)
Definition in_view (p : ptr) (n : Z) (q : ptr) : Prop :=
  fst q = fst p /\ snd p <= snd q < snd p + n.

(** [views], of lengths [lens], tile the buffer of [len] floats at [base]:
    they lie in its block, no two of them share an element, and together
    they hold exactly the elements of the buffer. *)
Definition tiles (base : ptr) (len : Z) (views : list ptr) (lens : list Z) : Prop :=
  length views = length lens /\
  (forall i j q, (i < j < length views)%nat ->
     ~ (in_view (nth i views base) (nth i lens 0) q /\
        in_view (nth j views base) (nth j lens 0) q)) /\
  (forall q, in_view base len q <->
     exists i, (i < length views)%nat /\ in_view (nth i views base) (nth i lens 0) q).

(** The offset of every view is the sum of the sizes that precede it in
    the enumeration. *)
Definition offsets_by_order (base : ptr) (views : list ptr) (lens : list Z) : Prop :=
  forall i, (i < length views)%nat ->
    nth i views base = base +! total (firstn i lens).

Lemma to_size_t_range x : 0 <= to_size_t x < SIZE_MAX1.
Proof. unfold to_size_t, SIZE_MAX1. apply Z.mod_pos_bound. reflexivity. Qed.

Lemma to_size_t_small x : 0 <= x < SIZE_MAX1 -> to_size_t x = x.
Proof. intros H. unfold to_size_t. now apply Z.mod_small. Qed.


Lemma fold_size_add_total sizes : forall acc,
  0 <= acc < SIZE_MAX1 ->
  fold_left size_add sizes acc = to_size_t (acc + total sizes).
Proof.
  induction sizes as [|s rest IH]; intros acc Hacc; cbn [fold_left total fold_right].
  - rewrite Z.add_0_r. symmetry. now apply to_size_t_small.
  - rewrite IH by apply to_size_t_range.
    unfold size_add, to_size_t. fold (total rest).
    rewrite Zplus_mod_idemp_l. f_equal. lia.
Qed.

Lemma count_elements_total sizes :
  count_elements sizes = to_size_t (total sizes).
Proof.
  unfold count_elements. rewrite fold_size_add_total; [reflexivity|].
  unfold SIZE_MAX1. lia.
Qed.

Lemma total_cons s rest : total (s :: rest) = s + total rest.
Proof. reflexivity. Qed.

Lemma total_nonneg sizes : Forall (fun s => 0 <= s) sizes -> 0 <= total sizes.
Proof.
  induction 1 as [|s rest Hs _ IH]; [cbn; lia|]. rewrite total_cons. lia.
Qed.

Lemma total_firstn_le sizes : Forall (fun s => 0 <= s) sizes ->
  forall i, 0 <= total (firstn i sizes) <= total sizes.
Proof.
  induction 1 as [|s rest Hs Hrest IH]; intros [|i];
    rewrite ?firstn_nil, ?firstn_O, ?firstn_cons, ?total_cons; try (cbn; lia).
  - pose proof (total_nonneg rest Hrest). cbn. lia.
  - specialize (IH i). lia.
Qed.

Lemma total_firstn_succ sizes i : (i < length sizes)%nat ->
  total (firstn (Datatypes.S i) sizes) = total (firstn i sizes) + nth i sizes 0.
Proof.
  revert i. induction sizes as [|s rest IH]; intros i Hi; cbn [length] in Hi; [lia|].
  destruct i as [|i].
  - cbn. lia.
  - rewrite !firstn_cons, !total_cons. cbn [nth]. rewrite IH by lia. lia.
Qed.

Lemma carve_length sizes : forall it, length (carve it sizes) = length sizes.
Proof. induction sizes; intros; cbn; auto. Qed.

Lemma carve_nth sizes : forall it i, (i < length sizes)%nat ->
  nth i (carve it sizes) 0 = it + total (firstn i sizes).
Proof.
  induction sizes as [|s rest IH]; intros it i Hi; cbn [length] in Hi; [lia|].
  destruct i as [|i]; cbn [carve nth]; [cbn; lia|].
  rewrite firstn_cons, total_cons, IH by lia. lia.
Qed.

(** The views that [carve] gives are consecutive. *)
Lemma carve_consecutive sizes i j :
  Forall (fun s => 0 <= s) sizes -> (i < j)%nat -> (j <= length sizes)%nat ->
  total (firstn i sizes) + nth i sizes 0 <= total (firstn j sizes).
Proof.
  intros Hpos Hij Hj. rewrite <- total_firstn_succ by lia.
  induction j as [|j IH]; [lia|].
  destruct (Nat.eq_dec (Datatypes.S i) (Datatypes.S j)) as [->|Hne]; [lia|].
  assert (Hstep : total (firstn j sizes) <= total (firstn (Datatypes.S j) sizes)).
  { rewrite total_firstn_succ by lia.
    assert (0 <= nth j sizes 0); [|lia].
    rewrite Forall_forall in Hpos. apply Hpos. apply nth_In. lia. }
  specialize (IH ltac:(lia) ltac:(lia)). lia.
Qed.

(** Every element below the total lies in some view. *)
Lemma carve_covers sizes : Forall (fun s => 0 <= s) sizes ->
  forall a, 0 <= a < total sizes ->
  exists i, (i < length sizes)%nat /\
    total (firstn i sizes) <= a < total (firstn i sizes) + nth i sizes 0.
Proof.
  induction 1 as [|s rest Hs Hrest IH]; intros a Ha; [cbn in Ha; lia|].
  rewrite total_cons in Ha.
  destruct (Z_lt_ge_dec a s) as [Hlt|Hge].
  - exists O. cbn. lia.
  - destruct (IH (a - s) ltac:(lia)) as (i & Hi & Hin).
    exists (Datatypes.S i). rewrite firstn_cons, total_cons. cbn [length nth].
    split; lia.
Qed.

Lemma nth_carve_view (base : ptr) sizes i : (i < length sizes)%nat ->
  nth i (map (padd base) (carve 0 sizes)) base = base +! total (firstn i sizes).
Proof.
  intros Hi.
  rewrite (nth_indep _ base (base +! 0)) by (now rewrite length_map, carve_length).
  rewrite map_nth, carve_nth by assumption. reflexivity.
Qed.

Lemma carve_tiles (base : ptr) sizes :
  Forall (fun s => 0 <= s) sizes ->
  tiles base (total sizes) (map (padd base) (carve 0 sizes)) sizes /\
  offsets_by_order base (map (padd base) (carve 0 sizes)) sizes.
Proof.
  intros Hpos.
  assert (Hlen : length (map (padd base) (carve 0 sizes)) = length sizes)
    by now rewrite length_map, carve_length.
  split; [split; [exact Hlen | split] |].
  - intros i j q Hij [[_ Hi] [_ Hj]]. rewrite Hlen in Hij.
    rewrite nth_carve_view in Hi, Hj by lia. cbn [padd snd] in Hi, Hj.
    pose proof (carve_consecutive sizes i j Hpos ltac:(lia) ltac:(lia)). lia.
  - intros q. unfold in_view. split.
    + intros [Hb Hq].
      destruct (carve_covers sizes Hpos (snd q - snd base) ltac:(lia)) as (i & Hi & Hin).
      exists i. rewrite Hlen, nth_carve_view by assumption. cbn [padd fst snd].
      repeat split; try assumption; lia.
    + intros (i & Hi & Hb & Hq). rewrite Hlen in Hi.
      rewrite nth_carve_view in Hb, Hq by assumption. cbn [padd fst snd] in Hb, Hq.
      split; [assumption|].
      pose proof (total_firstn_le sizes Hpos i).
      pose proof (total_firstn_le sizes Hpos (Datatypes.S i)).
      rewrite total_firstn_succ in * by assumption. lia.
  - intros i Hi. rewrite Hlen in Hi. now apply nth_carve_view.
Qed.

Lemma parameter_ptrs_carve base sizes :
  length sizes = NUM_PARAMETER_TENSORS ->
  parameter_ptrs (malloc_and_point_parameters base sizes)
  = map (padd base) (carve 0 sizes).
Proof.
  unfold NUM_PARAMETER_TENSORS. intros Hlen.
  do 17 (destruct sizes as [|? sizes]; try discriminate Hlen).
  reflexivity.
Qed.

Lemma activation_ptrs_carve base sizes :
  length sizes = NUM_ACTIVATION_TENSORS ->
  activation_ptrs (malloc_and_point_activations base sizes)
  = map (padd base) (carve 0 sizes).
Proof.
  unfold NUM_ACTIVATION_TENSORS. intros Hlen.
  do 24 (destruct sizes as [|? sizes]; try discriminate Hlen).
  reflexivity.
Qed.

Lemma parameter_sizes_range config :
  Forall (fun s => 0 <= s) (fill_in_parameter_sizes config).
Proof.
  unfold fill_in_parameter_sizes, size_mul.
  repeat (apply Forall_cons; [apply to_size_t_range|]). apply Forall_nil.
Qed.

Lemma activation_sizes_range config B T :
  Forall (fun s => 0 <= s) (fill_in_activation_sizes config B T).
Proof.
  unfold fill_in_activation_sizes, size_mul.
  repeat (apply Forall_cons; [apply to_size_t_range|]). apply Forall_nil.
Qed.

(** Without wrap-around the allocator counts and allocates the sum. *)
Lemma count_exact sizes :
  Forall (fun s => 0 <= s) sizes -> 4 * total sizes < SIZE_MAX1 ->
  count_elements sizes = total sizes /\ malloc_floats (total sizes) = total sizes.
Proof.
  intros Hpos Hfit. pose proof (total_nonneg sizes Hpos).
  rewrite count_elements_total, to_size_t_small by lia. split; [reflexivity|].
  unfold malloc_floats, size_mul. rewrite to_size_t_small by lia.
  now rewrite Z.div_mul by discriminate.
Qed.

(** A value that a C [int] holds. *)
Definition is_int (x : Z) : Prop := - 2 ^ 31 <= x < 2 ^ 31.

(** The GPT-2 (124M) checkpoint, and a batch of 4 rows of 64 tokens. *)
Definition gpt2_124M : GPT2Config := mkConfig 1024 50257 50304 12 12 768.

(** Four layers of [2^30] channels: [L * (4 * C) * C] is [2^64]. *)
Definition wrapping_config : GPT2Config := mkConfig 1 1 1 4 1 (2 ^ 30).

(** C6 (as amended): for every config, and every (B, T) whose product is
    an [int], such that the sizes computed by the planner do not wrap
    [size_t] when they are added up and turned into a byte count: the 16
    parameter sizes sum to the length of the parameter buffer, the 16 views
    are pairwise disjoint and hold exactly the elements of the buffer, and
    the offset of each view is the sum of the sizes before it in the fixed
    enumeration order; the same holds of the 23 activation tensors. *)
Theorem layout_tiles_buffers (config : GPT2Config) (B T : Z) (pbase abase : ptr) :
  let psizes := fill_in_parameter_sizes config in
  let asizes := fill_in_activation_sizes config B T in
  let pviews := parameter_ptrs (malloc_and_point_parameters pbase psizes) in
  let aviews := activation_ptrs (malloc_and_point_activations abase asizes) in
  is_int (B * T) ->
  4 * total psizes < SIZE_MAX1 ->
  4 * total asizes < SIZE_MAX1 ->
  (length psizes = NUM_PARAMETER_TENSORS /\
   total psizes = count_elements psizes /\
   malloc_floats (count_elements psizes) = count_elements psizes /\
   tiles pbase (count_elements psizes) pviews psizes /\
   offsets_by_order pbase pviews psizes) /\
  (length asizes = NUM_ACTIVATION_TENSORS /\
   total asizes = count_elements asizes /\
   malloc_floats (count_elements asizes) = count_elements asizes /\
   tiles abase (count_elements asizes) aviews asizes /\
   offsets_by_order abase aviews asizes).
Proof.
  intros psizes asizes pviews aviews _ Hp Ha.
  pose proof (parameter_sizes_range config) as Hpr.
  pose proof (activation_sizes_range config B T) as Har.
  fold psizes in Hpr. fold asizes in Har.
  destruct (count_exact psizes Hpr Hp) as [Hpc Hpm].
  destruct (count_exact asizes Har Ha) as [Hac Ham].
  split.
  - subst pviews. rewrite parameter_ptrs_carve by reflexivity.
    rewrite Hpc. destruct (carve_tiles pbase psizes Hpr) as [Ht Ho].
    split; [reflexivity | split; [reflexivity | split; [exact Hpm | split; assumption]]].
  - subst aviews. rewrite activation_ptrs_carve by reflexivity.
    rewrite Hac. destruct (carve_tiles abase asizes Har) as [Ht Ho].
    split; [reflexivity | split; [reflexivity | split; [exact Ham | split; assumption]]].
Qed.

Lemma layout_tiles_buffers_witness :
  let psizes := fill_in_parameter_sizes gpt2_124M in
  let asizes := fill_in_activation_sizes gpt2_124M 4 64 in
  (length psizes = NUM_PARAMETER_TENSORS /\
   total psizes = count_elements psizes /\
   malloc_floats (count_elements psizes) = count_elements psizes /\
   tiles (params_block, 0) (count_elements psizes)
     (parameter_ptrs (malloc_and_point_parameters (params_block, 0) psizes)) psizes /\
   offsets_by_order (params_block, 0)
     (parameter_ptrs (malloc_and_point_parameters (params_block, 0) psizes)) psizes) /\
  (length asizes = NUM_ACTIVATION_TENSORS /\
   total asizes = count_elements asizes /\
   malloc_floats (count_elements asizes) = count_elements asizes /\
   tiles (acts_block, 0) (count_elements asizes)
     (activation_ptrs (malloc_and_point_activations (acts_block, 0) asizes)) asizes /\
   offsets_by_order (acts_block, 0)
     (activation_ptrs (malloc_and_point_activations (acts_block, 0) asizes)) asizes).
Proof.
  apply (layout_tiles_buffers gpt2_124M 4 64 (params_block, 0) (acts_block, 0)).
  - unfold is_int. lia.
  - vm_compute. reflexivity.
  - vm_compute. reflexivity.
Defined.

(** C6 as stated fails at [wrapping_config]: the sixteen sizes add up to
    more than [2^64] floats while the allocator counts, and allocates,
    60129542144; the view of [qkvw] alone is longer than the buffer, so the
    views do not tile it. *)
Lemma layout_wraps_counterexample :
  let psizes := fill_in_parameter_sizes wrapping_config in
  let pviews := parameter_ptrs (malloc_and_point_parameters (params_block, 0) psizes) in
  total psizes = 18446744133839093760 /\
  count_elements psizes = 60129542144 /\
  malloc_floats (count_elements psizes) = 60129542144 /\
  nth 4 psizes 0 = 13835058055282163712 /\
  ~ tiles (params_block, 0) (count_elements psizes) pviews psizes.
Proof.
  cbv zeta.
  do 4 (split; [vm_compute; reflexivity|]).
  intros (_ & _ & Hcover).
  assert (Hin : in_view (params_block, 0) 60129542144 (params_block, 60129542144)).
  { apply Hcover. exists 4%nat. split; [vm_compute; lia|].
    unfold in_view. vm_compute. repeat split; discriminate. }
  destruct Hin as [_ Hin]. cbn in Hin. lia.
Qed.

(** ** The heap *)

Definition ptr_eq_dec (p q : ptr) : {p = q} + {p <> q}.
Proof. decide equality; [apply Z.eq_dec | apply block_eq_dec]. Defined.

Lemma ptr_eqb_eq p q : ptr_eqb p q = true <-> p = q.
Proof.
  destruct p as [b o], q as [b' o']. unfold ptr_eqb. cbn [fst snd].
  destruct (block_eq_dec b b') as [->|Hne]; cbn [andb].
  - rewrite Z.eqb_eq. split; [intros ->; reflexivity | intros [= ->]; reflexivity].
  - split; [discriminate | intros [= -> _]; contradiction].
Qed.

Lemma ptr_eqb_refl p : ptr_eqb p p = true.
Proof. now apply ptr_eqb_eq. Qed.

Lemma ptr_eqb_neq p q : p <> q -> ptr_eqb p q = false.
Proof.
  intros H. destruct (ptr_eqb p q) eqn:E; [|reflexivity].
  apply ptr_eqb_eq in E. contradiction.
Qed.

Lemma padd_padd p a b : p +! a +! b = p +! (a + b).
Proof. unfold padd. cbn [fst snd]. f_equal. lia. Qed.

Lemma padd_inj p a b : p +! a = p +! b -> a = b.
Proof. unfold padd. intros [= H]. lia. Qed.

Lemma padd_neq p a b : a <> b -> p +! a <> p +! b.
Proof. intros H E. apply padd_inj in E. contradiction. Qed.

(** The buffers of [n] floats at [p] and of [k] floats at [q] share no
    element: what [__restrict] promises of two arguments. *)
Definition disjoint (p : ptr) (n : Z) (q : ptr) (k : Z) : Prop :=
  fst p <> fst q \/ snd p + n <= snd q \/ snd q + k <= snd p.

Lemma disjoint_neq p n q k i j :
  disjoint p n q k -> 0 <= i < n -> 0 <= j < k -> p +! i <> q +! j.
Proof.
  unfold disjoint, padd. intros [H|H] Hi Hj [= Hb Ho]; [contradiction | lia].
Qed.

Lemma disjoint_sym p n q k : disjoint p n q k -> disjoint q k p n.
Proof. unfold disjoint. intuition. Qed.

Section Heap.

Context {F : Type} {ops : FloatOps F}.
Implicit Types (m : mem (F:=F)) (p q : ptr) (v : F).

Lemma load_store_same m p v : load (store m p v) p = v.
Proof. unfold load, store. destruct p as [b o]. cbn [fst snd]. now rewrite ptr_eqb_refl. Qed.

Lemma load_store_other m p q v : q <> p -> load (store m p v) q = load m q.
Proof.
  intros H. unfold load, store. destruct q as [b o]. cbn [fst snd].
  now rewrite ptr_eqb_neq.
Qed.

Lemma load_calloc_same blk m o : load (calloc blk m) (blk, o) = fzero.
Proof. unfold load, calloc. cbn [fst snd]. now destruct (block_eq_dec blk blk). Qed.

Lemma load_calloc_other blk m q : fst q <> blk -> load (calloc blk m) q = load m q.
Proof. intros H. unfold load, calloc. now destruct (block_eq_dec (fst q) blk). Qed.

End Heap.

Ltac solve_neq :=
  first [ apply padd_neq; lia
        | eapply disjoint_neq; [eassumption | lia | lia]
        | eapply disjoint_neq; [apply disjoint_sym; eassumption | lia | lia] ].

Ltac heap_simpl :=
  repeat first [ rewrite load_store_same
               | rewrite load_store_other by solve_neq ].

(** ** The AdamW update *)

Section Update.

Context {F : Type} {ops : FloatOps F}.

(** The values that one round of the loop computes from the gradient [g],
    the moments [m] and [v] and the parameter [x]. *)
Definition adam_m (beta1 m g : F) : F :=
  fadd (fmul beta1 m) (fmul (fsub fone beta1) g).
Definition adam_v (beta2 v g : F) : F :=
  fadd (fmul beta2 v) (fmul (fmul (fsub fone beta2) g) g).
Definition adam_hat (x beta : F) (t : Z) : F :=
  fdiv x (fsub fone (fpow beta (of_int t))).
Definition adam_param (learning_rate eps weight_decay x m_hat v_hat : F) : F :=
  fsub x (fmul learning_rate
            (fadd (fdiv m_hat (fadd (fsqrt v_hat) eps)) (fmul weight_decay x))).

Variables (pm gm mm vm : ptr) (n : Z).
Variables (learning_rate beta1 beta2 eps weight_decay : F) (t : Z).

Hypothesis Hpg : disjoint pm n gm n.
Hypothesis Hpm : disjoint pm n mm n.
Hypothesis Hpv : disjoint pm n vm n.
Hypothesis Hgm : disjoint gm n mm n.
Hypothesis Hgv : disjoint gm n vm n.
Hypothesis Hmv : disjoint mm n vm n.

Let element := gpt2_update_element pm gm mm vm learning_rate beta1 beta2 eps weight_decay t.

(** The addresses that round [i] reads, in order. *)
Definition element_reads (i : Z) : list ptr :=
  [pm +! i; gm +! i; mm +! i; vm +! i]
  ++ (if i =? 0 then [pm +! i] else [])
  ++ [pm +! i]
  ++ (if i =? 0 then [pm +! i] else []).

Lemma element_effect i s :
  0 <= i < n ->
  let h := uheap s in
  let g := load h (gm +! i) in
  let m' := adam_m beta1 (load h (mm +! i)) g in
  let v' := adam_v beta2 (load h (vm +! i)) g in
  let x' := adam_param learning_rate eps weight_decay (load h (pm +! i))
              (adam_hat m' beta1 t) (adam_hat v' beta2 t) in
  uheap (element i s)
  = store (store (store (store h (gm +! i) fzero) (mm +! i) m') (vm +! i) v') (pm +! i) x'
  /\ reads (element i s) = reads s ++ element_reads i.
Proof.
  intros Hi. cbv zeta. subst element.
  unfold gpt2_update_element, element_reads, uload, ustore.
  destruct (i =? 0); cbn [uheap reads fst snd]; heap_simpl;
    (split; [reflexivity | now rewrite <- ?app_assoc]).
Qed.

Lemma count_element_reads i j :
  0 <= i < n -> 0 <= j < n ->
  count_occ ptr_eq_dec (element_reads i) (gm +! j) = if j =? i then 1%nat else 0%nat.
Proof.
  intros Hi Hj. unfold element_reads.
  assert (Hp : pm +! i <> gm +! j) by solve_neq.
  assert (Hm : mm +! i <> gm +! j) by solve_neq.
  assert (Hv : vm +! i <> gm +! j) by solve_neq.
  destruct (Z.eqb_spec j i) as [->|Hne].
  - destruct (i =? 0); cbn [app count_occ];
      repeat match goal with
             | |- context [ptr_eq_dec ?a ?b] => destruct (ptr_eq_dec a b); try contradiction
             end; reflexivity.
  - assert (Hg : gm +! i <> gm +! j) by solve_neq.
    destruct (i =? 0); cbn [app count_occ];
      repeat match goal with
             | |- context [ptr_eq_dec ?a ?b] => destruct (ptr_eq_dec a b); try contradiction
             end; reflexivity.
Qed.

(** The loop of [gpt2_update], from the state [s0]. *)
Lemma update_loop s0 :
  let s' := for_loop 0 n element s0 in
  let h0 := uheap s0 in
  (forall i, 0 <= i < n ->
     let g := load h0 (gm +! i) in
     let m' := adam_m beta1 (load h0 (mm +! i)) g in
     let v' := adam_v beta2 (load h0 (vm +! i)) g in
     load (uheap s') (gm +! i) = fzero /\
     load (uheap s') (mm +! i) = m' /\
     load (uheap s') (vm +! i) = v' /\
     load (uheap s') (pm +! i)
     = adam_param learning_rate eps weight_decay (load h0 (pm +! i))
         (adam_hat m' beta1 t) (adam_hat v' beta2 t)) /\
  (exists new, reads s' = reads s0 ++ new /\
     forall i, 0 <= i < n -> count_occ ptr_eq_dec new (gm +! i) = 1%nat).
Proof.
  cbv zeta.
  destruct (Z_le_gt_dec 0 n) as [Hn|Hn].
  2:{ split; [intros; lia|]. exists []. rewrite for_loop_empty by lia.
      split; [now rewrite app_nil_r | intros; lia]. }
  pose (P := fun k s =>
    (forall i, k <= i < n ->
       load (uheap s) (gm +! i) = load (uheap s0) (gm +! i) /\
       load (uheap s) (mm +! i) = load (uheap s0) (mm +! i) /\
       load (uheap s) (vm +! i) = load (uheap s0) (vm +! i) /\
       load (uheap s) (pm +! i) = load (uheap s0) (pm +! i)) /\
    (forall i, 0 <= i < k ->
       load (uheap s) (gm +! i) = fzero /\
       load (uheap s) (mm +! i)
       = adam_m beta1 (load (uheap s0) (mm +! i)) (load (uheap s0) (gm +! i)) /\
       load (uheap s) (vm +! i)
       = adam_v beta2 (load (uheap s0) (vm +! i)) (load (uheap s0) (gm +! i)) /\
       load (uheap s) (pm +! i)
       = adam_param learning_rate eps weight_decay (load (uheap s0) (pm +! i))
           (adam_hat (adam_m beta1 (load (uheap s0) (mm +! i)) (load (uheap s0) (gm +! i)))
                     beta1 t)
           (adam_hat (adam_v beta2 (load (uheap s0) (vm +! i)) (load (uheap s0) (gm +! i)))
                     beta2 t)) /\
    (exists new, reads s = reads s0 ++ new /\
       forall i, 0 <= i < n ->
         count_occ ptr_eq_dec new (gm +! i) = if i <? k then 1%nat else 0%nat)).
  assert (H : P n (for_loop 0 n element s0)).
  { apply for_loop_invariant; [assumption | |].
    - repeat split; try (intros; lia).
      exists []. split; [now rewrite app_nil_r|].
      intros i Hi. destruct (Z.ltb_spec i 0); [lia | reflexivity].
    - intros k s Hk (Hrest & Hdone & new & Hreads & Hcount).
      destruct (element_effect k s Hk) as [Hheap Hr].
      destruct (Hrest k ltac:(lia)) as (Eg & Em & Ev & Ep).
      rewrite Eg, Em, Ev, Ep in Hheap.
      split; [|split].
      + intros i Hi. rewrite Hheap. heap_simpl. apply Hrest. lia.
      + intros i Hi. rewrite Hheap.
        destruct (Z.eq_dec i k) as [->|Hne].
        * heap_simpl. repeat split; reflexivity.
        * heap_simpl. apply Hdone. lia.
      + exists (new ++ element_reads k). split.
        * rewrite Hr, Hreads. now rewrite app_assoc.
        * intros i Hi. rewrite count_occ_app, Hcount, count_element_reads by lia.
          destruct (Z.ltb_spec i k), (Z.eqb_spec i k), (Z.ltb_spec i (k + 1));
            try lia; reflexivity. }
  destruct H as (_ & Hdone & new & Hreads & Hcount).
  split; [exact Hdone|].
  exists new. split; [assumption|].
  intros i Hi. rewrite Hcount by assumption.
  destruct (Z.ltb_spec i n); [reflexivity | lia].
Qed.

End Update.

(** The moment buffers that [gpt2_update] works on: those of
    [const_model], or the two that it allocates. *)
Definition adam_buffers {F : Type} (const_model : GPT2Const (F:=F)) : ptr * ptr :=
  match adam_memory const_model with
  | None => ((m_block, 0), (v_block, 0))
  | Some mv => mv
  end.

(** The four buffers of [n] floats of an update are pairwise disjoint. *)
Definition buffers_separate (pm gm mm vm : ptr) (n : Z) : Prop :=
  disjoint pm n gm n /\ disjoint pm n mm n /\ disjoint pm n vm n /\
  disjoint gm n mm n /\ disjoint gm n vm n /\ disjoint mm n vm n.

(** The heap on which the loop of [gpt2_update] starts. *)
Definition update_entry {F : Type} {ops : FloatOps F}
  (const_model : GPT2Const (F:=F)) (s : ustate) : ustate :=
  match adam_memory const_model with
  | None => mkUstate (calloc v_block (calloc m_block (uheap s))) (reads s)
  | Some _ => s
  end.

Lemma gpt2_update_loop {F : Type} {ops : FloatOps F}
  model shadow_model (const_model : GPT2Const (F:=F))
  learning_rate beta1 beta2 eps weight_decay t s :
  snd (gpt2_update model shadow_model const_model
         learning_rate beta1 beta2 eps weight_decay t s)
  = for_loop 0 (num_parameters const_model)
      (gpt2_update_element (params_memory model) (params_memory shadow_model)
         (fst (adam_buffers const_model)) (snd (adam_buffers const_model))
         learning_rate beta1 beta2 eps weight_decay t)
      (update_entry const_model s).
Proof.
  unfold gpt2_update, adam_buffers, update_entry.
  destruct (adam_memory const_model) as [[mp vp]|]; reflexivity.
Qed.

(** C7: after a call of [gpt2_update] on pairwise disjoint buffers every
    element of the gradient buffer, the parameter buffer of the shadow
    model, is 0, and the call has read each of them exactly once. *)
Theorem gpt2_update_clears_gradients {F : Type} {ops : FloatOps F}
  (model shadow_model : GPT2) (const_model : GPT2Const (F:=F))
  (learning_rate beta1 beta2 eps weight_decay : F) (t : Z) (s : ustate) :
  let n := num_parameters const_model in
  let grads := params_memory shadow_model in
  let s' := snd (gpt2_update model shadow_model const_model
                   learning_rate beta1 beta2 eps weight_decay t s) in
  buffers_separate (params_memory model) grads
    (fst (adam_buffers const_model)) (snd (adam_buffers const_model)) n ->
  (forall i, 0 <= i < n -> load (uheap s') (grads +! i) = fzero) /\
  (exists new, reads s' = reads s ++ new /\
     forall i, 0 <= i < n -> count_occ ptr_eq_dec new (grads +! i) = 1%nat).
Proof.
  intros n grads s' (Hpg & Hpm & Hpv & Hgm & Hgv & Hmv).
  subst s' n grads. rewrite gpt2_update_loop.
  destruct (update_loop _ _ _ _ _ learning_rate beta1 beta2 eps weight_decay t
              Hpg Hpm Hpv Hgm Hgv Hmv (update_entry const_model s)) as [Hval Hreads].
  split.
  - intros i Hi. apply (Hval i Hi).
  - destruct Hreads as (new & Hr & Hc). exists new. split; [|exact Hc].
    rewrite Hr. unfold update_entry. now destruct (adam_memory const_model).
Qed.

(** The small configuration of the design document: 2 layers, 2 heads,
    8 channels, a vocabulary of 16 (padded: 16), sequences of at most 8;
    a model and its shadow for batches of 2 rows of 4 tokens. *)
Definition tiny_config : GPT2Config := mkConfig 8 16 16 2 2 8.

Definition tiny_gpt2 (params_blk acts_blk : block) : GPT2 :=
  let psizes := fill_in_parameter_sizes tiny_config in
  let asizes := fill_in_activation_sizes tiny_config 2 4 in
  mkGPT2 (malloc_and_point_parameters (params_blk, 0) psizes) psizes (params_blk, 0)
         asizes (malloc_and_point_activations (acts_blk, 0) asizes) (acts_blk, 0).

Definition tiny_model : GPT2 := tiny_gpt2 params_block acts_block.
Definition tiny_shadow_model : GPT2 := tiny_gpt2 grads_block shadow_acts_block.

(** [const_model] after [gpt2_build_from_checkpoint]: no moment buffers,
    no loss. *)
Definition tiny_const {F : Type} {ops : FloatOps F} : GPT2Const (F:=F) :=
  mkGPT2Const tiny_config None (fneg fone)
    (count_elements (fill_in_parameter_sizes tiny_config)).

Lemma tiny_buffers_separate {F : Type} {ops : FloatOps F} :
  buffers_separate (params_memory tiny_model) (params_memory tiny_shadow_model)
    (fst (adam_buffers (tiny_const (F:=F)))) (snd (adam_buffers (tiny_const (F:=F))))
    (num_parameters (tiny_const (F:=F))).
Proof. repeat split; left; discriminate. Qed.

Lemma gpt2_update_clears_gradients_witness :
  let s := mkUstate (fun _ _ => 1%R) [] in
  let grads := params_memory tiny_shadow_model in
  let s' := snd (gpt2_update tiny_model tiny_shadow_model tiny_const
                   1e-4%R 0.9%R 0.999%R 1e-8%R 0%R 1 s) in
  (forall i, 0 <= i < num_parameters (tiny_const (F:=R)) ->
     load (uheap s') (grads +! i) = 0%R) /\
  (exists new, reads s' = reads s ++ new /\
     forall i, 0 <= i < num_parameters (tiny_const (F:=R)) ->
       count_occ ptr_eq_dec new (grads +! i) = 1%nat).
Proof.
  exact (gpt2_update_clears_gradients tiny_model tiny_shadow_model tiny_const
           1e-4%R 0.9%R 0.999%R 1e-8%R 0%R 1 (mkUstate (fun _ _ => 1%R) [])
           tiny_buffers_separate).
Defined.

(** ** The AdamW rule *)

Section Moments.

Context {F : Type} {ops : FloatOps F}.

(** The moment of an element before the update: 0.0f when the update is
    the one that allocates the moment buffers with [calloc]. *)
Definition moment_before (const_model : GPT2Const (F:=F)) (s : ustate) (p : ptr) : F :=
  match adam_memory const_model with
  | None => fzero
  | Some _ => load (uheap s) p
  end.

(** The blocks that [calloc] returns are new: no other buffer lies in them. *)
Definition moments_fresh (const_model : GPT2Const (F:=F)) (pm gm : ptr) : Prop :=
  adam_memory const_model = None ->
  fst pm <> m_block /\ fst pm <> v_block /\ fst gm <> m_block /\ fst gm <> v_block.

Lemma entry_load_outside (const_model : GPT2Const (F:=F)) s p :
  (adam_memory const_model = None -> fst p <> m_block /\ fst p <> v_block) ->
  load (uheap (update_entry const_model s)) p = load (uheap s) p.
Proof.
  unfold update_entry. destruct (adam_memory const_model); [reflexivity|].
  intros H. destruct (H eq_refl). cbn [uheap].
  now rewrite !load_calloc_other.
Qed.

Lemma entry_load_moment (const_model : GPT2Const (F:=F)) s i :
  load (uheap (update_entry const_model s)) (fst (adam_buffers const_model) +! i)
  = moment_before const_model s (fst (adam_buffers const_model) +! i) /\
  load (uheap (update_entry const_model s)) (snd (adam_buffers const_model) +! i)
  = moment_before const_model s (snd (adam_buffers const_model) +! i).
Proof.
  unfold update_entry, moment_before, adam_buffers.
  destruct (adam_memory const_model); [split; reflexivity|].
  unfold padd. cbn [uheap fst snd]. split.
  - rewrite load_calloc_other by discriminate. exact (load_calloc_same m_block _ _).
  - exact (load_calloc_same v_block _ _).
Qed.

(** What a call leaves in the three buffers, for every element. *)
Lemma gpt2_update_values model shadow_model (const_model : GPT2Const (F:=F))
  learning_rate beta1 beta2 eps weight_decay t (s : ustate (F:=F)) i :
  let n := num_parameters const_model in
  let pm := params_memory model in
  let gm := params_memory shadow_model in
  let mm := fst (adam_buffers const_model) in
  let vm := snd (adam_buffers const_model) in
  let r := gpt2_update model shadow_model const_model
             learning_rate beta1 beta2 eps weight_decay t s in
  buffers_separate pm gm mm vm n ->
  moments_fresh const_model pm gm ->
  0 <= i < n ->
  let g := load (uheap s) (gm +! i) in
  let x := load (uheap s) (pm +! i) in
  let m' := adam_m beta1 (moment_before const_model s (mm +! i)) g in
  let v' := adam_v beta2 (moment_before const_model s (vm +! i)) g in
  load (uheap (snd r)) (mm +! i) = m' /\
  load (uheap (snd r)) (vm +! i) = v' /\
  load (uheap (snd r)) (pm +! i)
  = adam_param learning_rate eps weight_decay x
      (adam_hat m' beta1 t) (adam_hat v' beta2 t).
Proof.
  intros n pm gm mm vm r (Hpg & Hpm & Hpv & Hgm & Hgv & Hmv) Hfresh Hi. cbv zeta.
  subst r n pm gm mm vm. rewrite gpt2_update_loop.
  destruct (update_loop _ _ _ _ _ learning_rate beta1 beta2 eps weight_decay t
              Hpg Hpm Hpv Hgm Hgv Hmv (update_entry const_model s)) as [Hval _].
  destruct (Hval i Hi) as (_ & Em & Ev & Ep). clear Hval.
  destruct (entry_load_moment const_model s i) as [Em0 Ev0].
  rewrite Em0, Ev0 in *.
  rewrite !entry_load_outside in * by (intros E; destruct (Hfresh E); tauto).
  now rewrite Em, Ev, Ep.
Qed.

End Moments.


(** ** Rounding *)

Open Scope R_scope.

(** A real in the range where a float operation rounds with a relative
    error of at most the unit roundoff: 0, or of a magnitude between 1e-30
    and 1e30 (well inside the normal range of binary32). *)
Lemma Rabs_bound (x y : R) : Rabs x <= y -> - y <= x <= y.
Proof. unfold Rabs. destruct (Rcase_abs x); lra. Qed.

Definition in_range (r : R) : Prop := r = 0 \/ 1e-30 <= Rabs r <= 1e30.

(** The laws of a rounded arithmetic on its finite values [fin], with the
    real value [val] of a float and the unit roundoff [u]: each operation
    whose exact result is in range returns it with a relative error of at
    most [u].  IEEE 754 binary32 with rounding to nearest has them for
    u = 2^-24; [powf(x, 1.0f)] is [x]. *)
Record rounding_laws {F : Type} {ops : FloatOps F}
  (fin : F -> Prop) (val : F -> R) (u : R) : Prop := {
  rl_zero : fin fzero /\ val fzero = 0;
  rl_one : fin fone /\ val fone = 1;
  rl_of_int_one : of_int 1 = fone;
  rl_dec : forall m e, in_range (Rdec m e) ->
    fin (fdec m e) /\ Rabs (val (fdec m e) - Rdec m e) <= u * Rabs (Rdec m e);
  rl_add : forall a b, fin a -> fin b -> in_range (val a + val b) ->
    fin (fadd a b) /\ Rabs (val (fadd a b) - (val a + val b)) <= u * Rabs (val a + val b);
  rl_sub : forall a b, fin a -> fin b -> in_range (val a - val b) ->
    fin (fsub a b) /\ Rabs (val (fsub a b) - (val a - val b)) <= u * Rabs (val a - val b);
  rl_mul : forall a b, fin a -> fin b -> in_range (val a * val b) ->
    fin (fmul a b) /\ Rabs (val (fmul a b) - val a * val b) <= u * Rabs (val a * val b);
  rl_div : forall a b, fin a -> fin b -> val b <> 0 -> in_range (val a / val b) ->
    fin (fdiv a b) /\ Rabs (val (fdiv a b) - val a / val b) <= u * Rabs (val a / val b);
  rl_sqrt : forall a, fin a -> 0 <= val a -> in_range (sqrt (val a)) ->
    fin (fsqrt a) /\ Rabs (val (fsqrt a) - sqrt (val a)) <= u * Rabs (sqrt (val a));
  rl_pow_one : forall a, fin a -> fpow a fone = a
}.

Lemma two_factors_wide (lo hi c p z : R) :
  0 <= lo -> lo <= p <= hi -> 0 <= c <= 1 -> 1 - c <= z <= 1 + c ->
  lo * (1 - c) <= p * z <= hi * (1 + c).
Proof. intros Hlo Hp Hc Hz. split; nra. Qed.

Lemma two_factors (a b x y : R) :
  0 <= a <= 1 -> 0 <= b <= 1 -> 1 - a <= x <= 1 + a -> 1 - b <= y <= 1 + b ->
  (1 - a) * (1 - b) <= x * y <= (1 + a) * (1 + b).
Proof. intros Ha Hb Hx Hy. split; nra. Qed.

Lemma three_factors (a b c k x y z : R) :
  0 <= a <= 1e-3 -> 0 <= b <= 1e-3 -> 0 <= c <= 1e-3 ->
  (1 + a) * (1 + b) * (1 + c) <= 1 + k ->
  - a <= x <= a -> - b <= y <= b -> - c <= z <= c ->
  - k <= (1 + x) * (1 + y) * (1 + z) - 1 <= k.
Proof.
  intros Ha Hb Hc Hk Hx Hy Hz.
  pose proof (two_factors a b (1 + x) (1 + y)
                ltac:(lra) ltac:(lra) ltac:(lra) ltac:(lra)) as H1.
  assert (H0 : 0 <= (1 - a) * (1 - b)) by nra.
  pose proof (two_factors_wide ((1 - a) * (1 - b)) ((1 + a) * (1 + b)) c
                ((1 + x) * (1 + y)) (1 + z) H0 H1 ltac:(lra) ltac:(lra)) as H2.
  assert (H3 : 2 - (1 + a) * (1 + b) * (1 + c) <= (1 - a) * (1 - b) * (1 - c)).
  { assert (0 <= a * b) by nra. assert (0 <= a * b * c) by nra.
    assert (0 <= a * c) by nra. assert (0 <= b * c) by nra. nra. }
  lra.
Qed.

Section Rounding.

Context {F : Type} {ops : FloatOps F}.
Variables (fin : F -> Prop) (val : F -> R) (u : R).
Hypothesis laws : rounding_laws fin val u.
Hypothesis Hu : 0 <= u <= 6e-8.

(** [x] is finite and its value is [r] up to the relative error [k]. *)
Definition near (x : F) (r k : R) : Prop :=
  fin x /\ exists e, val x = r * (1 + e) /\ Rabs e <= k.

Lemma relative_error v r :
  Rabs (v - r) <= u * Rabs r -> exists e, v = r * (1 + e) /\ Rabs e <= u.
Proof.
  intros H. destruct (Req_dec r 0) as [->|Hr].
  - rewrite Rabs_R0, Rmult_0_r in H. exists 0. split.
    + pose proof (Rabs_pos (v - 0)). assert (Rabs (v - 0) = 0) by lra.
      destruct (Req_dec (v - 0) 0) as [E|E]; [lra|].
      apply Rabs_no_R0 in E. contradiction.
    + rewrite Rabs_R0. lra.
  - exists ((v - r) / r). split; [field; assumption|].
    unfold Rdiv. rewrite Rabs_mult, Rabs_inv.
    assert (Hp : 0 < Rabs r) by now apply Rabs_pos_lt.
    apply Rmult_le_reg_r with (Rabs r); [assumption|].
    rewrite Rmult_assoc, Rinv_l by lra. lra.
Qed.

Lemma in_range_pos r : 1e-30 <= r <= 1e30 -> in_range r.
Proof. intros H. right. rewrite Rabs_pos_eq; lra. Qed.

Lemma near_bounds x r k : near x r k -> 0 <= r -> r * (1 - k) <= val x <= r * (1 + k).
Proof.
  intros [_ (e & -> & He)] Hr. apply Rabs_bound in He. split; nra.
Qed.

Lemma near_crude x r k : near x r k -> 1e-9 <= r <= 2 -> 0 <= k <= 1e-3 ->
  9e-10 <= val x <= 3.
Proof.
  intros H Hr Hk. pose proof (near_bounds x r k H ltac:(lra)) as B.
  assert (r * k <= 2e-3) by nra. assert (0 <= r * k) by nra.
  assert (r * k <= r * 1e-3) by nra. lra.
Qed.

Lemma product_range x y : 9e-10 <= x <= 3 -> 9e-10 <= y <= 3 ->
  1e-30 <= x * y <= 1e30.
Proof. intros Hx Hy. split; nra. Qed.

Lemma near_weaken x r k k' : near x r k -> k <= k' -> near x r k'.
Proof. intros [Hf (e & E & He)] Hk. split; [assumption|]. exists e. split; [assumption | lra]. Qed.

(** A literal. *)
Lemma near_dec m e r : Rdec m e = r -> 1e-30 <= r <= 1e30 -> near (fdec m e) r u.
Proof.
  intros <- Hr. destruct (rl_dec fin val u laws m e (in_range_pos _ Hr)) as [Hf Hb].
  split; [assumption|]. now apply relative_error.
Qed.

Lemma near_mul a b ra rb ka kb k :
  near a ra ka -> near b rb kb ->
  1e-9 <= ra <= 2 -> 1e-9 <= rb <= 2 -> 0 <= ka <= 1e-3 -> 0 <= kb <= 1e-3 ->
  (1 + ka) * (1 + kb) * (1 + 6e-8) <= 1 + k ->
  near (fmul a b) (ra * rb) k.
Proof.
  intros Ha Hb Hra Hrb Hka Hkb Hk.
  pose proof (near_crude a ra ka Ha Hra Hka) as Ca.
  pose proof (near_crude b rb kb Hb Hrb Hkb) as Cb.
  destruct Ha as [Fa (ea & Ea & Hea)], Hb as [Fb (eb & Eb & Heb)].
  assert (Hr : in_range (val a * val b)).
  { apply in_range_pos. now apply product_range. }
  destruct (rl_mul fin val u laws a b Fa Fb Hr) as [Hf Hbound].
  split; [assumption|].
  destruct (relative_error _ _ Hbound) as (d & Ed & Hd).
  exists ((1 + ea) * (1 + eb) * (1 + d) - 1). split.
  - rewrite Ed, Ea, Eb. ring.
  - apply Rabs_bound in Hea, Heb, Hd. apply Rabs_le.
    apply (three_factors ka kb 6e-8); lra.
Qed.

Lemma near_div a b ra rb ka kb k :
  near a ra ka -> near b rb kb ->
  1e-9 <= ra <= 2 -> 1e-9 <= rb <= 2 -> 0 <= ka <= 1e-3 -> 0 <= kb <= 1e-3 ->
  (1 + ka) * (1 + 6e-8) <= (1 + k) * (1 - kb) ->
  (1 - k) * (1 + kb) <= (1 - ka) * (1 - 6e-8) ->
  near (fdiv a b) (ra / rb) k.
Proof.
  intros Ha Hb Hra Hrb Hka Hkb Hk1 Hk2.
  pose proof (near_crude a ra ka Ha Hra Hka) as Ca.
  pose proof (near_crude b rb kb Hb Hrb Hkb) as Cb.
  destruct Ha as [Fa (ea & Ea & Hea)], Hb as [Fb (eb & Eb & Heb)].
  assert (Hqb : / 3 <= / val b <= / 9e-10).
  { split; apply Rinv_le_contravar; lra. }
  assert (Hr : in_range (val a / val b)).
  { apply in_range_pos. unfold Rdiv.
    assert (9e-10 * / 3 <= val a * / val b) by (apply Rmult_le_compat; lra).
    assert (val a * / val b <= 3 * / 9e-10) by (apply Rmult_le_compat; lra).
    lra. }
  destruct (rl_div fin val u laws a b Fa Fb ltac:(lra) Hr) as [Hf Hbound].
  split; [assumption|].
  destruct (relative_error _ _ Hbound) as (d & Ed & Hd).
  apply Rabs_bound in Hea, Heb, Hd.
  assert (Heb1 : 0 < 1 + eb) by lra.
  exists ((1 + ea) * (1 + d) / (1 + eb) - 1). split.
  - rewrite Ed, Ea, Eb. field. split; lra.
  - apply Rabs_le.
    pose proof (two_factors ka 6e-8 (1 + ea) (1 + d)
                  ltac:(lra) ltac:(lra) ltac:(lra) ltac:(lra)) as H5.
    set (p := (1 + ea) * (1 + d)) in *.
    set (q := p / (1 + eb)).
    assert (Eq : q * (1 + eb) = p) by (unfold q; field; lra).
    assert (Hp0 : 0 <= p) by nra.
    assert (Hqpos : 0 <= q).
    { unfold q, Rdiv. apply Rmult_le_pos; [assumption|].
      left. now apply Rinv_0_lt_compat. }
    assert (Hq1 : q * (1 - kb) <= p) by nra.
    assert (Hq2 : p <= q * (1 + kb)) by nra.
    assert (Hk0 : 0 <= 1 - kb) by lra.
    split.
    + assert ((1 - k) * (1 + kb) <= q * (1 + kb)) by lra.
      assert (1 - k <= q) by nra. lra.
    + assert (q * (1 - kb) <= (1 + k) * (1 - kb)) by lra.
      assert (q <= 1 + k) by nra. lra.
Qed.

Lemma near_sqrt a r ka k :
  near a (r * r) ka -> 1e-9 <= r <= 2 -> 0 <= ka <= 1e-3 ->
  (1 + ka) * (1 + 6e-8) <= 1 + k ->
  near (fsqrt a) r k.
Proof.
  intros Ha Hr Hka Hk.
  destruct Ha as [Fa (ea & Ea & Hea)].
  apply Rabs_bound in Hea.
  assert (H0 : 0 <= 1 + ea) by lra.
  assert (Hs : sqrt (val a) = r * sqrt (1 + ea)).
  { rewrite Ea. rewrite sqrt_mult by nra. rewrite sqrt_square by lra. reflexivity. }
  assert (Hs1 : 1 - ka <= sqrt (1 + ea) <= 1 + ka).
  { pose proof (sqrt_pos (1 + ea)) as Hp.
    pose proof (sqrt_sqrt (1 + ea) H0) as Hsq.
    split; nra. }
  assert (Hva : 0 <= val a) by (rewrite Ea; apply Rmult_le_pos; nra).
  assert (Hsr : 9e-10 <= sqrt (val a) <= 3).
  { rewrite Hs. assert (0 <= r * ka <= 2e-3) by nra.
    assert (r * (1 - ka) <= r * sqrt (1 + ea) <= r * (1 + ka)) by nra.
    assert (r * ka <= r * 1e-3) by nra. lra. }
  assert (Hrange : in_range (sqrt (val a))) by (apply in_range_pos; lra).
  destruct (rl_sqrt fin val u laws a Fa Hva Hrange) as [Hf Hbound].
  split; [assumption|].
  destruct (relative_error _ _ Hbound) as (d & Ed & Hd).
  apply Rabs_bound in Hd.
  exists (sqrt (1 + ea) * (1 + d) - 1). split.
  - rewrite Ed, Hs. ring.
  - apply Rabs_le.
    pose proof (two_factors ka 6e-8 (sqrt (1 + ea)) (1 + d)
                  ltac:(lra) ltac:(lra) ltac:(lra) ltac:(lra)) as H5.
    assert (2 - (1 + ka) * (1 + 6e-8) <= (1 - ka) * (1 - 6e-8)) by nra.
    lra.
Qed.

(** A rounded result whose exact value is [r * (1 + s)]. *)
Lemma near_rounded v r s k :
  0 <= k <= 1e-3 -> - k <= s <= k ->
  Rabs (v - r * (1 + s)) <= u * Rabs (r * (1 + s)) ->
  exists e, v = r * (1 + e) /\ Rabs e <= k + 7e-8.
Proof.
  intros Hk Hs Hbound.
  destruct (relative_error _ _ Hbound) as (d & Ed & Hd).
  apply Rabs_bound in Hd.
  exists ((1 + s) * (1 + d) - 1). split.
  - rewrite Ed. ring.
  - apply Rabs_le.
    pose proof (two_factors k 6e-8 (1 + s) (1 + d)
                  ltac:(lra) ltac:(lra) ltac:(lra) ltac:(lra)) as H5.
    assert (k * 6e-8 <= 1e-3 * 6e-8) by nra. assert (0 <= k * 6e-8) by nra.
    lra.
Qed.

(** A sum of two positive numbers. *)
Lemma near_add a b ra rb ka kb k :
  near a ra ka -> near b rb kb ->
  1e-9 <= ra <= 2 -> 1e-9 <= rb <= 2 -> 0 <= ka <= k -> 0 <= kb <= k -> k <= 1e-3 ->
  near (fadd a b) (ra + rb) (k + 7e-8).
Proof.
  intros Ha Hb Hra Hrb Hka Hkb Hk.
  pose proof (near_crude a ra ka Ha Hra ltac:(lra)) as Ca.
  pose proof (near_crude b rb kb Hb Hrb ltac:(lra)) as Cb.
  destruct Ha as [Fa (ea & Ea & Hea)], Hb as [Fb (eb & Eb & Heb)].
  assert (Hr : in_range (val a + val b)) by (apply in_range_pos; lra).
  destruct (rl_add fin val u laws a b Fa Fb Hr) as [Hf Hbound].
  split; [assumption|].
  apply Rabs_bound in Hea, Heb.
  set (s := (ra * ea + rb * eb) / (ra + rb)).
  assert (Es : s * (ra + rb) = ra * ea + rb * eb) by (unfold s; field; lra).
  assert (Hs : - k <= s <= k).
  { assert (- (ra * k) <= ra * ea <= ra * k) by nra.
    assert (- (rb * k) <= rb * eb <= rb * k) by nra.
    split; nra. }
  apply near_rounded with s; [lra | assumption |].
  replace ((ra + rb) * (1 + s)) with (val a + val b); [assumption|].
  rewrite Ea, Eb. unfold s. field. lra.
Qed.

(** Zero added to a number, on either side. *)
Lemma near_add_zero_l a b rb kb :
  fin a -> val a = 0 -> near b rb kb -> 1e-9 <= rb <= 2 -> 0 <= kb <= 1e-3 ->
  near (fadd a b) rb (kb + 7e-8).
Proof.
  intros Fa Va Hb Hrb Hkb.
  pose proof (near_crude b rb kb Hb Hrb Hkb) as Cb.
  destruct Hb as [Fb (eb & Eb & Heb)].
  assert (Hr : in_range (val a + val b)) by (apply in_range_pos; lra).
  destruct (rl_add fin val u laws a b Fa Fb Hr) as [Hf Hbound].
  split; [assumption|].
  apply Rabs_bound in Heb.
  apply near_rounded with eb; [lra | assumption |].
  replace (rb * (1 + eb)) with (val a + val b) by lra. assumption.
Qed.

Lemma near_add_zero_r a b ra ka :
  fin b -> val b = 0 -> near a ra ka -> 1e-9 <= ra <= 2 -> 0 <= ka <= 1e-3 ->
  near (fadd a b) ra (ka + 7e-8).
Proof.
  intros Fb Vb Ha Hra Hka.
  pose proof (near_crude a ra ka Ha Hra Hka) as Ca.
  destruct Ha as [Fa (ea & Ea & Hea)].
  assert (Hr : in_range (val a + val b)) by (apply in_range_pos; lra).
  destruct (rl_add fin val u laws a b Fa Fb Hr) as [Hf Hbound].
  split; [assumption|].
  apply Rabs_bound in Hea.
  apply near_rounded with ea; [lra | assumption |].
  replace (ra * (1 + ea)) with (val a + val b) by lra. assumption.
Qed.

(** A product with zero. *)
Lemma mul_zero a b : fin a -> fin b -> val a = 0 \/ val b = 0 ->
  fin (fmul a b) /\ val (fmul a b) = 0.
Proof.
  intros Fa Fb Hz.
  assert (E : val a * val b = 0) by (destruct Hz as [-> | ->]; ring).
  destruct (rl_mul fin val u laws a b Fa Fb ltac:(left; exact E)) as [Hf Hb].
  split; [assumption|]. rewrite E, Rabs_R0, Rmult_0_r in Hb.
  pose proof (Rabs_pos (val (fmul a b) - 0)) as Hp.
  destruct (Req_dec (val (fmul a b) - 0) 0) as [E0|E0]; [lra|].
  apply Rabs_no_R0 in E0. lra.
Qed.

(** A difference, with an absolute error. *)
Lemma sub_bounds a b lo hi :
  fin a -> fin b -> 1e-9 <= lo -> hi <= 2 -> lo <= val a - val b <= hi ->
  fin (fsub a b) /\ lo * (1 - 6e-8) <= val (fsub a b) <= hi * (1 + 6e-8).
Proof.
  intros Fa Fb Hlo Hhi Hd.
  assert (Hr : in_range (val a - val b)) by (apply in_range_pos; lra).
  destruct (rl_sub fin val u laws a b Fa Fb Hr) as [Hf Hb].
  split; [assumption|].
  rewrite (Rabs_pos_eq (val a - val b)) in Hb by lra.
  apply Rabs_bound in Hb. split; nra.
Qed.

Lemma near_exact x : fin x -> near x (val x) 0.
Proof.
  intros Hf. split; [assumption|]. exists 0. split; [ring|].
  rewrite Rabs_R0. lra.
Qed.

Lemma near_interval x r k lo hi :
  near x r k -> 0 <= lo -> lo <= r <= hi -> 0 <= k <= 1 ->
  lo * (1 - k) <= val x <= hi * (1 + k).
Proof.
  intros [_ (e & -> & He)] Hlo Hr Hk. apply Rabs_bound in He.
  apply two_factors_wide; lra.
Qed.

Lemma product_interval (x y a1 a2 b1 b2 : R) :
  0 <= a1 -> 0 <= b1 -> a1 <= x <= a2 -> b1 <= y <= b2 ->
  a1 * b1 <= x * y <= a2 * b2.
Proof. intros Ha Hb Hx Hy. split; nra. Qed.

(** The first update of a parameter 1.0 with gradient 0.1, with the
    hyperparameters of the training loop and no weight decay. *)
Lemma adamw_example (x g learning_rate beta1 beta2 eps weight_decay : F) :
  x = fone -> g = fdec 1 (-1) ->
  learning_rate = fdec 1 (-4) -> beta1 = fdec 9 (-1) -> beta2 = fdec 999 (-3) ->
  eps = fdec 1 (-8) -> weight_decay = fzero ->
  let m := adam_m beta1 fzero g in
  let v := adam_v beta2 fzero g in
  let m_hat := adam_hat m beta1 1 in
  let v_hat := adam_hat v beta2 1 in
  let update :=
    fmul learning_rate
      (fadd (fdiv m_hat (fadd (fsqrt v_hat) eps)) (fmul weight_decay x)) in
  Rabs (val m - 0.01) <= 1e-8 /\
  Rabs (val v - 1e-5) <= 1e-9 /\
  Rabs (val m_hat - 0.1) <= 1e-7 /\
  Rabs (val v_hat - 0.01) <= 1e-8 /\
  Rabs (val update - 9.9999e-5) <= 2e-9 /\
  Rabs (val (adam_param learning_rate eps weight_decay x m_hat v_hat) - 0.99990001) <= 1e-7.
Proof.
  intros Ex Eg Elr Eb1 Eb2 Eeps Ewd.
  destruct (rl_zero fin val u laws) as [F0 V0].
  destruct (rl_one fin val u laws) as [F1 V1].
  assert (Hg : near g 0.1 u).
  { rewrite Eg. apply near_dec; [unfold Rdec; simpl; lra | lra]. }
  assert (Hlr : near learning_rate 1e-4 u).
  { rewrite Elr. apply near_dec; [unfold Rdec; simpl; lra | lra]. }
  assert (Hb1 : near beta1 0.9 u).
  { rewrite Eb1. apply near_dec; [unfold Rdec; simpl; lra | lra]. }
  assert (Hb2 : near beta2 0.999 u).
  { rewrite Eb2. apply near_dec; [unfold Rdec; simpl; lra | lra]. }
  assert (Heps : near eps 1e-8 u).
  { rewrite Eeps. apply near_dec; [unfold Rdec; simpl; lra | lra]. }
  pose proof (near_interval _ _ _ 0.1 0.1 Hg ltac:(lra) ltac:(lra) ltac:(lra)) as Bg.
  pose proof (near_interval _ _ _ 1e-4 1e-4 Hlr ltac:(lra) ltac:(lra) ltac:(lra)) as Blr.
  pose proof (near_interval _ _ _ 0.9 0.9 Hb1 ltac:(lra) ltac:(lra) ltac:(lra)) as Bb1.
  pose proof (near_interval _ _ _ 0.999 0.999 Hb2 ltac:(lra) ltac:(lra) ltac:(lra)) as Bb2.
  pose proof (near_interval _ _ _ 1e-8 1e-8 Heps ltac:(lra) ltac:(lra) ltac:(lra)) as Beps.
  destruct Hg as [Fg _], Hlr as [Flr _], Hb1 as [Fb1 _], Hb2 as [Fb2 _], Heps as [Feps _].
  set (G := val g) in *. set (LR := val learning_rate) in *. set (E := val eps) in *.
  (* the two complements *)
  destruct (sub_bounds fone beta1 (0.1 - 5.4e-8) (0.1 + 5.4e-8) F1 Fb1
              ltac:(lra) ltac:(lra) ltac:(nra)) as [Fc1 Bc1].
  destruct (sub_bounds fone beta2 (0.001 - 6e-8) (0.001 + 6e-8) F1 Fb2
              ltac:(lra) ltac:(lra) ltac:(nra)) as [Fc2 Bc2].
  set (c1 := fsub fone beta1) in *. set (c2 := fsub fone beta2) in *.
  set (C1 := val c1) in *. set (C2 := val c2) in *.
  assert (BC1 : 0.1 - 6.1e-8 <= C1 <= 0.1 + 6.1e-8) by lra.
  assert (BC2 : 0.001 - 6.1e-8 <= C2 <= 0.001 + 6.1e-8) by lra.
  assert (BG : 0.1 - 6e-9 <= G <= 0.1 + 6e-9) by nra.
  assert (BLR : 1e-4 - 6e-12 <= LR <= 1e-4 + 6e-12) by nra.
  assert (BE : 1e-8 - 6e-16 <= E <= 1e-8 + 6e-16) by nra.
  clear Bc1 Bc2 Bg Blr Beps Bb1 Bb2.
  assert (P1 : 0 < 0.1 - 6.1e-8) by lra.
  assert (P2 : 0 < 0.001 - 6.1e-8) by lra.
  assert (PG : 0 < 0.1 - 6e-9) by lra.
  assert (PLR : 0 < 1e-4 - 6e-12) by lra.
  assert (PQ : 0 < 0.99999989) by lra.
  assert (BC1G := product_interval C1 G _ _ _ _ (Rlt_le _ _ P1) (Rlt_le _ _ PG) BC1 BG).
  assert (BGG := product_interval G G _ _ _ _ (Rlt_le _ _ PG) (Rlt_le _ _ PG) BG BG).
  assert (BC2G := product_interval C2 G _ _ _ _ (Rlt_le _ _ P2) (Rlt_le _ _ PG) BC2 BG).
  assert (BC2GG := product_interval (C2 * G) G _ _ _ _
                     (Rlt_le _ _ (Rmult_lt_0_compat _ _ P2 PG)) (Rlt_le _ _ PG) BC2G BG).
  (* the first moment *)
  assert (Hp1 : near (fmul c1 g) (C1 * G) 6e-8).
  { apply (near_mul c1 g C1 G 0 0); try lra; now apply near_exact. }
  destruct (mul_zero beta1 fzero Fb1 F0 (or_intror V0)) as [Fz1 Vz1].
  assert (Hm : near (adam_m beta1 fzero g) (C1 * G) 1.3e-7).
  { unfold adam_m. fold c1.
    apply (near_weaken _ _ (6e-8 + 7e-8)); [|lra].
    apply near_add_zero_l; try assumption; lra. }
  (* the second moment *)
  assert (Hp2 : near (fmul c2 g) (C2 * G) 6e-8).
  { apply (near_mul c2 g C2 G 0 0); try lra; now apply near_exact. }
  assert (Hp3 : near (fmul (fmul c2 g) g) (C2 * G * G) 1.3e-7).
  { apply (near_mul _ g (C2 * G) G 6e-8 0); try lra; try assumption.
    now apply near_exact. }
  destruct (mul_zero beta2 fzero Fb2 F0 (or_intror V0)) as [Fz2 Vz2].
  assert (Hv : near (adam_v beta2 fzero g) (C2 * G * G) 2e-7).
  { unfold adam_v. fold c2.
    apply (near_weaken _ _ (1.3e-7 + 7e-8)); [|lra].
    apply near_add_zero_l; try assumption; lra. }
  (* the bias corrections *)
  assert (Ehat : forall y beta, fin beta -> adam_hat y beta 1 = fdiv y (fsub fone beta)).
  { intros y beta Fb. unfold adam_hat.
    now rewrite (rl_of_int_one fin val u laws), (rl_pow_one fin val u laws). }
  assert (Hmh : near (adam_hat (adam_m beta1 fzero g) beta1 1) G 2e-7).
  { rewrite Ehat by assumption. fold c1.
    replace G with (C1 * G / C1) by (field; lra).
    apply (near_div _ c1 (C1 * G) C1 1.3e-7 0); try lra; try assumption.
    now apply near_exact. }
  assert (Hvh : near (adam_hat (adam_v beta2 fzero g) beta2 1) (G * G) 3e-7).
  { rewrite Ehat by assumption. fold c2.
    replace (G * G) with (C2 * G * G / C2) by (field; lra).
    apply (near_div _ c2 (C2 * G * G) C2 2e-7 0); try lra; try assumption.
    now apply near_exact. }
  set (m := adam_m beta1 fzero g) in *. set (v := adam_v beta2 fzero g) in *.
  set (m_hat := adam_hat m beta1 1) in *. set (v_hat := adam_hat v beta2 1) in *.
  (* the step *)
  assert (Hsq : near (fsqrt v_hat) G 4e-7).
  { apply (near_sqrt _ G 3e-7); try lra; assumption. }
  assert (Hden : near (fadd (fsqrt v_hat) eps) (G + E) 4.7e-7).
  { apply (near_weaken _ _ (4e-7 + 7e-8)); [|lra].
    apply (near_add _ eps G E 4e-7 0); try lra; try assumption.
    now apply near_exact. }
  set (Q := G / (G + E)).
  assert (EQ : Q * (G + E) = G) by (unfold Q; field; lra).
  assert (BQ : 0.99999989 <= Q <= 1) by (split; nra).
  assert (Hratio : near (fdiv m_hat (fadd (fsqrt v_hat) eps)) Q 8e-7).
  { apply (near_div _ _ G (G + E) 2e-7 4.7e-7); try lra; assumption. }
  destruct (mul_zero weight_decay x ltac:(rewrite Ewd; exact F0) ltac:(rewrite Ex; exact F1)
              ltac:(left; rewrite Ewd; exact V0)) as [Fz3 Vz3].
  assert (Hsum : near (fadd (fdiv m_hat (fadd (fsqrt v_hat) eps)) (fmul weight_decay x))
                   Q 8.7e-7).
  { apply (near_weaken _ _ (8e-7 + 7e-8)); [|lra].
    apply near_add_zero_r; try assumption; lra. }
  assert (Hupd : near (fmul learning_rate
                         (fadd (fdiv m_hat (fadd (fsqrt v_hat) eps)) (fmul weight_decay x)))
                   (LR * Q) 1e-6).
  { apply (near_mul learning_rate _ LR Q 0 8.7e-7); try lra; try assumption.
    now apply near_exact. }
  set (update := fmul learning_rate _) in *.
  assert (BLRQ := product_interval LR Q _ _ _ _ (Rlt_le _ _ PLR) (Rlt_le _ _ PQ) BLR BQ).
  assert (Bupd := near_interval _ _ _ _ _ Hupd
                    (Rlt_le _ _ (Rmult_lt_0_compat _ _ PLR PQ)) BLRQ ltac:(lra)).
  assert (Bu : 9.9999883e-5 <= val update <= 1.0000011e-4) by lra.
  destruct (sub_bounds x update (1 - 1.0000011e-4) (1 - 9.9999883e-5)
              ltac:(rewrite Ex; exact F1) (proj1 Hupd) ltac:(lra) ltac:(lra)
              ltac:(rewrite Ex, V1; lra)) as [Fnew Bnew].
  assert (Bm := near_interval _ _ _ _ _ Hm
                  (Rlt_le _ _ (Rmult_lt_0_compat _ _ P1 PG)) BC1G ltac:(lra)).
  assert (Bv := near_interval _ _ _ _ _ Hv
                  (Rlt_le _ _ (Rmult_lt_0_compat _ _ (Rmult_lt_0_compat _ _ P2 PG) PG))
                  BC2GG ltac:(lra)).
  assert (Bmh := near_interval _ _ _ _ _ Hmh (Rlt_le _ _ PG) BG ltac:(lra)).
  assert (Bvh := near_interval _ _ _ _ _ Hvh
                   (Rlt_le _ _ (Rmult_lt_0_compat _ _ PG PG)) BGG ltac:(lra)).
  cbv zeta. unfold adam_param. subst update m_hat v_hat.
  repeat split; apply Rabs_le; lra.
Qed.

End Rounding.

Close Scope R_scope.

Open Scope R_scope.

Lemma Rpowf_int (x : R) (t : Z) : Rpowf x (IZR t) = powerRZ x t.
Proof.
  unfold Rpowf.
  assert (Hint : Int_part (IZR t) = t).
  { symmetry. apply Int_part_spec. split; lra. }
  rewrite Hint. destruct (Req_dec_T (IZR t) (IZR t)); [reflexivity | contradiction].
Qed.

Close Scope R_scope.

(** Exact arithmetic has the laws, with no rounding at all. *)
Lemma real_rounding_laws :
  rounding_laws (ops:=RealOps) (fun _ => True) (fun x => x) 0.
Proof.
  assert (H0 : forall r : R, (Rabs (r - r) <= 0 * Rabs r)%R).
  { intros r. replace (r - r)%R with 0%R by ring. rewrite Rabs_R0. lra. }
  constructor; try (intros; split; [exact I | apply H0]).
  - split; [exact I | reflexivity].
  - split; [exact I | reflexivity].
  - reflexivity.
  - intros a _. cbn. change 1%R with (IZR 1). rewrite Rpowf_int. simpl. ring.
Qed.

(** C3: one call of [gpt2_update] with step counter [t] leaves in the
    moment buffers and in the parameter buffer, for every element [i], the
    values of the AdamW rule m' = beta1*m + (1-beta1)*g,
    v' = beta2*v + (1-beta2)*g*g, m_hat = m'/(1-beta1^t),
    v_hat = v'/(1-beta2^t), value' = value - lr*(m_hat/(sqrt(v_hat)+eps)
    + weight_decay*value), each operation being the float operation of the
    code in the order of the code, with m = v = 0 on the call that allocates
    the moments, and the moment buffers stay with [const_model]; and in any
    arithmetic that rounds each operation with a relative error of at most
    6e-8 (binary32 has 2^-24), the first call with weight_decay = 0,
    value = 1.0, grad = 0.1, lr = 1e-4, beta1 = 0.9, beta2 = 0.999,
    eps = 1e-8, t = 1 leaves m within 1e-8 of 0.01 and v within 1e-9 of
    1e-5, has m_hat within 1e-7 of 0.1, v_hat within 1e-8 of 0.01 and an
    update within 2e-9 of 9.9999e-5, and leaves a value within 1e-7 of
    0.99990001. *)
Theorem gpt2_update_adamw {F : Type} {ops : FloatOps F}
  (model shadow_model : GPT2) (const_model : GPT2Const (F:=F))
  (learning_rate beta1 beta2 eps weight_decay : F) (t : Z) (s : ustate) :
  let n := num_parameters const_model in
  let pm := params_memory model in
  let gm := params_memory shadow_model in
  let mm := fst (adam_buffers const_model) in
  let vm := snd (adam_buffers const_model) in
  let r := gpt2_update model shadow_model const_model
             learning_rate beta1 beta2 eps weight_decay t s in
  buffers_separate pm gm mm vm n ->
  moments_fresh const_model pm gm ->
  (adam_memory (fst r) = Some (mm, vm) /\
   forall i, 0 <= i < n ->
     let g := load (uheap s) (gm +! i) in
     let x := load (uheap s) (pm +! i) in
     let m := moment_before const_model s (mm +! i) in
     let v := moment_before const_model s (vm +! i) in
     let m' := fadd (fmul beta1 m) (fmul (fsub fone beta1) g) in
     let v' := fadd (fmul beta2 v) (fmul (fmul (fsub fone beta2) g) g) in
     let m_hat := fdiv m' (fsub fone (fpow beta1 (of_int t))) in
     let v_hat := fdiv v' (fsub fone (fpow beta2 (of_int t))) in
     load (uheap (snd r)) (mm +! i) = m' /\
     load (uheap (snd r)) (vm +! i) = v' /\
     load (uheap (snd r)) (pm +! i)
     = fsub x (fmul learning_rate
                 (fadd (fdiv m_hat (fadd (fsqrt v_hat) eps)) (fmul weight_decay x)))) /\
  (forall (fin : F -> Prop) (val : F -> R) (u : R),
     rounding_laws fin val u -> (0 <= u <= 6e-8)%R ->
     adam_memory const_model = None -> t = 1 ->
     learning_rate = fdec 1 (-4) -> beta1 = fdec 9 (-1) -> beta2 = fdec 999 (-3) ->
     eps = fdec 1 (-8) -> weight_decay = fzero ->
     forall i, 0 <= i < n ->
       load (uheap s) (pm +! i) = fone ->
       load (uheap s) (gm +! i) = fdec 1 (-1) ->
       let m := load (uheap (snd r)) (mm +! i) in
       let v := load (uheap (snd r)) (vm +! i) in
       let m_hat := fdiv m (fsub fone (fpow beta1 (of_int t))) in
       let v_hat := fdiv v (fsub fone (fpow beta2 (of_int t))) in
       let update :=
         fmul learning_rate
           (fadd (fdiv m_hat (fadd (fsqrt v_hat) eps)) (fmul weight_decay fone)) in
       (Rabs (val m - 0.01) <= 1e-8 /\
        Rabs (val v - 1e-5) <= 1e-9 /\
        Rabs (val m_hat - 0.1) <= 1e-7 /\
        Rabs (val v_hat - 0.01) <= 1e-8 /\
        Rabs (val update - 9.9999e-5) <= 2e-9 /\
        Rabs (val (load (uheap (snd r)) (pm +! i)) - 0.99990001) <= 1e-7)%R).
Proof.
  intros n pm gm mm vm r Hsep Hfresh.
  split; [split|].
  - subst r mm vm. unfold gpt2_update, adam_buffers.
    destruct (adam_memory const_model) as [[mp vp]|]; reflexivity.
  - intros i Hi.
    exact (gpt2_update_values model shadow_model const_model
             learning_rate beta1 beta2 eps weight_decay t s i Hsep Hfresh Hi).
  - intros fin val u laws Hu Hnone Ht Elr Eb1 Eb2 Eeps Ewd i Hi Ex Eg.
    destruct (gpt2_update_values model shadow_model const_model
                learning_rate beta1 beta2 eps weight_decay t s i Hsep Hfresh Hi)
      as (Em & Ev & Ep).
    fold r mm vm pm gm in Em, Ev, Ep. cbv zeta.
    rewrite Em, Ev, Ep. unfold moment_before. rewrite Hnone, Ex, Ht.
    exact (adamw_example fin val u laws Hu fone (load (uheap s) (gm +! i))
             learning_rate beta1 beta2 eps weight_decay
             eq_refl Eg Elr Eb1 Eb2 Eeps Ewd).
Qed.

Lemma tiny_moments_fresh {F : Type} {ops : FloatOps F} :
  moments_fresh (tiny_const (F:=F)) (params_memory tiny_model)
    (params_memory tiny_shadow_model).
Proof. intros _. repeat split; discriminate. Qed.

Lemma gpt2_update_adamw_witness :
  let s : ustate (F:=R) :=
    mkUstate (fun b _ => match b with grads_block => fdec 1 (-1) | _ => fone end) [] in
  let r := gpt2_update (ops:=RealOps) tiny_model tiny_shadow_model tiny_const
             (fdec 1 (-4)) (fdec 9 (-1)) (fdec 999 (-3)) (fdec 1 (-8)) fzero 1 s in
  let m := load (uheap (snd r)) (fst (adam_buffers (tiny_const (F:=R))) +! 5) in
  let v := load (uheap (snd r)) (snd (adam_buffers (tiny_const (F:=R))) +! 5) in
  adam_memory (fst r)
  = Some (fst (adam_buffers (tiny_const (F:=R))), snd (adam_buffers (tiny_const (F:=R)))) /\
  (Rabs (m - 0.01) <= 1e-8 /\
   Rabs (v - 1e-5) <= 1e-9 /\
   Rabs (m / (1 - Rpowf (Rdec 9 (-1)) 1) - 0.1) <= 1e-7 /\
   Rabs (v / (1 - Rpowf (Rdec 999 (-3)) 1) - 0.01) <= 1e-8 /\
   Rabs (load (uheap (snd r)) (params_memory tiny_model +! 5) - 0.99990001) <= 1e-7)%R.
Proof.
  intros s r m v.
  destruct (gpt2_update_adamw (ops:=RealOps) tiny_model tiny_shadow_model tiny_const
              (fdec 1 (-4)) (fdec 9 (-1)) (fdec 999 (-3)) (fdec 1 (-8)) fzero 1 s
              tiny_buffers_separate tiny_moments_fresh) as [[Hmem _] Hex].
  split; [exact Hmem|].
  destruct (Hex (fun _ => True) (fun x => x) 0%R real_rounding_laws
              ltac:(lra) eq_refl eq_refl eq_refl eq_refl eq_refl eq_refl eq_refl
              5 ltac:(vm_compute; split; discriminate || reflexivity) eq_refl eq_refl)
    as (H1 & H2 & H3 & H4 & _ & H6).
  repeat split; assumption.
Defined.


(** ** Index arithmetic *)

Lemma radix_inj w q r q' r' :
  0 <= r < w -> 0 <= r' < w -> q * w + r = q' * w + r' -> q = q' /\ r = r'.
Proof.
  intros Hr Hr' E.
  assert (q = q'); [|subst; lia].
  destruct (Z.lt_trichotomy q q') as [H|[H|H]]; [|assumption|]; nia.
Qed.

Lemma radix_bound n w q r :
  0 <= q < n -> 0 <= r < w -> 0 <= q * w + r < n * w.
Proof. intros Hq Hr. nia. Qed.

(** A strided loop is a counted loop over its rounds. *)
Lemma iter_step_iter_from {S : Type} (body : Z -> S -> S) lo step n :
  forall k s,
    iter_step n (lo + k * step) step body s
    = iter_from n k (fun j => body (lo + j * step)) s.
Proof.
  induction n as [|n IH]; intros k s; [reflexivity|].
  cbn [iter_step iter_from].
  replace (lo + k * step + step) with (lo + (k + 1) * step) by lia.
  apply IH.
Qed.

Lemma for_loop_step_rounds {S : Type} (body : Z -> S -> S) lo hi step s :
  for_loop_step lo hi step body s
  = for_loop 0 ((hi - lo + step - 1) / step) (fun j => body (lo + j * step)) s.
Proof.
  unfold for_loop_step, for_loop. rewrite Z.sub_0_r.
  rewrite <- iter_step_iter_from. f_equal. lia.
Qed.

Section Frames.

Context {F : Type} {ops : FloatOps F} {S : Type}.
Variable heap_of : S -> mem (F:=F).

(** [f] leaves the cell [q] of the heap as it is. *)
Definition keeps (q : ptr) (f : S -> S) : Prop :=
  forall s, load (heap_of (f s)) q = load (heap_of s) q.

Lemma keeps_for_loop q lo hi (body : Z -> S -> S) :
  (forall i, lo <= i < hi -> keeps q (body i)) ->
  keeps q (for_loop lo hi body).
Proof.
  intros Hbody s.
  apply (for_loop_preserve (fun s' => load (heap_of s') q = load (heap_of s) q));
    [reflexivity|].
  intros i s' Hi IH. now rewrite Hbody.
Qed.

(** A property set up by round [i0] from any state that satisfies the
    invariant [I], and kept by the other rounds. *)
Lemma for_loop_pick_inv (I Q : S -> Prop) lo hi (body : Z -> S -> S) s i0 :
  lo <= i0 < hi ->
  I s ->
  (forall i s', lo <= i < hi -> I s' -> I (body i s')) ->
  (forall s', I s' -> Q (body i0 s')) ->
  (forall i s', lo <= i < hi -> i <> i0 -> I s' -> Q s' -> Q (body i s')) ->
  Q (for_loop lo hi body s).
Proof.
  intros Hi0 Hs HI Hset Hkeep.
  assert (H : (fun i s' => I s' /\ (i0 < i -> Q s')) hi (for_loop lo hi body s)).
  { apply for_loop_invariant; [lia | split; [assumption | intros; lia] |].
    intros i s' Hi [HIs IH]. split; [now apply HI|].
    intros Hlt. destruct (Z.eq_dec i i0) as [->|Hne].
    - now apply Hset.
    - apply Hkeep; try assumption. apply IH. lia. }
  apply H. lia.
Qed.

End Frames.

(** ** Matrix multiplication: the tiled loop against the naive one *)

Lemma upd_same {F : Type} {ops : FloatOps F} (a : Z -> F) i v : upd a i v i = v.
Proof. unfold upd. now rewrite Z.eqb_refl. Qed.

Lemma upd_other {F : Type} {ops : FloatOps F} (a : Z -> F) i j v :
  j <> i -> upd a i v j = a j.
Proof. intros H. unfold upd. destruct (Z.eqb_spec j i); [contradiction | reflexivity]. Qed.

(** A loop that updates every slot of a local array from its own value. *)
Lemma upd_loop {F : Type} {ops : FloatOps F} (g : Z -> F -> F) n (a : Z -> F) j :
  for_loop 0 n (fun i r => upd r i (g i (r i))) a j
  = if (0 <=? j) && (j <? n) then g j (a j) else a j.
Proof.
  destruct (Z_le_gt_dec 0 n) as [Hn|Hn].
  2:{ rewrite for_loop_empty by lia.
      destruct (Z.leb_spec 0 j), (Z.ltb_spec j n); cbn [andb]; try reflexivity; lia. }
  apply (for_loop_invariant
           (fun k r => forall j, r j = if (0 <=? j) && (j <? k) then g j (a j) else a j));
    [assumption | |].
  - intros j'. destruct (Z.leb_spec 0 j'), (Z.ltb_spec j' 0); cbn [andb];
      try reflexivity; lia.
  - intros k r Hk IH j'.
    destruct (Z.eq_dec j' k) as [->|Hne].
    + rewrite upd_same, IH.
      destruct (Z.leb_spec 0 k), (Z.ltb_spec k k), (Z.ltb_spec k (k + 1)); cbn [andb];
        try reflexivity; lia.
    + rewrite upd_other, IH by assumption.
      destruct (Z.leb_spec 0 j'), (Z.ltb_spec j' k), (Z.ltb_spec j' (k + 1)); cbn [andb];
        try reflexivity; lia.
Qed.

Section Matmul.

Context {F : Type} {ops : FloatOps F}.
Variables (out inp weight : ptr) (bias : option ptr) (B T C OC : Z).

Hypothesis HB : 0 <= B.
Hypothesis HT : 0 <= T.
Hypothesis Hinp : disjoint out (B * T * OC) inp (B * T * C).
Hypothesis Hweight : disjoint out (B * T * OC) weight (OC * C).
Hypothesis Hbias : forall bp, bias = Some bp -> disjoint out (B * T * OC) bp OC.

(** [out[bt, o]] as the naive loop computes it on the heap [m]: the bias,
    then the products added for i = 0, 1, ..., C - 1. *)
Definition matmul_cell (m : mem (F:=F)) (bt o : Z) : F :=
  for_loop 0 C (fun i val =>
    fadd val (fmul (load m (inp +! (bt * C + i))) (load m (weight +! (o * C + i)))))
    (bias_or_zero m bias o).

(** The cells of the output. *)
Definition out_cell (q : ptr) : Prop :=
  exists bt o, 0 <= bt < B * T /\ 0 <= o < OC /\ q = out +! (bt * OC + o).

Definition same_outside (m0 m : mem (F:=F)) : Prop :=
  forall q, ~ out_cell q -> load m q = load m0 q.

Lemma inp_not_out bt i : 0 <= bt < B * T -> 0 <= i < C -> ~ out_cell (inp +! (bt * C + i)).
Proof.
  intros Hbt Hi (bt' & o' & Hbt' & Ho' & E). symmetry in E. revert E.
  apply disjoint_neq with (n := B * T * OC) (k := B * T * C);
    [assumption | apply radix_bound; assumption | apply radix_bound; assumption].
Qed.

Lemma weight_not_out bt o i :
  0 <= bt < B * T -> 0 <= o < OC -> 0 <= i < C -> ~ out_cell (weight +! (o * C + i)).
Proof.
  intros Hbt Ho Hi (bt' & o' & Hbt' & Ho' & E). symmetry in E. revert E.
  apply disjoint_neq with (n := B * T * OC) (k := OC * C);
    [assumption | apply radix_bound; assumption | apply radix_bound; assumption].
Qed.

Lemma bias_not_out bp bt o :
  bias = Some bp -> 0 <= bt < B * T -> 0 <= o < OC -> ~ out_cell (bp +! o).
Proof.
  intros Hbp Hbt Ho (bt' & o' & Hbt' & Ho' & E). symmetry in E. revert E.
  apply disjoint_neq with (n := B * T * OC) (k := OC);
    [now apply Hbias | apply radix_bound; assumption | assumption].
Qed.

Lemma matmul_cell_stable m0 m bt o :
  same_outside m0 m -> 0 <= bt < B * T -> 0 <= o < OC ->
  matmul_cell m bt o = matmul_cell m0 bt o.
Proof.
  intros Hsame Hbt Ho. unfold matmul_cell.
  apply for_loop_rel.
  - unfold bias_or_zero.
    pose proof (fun bp E => bias_not_out bp bt o E Hbt Ho) as Hn.
    destruct bias as [bp|]; [|reflexivity].
    apply Hsame. now apply Hn.
  - intros i a b Hi ->.
    rewrite (Hsame _ (inp_not_out bt i Hbt Hi)).
    now rewrite (Hsame _ (weight_not_out bt o i Hbt Ho Hi)).
Qed.

Lemma out_index_inj bt o bt' o' :
  0 <= o < OC -> 0 <= o' < OC ->
  out +! (bt * OC + o) = out +! (bt' * OC + o') -> bt = bt' /\ o = o'.
Proof. intros Ho Ho' E. apply padd_inj in E. now apply (radix_inj OC). Qed.

(** *** The naive loop *)

Definition naive_o (bt o : Z) (m : mem (F:=F)) : mem :=
  store m (out +! (bt * OC + o)) (matmul_cell m bt o).
Definition naive_t (b t : Z) (m : mem (F:=F)) : mem := for_loop 0 OC (naive_o (b * T + t)) m.
Definition naive_b (b : Z) (m : mem (F:=F)) : mem := for_loop 0 T (naive_t b) m.

Lemma naive_loops m :
  matmul_forward_naive out inp weight bias B T C OC m = for_loop 0 B naive_b m.
Proof. reflexivity. Qed.

Lemma naive_o_keeps bt o q :
  q <> out +! (bt * OC + o) -> keeps (fun m => m) q (naive_o bt o).
Proof. intros H m. unfold naive_o. now rewrite load_store_other. Qed.

Lemma naive_t_keeps b t q :
  (forall o, 0 <= o < OC -> q <> out +! ((b * T + t) * OC + o)) ->
  keeps (fun m => m) q (naive_t b t).
Proof. intros H. apply keeps_for_loop. intros o Ho. apply naive_o_keeps. now apply H. Qed.

Lemma naive_b_keeps b q :
  (forall t o, 0 <= t < T -> 0 <= o < OC -> q <> out +! ((b * T + t) * OC + o)) ->
  keeps (fun m => m) q (naive_b b).
Proof. intros H. apply keeps_for_loop. intros t Ht. apply naive_t_keeps. intros; now apply H. Qed.

Lemma not_out_cell_neq q b t o :
  ~ out_cell q -> 0 <= b < B -> 0 <= t < T -> 0 <= o < OC ->
  q <> out +! ((b * T + t) * OC + o).
Proof.
  intros Hq Hb Ht Ho ->. apply Hq. exists (b * T + t), o.
  split; [now apply radix_bound | split; [assumption | reflexivity]].
Qed.

Lemma naive_b_same m0 b m :
  0 <= b < B -> same_outside m0 m -> same_outside m0 (naive_b b m).
Proof.
  intros Hb Hsame q Hq. rewrite naive_b_keeps; [now apply Hsame|].
  intros t o Ht Ho. now apply not_out_cell_neq.
Qed.

Lemma naive_t_same m0 b t m :
  0 <= b < B -> 0 <= t < T -> same_outside m0 m -> same_outside m0 (naive_t b t m).
Proof.
  intros Hb Ht Hsame q Hq. rewrite naive_t_keeps; [now apply Hsame|].
  intros o Ho. now apply not_out_cell_neq.
Qed.

Lemma naive_o_same m0 b t o m :
  0 <= b < B -> 0 <= t < T -> 0 <= o < OC ->
  same_outside m0 m -> same_outside m0 (naive_o (b * T + t) o m).
Proof.
  intros Hb Ht Ho Hsame q Hq. rewrite naive_o_keeps; [now apply Hsame|].
  now apply not_out_cell_neq.
Qed.

Lemma naive_cell m0 b t o :
  0 <= b < B -> 0 <= t < T -> 0 <= o < OC ->
  load (matmul_forward_naive out inp weight bias B T C OC m0)
       (out +! ((b * T + t) * OC + o))
  = matmul_cell m0 (b * T + t) o.
Proof.
  intros Hb Ht Ho. rewrite naive_loops.
  set (Q := fun m : mem (F:=F) =>
              load m (out +! ((b * T + t) * OC + o)) = matmul_cell m0 (b * T + t) o).
  apply (for_loop_pick_inv (same_outside m0) Q 0 B naive_b m0 b Hb).
  - intros q _. reflexivity.
  - intros b' m Hb'. now apply naive_b_same.
  - intros m Hm. unfold naive_b.
    apply (for_loop_pick_inv (same_outside m0) Q 0 T (naive_t b) m t Ht Hm).
    + intros t' m' Ht'. now apply naive_t_same.
    + intros m' Hm'. unfold naive_t.
      apply (for_loop_pick_inv (same_outside m0) Q 0 OC (naive_o (b * T + t)) m' o Ho Hm').
      * intros o' m'' Ho'. now apply naive_o_same.
      * intros m'' Hm''. unfold Q, naive_o. rewrite load_store_same.
        apply matmul_cell_stable; [assumption | now apply radix_bound | assumption].
      * intros o' m'' Ho' Hne _ HQ. unfold Q. rewrite naive_o_keeps; [exact HQ|].
        intros E. apply out_index_inj in E; [lia | assumption | assumption].
    + intros t' m' Ht' Hne _ HQ. unfold Q. rewrite naive_t_keeps; [exact HQ|].
      intros o' Ho' E. apply out_index_inj in E; [|assumption|assumption].
      destruct E as [E _]. apply (radix_inj T) in E; [lia | lia | lia].
  - intros b' m Hb' Hne _ HQ. unfold Q. rewrite naive_b_keeps; [exact HQ|].
    intros t' o' Ht' Ho' E. apply out_index_inj in E; [|assumption|assumption].
    destruct E as [E _]. apply (radix_inj T) in E; [lia | lia | lia].
Qed.

Lemma naive_frame m0 q :
  ~ out_cell q ->
  load (matmul_forward_naive out inp weight bias B T C OC m0) q = load m0 q.
Proof.
  intros Hq. rewrite naive_loops.
  apply (keeps_for_loop (fun m => m)). intros b Hb. apply naive_b_keeps.
  intros t o Ht Ho. now apply not_out_cell_neq.
Qed.

(** *** The tiled loop *)

(** The registers [result[]] after the inner loops of a tile. *)
Definition tiled_result (obt o : Z) (m : mem (F:=F)) : Z -> F :=
  for_loop 0 C (fun i result =>
    let w := load m (weight +! (i + o * C)) in
    for_loop 0 LOOP_UNROLL (fun ibt result =>
      let bt := obt + ibt in
      upd result ibt (fadd (result ibt) (fmul (load m (inp +! (bt * C + i))) w)))
      result)
    (for_loop 0 LOOP_UNROLL (fun ibt result =>
       upd result ibt (bias_or_zero m bias o)) (fun _ => fzero)).

Definition tiled_o (obt o : Z) (m : mem (F:=F)) : mem :=
  for_loop 0 LOOP_UNROLL (fun ibt m' =>
    let bt := obt + ibt in
    store m' (out +! (bt * OC + o)) (tiled_result obt o m ibt)) m.

Definition tiled_obt (obt : Z) (m : mem (F:=F)) : mem := for_loop 0 OC (tiled_o obt) m.

Lemma tiled_loops m :
  Z.rem (B * T) LOOP_UNROLL = 0 ->
  matmul_forward out inp weight bias B T C OC m
  = for_loop 0 (B * T / LOOP_UNROLL) (fun k => tiled_obt (k * LOOP_UNROLL)) m.
Proof.
  intros Hrem. unfold matmul_forward. rewrite Hrem. cbn [Z.eqb negb].
  rewrite for_loop_step_rounds.
  assert (Hmod : (B * T) mod LOOP_UNROLL = 0).
  { rewrite <- Z.rem_mod_nonneg; [assumption | nia | unfold LOOP_UNROLL; lia]. }
  replace ((B * T - 0 + LOOP_UNROLL - 1) / LOOP_UNROLL) with (B * T / LOOP_UNROLL).
  2:{ revert Hmod. generalize (B * T). unfold LOOP_UNROLL. intros; Z.div_mod_to_equations; lia. }
  apply for_loop_ext. intros k m' Hk. reflexivity.
Qed.

Lemma tiled_result_cell obt o m ibt :
  0 <= ibt < LOOP_UNROLL -> tiled_result obt o m ibt = matmul_cell m (obt + ibt) o.
Proof.
  intros Hibt. unfold tiled_result, matmul_cell.
  set (step := fun j i val =>
         fadd val (fmul (load m (inp +! ((obt + j) * C + i))) (load m (weight +! (o * C + i))))).
  set (init := for_loop 0 LOOP_UNROLL
                 (fun ibt result => upd result ibt (bias_or_zero m bias o)) (fun _ => fzero)).
  assert (Hinit : forall j, 0 <= j < LOOP_UNROLL -> init j = bias_or_zero m bias o).
  { intros j Hj. subst init.
    pose proof (upd_loop (fun _ _ => bias_or_zero m bias o) LOOP_UNROLL (fun _ => fzero) j)
      as H. cbv beta in H. rewrite H.
    destruct (Z.leb_spec 0 j), (Z.ltb_spec j LOOP_UNROLL); cbn [andb]; try reflexivity; lia. }
  destruct (Z_le_gt_dec 0 C) as [HC|HC].
  2:{ rewrite !for_loop_empty by lia. now apply Hinit. }
  change (for_loop 0 C (step ibt) (bias_or_zero m bias o))
    with ((fun k => for_loop 0 k (step ibt) (bias_or_zero m bias o)) C).
  revert ibt Hibt.
  apply (for_loop_invariant
           (fun k (result : Z -> F) =>
              forall j, 0 <= j < LOOP_UNROLL ->
                result j = for_loop 0 k (step j) (bias_or_zero m bias o))); [assumption| |].
  - intros j Hj. rewrite for_loop_empty by lia. now apply Hinit.
  - intros i result Hi IH j Hj. cbv zeta.
    pose proof (upd_loop
                  (fun ibt x => fadd x (fmul (load m (inp +! ((obt + ibt) * C + i)))
                                             (load m (weight +! (i + o * C)))))
                  LOOP_UNROLL result j) as H.
    cbv beta in H. rewrite H.
    destruct (Z.leb_spec 0 j), (Z.ltb_spec j LOOP_UNROLL); cbn [andb]; try lia.
    rewrite (for_loop_tail 0 (i + 1)) by lia.
    replace (i + 1 - 1) with i by lia. rewrite <- IH by assumption.
    unfold step. replace (i + o * C) with (o * C + i) by lia. reflexivity.
Qed.

Lemma tiled_o_keeps obt o q :
  (forall ibt, 0 <= ibt < LOOP_UNROLL -> q <> out +! ((obt + ibt) * OC + o)) ->
  keeps (fun m => m) q (tiled_o obt o).
Proof.
  intros H m. unfold tiled_o.
  apply (keeps_for_loop (fun m => m)). intros ibt Hibt m'. cbv zeta.
  rewrite load_store_other; [reflexivity | now apply H].
Qed.

Lemma tiled_obt_keeps obt q :
  (forall ibt o, 0 <= ibt < LOOP_UNROLL -> 0 <= o < OC ->
     q <> out +! ((obt + ibt) * OC + o)) ->
  keeps (fun m => m) q (tiled_obt obt).
Proof. intros H. apply keeps_for_loop. intros o Ho. apply tiled_o_keeps. intros; now apply H. Qed.

Lemma tile_in_range k ibt :
  0 <= k < B * T / LOOP_UNROLL -> 0 <= ibt < LOOP_UNROLL ->
  0 <= k * LOOP_UNROLL + ibt < B * T.
Proof. generalize (B * T). unfold LOOP_UNROLL. intros; Z.div_mod_to_equations; lia. Qed.

Lemma not_out_cell_neq_tile q k ibt o :
  ~ out_cell q -> 0 <= k < B * T / LOOP_UNROLL -> 0 <= ibt < LOOP_UNROLL -> 0 <= o < OC ->
  q <> out +! ((k * LOOP_UNROLL + ibt) * OC + o).
Proof.
  intros Hq Hk Hibt Ho ->. apply Hq. exists (k * LOOP_UNROLL + ibt), o.
  split; [now apply tile_in_range | split; [assumption | reflexivity]].
Qed.

Lemma tiled_cell m0 bt o :
  Z.rem (B * T) LOOP_UNROLL = 0 -> 0 <= bt < B * T -> 0 <= o < OC ->
  load (matmul_forward out inp weight bias B T C OC m0) (out +! (bt * OC + o))
  = matmul_cell m0 bt o.
Proof.
  intros Hrem Hbt Ho. rewrite tiled_loops by assumption.
  set (k := bt / LOOP_UNROLL). set (ibt := bt mod LOOP_UNROLL).
  assert (Hk : 0 <= k < B * T / LOOP_UNROLL).
  { assert (Hmod : (B * T) mod LOOP_UNROLL = 0).
    { rewrite <- Z.rem_mod_nonneg; [assumption | nia | unfold LOOP_UNROLL; lia]. }
    subst k. revert Hbt Hmod. generalize (B * T). unfold LOOP_UNROLL.
    intros; Z.div_mod_to_equations; lia. }
  assert (Hibt : 0 <= ibt < LOOP_UNROLL)
    by (subst ibt; unfold LOOP_UNROLL; Z.div_mod_to_equations; lia).
  assert (Ebt : bt = k * LOOP_UNROLL + ibt)
    by (subst k ibt; unfold LOOP_UNROLL; Z.div_mod_to_equations; lia).
  set (Q := fun m : mem (F:=F) => load m (out +! (bt * OC + o)) = matmul_cell m0 bt o).
  apply (for_loop_pick_inv (same_outside m0) Q 0 (B * T / LOOP_UNROLL)
           (fun k => tiled_obt (k * LOOP_UNROLL)) m0 k Hk).
  - intros q _. reflexivity.
  - intros k' m Hk' Hm q Hq. rewrite tiled_obt_keeps; [now apply Hm|].
    intros ibt' o' Hibt' Ho'. now apply not_out_cell_neq_tile.
  - intros m Hm. unfold tiled_obt.
    apply (for_loop_pick_inv (same_outside m0) Q 0 OC (tiled_o (k * LOOP_UNROLL)) m o Ho Hm).
    + intros o' m' Ho' Hm' q Hq. rewrite tiled_o_keeps; [now apply Hm'|].
      intros ibt' Hibt'. now apply not_out_cell_neq_tile.
    + intros m' Hm'. unfold tiled_o.
      apply (for_loop_pick (fun m'' => Q m'') 0 LOOP_UNROLL _ m' ibt Hibt).
      * intros m''. unfold Q. cbv zeta. rewrite <- Ebt, load_store_same.
        rewrite tiled_result_cell, <- Ebt by assumption.
        now apply matmul_cell_stable.
      * intros ibt' m'' Hibt' Hne HQ. unfold Q. cbv zeta.
        rewrite load_store_other; [exact HQ|].
        intros E. apply out_index_inj in E; [lia | assumption | assumption].
    + intros o' m' Ho' Hne _ HQ. unfold Q. rewrite tiled_o_keeps; [exact HQ|].
      intros ibt' Hibt' E. apply out_index_inj in E; [lia | assumption | assumption].
  - intros k' m Hk' Hne _ HQ. unfold Q. rewrite tiled_obt_keeps; [exact HQ|].
    intros ibt' o' Hibt' Ho' E. apply out_index_inj in E; [|assumption|assumption].
    destruct E as [E _]. rewrite Ebt in E.
    apply (radix_inj LOOP_UNROLL) in E; [lia | lia | lia].
Qed.

Lemma tiled_frame m0 q :
  Z.rem (B * T) LOOP_UNROLL = 0 -> ~ out_cell q ->
  load (matmul_forward out inp weight bias B T C OC m0) q = load m0 q.
Proof.
  intros Hrem Hq. rewrite tiled_loops by assumption.
  apply (keeps_for_loop (fun m => m)). intros k Hk. apply tiled_obt_keeps.
  intros ibt o Hibt Ho. now apply not_out_cell_neq_tile.
Qed.

(** Whether [q] is a cell of the output can be told. *)
Lemma out_cell_dec q :
  out_cell q \/ ~ out_cell q.
Proof.
  destruct (block_eq_dec (fst q) (fst out)) as [Hb|Hb].
  2:{ right. intros (bt & o & _ & _ & ->). apply Hb. reflexivity. }
  destruct (Z_le_gt_dec OC 0) as [HOC|HOC].
  { right. intros (bt & o & _ & Ho & _). lia. }
  set (k := snd q - snd out).
  destruct (Z_le_gt_dec 0 k) as [Hk0|Hk0].
  2:{ right. intros (bt & o & Hbt & Ho & ->). subst k. cbn [padd snd] in Hk0. nia. }
  destruct (Z_lt_ge_dec (k / OC) (B * T)) as [Hk|Hk].
  - left. exists (k / OC), (k mod OC).
    split; [split; [apply Z.div_pos; lia | assumption]|].
    split; [apply Z.mod_pos_bound; lia|].
    apply injective_projections; unfold padd; cbn [fst snd]; [assumption|].
    pose proof (Z.div_mod k OC ltac:(lia)). subst k. lia.
  - right. intros (bt & o & Hbt & Ho & ->). subst k. cbn [padd snd] in Hk.
    replace (snd out + (bt * OC + o) - snd out) with (o + bt * OC) in Hk by lia.
    rewrite Z.div_add, Z.div_small in Hk by lia. lia.
Qed.

End Matmul.

(** C4: on every shape with non-negative [B] and [T], and for an output
    buffer disjoint from the input, the weights and the bias (when there
    is one), [matmul_forward] and [matmul_forward_naive] leave the same
    heap, and so the same output: both add the products of one output
    element in the order i = 0, ..., C - 1, starting from the bias.  The
    tiled loop runs when [B * T] is divisible by 8; otherwise
    [matmul_forward] calls the naive loop.  Equal outputs agree within any
    tolerance. *)
Theorem matmul_forward_agrees_naive {F : Type} {ops : FloatOps F}
  (out inp weight : ptr) (bias : option ptr) (B T C OC : Z) (m : mem (F:=F)) :
  0 <= B -> 0 <= T ->
  disjoint out (B * T * OC) inp (B * T * C) ->
  disjoint out (B * T * OC) weight (OC * C) ->
  (forall bp, bias = Some bp -> disjoint out (B * T * OC) bp OC) ->
  forall q,
    load (matmul_forward out inp weight bias B T C OC m) q
    = load (matmul_forward_naive out inp weight bias B T C OC m) q.
Proof.
  intros HB HT Hinp Hweight Hbias q.
  destruct (Z.eq_dec (Z.rem (B * T) LOOP_UNROLL) 0) as [Hrem|Hrem].
  2:{ unfold matmul_forward. apply Z.eqb_neq in Hrem. now rewrite Hrem. }
  destruct (out_cell_dec out B T OC q) as [(bt & o & Hbt & Ho & ->)|Hq].
  - rewrite (tiled_cell out inp weight bias B T C OC HB HT Hinp Hweight Hbias)
      by assumption.
    assert (HTpos : 0 < T) by nia.
    assert (Ebt : bt = bt / T * T + bt mod T).
    { pose proof (Z.div_mod bt T ltac:(lia)). lia. }
    assert (Hb : 0 <= bt / T < B).
    { split; [apply Z.div_pos; lia | apply Z.div_lt_upper_bound; lia]. }
    assert (Ht : 0 <= bt mod T < T) by (apply Z.mod_pos_bound; lia).
    revert Ebt Hb Ht. generalize (bt / T) (bt mod T). intros b t -> Hb Ht.
    now rewrite (naive_cell out inp weight bias B T C OC Hinp Hweight Hbias).
  - rewrite (tiled_frame out inp weight bias B T C OC HB HT) by assumption.
    now rewrite (naive_frame out inp weight bias B T C OC).
Qed.

(** A batch of 2 rows of 4 positions (one tile), 3 input and 5 output
    channels: the output in the activation block, at a distance from the
    input; the weights and the bias in the parameter block. *)
Lemma matmul_forward_agrees_naive_witness :
  let m : mem (F:=R) := fun _ z => IZR z in
  load (matmul_forward (acts_block, 0) (acts_block, 100) (params_block, 0)
          (Some (params_block, 50)) 2 4 3 5 m) (acts_block, 7)
  = load (matmul_forward_naive (acts_block, 0) (acts_block, 100) (params_block, 0)
            (Some (params_block, 50)) 2 4 3 5 m) (acts_block, 7).
Proof.
  apply (matmul_forward_agrees_naive (acts_block, 0) (acts_block, 100) (params_block, 0)
           (Some (params_block, 50)) 2 4 3 5).
  - lia.
  - lia.
  - right. cbn. lia.
  - left. discriminate.
  - intros bp [= <-]. left. discriminate.
Defined.

(** ** Causal self-attention *)

(** The index of [att[b, h, t, t2]] in a (B, NH, T, T) tensor. *)
Definition att_index (NH T b h t t2 : Z) : Z := b * NH * T * T + h * T * T + t * T + t2.

Lemma att_index_nested NH T b h t t2 :
  att_index NH T b h t t2 = ((b * NH + h) * T + t) * T + t2.
Proof. unfold att_index. ring. Qed.

Lemma att_index_inj NH T b h t t2 b' h' t' t2' :
  0 <= h < NH -> 0 <= h' < NH -> 0 <= t < T -> 0 <= t' < T ->
  0 <= t2 < T -> 0 <= t2' < T ->
  att_index NH T b h t t2 = att_index NH T b' h' t' t2' ->
  b = b' /\ h = h' /\ t = t' /\ t2 = t2'.
Proof.
  intros Hh Hh' Ht Ht' Ht2 Ht2'. rewrite !att_index_nested. intros E.
  apply (radix_inj T) in E; [|assumption|assumption]. destruct E as [E ->].
  apply (radix_inj T) in E; [|assumption|assumption]. destruct E as [E ->].
  apply (radix_inj NH) in E; [|assumption|assumption]. destruct E as [-> ->].
  repeat split.
Qed.

Lemma att_index_bound B NH T b h t t2 :
  0 <= b < B -> 0 <= h < NH -> 0 <= t < T -> 0 <= t2 < T ->
  0 <= att_index NH T b h t t2 < B * NH * T * T.
Proof.
  intros Hb Hh Ht Ht2. rewrite att_index_nested.
  replace (B * NH * T * T) with (B * NH * T * T) by ring.
  pose proof (radix_bound B NH b h Hb Hh) as H1.
  pose proof (radix_bound (B * NH) T _ t H1 Ht) as H2.
  pose proof (radix_bound (B * NH * T) T _ t2 H2 Ht2) as H3.
  exact H3.
Qed.

(** The channels of head [h] lie inside the [C] channels of a position. *)
Lemma head_in_channels C NH h i :
  0 <= h < NH -> 0 <= i < Z.quot C NH -> 0 <= h * Z.quot C NH + i < C.
Proof.
  intros Hh Hi.
  assert (HC : 0 <= C).
  { destruct (Z_le_gt_dec 0 C) as [|Hneg]; [assumption|].
    pose proof (Z.quot_le_mono C 0 NH ltac:(lia) ltac:(lia)) as H.
    rewrite Z.quot_0_l in H by lia. lia. }
  rewrite Z.quot_div_nonneg in * by lia.
  pose proof (Z.mul_div_le C NH ltac:(lia)). nia.
Qed.

Section Attention.

Context {F : Type} {ops : FloatOps F}.
Variables (out preatt att inp : ptr) (B T C NH : Z).

Let C3 := C * 3.
Let hs := Z.quot C NH.
Let scale : F := fdiv fone (fsqrt (of_int hs)).

(** The four passes of the round (b, t, h). *)
Definition attention_pass1 (b t h : Z) (m : mem (F:=F)) : mem * F :=
  let query_t := inp +! (b * T * C3 + t * C3 + h * hs) in
  let preatt_bth := preatt +! (b * NH * T * T + h * T * T + t * T) in
  for_loop 0 (t + 1) (fun t2 '(m, maxval) =>
    let key_t2 := inp +! (b * T * C3 + t2 * C3 + h * hs + C) in
    let val := for_loop 0 hs (fun i val =>
                 fadd val (fmul (load m (query_t +! i)) (load m (key_t2 +! i))))
                 fzero in
    let val := fmul val scale in
    let maxval := if fltb maxval val then val else maxval in
    (store m (preatt_bth +! t2) val, maxval))
  (m, fneg (fdec 10000 0)).

Definition attention_pass2 (b t h : Z) (maxval : F) (m : mem (F:=F)) : mem * F :=
  let preatt_bth := preatt +! (b * NH * T * T + h * T * T + t * T) in
  let att_bth := att +! (b * NH * T * T + h * T * T + t * T) in
  for_loop 0 (t + 1) (fun t2 '(m, expsum) =>
    let expv := fexp (fsub (load m (preatt_bth +! t2)) maxval) in
    (store m (att_bth +! t2) expv, fadd expsum expv))
  (m, fzero).

Definition attention_pass3 (b t h : Z) (expsum_inv : F) (m : mem (F:=F)) : mem :=
  let att_bth := att +! (b * NH * T * T + h * T * T + t * T) in
  for_loop 0 T (fun t2 m =>
    if t2 <=? t then
      store m (att_bth +! t2) (fmul (load m (att_bth +! t2)) expsum_inv)
    else
      store m (att_bth +! t2) fzero) m.

Definition attention_pass4 (b t h : Z) (m : mem (F:=F)) : mem :=
  let att_bth := att +! (b * NH * T * T + h * T * T + t * T) in
  let out_bth := out +! (b * T * C + t * C + h * hs) in
  let m := for_loop 0 hs (fun i m => store m (out_bth +! i) fzero) m in
  for_loop 0 (t + 1) (fun t2 m =>
    let value_t2 := inp +! (b * T * C3 + t2 * C3 + h * hs + C * 2) in
    let att_btht2 := load m (att_bth +! t2) in
    for_loop 0 hs (fun i m =>
      store m (out_bth +! i)
        (fadd (load m (out_bth +! i)) (fmul att_btht2 (load m (value_t2 +! i))))) m) m.

Definition attention_round (b t h : Z) (m : mem (F:=F)) : mem :=
  let '(m, maxval) := attention_pass1 b t h m in
  let '(m, expsum) := attention_pass2 b t h maxval m in
  let expsum_inv := if feqb expsum fzero then fzero else fdiv fone expsum in
  let m := attention_pass3 b t h expsum_inv m in
  attention_pass4 b t h m.

Lemma attention_rounds m :
  attention_forward out preatt att inp B T C NH m
  = for_loop 0 B (fun b m =>
      for_loop 0 T (fun t m =>
        for_loop 0 NH (fun h m => attention_round b t h m) m) m) m.
Proof. reflexivity. Qed.

Lemma row_cell (p : ptr) b h t t2 :
  p +! (b * NH * T * T + h * T * T + t * T) +! t2 = p +! att_index NH T b h t t2.
Proof. apply padd_padd. Qed.

(** The index of [out[b, t, h * hs + i]]. *)
Definition out_index (b t h i : Z) : Z := b * T * C + t * C + h * hs + i.

Lemma out_cell_of b t h i :
  out +! (b * T * C + t * C + h * hs) +! i = out +! out_index b t h i.
Proof. apply padd_padd. Qed.

(** The cell [q] is none of those that round (b, t, h) writes. *)
Definition untouched_by (b t h : Z) (q : ptr) : Prop :=
  (forall t2, 0 <= t2 < t + 1 -> q <> preatt +! att_index NH T b h t t2) /\
  (forall t2, 0 <= t2 < t + 1 -> q <> att +! att_index NH T b h t t2) /\
  (forall t2, 0 <= t2 < T -> q <> att +! att_index NH T b h t t2) /\
  (forall i, 0 <= i < hs -> q <> out +! out_index b t h i).

Lemma pass1_keeps b t h q m :
  (forall t2, 0 <= t2 < t + 1 -> q <> preatt +! att_index NH T b h t t2) ->
  load (fst (attention_pass1 b t h m)) q = load m q.
Proof.
  intros H. unfold attention_pass1.
  apply (for_loop_preserve (fun s : mem * F => load (fst s) q = load m q)); [reflexivity|].
  intros t2 [m' maxval] Ht2 IH. cbn [fst] in *.
  rewrite row_cell, load_store_other; [exact IH | now apply H].
Qed.

Lemma pass2_keeps b t h maxval q m :
  (forall t2, 0 <= t2 < t + 1 -> q <> att +! att_index NH T b h t t2) ->
  load (fst (attention_pass2 b t h maxval m)) q = load m q.
Proof.
  intros H. unfold attention_pass2.
  apply (for_loop_preserve (fun s : mem * F => load (fst s) q = load m q)); [reflexivity|].
  intros t2 [m' expsum] Ht2 IH. cbn [fst] in *.
  rewrite !row_cell, load_store_other; [exact IH | now apply H].
Qed.

Lemma pass3_keeps b t h expsum_inv q m :
  (forall t2, 0 <= t2 < T -> q <> att +! att_index NH T b h t t2) ->
  load (attention_pass3 b t h expsum_inv m) q = load m q.
Proof.
  intros H. unfold attention_pass3.
  apply (keeps_for_loop (fun m => m)). intros t2 Ht2 m'.
  destruct (t2 <=? t); rewrite !row_cell, load_store_other; try reflexivity; now apply H.
Qed.

Lemma pass4_keeps b t h q m :
  (forall i, 0 <= i < hs -> q <> out +! out_index b t h i) ->
  load (attention_pass4 b t h m) q = load m q.
Proof.
  intros H. unfold attention_pass4. cbv zeta.
  rewrite (keeps_for_loop (fun m => m)).
  - apply (keeps_for_loop (fun m => m)). intros i Hi m'.
    rewrite out_cell_of, load_store_other; [reflexivity | now apply H].
  - intros t2 Ht2 m'. apply (keeps_for_loop (fun m => m)). intros i Hi m''.
    rewrite !out_cell_of, load_store_other; [reflexivity | now apply H].
Qed.

Lemma round_keeps b t h q m :
  untouched_by b t h q -> load (attention_round b t h m) q = load m q.
Proof.
  intros (H1 & H2 & H3 & H4). unfold attention_round.
  pose proof (pass1_keeps b t h q m H1) as E1.
  destruct (attention_pass1 b t h m) as [m1 maxval]. cbn [fst] in E1.
  pose proof (pass2_keeps b t h maxval q m1 H2) as E2.
  destruct (attention_pass2 b t h maxval m1) as [m2 expsum]. cbn [fst] in E2.
  rewrite pass4_keeps, pass3_keeps by assumption. congruence.
Qed.

(** The cells that the kernel may write: the unmasked scores, the
    weights, and the output. *)
Definition attention_writes (q : ptr) : Prop :=
  exists b t h, 0 <= b < B /\ 0 <= t < T /\ 0 <= h < NH /\ ~ untouched_by b t h q.

Lemma attention_keeps q m :
  (forall b t h, 0 <= b < B -> 0 <= t < T -> 0 <= h < NH -> untouched_by b t h q) ->
  load (attention_forward out preatt att inp B T C NH m) q = load m q.
Proof.
  intros H. rewrite attention_rounds.
  apply (keeps_for_loop (fun m => m)). intros b Hb.
  apply (keeps_for_loop (fun m => m)). intros t Ht.
  apply (keeps_for_loop (fun m => m)). intros h Hh m'.
  apply round_keeps. now apply H.
Qed.

(** A property of the heap that round (b0, t0, h0) sets up and that the
    other rounds keep holds after the kernel. *)
Lemma attention_pick (Q : mem (F:=F) -> Prop) b0 t0 h0 m :
  0 <= b0 < B -> 0 <= t0 < T -> 0 <= h0 < NH ->
  (forall m', Q (attention_round b0 t0 h0 m')) ->
  (forall b t h m', 0 <= b < B -> 0 <= t < T -> 0 <= h < NH ->
     (b, t, h) <> (b0, t0, h0) -> Q m' -> Q (attention_round b t h m')) ->
  Q (attention_forward out preatt att inp B T C NH m).
Proof.
  intros Hb0 Ht0 Hh0 Hset Hkeep. rewrite attention_rounds.
  apply (for_loop_pick Q 0 B _ m b0 Hb0).
  - intros m1. apply (for_loop_pick Q 0 T _ m1 t0 Ht0).
    + intros m2. apply (for_loop_pick Q 0 NH _ m2 h0 Hh0).
      * apply Hset.
      * intros h m3 Hh Hne. apply Hkeep; try assumption. congruence.
    + intros t m2 Ht Hne HQ. apply for_loop_preserve; [assumption|].
      intros h m3 Hh. apply Hkeep; try assumption. congruence.
  - intros b m1 Hb Hne HQ. apply for_loop_preserve; [assumption|].
    intros t m2 Ht HQ2. apply for_loop_preserve; [assumption|].
    intros h m3 Hh. apply Hkeep; try assumption. congruence.
Qed.

Lemma out_index_bound b t h i :
  0 <= b < B -> 0 <= t < T -> 0 <= h < NH -> 0 <= i < hs ->
  0 <= out_index b t h i < B * T * C.
Proof.
  intros Hb Ht Hh Hi. unfold out_index.
  replace (b * T * C + t * C + h * hs + i) with ((b * T + t) * C + (h * hs + i)) by ring.
  apply radix_bound; [now apply radix_bound | now apply head_in_channels].
Qed.

(** A masked score is none of the cells that the kernel writes. *)
Lemma masked_score_untouched b0 h0 t0 t2 b t h :
  disjoint preatt (B * NH * T * T) att (B * NH * T * T) ->
  disjoint preatt (B * NH * T * T) out (B * T * C) ->
  0 <= b0 < B -> 0 <= h0 < NH -> 0 <= t0 < T -> t0 < t2 < T ->
  0 <= b < B -> 0 <= t < T -> 0 <= h < NH ->
  untouched_by b t h (preatt +! att_index NH T b0 h0 t0 t2).
Proof.
  intros Hpa Hpo Hb0 Hh0 Ht0 Ht2 Hb Ht Hh.
  assert (Hi0 := att_index_bound B NH T b0 h0 t0 t2 Hb0 Hh0 Ht0 ltac:(lia)).
  repeat split.
  - intros t2' Ht2' E. apply padd_inj in E.
    apply att_index_inj in E; try assumption; lia.
  - intros t2' Ht2'. apply (disjoint_neq _ _ _ _ _ _ Hpa); [assumption|].
    apply att_index_bound; try assumption; lia.
  - intros t2' Ht2'. apply (disjoint_neq _ _ _ _ _ _ Hpa); [assumption|].
    now apply att_index_bound.
  - intros i Hi. apply (disjoint_neq _ _ _ _ _ _ Hpo); [assumption|].
    now apply out_index_bound.
Qed.

(** A weight is written by the round of its row only. *)
Lemma weight_untouched b0 h0 t0 t2 b t h :
  disjoint preatt (B * NH * T * T) att (B * NH * T * T) ->
  disjoint att (B * NH * T * T) out (B * T * C) ->
  0 <= b0 < B -> 0 <= h0 < NH -> 0 <= t0 < T -> 0 <= t2 < T ->
  0 <= b < B -> 0 <= t < T -> 0 <= h < NH ->
  (b, t, h) <> (b0, t0, h0) ->
  untouched_by b t h (att +! att_index NH T b0 h0 t0 t2).
Proof.
  intros Hpa Hao Hb0 Hh0 Ht0 Ht2 Hb Ht Hh Hne.
  assert (Hi0 := att_index_bound B NH T b0 h0 t0 t2 Hb0 Hh0 Ht0 Ht2).
  repeat split.
  - intros t2' Ht2'. apply (disjoint_neq _ _ _ _ _ _ (disjoint_sym _ _ _ _ Hpa));
      [assumption|]. apply att_index_bound; try assumption; lia.
  - intros t2' Ht2' E. apply padd_inj in E.
    apply att_index_inj in E; try assumption; try lia.
    destruct E as (-> & -> & -> & _). now apply Hne.
  - intros t2' Ht2' E. apply padd_inj in E.
    apply att_index_inj in E; try assumption.
    destruct E as (-> & -> & -> & _). now apply Hne.
  - intros i Hi. apply (disjoint_neq _ _ _ _ _ _ Hao); [assumption|].
    now apply out_index_bound.
Qed.

(** The third pass leaves 0 in the masked cells of its row. *)
Lemma pass3_masks b t h expsum_inv m t2 :
  0 <= t < t2 -> t2 < T ->
  load (attention_pass3 b t h expsum_inv m) (att +! att_index NH T b h t t2) = fzero.
Proof.
  intros Ht Ht2. unfold attention_pass3. cbv zeta.
  apply (for_loop_pick
           (fun m' : mem (F:=F) => load m' (att +! att_index NH T b h t t2) = fzero)
           0 T _ m t2 ltac:(lia)).
  - intros m'. destruct (Z.leb_spec t2 t); [lia|].
    now rewrite row_cell, load_store_same.
  - intros t2' m' Ht2' Hne IH.
    destruct (t2' <=? t); rewrite !row_cell, load_store_other; try exact IH;
      apply padd_neq; unfold att_index; lia.
Qed.

Lemma round_masks b t h m t2 :
  disjoint att (B * NH * T * T) out (B * T * C) ->
  0 <= b < B -> 0 <= h < NH -> 0 <= t < T -> t < t2 < T ->
  load (attention_round b t h m) (att +! att_index NH T b h t t2) = fzero.
Proof.
  intros Hao Hb Hh Ht Ht2. unfold attention_round.
  destruct (attention_pass1 b t h m) as [m2 maxval].
  destruct (attention_pass2 b t h maxval m2) as [m3 expsum].
  rewrite pass4_keeps.
  - apply pass3_masks; lia.
  - intros i Hi. apply (disjoint_neq _ _ _ _ _ _ Hao).
    + apply att_index_bound; try assumption; lia.
    + now apply out_index_bound.
Qed.

End Attention.

(** C10: [attention_forward], called with a score cache, a weight cache
    and an output that are pairwise disjoint, leaves every entry
    [preatt[b, h, t, t2]] with [t2 > t] as it was before the call and
    leaves 0 in [att[b, h, t, t2]]: the kernel does not initialise the
    upper triangle of the score cache. *)
Theorem attention_leaves_masked_scores {F : Type} {ops : FloatOps F}
  (out preatt att inp : ptr) (B T C NH : Z) (m : mem (F:=F)) (b h t t2 : Z) :
  disjoint preatt (B * NH * T * T) att (B * NH * T * T) ->
  disjoint preatt (B * NH * T * T) out (B * T * C) ->
  disjoint att (B * NH * T * T) out (B * T * C) ->
  0 <= b < B -> 0 <= h < NH -> 0 <= t < T -> t < t2 < T ->
  let m' := attention_forward out preatt att inp B T C NH m in
  load m' (preatt +! att_index NH T b h t t2) = load m (preatt +! att_index NH T b h t t2) /\
  load m' (att +! att_index NH T b h t t2) = fzero.
Proof.
  intros Hpa Hpo Hao Hb Hh Ht Ht2 m'. subst m'. split.
  - apply (attention_keeps out preatt att inp B T C NH). intros b' t' h' Hb' Ht' Hh'.
    now apply (masked_score_untouched out preatt att B).
  - apply (attention_pick out preatt att inp B T C NH
             (fun m' => load m' (att +! att_index NH T b h t t2) = fzero) b t h);
      try assumption.
    + intros m1. now apply (round_masks out preatt att inp B).
    + intros b' t' h' m1 Hb' Ht' Hh' Hne IH. rewrite round_keeps; [exact IH|].
      apply (weight_untouched out preatt att B); try assumption; lia.
Qed.

(** One row of two positions and one head of two channels; the output at
    offset 0 of the activation block, the scores at 100, the weights at 200. *)
Lemma attention_leaves_masked_scores_witness :
  let m : mem (F:=R) := fun _ z => IZR z in
  let m' := attention_forward (acts_block, 0) (acts_block, 100) (acts_block, 200)
              (acts_block, 300) 1 2 2 1 m in
  load m' ((acts_block, 100) +! att_index 1 2 0 0 0 1)
  = load m ((acts_block, 100) +! att_index 1 2 0 0 0 1) /\
  load m' ((acts_block, 200) +! att_index 1 2 0 0 0 1) = 0%R.
Proof.
  refine (attention_leaves_masked_scores (ops:=RealOps)
            (acts_block, 0) (acts_block, 100) (acts_block, 200)
            (acts_block, 300) 1 2 2 1 (fun _ z => IZR z) 0 0 0 1 _ _ _ _ _ _ _);
    try lia; right; cbn; lia.
Defined.

(** A property that round (b0, t0) of a loop over the positions sets up
    from an invariant of the rounds, and that the other rounds keep, holds
    after the loop. *)
Lemma positions_pick_inv {S : Type} (I Q : S -> Prop) (B T : Z) (round : Z -> Z -> S -> S)
  b0 t0 s :
  0 <= b0 < B -> 0 <= t0 < T ->
  I s ->
  (forall b t s', 0 <= b < B -> 0 <= t < T -> I s' -> I (round b t s')) ->
  (forall s', I s' -> Q (round b0 t0 s')) ->
  (forall b t s', 0 <= b < B -> 0 <= t < T -> (b, t) <> (b0, t0) -> I s' -> Q s' ->
     Q (round b t s')) ->
  Q (for_loop 0 B (fun b s => for_loop 0 T (fun t s => round b t s) s) s).
Proof.
  intros Hb0 Ht0 Hs HI Hset Hkeep.
  apply (for_loop_pick_inv I Q 0 B _ s b0 Hb0 Hs).
  - intros b s1 Hb Hs1. apply for_loop_preserve; [assumption|].
    intros t s2 Ht. now apply HI.
  - intros s1 Hs1. apply (for_loop_pick_inv I Q 0 T _ s1 t0 Ht0 Hs1).
    + intros t s2 Ht. now apply HI.
    + apply Hset.
    + intros t s2 Ht Hne. apply Hkeep; try assumption. congruence.
  - intros b s1 Hb Hne Hs1 HQ.
    apply (for_loop_preserve (fun s' => I s' /\ Q s')); [now split|].
    intros t s2 Ht [HI2 HQ2]. split; [now apply HI|].
    apply Hkeep; try assumption. congruence.
Qed.

(** ** Sums and maxima in float arithmetic *)

Section Folds.

Context {F : Type} {ops : FloatOps F}.

(** [x lo + x (lo + 1) + ... + x (hi - 1)], added to 0.0f in this order. *)
Definition fsum (lo hi : Z) (x : Z -> F) : F :=
  for_loop lo hi (fun i acc => fadd acc (x i)) fzero.

(** The running maximum [if (x i > maxval) maxval = x i] over
    [i = lo, ..., hi - 1], from the value [start]. *)
Definition fmaximum (lo hi : Z) (x : Z -> F) (start : F) : F :=
  for_loop lo hi (fun i maxval => if fltb maxval (x i) then x i else maxval) start.

Lemma fsum_ext lo hi x y :
  (forall i, lo <= i < hi -> x i = y i) -> fsum lo hi x = fsum lo hi y.
Proof. intros H. apply for_loop_ext. intros i acc Hi. now rewrite H. Qed.

Lemma fmaximum_ext lo hi x y start :
  (forall i, lo <= i < hi -> x i = y i) -> fmaximum lo hi x start = fmaximum lo hi y start.
Proof. intros H. apply for_loop_ext. intros i acc Hi. now rewrite H. Qed.

(** A sum of zeros, in an arithmetic where 0 + 0 is 0. *)
Lemma fsum_zero lo hi x :
  fadd fzero fzero = fzero -> (forall i, lo <= i < hi -> x i = fzero) ->
  fsum lo hi x = fzero.
Proof.
  intros H0 Hx. unfold fsum.
  apply (for_loop_preserve (fun acc => acc = fzero)); [reflexivity|].
  intros i acc Hi ->. now rewrite Hx.
Qed.

End Folds.

(** ** What attention computes *)

(** A property that round (b0, t0, h0) sets up from an invariant of the
    rounds, and that the other rounds keep, holds after the kernel. *)
Lemma attention_pick_inv {F : Type} {ops : FloatOps F} (out preatt att inp : ptr)
  (B T C NH : Z) (I Q : mem (F:=F) -> Prop) b0 t0 h0 m :
  0 <= b0 < B -> 0 <= t0 < T -> 0 <= h0 < NH ->
  I m ->
  (forall b t h m', 0 <= b < B -> 0 <= t < T -> 0 <= h < NH ->
     I m' -> I (attention_round out preatt att inp T C NH b t h m')) ->
  (forall m', I m' -> Q (attention_round out preatt att inp T C NH b0 t0 h0 m')) ->
  (forall b t h m', 0 <= b < B -> 0 <= t < T -> 0 <= h < NH ->
     (b, t, h) <> (b0, t0, h0) -> I m' -> Q m' ->
     Q (attention_round out preatt att inp T C NH b t h m')) ->
  Q (attention_forward out preatt att inp B T C NH m).
Proof.
  intros Hb0 Ht0 Hh0 Hm HI Hset Hkeep. rewrite attention_rounds.
  apply (positions_pick_inv I Q B T
           (fun b t m => for_loop 0 NH
              (fun h m => attention_round out preatt att inp T C NH b t h m) m)
           b0 t0 m Hb0 Ht0 Hm).
  - intros b t m1 Hb Ht Hm1. apply for_loop_preserve; [assumption|].
    intros h m2 Hh. now apply HI.
  - intros m1 Hm1. apply (for_loop_pick_inv I Q 0 NH _ m1 h0 Hh0 Hm1).
    + intros h m2 Hh. now apply HI.
    + apply Hset.
    + intros h m2 Hh Hne. apply Hkeep; try assumption. congruence.
  - intros b t m1 Hb Ht Hne Hm1 HQ.
    apply (for_loop_preserve (fun m' => I m' /\ Q m')); [now split|].
    intros h m2 Hh [HI2 HQ2]. split; [now apply HI|].
    apply Hkeep; try assumption. congruence.
Qed.

Section AttentionWeight.

Context {F : Type} {ops : FloatOps F}.

(** The weight of the position [t2 <= t] in the row (b, h, t), from the
    scores [score 0 .. score t] of the row: with [maxval] their running
    maximum from -10000.0f and [expsum] the sum of the exponentials,
    [expf(score t2 - maxval) * expsum_inv], where [expsum_inv] is
    [1.0f / expsum], and 0.0f when [expsum == 0.0f]. *)
Definition attention_weight (score : Z -> F) (t t2 : Z) : F :=
  let maxval := fmaximum 0 (t + 1) score (fneg (fdec 10000 0)) in
  let e j := fexp (fsub (score j) maxval) in
  let expsum := fsum 0 (t + 1) e in
  let expsum_inv := if feqb expsum fzero then fzero else fdiv fone expsum in
  fmul (e t2) expsum_inv.

Lemma attention_weight_ext score1 score2 t t2 :
  0 <= t2 <= t ->
  (forall j, 0 <= j <= t -> score1 j = score2 j) ->
  attention_weight score1 t t2 = attention_weight score2 t t2.
Proof.
  intros Ht2 H. unfold attention_weight. cbv zeta.
  assert (Emax : fmaximum 0 (t + 1) score1 (fneg (fdec 10000 0))
                 = fmaximum 0 (t + 1) score2 (fneg (fdec 10000 0))).
  { apply fmaximum_ext. intros j Hj. apply H. lia. }
  assert (Esum : fsum 0 (t + 1) (fun j => fexp (fsub (score1 j)
                    (fmaximum 0 (t + 1) score1 (fneg (fdec 10000 0)))))
                 = fsum 0 (t + 1) (fun j => fexp (fsub (score2 j)
                    (fmaximum 0 (t + 1) score2 (fneg (fdec 10000 0)))))).
  { rewrite Emax. apply fsum_ext. intros j Hj. rewrite H by lia. reflexivity. }
  rewrite Esum, Emax, (H t2) by lia. reflexivity.
Qed.

(** A row whose exponentials are all 0. *)
Lemma attention_weight_zero (score : Z -> F) t t2 :
  fadd fzero fzero = fzero -> feqb fzero fzero = true -> fmul fzero fzero = fzero ->
  0 <= t2 <= t ->
  (forall j, 0 <= j <= t ->
     fexp (fsub (score j) (fmaximum 0 (t + 1) score (fneg (fdec 10000 0)))) = fzero) ->
  attention_weight score t t2 = fzero.
Proof.
  intros Hadd Heq Hmul Ht2 He. unfold attention_weight. cbv zeta.
  rewrite fsum_zero by (assumption || (intros j Hj; apply He; lia)).
  now rewrite Heq, He.
Qed.

End AttentionWeight.

Section AttentionWeights.

Context {F : Type} {ops : FloatOps F}.
Variables (out preatt att inp : ptr) (B T C NH : Z).

Hypothesis Hpa : disjoint preatt (B * NH * T * T) att (B * NH * T * T).
Hypothesis Hpo : disjoint preatt (B * NH * T * T) out (B * T * C).
Hypothesis Hao : disjoint att (B * NH * T * T) out (B * T * C).

Let hs := Z.quot C NH.
Let pcell (b h t t2 : Z) : ptr := preatt +! att_index NH T b h t t2.
Let acell (b h t t2 : Z) : ptr := att +! att_index NH T b h t t2.

Lemma cells_differ (p : ptr) b h t j k : j <> k ->
  p +! att_index NH T b h t j <> p +! att_index NH T b h t k.
Proof. intros H. apply padd_neq. unfold att_index. lia. Qed.

Lemma preatt_not_att b h t j b' h' t' k :
  0 <= b < B -> 0 <= h < NH -> 0 <= t < T -> 0 <= j < T ->
  0 <= b' < B -> 0 <= h' < NH -> 0 <= t' < T -> 0 <= k < T ->
  pcell b h t j <> acell b' h' t' k.
Proof.
  intros. apply (disjoint_neq _ _ _ _ _ _ Hpa); now apply att_index_bound.
Qed.

Lemma preatt_not_out b h t j b' t' h' i :
  0 <= b < B -> 0 <= h < NH -> 0 <= t < T -> 0 <= j < T ->
  0 <= b' < B -> 0 <= t' < T -> 0 <= h' < NH -> 0 <= i < hs ->
  pcell b h t j <> out +! out_index T C NH b' t' h' i.
Proof.
  intros. apply (disjoint_neq _ _ _ _ _ _ Hpo);
    [now apply att_index_bound | now apply (out_index_bound B T C NH)].
Qed.

Lemma att_not_out b h t j b' t' h' i :
  0 <= b < B -> 0 <= h < NH -> 0 <= t < T -> 0 <= j < T ->
  0 <= b' < B -> 0 <= t' < T -> 0 <= h' < NH -> 0 <= i < hs ->
  acell b h t j <> out +! out_index T C NH b' t' h' i.
Proof.
  intros. apply (disjoint_neq _ _ _ _ _ _ Hao);
    [now apply att_index_bound | now apply (out_index_bound B T C NH)].
Qed.

(** The first pass returns the running maximum of the scores that it
    stores. *)
Lemma pass1_max b t h (m : mem (F:=F)) :
  0 <= t ->
  let r := attention_pass1 preatt inp T C NH b t h m in
  snd r = fmaximum 0 (t + 1) (fun j => load (fst r) (pcell b h t j)) (fneg (fdec 10000 0)).
Proof.
  intros Ht. cbv zeta. unfold attention_pass1. cbv zeta.
  set (Inv := fun k (s : mem (F:=F) * F) =>
                snd s = fmaximum 0 k (fun j => load (fst s) (pcell b h t j))
                          (fneg (fdec 10000 0))).
  apply (for_loop_invariant Inv); [lia | reflexivity |].
  intros k [m' maxval] Hk IH. unfold Inv in *. cbn [fst snd] in *.
  rewrite row_cell. fold (pcell b h t k).
  unfold fmaximum. rewrite (for_loop_tail 0 (k + 1)) by lia.
  replace (k + 1 - 1) with k by lia. rewrite load_store_same.
  match goal with
  | |- _ = if fltb ?a _ then _ else ?b =>
      assert (E : a = maxval); [|rewrite E; reflexivity]
  end.
  rewrite IH. apply for_loop_ext. intros j acc Hj.
  rewrite load_store_other; [reflexivity|]. apply cells_differ. lia.
Qed.

(** The second pass: the exponentials of the scores and their sum. *)
Lemma pass2_values b t h maxval (m : mem (F:=F)) :
  0 <= b < B -> 0 <= t < T -> 0 <= h < NH ->
  let r := attention_pass2 preatt att T NH b t h maxval m in
  let e j := fexp (fsub (load m (pcell b h t j)) maxval) in
  snd r = fsum 0 (t + 1) e /\
  forall j, 0 <= j <= t -> load (fst r) (acell b h t j) = e j.
Proof.
  intros Hb Ht Hh. cbv zeta. unfold attention_pass2. cbv zeta.
  set (e := fun j => fexp (fsub (load m (pcell b h t j)) maxval)).
  set (Inv := fun k (s : mem (F:=F) * F) =>
                snd s = fsum 0 k e /\
                (forall j, 0 <= j < k -> load (fst s) (acell b h t j) = e j) /\
                (forall j, 0 <= j < T -> load (fst s) (pcell b h t j) = load m (pcell b h t j))).
  match goal with
  | |- snd ?r = _ /\ _ => assert (H : Inv (t + 1) r)
  end.
  { apply (for_loop_invariant Inv); [lia | |].
    - split; [reflexivity|]. split; [intros; lia | reflexivity].
    - intros k [m' expsum] Hk (Hsum & Hdone & Hpre). unfold Inv. cbn [fst snd] in *.
      rewrite !row_cell. fold (pcell b h t k) (acell b h t k).
      rewrite (Hpre k) by lia. split; [|split].
      + unfold fsum. rewrite (for_loop_tail 0 (k + 1)) by lia.
        replace (k + 1 - 1) with k by lia. fold (fsum 0 k e). now rewrite Hsum.
      + intros j Hj. destruct (Z.eq_dec j k) as [->|Hne].
        * now rewrite load_store_same.
        * rewrite load_store_other; [apply Hdone; lia|]. now apply cells_differ.
      + intros j Hj. rewrite load_store_other; [now apply Hpre|].
        apply preatt_not_att; try assumption; lia. }
  destruct H as (H1 & H2 & _). split; [exact H1|]. intros j Hj. apply H2. lia.
Qed.

(** The third pass multiplies the unmasked cells of its row. *)
Lemma pass3_scales b t h expsum_inv (m : mem (F:=F)) t2 :
  0 <= t2 <= t -> t < T ->
  load (attention_pass3 att T NH b t h expsum_inv m) (acell b h t t2)
  = fmul (load m (acell b h t t2)) expsum_inv.
Proof.
  intros Ht2 Ht. unfold attention_pass3. cbv zeta.
  set (Inv := fun k (m' : mem (F:=F)) =>
                (forall j, 0 <= j < k -> j <= t ->
                   load m' (acell b h t j) = fmul (load m (acell b h t j)) expsum_inv) /\
                (forall j, k <= j -> load m' (acell b h t j) = load m (acell b h t j))).
  match goal with
  | |- load ?r _ = _ => assert (H : Inv T r)
  end.
  { apply (for_loop_invariant Inv); [lia | split; [intros; lia | reflexivity] |].
    intros k m' Hk [Hdone Hrest]. unfold Inv. rewrite !row_cell. fold (acell b h t k).
    split.
    - intros j Hj Hjt. destruct (Z.eq_dec j k) as [->|Hjk].
      + destruct (Z.leb_spec k t); [|lia]. rewrite load_store_same.
        now rewrite Hrest by lia.
      + destruct (k <=? t); (rewrite load_store_other by now apply cells_differ);
          apply Hdone; lia.
    - intros j Hj. destruct (k <=? t); (rewrite load_store_other by (apply cells_differ; lia));
        apply Hrest; lia. }
  apply H; lia.
Qed.

(** What the round (b, t, h) leaves in the weights of its row, from the
    scores that it leaves. *)
Lemma round_weights b t h (m : mem (F:=F)) t2 :
  0 <= b < B -> 0 <= t < T -> 0 <= h < NH -> 0 <= t2 <= t ->
  let m' := attention_round out preatt att inp T C NH b t h m in
  load m' (acell b h t t2)
  = attention_weight (fun j => load m' (pcell b h t j)) t t2.
Proof.
  intros Hb Ht Hh Ht2. cbv zeta. unfold attention_round.
  pose proof (pass1_max b t h m ltac:(lia)) as Hmax. cbv zeta in Hmax.
  destruct (attention_pass1 preatt inp T C NH b t h m) as [m1 maxval].
  cbn [fst snd] in Hmax.
  pose proof (pass2_values b t h maxval m1 Hb Ht Hh) as [Hsum Hexp].
  pose proof (fun q H => pass2_keeps preatt att T NH b t h maxval q m1 H) as Hkeep2.
  destruct (attention_pass2 preatt att T NH b t h maxval m1) as [m2 expsum].
  cbn [fst snd] in Hsum, Hexp, Hkeep2.
  set (inv := if feqb expsum fzero then fzero else fdiv fone expsum).
  set (m3 := attention_pass3 att T NH b t h inv m2).
  set (m4 := attention_pass4 out att inp T C NH b t h m3).
  assert (Hscore : forall j, 0 <= j <= t -> load m4 (pcell b h t j) = load m1 (pcell b h t j)).
  { intros j Hj. unfold m4, m3.
    rewrite pass4_keeps by (intros i Hi; apply preatt_not_out; try assumption; lia).
    rewrite pass3_keeps by (intros k Hk; apply preatt_not_att; try assumption; lia).
    apply Hkeep2. intros k Hk. apply preatt_not_att; try assumption; lia. }
  unfold m4 at 1.
  rewrite pass4_keeps by (intros i Hi; apply att_not_out; try assumption; lia).
  unfold m3. rewrite pass3_scales by lia. rewrite Hexp by assumption.
  rewrite (attention_weight_ext _ (fun j => load m1 (pcell b h t j)) t t2 Ht2 Hscore).
  unfold attention_weight. cbv zeta. rewrite <- Hmax. fold (pcell b h t t2).
  unfold inv. now rewrite Hsum.
Qed.

(** A score is written by the round of its row only. *)
Lemma score_untouched b0 h0 t0 t2 b t h :
  0 <= b0 < B -> 0 <= h0 < NH -> 0 <= t0 < T -> 0 <= t2 < T ->
  0 <= b < B -> 0 <= t < T -> 0 <= h < NH ->
  (b, t, h) <> (b0, t0, h0) ->
  untouched_by out preatt att T C NH b t h (pcell b0 h0 t0 t2).
Proof.
  intros Hb0 Hh0 Ht0 Ht2 Hb Ht Hh Hne.
  repeat split.
  - intros t2' Ht2' E. apply padd_inj in E.
    apply att_index_inj in E; try assumption; try lia.
    destruct E as (-> & -> & -> & _). now apply Hne.
  - intros t2' Ht2'. apply preatt_not_att; try assumption; lia.
  - intros t2' Ht2'. now apply preatt_not_att.
  - intros i Hi. now apply preatt_not_out.
Qed.

(** The kernel: the weights of a row, from the scores that it leaves. *)
Lemma attention_forward_weights (m : mem (F:=F)) b h t t2 :
  0 <= b < B -> 0 <= h < NH -> 0 <= t < T -> 0 <= t2 <= t ->
  let m' := attention_forward out preatt att inp B T C NH m in
  load m' (acell b h t t2) = attention_weight (fun j => load m' (pcell b h t j)) t t2.
Proof.
  intros Hb Hh Ht Ht2. cbv zeta.
  apply (attention_pick out preatt att inp B T C NH
           (fun m' : mem (F:=F) =>
              load m' (acell b h t t2)
              = attention_weight (fun j => load m' (pcell b h t j)) t t2)
           b t h); try assumption.
  - intros m1. now apply round_weights.
  - intros b' t' h' m1 Hb' Ht' Hh' Hne IH.
    rewrite round_keeps
      by (apply (weight_untouched out preatt att B); try assumption; lia).
    rewrite IH. apply attention_weight_ext; [assumption|].
    intros j Hj. symmetry. apply round_keeps.
    apply score_untouched; try assumption; lia.
Qed.

End AttentionWeights.



(** The four arrays of [attention_forward] lie apart from one another. *)
Definition attention_separate (out preatt att inp : ptr) (B T C NH : Z) : Prop :=
  disjoint preatt (B * NH * T * T) att (B * NH * T * T) /\
  disjoint preatt (B * NH * T * T) out (B * T * C) /\
  disjoint att (B * NH * T * T) out (B * T * C) /\
  disjoint preatt (B * NH * T * T) inp (B * T * (C * 3)) /\
  disjoint att (B * NH * T * T) inp (B * T * (C * 3)) /\
  disjoint out (B * T * C) inp (B * T * (C * 3)).

Section AttentionValues.

Context {F : Type} {ops : FloatOps F}.
Variables (out preatt att inp : ptr) (B T C NH : Z).
Hypothesis Hsep : attention_separate out preatt att inp B T C NH.

Let hs := Z.quot C NH.

(** [inp[b, t, k * C + h * hs + i]]: channel [i] of the query (k = 0),
    the key (k = 1) or the value (k = 2) of head [h] at position (b, t). *)
Definition qkv_index (b t h i k : Z) : Z :=
  (b * T + t) * (C * 3) + (h * hs + i + k * C).

(** The score of the query at (b, t) and the key at (b, t2) in head [h]:
    their products summed over the channels of the head, times
    [1.0 / sqrtf(hs)]. *)
Definition attention_score (m : mem (F:=F)) (b t h t2 : Z) : F :=
  fmul (fsum 0 hs (fun i =>
          fmul (load m (inp +! qkv_index b t h i 0)) (load m (inp +! qkv_index b t2 h i 1))))
       (fdiv fone (fsqrt (of_int hs))).

Lemma qkv_index_bound b t h i k :
  0 <= b < B -> 0 <= t < T -> 0 <= h < NH -> 0 <= i < hs -> 0 <= k < 3 ->
  0 <= qkv_index b t h i k < B * T * (C * 3).
Proof.
  intros Hb Ht Hh Hi Hk. unfold qkv_index.
  pose proof (head_in_channels C NH h i Hh Hi) as Hc. fold hs in Hc.
  apply radix_bound; [now apply radix_bound | nia].
Qed.

Lemma query_cell b t h i :
  inp +! (b * T * (C * 3) + t * (C * 3) + h * hs) +! i = inp +! qkv_index b t h i 0.
Proof. rewrite padd_padd. f_equal. unfold qkv_index. ring. Qed.

Lemma key_cell b t2 h i :
  inp +! (b * T * (C * 3) + t2 * (C * 3) + h * hs + C) +! i = inp +! qkv_index b t2 h i 1.
Proof. rewrite padd_padd. f_equal. unfold qkv_index. ring. Qed.

Lemma value_cell b t2 h i :
  inp +! (b * T * (C * 3) + t2 * (C * 3) + h * hs + C * 2) +! i
  = inp +! qkv_index b t2 h i 2.
Proof. rewrite padd_padd. f_equal. unfold qkv_index. ring. Qed.

(** No round writes the input. *)
Lemma inp_untouched k b t h :
  0 <= k < B * T * (C * 3) -> 0 <= b < B -> 0 <= t < T -> 0 <= h < NH ->
  untouched_by out preatt att T C NH b t h (inp +! k).
Proof.
  intros Hk Hb Ht Hh. destruct Hsep as (_ & _ & _ & Hpi & Hai & Hoi).
  repeat split.
  - intros t2 Ht2 E. symmetry in E. revert E.
    apply (disjoint_neq _ _ _ _ _ _ Hpi); [|assumption].
    apply att_index_bound; try assumption; lia.
  - intros t2 Ht2 E. symmetry in E. revert E.
    apply (disjoint_neq _ _ _ _ _ _ Hai); [|assumption].
    apply att_index_bound; try assumption; lia.
  - intros t2 Ht2 E. symmetry in E. revert E.
    apply (disjoint_neq _ _ _ _ _ _ Hai); [|assumption].
    now apply att_index_bound.
  - intros i Hi E. symmetry in E. revert E.
    apply (disjoint_neq _ _ _ _ _ _ Hoi); [|assumption].
    now apply out_index_bound.
Qed.

(** An output cell is written by the round of its position and head only. *)
Lemma out_untouched b0 t0 h0 i0 b t h :
  0 <= b0 < B -> 0 <= t0 < T -> 0 <= h0 < NH -> 0 <= i0 < hs ->
  0 <= b < B -> 0 <= t < T -> 0 <= h < NH -> (b, t, h) <> (b0, t0, h0) ->
  untouched_by out preatt att T C NH b t h (out +! out_index T C NH b0 t0 h0 i0).
Proof.
  intros Hb0 Ht0 Hh0 Hi0 Hb Ht Hh Hne.
  destruct Hsep as (_ & Hpo & Hao & _).
  pose proof (out_index_bound B T C NH b0 t0 h0 i0 Hb0 Ht0 Hh0 Hi0) as Hin.
  repeat split.
  - intros t2 Ht2 E. symmetry in E. revert E.
    apply (disjoint_neq _ _ _ _ _ _ Hpo); [|assumption].
    apply att_index_bound; try assumption; lia.
  - intros t2 Ht2 E. symmetry in E. revert E.
    apply (disjoint_neq _ _ _ _ _ _ Hao); [|assumption].
    apply att_index_bound; try assumption; lia.
  - intros t2 Ht2 E. symmetry in E. revert E.
    apply (disjoint_neq _ _ _ _ _ _ Hao); [|assumption].
    now apply att_index_bound.
  - intros i Hi E. apply padd_inj in E. unfold out_index in E. fold hs in E.
    pose proof (head_in_channels C NH h0 i0 Hh0 Hi0) as Hc0.
    pose proof (head_in_channels C NH h i Hh Hi) as Hc. fold hs in Hc0, Hc.
    assert (E1 : (b0 * T + t0) * C + (h0 * hs + i0) = (b * T + t) * C + (h * hs + i))
      by lia.
    apply (radix_inj C) in E1; [|assumption|assumption]. destruct E1 as [E1 E2].
    apply (radix_inj T) in E1; [|assumption|assumption]. destruct E1 as [-> ->].
    apply (radix_inj hs) in E2; [|assumption|assumption]. destruct E2 as [-> _].
    now apply Hne.
Qed.

Lemma attention_score_ext (m0 m : mem (F:=F)) b t h t2 :
  0 <= b < B -> 0 <= t < T -> 0 <= h < NH -> 0 <= t2 < T ->
  (forall k, 0 <= k < B * T * (C * 3) -> load m (inp +! k) = load m0 (inp +! k)) ->
  attention_score m b t h t2 = attention_score m0 b t h t2.
Proof.
  intros Hb Ht Hh Ht2 Hinp. unfold attention_score. f_equal.
  apply fsum_ext. intros i Hi.
  rewrite !Hinp; [reflexivity | |]; apply qkv_index_bound; try assumption; lia.
Qed.

(** The first pass: the scores. *)
Lemma pass1_scores b t h (m : mem (F:=F)) t2 :
  0 <= b < B -> 0 <= t < T -> 0 <= h < NH -> 0 <= t2 <= t ->
  load (fst (attention_pass1 preatt inp T C NH b t h m)) (preatt +! att_index NH T b h t t2)
  = attention_score m b t h t2.
Proof.
  intros Hb Ht Hh Ht2. unfold attention_pass1. cbv zeta. fold hs.
  destruct Hsep as (_ & _ & _ & Hpi & _).
  set (pcell := fun j => preatt +! att_index NH T b h t j).
  set (Inv := fun k (s : mem (F:=F) * F) =>
                (forall j, 0 <= j < k -> load (fst s) (pcell j) = attention_score m b t h j) /\
                (forall n, 0 <= n < B * T * (C * 3) ->
                   load (fst s) (inp +! n) = load m (inp +! n))).
  match goal with
  | |- load (fst ?r) _ = _ => assert (H : Inv (t + 1) r)
  end.
  { apply (for_loop_invariant Inv); [lia | split; [intros; lia | reflexivity] |].
    intros k [m' maxval] Hk [Hdone Hin]. cbn [fst] in *. unfold Inv. cbn [fst].
    rewrite row_cell. fold (pcell k). split.
    - intros j Hj. destruct (Z.eq_dec j k) as [->|Hne].
      + rewrite load_store_same. unfold attention_score. f_equal.
        apply for_loop_ext. intros i acc Hi. rewrite query_cell, key_cell.
        rewrite !Hin; [reflexivity | |]; apply qkv_index_bound; try assumption; lia.
      + rewrite load_store_other; [apply Hdone; lia|].
        apply padd_neq. unfold att_index. lia.
    - intros n Hn. rewrite load_store_other; [now apply Hin|].
      intros E. symmetry in E. revert E.
      apply (disjoint_neq _ _ _ _ _ _ Hpi); [|assumption].
      apply att_index_bound; try assumption; lia. }
  destruct H as [H _]. apply (H t2). lia.
Qed.

(** The fourth pass: the weighted values, added in the order of [t2]. *)
Lemma pass4_sum b t h (m0 m : mem (F:=F)) i :
  0 <= b < B -> 0 <= t < T -> 0 <= h < NH -> 0 <= i < hs ->
  (forall k, 0 <= k < B * T * (C * 3) -> load m (inp +! k) = load m0 (inp +! k)) ->
  load (attention_pass4 out att inp T C NH b t h m) (out +! out_index T C NH b t h i)
  = fsum 0 (t + 1) (fun t2 =>
      fmul (load m (att +! att_index NH T b h t t2))
           (load m0 (inp +! qkv_index b t2 h i 2))).
Proof.
  intros Hb Ht Hh Hi Hinp. unfold attention_pass4. cbv zeta. fold hs.
  destruct Hsep as (_ & _ & Hao & _ & _ & Hoi).
  set (ocell := fun j => out +! out_index T C NH b t h j).
  assert (Hocell : forall j, out +! (b * T * C + t * C + h * hs) +! j = ocell j).
  { intros j. unfold ocell, out_index. fold hs. apply padd_padd. }
  assert (Hdiff : forall j k, j <> k -> ocell j <> ocell k).
  { intros j k Hjk. unfold ocell. apply padd_neq. unfold out_index. lia. }
  (* what the pass does not write *)
  set (kept := fun q : ptr => forall j, 0 <= j < hs -> q <> ocell j).
  assert (Hatt_kept : forall t2, 0 <= t2 < T -> kept (att +! att_index NH T b h t t2)).
  { intros t2 Ht2 j Hj. apply (disjoint_neq _ _ _ _ _ _ Hao).
    - now apply att_index_bound.
    - unfold out_index. now apply (out_index_bound B T C NH). }
  assert (Hinp_kept : forall k, 0 <= k < B * T * (C * 3) -> kept (inp +! k)).
  { intros k Hk j Hj E. symmetry in E. revert E.
    apply (disjoint_neq _ _ _ _ _ _ Hoi); [|assumption].
    now apply (out_index_bound B T C NH). }
  (* the cells are zeroed *)
  set (m1 := for_loop 0 hs (fun j m' => store m' (out +! (b * T * C + t * C + h * hs) +! j) fzero) m).
  assert (Hm1 : (forall j, 0 <= j < hs -> load m1 (ocell j) = fzero) /\
                (forall q, kept q -> load m1 q = load m q)).
  { subst m1.
    set (Inv := fun k (m' : mem (F:=F)) =>
                  (forall j, 0 <= j < k -> load m' (ocell j) = fzero) /\
                  (forall q, kept q -> load m' q = load m q)).
    assert (H : Inv hs (for_loop 0 hs
                          (fun j m' => store m' (out +! (b * T * C + t * C + h * hs) +! j) fzero)
                          m)).
    { apply (for_loop_invariant Inv); [lia | split; [intros; lia | reflexivity] |].
      intros k m' Hk [Hdone Hrest]. unfold Inv. rewrite Hocell. split.
      - intros j Hj. destruct (Z.eq_dec j k) as [->|Hne].
        + now rewrite load_store_same.
        + rewrite load_store_other by now apply Hdiff. apply Hdone. lia.
      - intros q Hq. rewrite load_store_other by now apply Hq. now apply Hrest. }
    exact H. }
  destruct Hm1 as [Hzero Hkept1]. clearbody m1.
  set (term := fun t2 j => fmul (load m (att +! att_index NH T b h t t2))
                                (load m0 (inp +! qkv_index b t2 h j 2))).
  set (Outer := fun k (m' : mem (F:=F)) =>
                  (forall j, 0 <= j < hs ->
                     load m' (ocell j) = fsum 0 k (fun t2 => term t2 j)) /\
                  (forall q, kept q -> load m' q = load m q)).
  match goal with
  | |- load ?r _ = _ => assert (H : Outer (t + 1) r)
  end.
  { apply (for_loop_invariant Outer); [lia | |].
    - split; [|assumption]. intros j Hj. unfold fsum. rewrite for_loop_empty by lia.
      now apply Hzero.
    - intros k m' Hk [Hdone Hrest]. unfold Outer.
      rewrite row_cell. rewrite (Hrest _ (Hatt_kept k ltac:(lia))).
      set (Inner := fun n (m'' : mem (F:=F)) =>
                      (forall j, 0 <= j < n ->
                         load m'' (ocell j) = fsum 0 (k + 1) (fun t2 => term t2 j)) /\
                      (forall j, n <= j < hs ->
                         load m'' (ocell j) = fsum 0 k (fun t2 => term t2 j)) /\
                      (forall q, kept q -> load m'' q = load m q)).
      match goal with
      | |- (forall j, _ -> load ?r _ = _) /\ _ => assert (Hin : Inner hs r)
      end.
      { apply (for_loop_invariant Inner); [lia | |].
        - split; [intros; lia|]. split; [intros j Hj; apply Hdone; lia | assumption].
        - intros n m'' Hn (Hnew & Hold & Hrest'). unfold Inner. rewrite Hocell, value_cell.
          assert (Hv : load m'' (inp +! qkv_index b k h n 2)
                       = load m0 (inp +! qkv_index b k h n 2)).
          { rewrite Hrest', Hinp; try reflexivity.
            - apply qkv_index_bound; try assumption; lia.
            - apply Hinp_kept. apply qkv_index_bound; try assumption; lia. }
          rewrite Hv, (Hold n) by lia.
          split; [|split].
          + intros j Hj. destruct (Z.eq_dec j n) as [->|Hne].
            * rewrite load_store_same. unfold fsum at 2.
              rewrite (for_loop_tail 0 (k + 1)) by lia.
              replace (k + 1 - 1) with k by lia. reflexivity.
            * rewrite load_store_other by now apply Hdiff. apply Hnew. lia.
          + intros j Hj. rewrite load_store_other by (apply Hdiff; lia). apply Hold. lia.
          + intros q Hq. rewrite load_store_other by now apply Hq. now apply Hrest'. }
      destruct Hin as (Hnew & _ & Hrest'). split; [exact Hnew | exact Hrest']. }
  destruct H as [Hsum _]. now apply (Hsum i).
Qed.

(** What the round (b, t, h) leaves in its scores and in its output. *)
Lemma round_values b t h (m0 m : mem (F:=F)) :
  0 <= b < B -> 0 <= t < T -> 0 <= h < NH ->
  (forall k, 0 <= k < B * T * (C * 3) -> load m (inp +! k) = load m0 (inp +! k)) ->
  let m' := attention_round out preatt att inp T C NH b t h m in
  (forall t2, 0 <= t2 <= t ->
     load m' (preatt +! att_index NH T b h t t2) = attention_score m0 b t h t2) /\
  (forall i, 0 <= i < hs ->
     load m' (out +! out_index T C NH b t h i)
     = fsum 0 (t + 1) (fun t2 =>
         fmul (load m' (att +! att_index NH T b h t t2))
              (load m0 (inp +! qkv_index b t2 h i 2)))).
Proof.
  intros Hb Ht Hh Hinp. cbv zeta.
  pose proof Hsep as (Hpa & Hpo & Hao & Hpi & Hai & Hoi).
  unfold attention_round.
  pose proof (fun t2 H => pass1_scores b t h m t2 Hb Ht Hh H) as Hscore.
  pose proof (fun k (H : 0 <= k < B * T * (C * 3)) =>
                pass1_keeps preatt inp T C NH b t h (inp +! k) m
                  (proj1 (inp_untouched k b t h H Hb Ht Hh))) as Hin1.
  destruct (attention_pass1 preatt inp T C NH b t h m) as [m1 maxval].
  cbn [fst] in Hscore, Hin1.
  pose proof (fun q H => pass2_keeps preatt att T NH b t h maxval q m1 H) as Hkeep2.
  destruct (attention_pass2 preatt att T NH b t h maxval m1) as [m2 expsum].
  cbn [fst snd] in Hkeep2.
  set (inv := if feqb expsum fzero then fzero else fdiv fone expsum).
  set (m3 := attention_pass3 att T NH b t h inv m2).
  set (m4 := attention_pass4 out att inp T C NH b t h m3).
  split.
  - intros t2 Ht2. unfold m4, m3.
    rewrite pass4_keeps
      by (intros i Hi; apply (disjoint_neq _ _ _ _ _ _ Hpo);
          [apply att_index_bound; try assumption; lia
          | now apply (out_index_bound B T C NH)]).
    rewrite pass3_keeps
      by (intros j Hj; apply (disjoint_neq _ _ _ _ _ _ Hpa);
          apply att_index_bound; try assumption; lia).
    rewrite Hkeep2
      by (intros j Hj; apply (disjoint_neq _ _ _ _ _ _ Hpa);
          apply att_index_bound; try assumption; lia).
    rewrite Hscore by assumption. apply attention_score_ext; try assumption; lia.
  - intros i Hi. unfold m4 at 1.
    rewrite (pass4_sum b t h m0 m3 i Hb Ht Hh Hi).
    + apply fsum_ext. intros t2 Ht2. f_equal. unfold m4. symmetry.
      apply pass4_keeps. intros j Hj. apply (disjoint_neq _ _ _ _ _ _ Hao).
      * apply att_index_bound; try assumption; lia.
      * now apply (out_index_bound B T C NH).
    + intros k Hk. destruct (inp_untouched k b t h Hk Hb Ht Hh) as (U1 & U2 & U3 & U4).
      unfold m3. rewrite pass3_keeps by exact U3. rewrite Hkeep2 by exact U2.
      rewrite Hin1 by assumption. now apply Hinp.
Qed.

(** What the kernel leaves in the scores and in the output of the position
    (b, t) and head [h]. *)
Lemma attention_forward_values (m : mem (F:=F)) b t h :
  0 <= b < B -> 0 <= t < T -> 0 <= h < NH ->
  let m' := attention_forward out preatt att inp B T C NH m in
  (forall t2, 0 <= t2 <= t ->
     load m' (preatt +! att_index NH T b h t t2) = attention_score m b t h t2) /\
  (forall i, 0 <= i < hs ->
     load m' (out +! out_index T C NH b t h i)
     = fsum 0 (t + 1) (fun t2 =>
         fmul (load m' (att +! att_index NH T b h t t2))
              (load m (inp +! qkv_index b t2 h i 2)))).
Proof.
  intros Hb Ht Hh. cbv zeta.
  pose proof Hsep as (Hpa & Hpo & Hao & _).
  set (I := fun m' : mem (F:=F) =>
              forall k, 0 <= k < B * T * (C * 3) -> load m' (inp +! k) = load m (inp +! k)).
  set (Q := fun m' : mem (F:=F) =>
     (forall t2, 0 <= t2 <= t ->
        load m' (preatt +! att_index NH T b h t t2) = attention_score m b t h t2) /\
     (forall i, 0 <= i < hs ->
        load m' (out +! out_index T C NH b t h i)
        = fsum 0 (t + 1) (fun t2 =>
            fmul (load m' (att +! att_index NH T b h t t2))
                 (load m (inp +! qkv_index b t2 h i 2))))).
  apply (attention_pick_inv out preatt att inp B T C NH I Q b t h m Hb Ht Hh).
  - intros k Hk. reflexivity.
  - intros b' t' h' m1 Hb' Ht' Hh' Hm1 k Hk.
    rewrite round_keeps by now apply inp_untouched. now apply Hm1.
  - intros m1 Hm1. now apply round_values.
  - intros b' t' h' m1 Hb' Ht' Hh' Hne Hm1 (Q1 & Q2). split.
    + intros t2 Ht2. rewrite round_keeps; [now apply Q1|].
      apply (score_untouched out preatt att B T C NH Hpa Hpo); try assumption; lia.
    + intros i Hi. rewrite round_keeps by now apply out_untouched.
      rewrite (Q2 i Hi). apply fsum_ext. intros t2 Ht2. f_equal. symmetry.
      apply round_keeps.
      apply (weight_untouched out preatt att B); try assumption; lia.
Qed.

End AttentionValues.

Lemma Rsign_zero : Rsign 0 = Eq.
Proof. unfold Rsign. destruct (Rlt_dec 0 0); [lra | reflexivity]. Qed.

Lemma Rsign_pos r : (0 < r)%R -> Rsign r = Gt.
Proof. intros H. unfold Rsign. destruct (Rlt_dec 0 r); [reflexivity | contradiction]. Qed.

Lemma Rsign_neg r : (r < 0)%R -> Rsign r = Lt.
Proof.
  intros H. unfold Rsign.
  destruct (Rlt_dec 0 r); [lra|]. destruct (Rlt_dec r 0); [reflexivity | contradiction].
Qed.

Lemma for_loop_once {S : Type} (body : Z -> S -> S) (s : S) :
  for_loop 0 1 body s = body 0 s.
Proof. rewrite for_loop_head by lia. now rewrite for_loop_empty by lia. Qed.


(** ** Kernels that loop over the positions (b, t) *)

(** A property that round (b0, t0) of a loop over the positions sets up
    and that the other rounds keep holds after the loop. *)
Lemma positions_pick {S : Type} (Q : S -> Prop) (B T : Z) (round : Z -> Z -> S -> S)
  b0 t0 s :
  0 <= b0 < B -> 0 <= t0 < T ->
  (forall s', Q (round b0 t0 s')) ->
  (forall b t s', 0 <= b < B -> 0 <= t < T -> (b, t) <> (b0, t0) -> Q s' ->
     Q (round b t s')) ->
  Q (for_loop 0 B (fun b s => for_loop 0 T (fun t s => round b t s) s) s).
Proof.
  intros Hb0 Ht0 Hset Hkeep.
  apply (for_loop_pick Q 0 B _ s b0 Hb0).
  - intros s1. apply (for_loop_pick Q 0 T _ s1 t0 Ht0).
    + apply Hset.
    + intros t s2 Ht Hne. apply Hkeep; try assumption. congruence.
  - intros b s1 Hb Hne HQ. apply for_loop_preserve; [assumption|].
    intros t s2 Ht. apply Hkeep; try assumption. congruence.
Qed.

(** The index of element [i] of row (b, t) in a (B, T, W) tensor. *)
Definition row_index (T W b t i : Z) : Z := b * T * W + t * W + i.

Lemma row_index_nested T W b t i : row_index T W b t i = (b * T + t) * W + i.
Proof. unfold row_index. ring. Qed.

Lemma row_index_inj T W b t i b' t' i' :
  0 <= t < T -> 0 <= t' < T -> 0 <= i < W -> 0 <= i' < W ->
  row_index T W b t i = row_index T W b' t' i' -> b = b' /\ t = t' /\ i = i'.
Proof.
  intros Ht Ht' Hi Hi'. rewrite !row_index_nested. intros E.
  apply (radix_inj W) in E; [|assumption|assumption]. destruct E as [E ->].
  apply (radix_inj T) in E; [|assumption|assumption]. destruct E as [-> ->].
  repeat split.
Qed.

Lemma row_index_bound B T W b t i :
  0 <= b < B -> 0 <= t < T -> 0 <= i < W -> 0 <= row_index T W b t i < B * T * W.
Proof.
  intros Hb Ht Hi. rewrite row_index_nested.
  apply radix_bound; [now apply radix_bound | assumption].
Qed.

Lemma row_elem (p : ptr) T W b t i :
  p +! (b * T * W + t * W) +! i = p +! row_index T W b t i.
Proof. apply padd_padd. Qed.

(** ** The output softmax *)

Section Softmax.

Context {F : Type} {ops : FloatOps F}.
Variables (probs logits : ptr) (B T V Vp : Z).

Definition softmax_round (b t : Z) (m : mem (F:=F)) : mem :=
  let logits_bt := logits +! (b * T * Vp + t * Vp) in
  let probs_bt := probs +! (b * T * Vp + t * Vp) in
  let maxval := for_loop 0 V (fun i maxval =>
                  if fltb maxval (load m (logits_bt +! i))
                  then load m (logits_bt +! i) else maxval)
                  (fneg (fdec 10000 0)) in
  let '(m, sum) :=
    for_loop 0 V (fun i '(m, sum) =>
      let m := store m (probs_bt +! i)
                 (fexp (fsub (load m (logits_bt +! i)) maxval)) in
      (m, fadd sum (load m (probs_bt +! i))))
    (m, fzero) in
  let m := for_loop 0 V (fun i m =>
             store m (probs_bt +! i) (fdiv (load m (probs_bt +! i)) sum)) m in
  for_loop V Vp (fun i m => store m (probs_bt +! i) fzero) m.

Lemma softmax_rounds m :
  softmax_forward probs logits B T V Vp m
  = for_loop 0 B (fun b m => for_loop 0 T (fun t m => softmax_round b t m) m) m.
Proof. reflexivity. Qed.

(** Round (b, t) writes the row (b, t) of [probs] only. *)
Lemma softmax_round_keeps b t q m :
  (forall i, 0 <= i < V \/ V <= i < Vp -> q <> probs +! row_index T Vp b t i) ->
  load (softmax_round b t m) q = load m q.
Proof.
  intros H. unfold softmax_round. cbv zeta.
  match goal with
  | |- context [for_loop 0 V ?f (m, fzero)] =>
      assert (E : load (fst (for_loop 0 V f (m, fzero))) q = load m q);
      [| destruct (for_loop 0 V f (m, fzero)) as [m1 sum]; cbn [fst] in E ]
  end.
  { apply (for_loop_preserve (fun s : mem * F => load (fst s) q = load m q));
      [reflexivity|].
    intros i [m' sum] Hi IH. cbn [fst] in *.
    rewrite !row_elem, load_store_other; [exact IH | apply H; lia]. }
  rewrite <- E.
  rewrite (keeps_for_loop (fun m => m)).
  - apply (keeps_for_loop (fun m => m)). intros i Hi m'.
    rewrite !row_elem, load_store_other; [reflexivity | apply H; lia].
  - intros i Hi m'. rewrite !row_elem, load_store_other; [reflexivity | apply H; lia].
Qed.

(** The last loop of a round leaves 0 in the padded entries of its row. *)
Lemma softmax_round_pads b t m i :
  V <= i < Vp ->
  load (softmax_round b t m) (probs +! row_index T Vp b t i) = fzero.
Proof.
  intros Hi. unfold softmax_round. cbv zeta.
  match goal with
  | |- context [for_loop 0 V ?f (m, fzero)] =>
      destruct (for_loop 0 V f (m, fzero)) as [m1 sum]
  end.
  apply (for_loop_pick
           (fun m' : mem (F:=F) => load m' (probs +! row_index T Vp b t i) = fzero)
           V Vp _ _ i Hi).
  - intros m'. now rewrite row_elem, load_store_same.
  - intros j m' Hj Hne IH. rewrite row_elem, load_store_other; [exact IH|].
    apply padd_neq. unfold row_index. lia.
Qed.

(** The rows of distinct positions are disjoint when [V <= Vp]. *)
Lemma softmax_other_round b0 t0 i0 b t m :
  0 <= V <= Vp -> 0 <= t0 < T -> 0 <= t < T -> 0 <= i0 < Vp -> (b, t) <> (b0, t0) ->
  load (softmax_round b t m) (probs +! row_index T Vp b0 t0 i0)
  = load m (probs +! row_index T Vp b0 t0 i0).
Proof.
  intros HV Ht0 Ht Hi0 Hne. apply softmax_round_keeps.
  intros i Hi E. apply padd_inj in E.
  assert (Hi' : 0 <= i < Vp) by lia.
  apply row_index_inj in E; try assumption.
  destruct E as (-> & -> & _). now apply Hne.
Qed.

End Softmax.

(** A loop that rewrites each cell of a row from its own value. *)
Lemma map_cells_loop {F : Type} {ops : FloatOps F} (cell : Z -> ptr) (g : Z -> F -> F)
  lo hi (m : mem (F:=F)) i :
  (forall j k, lo <= j < hi -> lo <= k < hi -> j <> k -> cell j <> cell k) ->
  lo <= i < hi ->
  load (for_loop lo hi (fun j m' => store m' (cell j) (g j (load m' (cell j)))) m) (cell i)
  = g i (load m (cell i)).
Proof.
  intros Hinj Hi.
  assert (H : (fun k (m' : mem (F:=F)) =>
                 (forall j, lo <= j < k -> load m' (cell j) = g j (load m (cell j))) /\
                 (forall j, k <= j < hi -> load m' (cell j) = load m (cell j)))
                hi (for_loop lo hi
                      (fun j m' => store m' (cell j) (g j (load m' (cell j)))) m)).
  { apply (for_loop_invariant
             (fun k (m' : mem (F:=F)) =>
                (forall j, lo <= j < k -> load m' (cell j) = g j (load m (cell j))) /\
                (forall j, k <= j < hi -> load m' (cell j) = load m (cell j))));
      [lia | split; [intros; lia | reflexivity] |].
    intros k m' Hk [Hdone Hrest]. split.
    - intros j Hj. destruct (Z.eq_dec j k) as [->|Hjk].
      + rewrite load_store_same. now rewrite Hrest by lia.
      + rewrite load_store_other by (apply Hinj; lia). apply Hdone. lia.
    - intros j Hj. rewrite load_store_other by (apply Hinj; lia). apply Hrest. lia. }
  apply H. assumption.
Qed.

(** ** What the softmax computes *)

Section SoftmaxValue.

Context {F : Type} {ops : FloatOps F}.
Variables (probs logits : ptr) (B T V Vp : Z).
Hypothesis HV : 0 <= V <= Vp.
Hypothesis Hsep : disjoint logits (B * T * Vp) probs (B * T * Vp).

Let pcell (b t i : Z) : ptr := probs +! row_index T Vp b t i.
Let lcell (b t i : Z) : ptr := logits +! row_index T Vp b t i.

(** The value that the kernel leaves at entry [i < V] of the row (b, t),
    from the logits of the row in the heap [m]: with [maxval] the running
    maximum of the logits from -10000.0f and [sum] the sum of the
    exponentials, [expf(logit i - maxval) / sum]. *)
Definition softmax_value (m : mem (F:=F)) (b t i : Z) : F :=
  let logit j := load m (logits +! row_index T Vp b t j) in
  let maxval := fmaximum 0 V logit (fneg (fdec 10000 0)) in
  let e j := fexp (fsub (logit j) maxval) in
  fdiv (e i) (fsum 0 V e).

Lemma logit_not_prob b t i b' t' i' :
  0 <= b < B -> 0 <= t < T -> 0 <= i < Vp ->
  0 <= b' < B -> 0 <= t' < T -> 0 <= i' < Vp ->
  lcell b t i <> pcell b' t' i'.
Proof.
  intros Hb Ht Hi Hb' Ht' Hi'.
  apply (disjoint_neq _ _ _ _ _ _ Hsep); now apply row_index_bound.
Qed.

Lemma softmax_round_logits b t b' t' i (m : mem (F:=F)) :
  0 <= b < B -> 0 <= t < T -> 0 <= b' < B -> 0 <= t' < T -> 0 <= i < Vp ->
  load (softmax_round probs logits T V Vp b' t' m) (lcell b t i) = load m (lcell b t i).
Proof.
  intros Hb Ht Hb' Ht' Hi. apply softmax_round_keeps.
  intros j Hj. apply logit_not_prob; try assumption. lia.
Qed.

Lemma softmax_round_value b t (m : mem (F:=F)) i :
  0 <= b < B -> 0 <= t < T -> 0 <= i < V ->
  load (softmax_round probs logits T V Vp b t m) (pcell b t i) = softmax_value m b t i.
Proof.
  intros Hb Ht Hi. unfold softmax_round, softmax_value. cbv zeta.
  set (logit := fun j => load m (logits +! row_index T Vp b t j)).
  assert (Hmax : for_loop 0 V
                   (fun i maxval =>
                      if fltb maxval (load m (logits +! (b * T * Vp + t * Vp) +! i))
                      then load m (logits +! (b * T * Vp + t * Vp) +! i) else maxval)
                   (fneg (fdec 10000 0))
                 = fmaximum 0 V logit (fneg (fdec 10000 0))).
  { apply for_loop_ext. intros j acc Hj. now rewrite row_elem. }
  rewrite Hmax. set (maxval := fmaximum 0 V logit (fneg (fdec 10000 0))).
  set (e := fun j => fexp (fsub (logit j) maxval)).
  match goal with
  | |- context [for_loop 0 V ?f (m, fzero)] => set (pass := for_loop 0 V f (m, fzero))
  end.
  set (Inv := fun k (s : mem (F:=F) * F) =>
                snd s = fsum 0 k e /\
                (forall j, 0 <= j < k -> load (fst s) (pcell b t j) = e j) /\
                (forall j, 0 <= j < Vp -> load (fst s) (lcell b t j) = load m (lcell b t j))).
  assert (H : Inv V pass).
  { subst pass. apply (for_loop_invariant Inv); [lia | |].
    - split; [reflexivity|]. split; [intros; lia | reflexivity].
    - intros k [m' sum] Hk (Hsum & Hdone & Hlog). unfold Inv. cbn [fst snd] in *.
      rewrite !row_elem. fold (pcell b t k) (lcell b t k).
      rewrite load_store_same, (Hlog k) by lia.
      split; [|split].
      + unfold fsum. rewrite for_loop_tail by lia.
        replace (k + 1 - 1) with k by lia. fold (fsum 0 k e). now rewrite Hsum.
      + intros j Hj. destruct (Z.eq_dec j k) as [->|Hne].
        * now rewrite load_store_same.
        * rewrite load_store_other; [apply Hdone; lia|].
          apply padd_neq. unfold row_index. lia.
      + intros j Hj. rewrite load_store_other; [now apply Hlog|].
        apply logit_not_prob; try assumption. lia. }
  destruct pass as [m1 sum]. destruct H as (Hsum & Hdone & _). cbn [fst snd] in *.
  rewrite (keeps_for_loop (fun m => m)).
  2:{ intros j Hj m'. rewrite row_elem, load_store_other; [reflexivity|].
      apply padd_neq. unfold row_index. lia. }
  unfold pcell. rewrite <- row_elem.
  rewrite (map_cells_loop (fun j => probs +! (b * T * Vp + t * Vp) +! j)
             (fun _ x => fdiv x sum) 0 V m1 i); [| | assumption].
  2:{ intros j k _ _ Hjk. now apply padd_neq. }
  rewrite row_elem. fold (pcell b t i). now rewrite Hdone, Hsum.
Qed.

Lemma softmax_value_stable (m0 m : mem (F:=F)) b t i :
  0 <= i < V ->
  (forall j, 0 <= j < V -> load m (lcell b t j) = load m0 (lcell b t j)) ->
  softmax_value m b t i = softmax_value m0 b t i.
Proof.
  intros Hi H. unfold softmax_value. cbv zeta.
  assert (Emax : fmaximum 0 V (fun j => load m (logits +! row_index T Vp b t j))
                   (fneg (fdec 10000 0))
                 = fmaximum 0 V (fun j => load m0 (logits +! row_index T Vp b t j))
                     (fneg (fdec 10000 0))).
  { apply fmaximum_ext. intros j Hj. now apply H. }
  rewrite Emax. f_equal.
  - f_equal. f_equal. now apply H.
  - apply fsum_ext. intros j Hj. f_equal. f_equal. now apply H.
Qed.

(** The kernel, on the logits of the heap [m] before the call. *)
Lemma softmax_forward_value (m : mem (F:=F)) b t i :
  0 <= b < B -> 0 <= t < T -> 0 <= i < V ->
  load (softmax_forward probs logits B T V Vp m) (pcell b t i) = softmax_value m b t i.
Proof.
  intros Hb Ht Hi. rewrite softmax_rounds.
  set (I := fun m' : mem (F:=F) =>
              forall b' t' j, 0 <= b' < B -> 0 <= t' < T -> 0 <= j < Vp ->
                load m' (lcell b' t' j) = load m (lcell b' t' j)).
  apply (positions_pick_inv I
           (fun m' => load m' (pcell b t i) = softmax_value m b t i)
           B T (softmax_round probs logits T V Vp) b t m Hb Ht).
  - intros b' t' j _ _ _. reflexivity.
  - intros b' t' m' Hb' Ht' Hm' b2 t2 j Hb2 Ht2 Hj.
    rewrite softmax_round_logits by assumption. now apply Hm'.
  - intros m' Hm'. rewrite softmax_round_value by assumption.
    apply softmax_value_stable; [assumption|].
    intros j Hj. apply Hm'; try assumption. lia.
  - intros b' t' m' Hb' Ht' Hne _ HQ.
    unfold pcell. rewrite softmax_other_round; try assumption; lia.
Qed.

(** The padded entries. *)
Lemma softmax_forward_pad (m : mem (F:=F)) b t i :
  0 <= b < B -> 0 <= t < T -> V <= i < Vp ->
  load (softmax_forward probs logits B T V Vp m) (pcell b t i) = fzero.
Proof.
  intros Hb Ht Hi. rewrite softmax_rounds.
  apply (positions_pick (fun m' : mem (F:=F) => load m' (pcell b t i) = fzero)
           B T (softmax_round probs logits T V Vp) b t m Hb Ht).
  - intros m1. now apply softmax_round_pads.
  - intros b' t' m1 Hb' Ht' Hne HQ.
    unfold pcell. rewrite softmax_other_round; try assumption; lia.
Qed.

(** The kernel does not write the logits. *)
Lemma softmax_forward_logits (m : mem (F:=F)) b t i :
  0 <= b < B -> 0 <= t < T -> 0 <= i < Vp ->
  load (softmax_forward probs logits B T V Vp m) (lcell b t i) = load m (lcell b t i).
Proof.
  intros Hb Ht Hi. rewrite softmax_rounds.
  apply (keeps_for_loop (fun m => m)). intros b' Hb'.
  apply (keeps_for_loop (fun m => m)). intros t' Ht' m'.
  now apply softmax_round_logits.
Qed.

End SoftmaxValue.




(** ** Cross-entropy and the mean loss *)

Section Crossentropy.

Context {F : Type} {ops : FloatOps F}.
Variables (losses probs : ptr) (targets : Z -> Z) (B T Vp : Z).

Hypothesis Hsep : disjoint losses (B * T) probs (B * T * Vp).
Hypothesis Htargets : forall i, 0 <= i < B * T -> 0 <= targets i < Vp.

Definition crossentropy_round (b t : Z) (m : mem (F:=F)) : mem :=
  let probs_bt := probs +! (b * T * Vp + t * Vp) in
  let ix := targets (b * T + t) in
  store m (losses +! (b * T + t)) (fneg (flog (load m (probs_bt +! ix)))).

Lemma crossentropy_rounds m :
  crossentropy_forward losses probs targets B T Vp m
  = for_loop 0 B (fun b m => for_loop 0 T (fun t m => crossentropy_round b t m) m) m.
Proof. reflexivity. Qed.

(** The kernel writes the [B * T] losses, and nothing else. *)
Lemma crossentropy_keeps q m :
  (forall i, 0 <= i < B * T -> q <> losses +! i) ->
  load (crossentropy_forward losses probs targets B T Vp m) q = load m q.
Proof.
  intros H. rewrite crossentropy_rounds.
  apply (keeps_for_loop (fun m => m)). intros b Hb.
  apply (keeps_for_loop (fun m => m)). intros t Ht m'.
  unfold crossentropy_round. cbv zeta.
  rewrite load_store_other; [reflexivity|]. apply H. now apply radix_bound.
Qed.

Lemma crossentropy_cell m0 b t :
  0 <= b < B -> 0 <= t < T ->
  load (crossentropy_forward losses probs targets B T Vp m0) (losses +! (b * T + t))
  = fneg (flog (load m0 (probs +! row_index T Vp b t (targets (b * T + t))))).
Proof.
  intros Hb Ht. rewrite crossentropy_rounds.
  set (I := fun m : mem (F:=F) =>
              forall q, (forall i, 0 <= i < B * T -> q <> losses +! i) ->
                        load m q = load m0 q).
  apply (positions_pick_inv I
           (fun m => load m (losses +! (b * T + t))
                     = fneg (flog (load m0 (probs +! row_index T Vp b t
                                                       (targets (b * T + t))))))
           B T crossentropy_round b t m0 Hb Ht).
  - intros q _. reflexivity.
  - intros b' t' m Hb' Ht' Hm q Hq. unfold crossentropy_round. cbv zeta.
    rewrite load_store_other; [now apply Hm|]. apply Hq. now apply radix_bound.
  - intros m Hm. unfold crossentropy_round. cbv zeta.
    rewrite load_store_same, row_elem. do 2 f_equal. apply Hm.
    intros i Hi E. symmetry in E. revert E.
    apply (disjoint_neq _ _ _ _ _ _ Hsep); [assumption|].
    apply row_index_bound; try assumption. apply Htargets. now apply radix_bound.
  - intros b' t' m Hb' Ht' Hne _ HQ. unfold crossentropy_round. cbv zeta.
    rewrite load_store_other; [exact HQ|].
    intros E. apply padd_inj in E. apply (radix_inj T) in E; [|assumption|assumption].
    destruct E as [-> ->]. now apply Hne.
Qed.

End Crossentropy.

(** What the mean of the losses needs of the arithmetic when a loss is
    infinite: laws of IEEE 754 and of [logf].  [pinf] is +infinity and
    [nonneg x] says that [x] is a zero, a positive number or +infinity. *)
Record infinity_laws {F : Type} {ops : FloatOps F} (pinf : F) (nonneg : F -> Prop)
  : Prop := {
  log_zero : flog fzero = fneg pinf;
  neg_neg_inf : fneg (fneg pinf) = pinf;
  nonneg_zero : nonneg fzero;
  nonneg_add : forall x y, nonneg x -> nonneg y -> nonneg (fadd x y);
  add_inf_r : forall x, nonneg x -> fadd x pinf = pinf;
  add_inf_l : forall x, nonneg x -> fadd pinf x = pinf;
  div_inf : forall n, 0 < n < SIZE_MAX1 -> fdiv pinf (of_int n) = pinf
}.

(** A sum of losses of which one is infinite, none negative and none a
    NaN, is infinite. *)
Lemma sum_reaches_infinity {F : Type} {ops : FloatOps F} (pinf : F) (nonneg : F -> Prop)
  (loss : Z -> F) (n i0 : Z) :
  infinity_laws pinf nonneg ->
  0 <= i0 < n -> loss i0 = pinf -> (forall i, 0 <= i < n -> nonneg (loss i)) ->
  for_loop 0 n (fun i acc => fadd acc (loss i)) fzero = pinf.
Proof.
  intros L Hi0 Hinf Hnn.
  assert (H : (fun k acc => nonneg acc /\ (i0 < k -> acc = pinf)) n
                (for_loop 0 n (fun i acc => fadd acc (loss i)) fzero)).
  { apply (for_loop_invariant (fun k acc => nonneg acc /\ (i0 < k -> acc = pinf)));
      [lia | split; [apply (nonneg_zero _ _ L) | intros; lia] |].
    intros k acc Hk [Hacc Hreached]. split.
    - apply (nonneg_add _ _ L); [assumption | now apply Hnn].
    - intros Hlt. destruct (Z.eq_dec k i0) as [->|Hne].
      + rewrite Hinf. now apply (add_inf_r _ _ L).
      + rewrite Hreached by lia. apply (add_inf_l _ _ L). now apply Hnn. }
  apply H. lia.
Qed.

(** C8: [crossentropy_forward], reading probabilities that lie apart
    from the losses at targets inside the padded vocabulary, leaves at
    every position (b, t) the loss [-logf] of the probability at the
    target; and in any arithmetic with the infinities of IEEE 754, when
    that probability is 0 at some position and no loss is negative or a
    NaN, the loss of the position is +infinity and so is the mean loss
    that the forward pass returns: nothing clamps it. *)
Theorem crossentropy_loss_and_mean {F : Type} {ops : FloatOps F}
  (pinf : F) (nonneg : F -> Prop)
  (acts : ActivationTensors) (targets : Z -> Z) (B T Vp : Z) (s : machine (F:=F)) (i0 : Z) :
  infinity_laws pinf nonneg ->
  0 <= B -> 0 <= T -> B * T < SIZE_MAX1 ->
  disjoint (losses acts) (B * T) (probs acts) (B * T * Vp) ->
  (forall i, 0 <= i < B * T -> 0 <= targets i < Vp) ->
  let r := gpt2_forward_loss acts (Some targets) B T Vp s in
  let prob i := load (heap s) (probs acts +! (i * Vp + targets i)) in
  let loss i := load (heap (fst r)) (losses acts +! i) in
  (forall b t, 0 <= b < B -> 0 <= t < T ->
     loss (b * T + t) = fneg (flog (prob (b * T + t)))) /\
  (0 <= i0 < B * T -> prob i0 = fzero ->
   (forall i, 0 <= i < B * T -> nonneg (fneg (flog (prob i)))) ->
   loss i0 = pinf /\ snd r = pinf).
Proof.
  intros L HB HT Hsize Hsep Htargets. cbv zeta.
  unfold gpt2_forward_loss. cbn [fst snd call heap run_kernel].
  assert (Hcell : forall b t, 0 <= b < B -> 0 <= t < T ->
            load (crossentropy_forward (losses acts) (probs acts) targets B T Vp (heap s))
                 (losses acts +! (b * T + t))
            = fneg (flog (load (heap s)
                            (probs acts +! ((b * T + t) * Vp + targets (b * T + t)))))).
  { intros b t Hb Ht.
    rewrite (crossentropy_cell (losses acts) (probs acts) targets B T Vp Hsep Htargets)
      by assumption.
    now rewrite row_index_nested. }
  assert (Hflat : forall i, 0 <= i < B * T ->
            load (crossentropy_forward (losses acts) (probs acts) targets B T Vp (heap s))
                 (losses acts +! i)
            = fneg (flog (load (heap s) (probs acts +! (i * Vp + targets i))))).
  { intros i Hi.
    assert (HTpos : 0 < T) by nia.
    assert (Ei : i = i / T * T + i mod T).
    { pose proof (Z.div_mod i T ltac:(lia)). lia. }
    assert (Hb : 0 <= i / T < B).
    { split; [apply Z.div_pos; lia | apply Z.div_lt_upper_bound; lia]. }
    assert (Ht : 0 <= i mod T < T) by (apply Z.mod_pos_bound; lia).
    revert Ei Hb Ht. generalize (i / T) (i mod T). intros b t -> Hb Ht.
    now apply Hcell. }
  split; [exact Hcell|].
  intros Hi0 Hzero Hnn.
  assert (Hloss0 : load (crossentropy_forward (losses acts) (probs acts) targets B T Vp
                           (heap s)) (losses acts +! i0) = pinf).
  { rewrite Hflat, Hzero by assumption.
    rewrite (log_zero _ _ L). apply (neg_neg_inf _ _ L). }
  split; [exact Hloss0|].
  rewrite (sum_reaches_infinity pinf nonneg _ (B * T) i0 L Hi0 Hloss0).
  - apply (div_inf _ _ L). lia.
  - intros i Hi. rewrite Hflat by assumption. now apply Hnn.
Qed.

(** The laws hold of exact arithmetic with the special values. *)
Definition xnonneg (x : xreal) : Prop :=
  match x with
  | Fin r => (0 <= r)%R
  | PInf => True
  | _ => False
  end.

Lemma xreal_infinity_laws : infinity_laws (ops:=XrealOps) PInf xnonneg.
Proof.
  constructor; cbn [fzero fone fadd fdiv fneg flog of_int XrealOps].
  - unfold xlog. now rewrite Rsign_zero.
  - reflexivity.
  - cbn. lra.
  - intros [a| | |] [b| | |]; cbn; try tauto. lra.
  - intros [a| | |]; cbn; tauto.
  - intros [a| | |]; cbn; tauto.
  - intros n Hn. unfold xdiv. rewrite Rsign_pos; [reflexivity|].
    apply IZR_lt. lia.
Qed.

(** The activations of the tiny model, a heap in which every probability
    is 0, and targets that are all 0. *)
Lemma crossentropy_loss_and_mean_witness :
  let s : machine (F:=xreal) := mkMachine (fun _ _ => Fin 0) [] in
  let r := gpt2_forward_loss (acts tiny_model) (Some (fun _ => 0)) 2 4 16 s in
  load (heap (fst r)) (losses (acts tiny_model) +! 3) = PInf /\ snd r = PInf.
Proof.
  refine (proj2 (crossentropy_loss_and_mean (ops:=XrealOps) PInf xnonneg
                   (acts tiny_model) (fun _ => 0) 2 4 16
                   (mkMachine (fun _ _ => Fin 0) []) 3
                   xreal_infinity_laws _ _ _ _ _) _ _ _).
  - lia.
  - lia.
  - unfold SIZE_MAX1. lia.
  - right; right. vm_compute. discriminate.
  - intros; lia.
  - lia.
  - reflexivity.
  - intros i Hi. cbn [load heap fneg flog XrealOps]. unfold xlog.
    rewrite Rsign_zero. exact I.
Defined.

(** ** The schedule of the forward pass *)

(** The kernels of the library. *)
Inductive kernel : Type :=
| Encoder | LayerNorm | Matmul | Attention | Gelu | ResidualAdd | Softmax | CrossEntropy.

Definition kernel_of (k : kernel_call) : kernel :=
  match k with
  | KEncoder _ _ _ _ _ _ _ => Encoder
  | KLayernorm _ _ _ _ _ _ _ _ _ => LayerNorm
  | KMatmul _ _ _ _ _ _ _ _ => Matmul
  | KAttention _ _ _ _ _ _ _ _ => Attention
  | KGelu _ _ _ => Gelu
  | KResidual _ _ _ _ => ResidualAdd
  | KSoftmax _ _ _ _ _ _ => Softmax
  | KCrossentropy _ _ _ _ _ _ => CrossEntropy
  end.

(** The order of the kernels in one layer, and in a pass over [L] layers
    with or without the loss. *)
Definition layer_schedule : list kernel :=
  [LayerNorm; Matmul; Attention; Matmul; ResidualAdd;
   LayerNorm; Matmul; Gelu; Matmul; ResidualAdd].

Definition forward_schedule (L : Z) (with_loss : bool) : list kernel :=
  [Encoder]
  ++ concat (repeat layer_schedule (Z.to_nat L))
  ++ [LayerNorm; Matmul; Softmax]
  ++ (if with_loss then [CrossEntropy] else []).

(** The arithmetic mean of [x 0], ..., [x (n - 1)], summed in this order. *)
Definition mean_of {F : Type} {ops : FloatOps F} (n : Z) (x : Z -> F) : F :=
  fdiv (for_loop 0 n (fun i acc => fadd acc (x i)) fzero) (of_int n).

(** All token ids, and all target ids when there are targets, are in
    the vocabulary. *)
Definition ids_in_vocabulary (V : Z) (inputs : Z -> Z) (targets : option (Z -> Z))
  (n : Z) : Prop :=
  forall i, 0 <= i < n ->
    0 <= inputs i < V /\
    match targets with
    | Some tg => 0 <= tg i < V
    | None => True
    end.

Lemma concat_repeat_snoc {A : Type} (l : list A) n :
  concat (repeat l (Datatypes.S n)) = concat (repeat l n) ++ l.
Proof.
  induction n as [|n IH]; cbn [repeat concat] in *.
  - now rewrite app_nil_r.
  - rewrite <- app_assoc. f_equal. exact IH.
Qed.

Section Schedule.

Context {F : Type} {ops : FloatOps F}.

Lemma validation_passes V inputs targets n :
  is_int V -> ids_in_vocabulary V inputs targets n ->
  for_loop 0 n (fun i ok => ok && valid_position V inputs targets i) true = true.
Proof.
  intros HV Hids. apply for_loop_preserve; [reflexivity|].
  intros i ok Hi ->. cbn [andb]. unfold valid_position.
  destruct (Hids i Hi) as [Hin Htg].
  assert (Hsmall : forall x, 0 <= x < V -> (0 <=? x) && (to_size_t x <? to_size_t V) = true).
  { intros x Hx. unfold is_int in HV.
    rewrite !to_size_t_small by (unfold SIZE_MAX1; lia).
    apply andb_true_intro. split; [apply Z.leb_le | apply Z.ltb_lt]; lia. }
  rewrite (Hsmall _ Hin). destruct targets as [tg|]; [|reflexivity].
  now rewrite (Hsmall _ Htg).
Qed.

Lemma layer_calls model_consts params acts B T l (s : machine (F:=F)) :
  exists ks,
    calls (gpt2_forward_layer model_consts params acts B T l s) = calls s ++ ks /\
    map kernel_of ks = layer_schedule.
Proof.
  unfold gpt2_forward_layer, call. cbv zeta. cbn [calls].
  rewrite <- !app_assoc. cbn [app].
  eexists. split; [reflexivity|]. reflexivity.
Qed.

Lemma layers_calls model_consts params acts B T L (s : machine (F:=F)) :
  exists ks,
    calls (for_loop 0 L (gpt2_forward_layer model_consts params acts B T) s)
    = calls s ++ ks /\
    map kernel_of ks = concat (repeat layer_schedule (Z.to_nat L)).
Proof.
  destruct (Z_le_gt_dec 0 L) as [HL|HL].
  2:{ exists []. rewrite for_loop_empty by lia.
      replace (Z.to_nat L) with O by lia. now rewrite app_nil_r. }
  apply (for_loop_invariant
           (fun k (s' : machine (F:=F)) =>
              exists ks, calls s' = calls s ++ ks /\
                         map kernel_of ks = concat (repeat layer_schedule (Z.to_nat k))));
    [assumption | |].
  - exists []. now rewrite app_nil_r.
  - intros l s' Hl (ks & Hks & Hkinds).
    destruct (layer_calls model_consts params acts B T l s') as (ks' & Hks' & Hkinds').
    exists (ks ++ ks'). split.
    + now rewrite Hks', Hks, app_assoc.
    + replace (Z.to_nat (l + 1)) with (Datatypes.S (Z.to_nat l)) by lia.
      now rewrite concat_repeat_snoc, map_app, Hkinds, Hkinds'.
Qed.

End Schedule.

Section Pipeline.

Context {F : Type} {ops : FloatOps F}.

(** The heap after the ten kernels of layer [l], each applied to the heap
    that the one before it left. *)
Definition layer_pipeline (model_consts : GPT2Const (F:=F))
  (params : ParameterTensors) (acts : ActivationTensors) (B T : Z)
  (l : Z) (m : mem (F:=F)) : mem :=
  let C := channels (config model_consts) in
  let NH := num_heads (config model_consts) in
  let residual := if l =? 0 then encoded acts
                  else residual3 acts +! ((l - 1) * B * T * C) in
  let m := layernorm_forward (ln1 acts +! (l * B * T * C)) (ln1_mean acts +! (l * B * T))
             (ln1_rstd acts +! (l * B * T)) residual
             (ln1w params +! (l * C)) (ln1b params +! (l * C)) B T C m in
  let m := matmul_forward (qkv acts +! (l * B * T * 3 * C)) (ln1 acts +! (l * B * T * C))
             (qkvw params +! (l * 3 * C * C)) (Some (qkvb params +! (l * 3 * C)))
             B T C (3 * C) m in
  let m := attention_forward (atty acts +! (l * B * T * C))
             (preatt acts +! (l * B * NH * T * T)) (att acts +! (l * B * NH * T * T))
             (qkv acts +! (l * B * T * 3 * C)) B T C NH m in
  let m := matmul_forward (attproj acts +! (l * B * T * C)) (atty acts +! (l * B * T * C))
             (attprojw params +! (l * C * C)) (Some (attprojb params +! (l * C)))
             B T C C m in
  let m := residual_forward (residual2 acts +! (l * B * T * C)) residual
             (attproj acts +! (l * B * T * C)) (B * T * C) m in
  let m := layernorm_forward (ln2 acts +! (l * B * T * C)) (ln2_mean acts +! (l * B * T))
             (ln2_rstd acts +! (l * B * T)) (residual2 acts +! (l * B * T * C))
             (ln2w params +! (l * C)) (ln2b params +! (l * C)) B T C m in
  let m := matmul_forward (fch acts +! (l * B * T * 4 * C)) (ln2 acts +! (l * B * T * C))
             (fcw params +! (l * 4 * C * C)) (Some (fcb params +! (l * 4 * C)))
             B T C (4 * C) m in
  let m := gelu_forward (fch_gelu acts +! (l * B * T * 4 * C))
             (fch acts +! (l * B * T * 4 * C)) (B * T * 4 * C) m in
  let m := matmul_forward (fcproj acts +! (l * B * T * C))
             (fch_gelu acts +! (l * B * T * 4 * C))
             (fcprojw params +! (l * C * 4 * C)) (Some (fcprojb params +! (l * C)))
             B T (4 * C) C m in
  residual_forward (residual3 acts +! (l * B * T * C)) (residual2 acts +! (l * B * T * C))
    (fcproj acts +! (l * B * T * C)) (B * T * C) m.

(** The heap after the whole pass: the encoder, the layers in order, the
    final layernorm, the matmul on the token embeddings, the softmax and,
    with targets, the cross-entropy. *)
Definition forward_pipeline (model : GPT2) (model_consts : GPT2Const (F:=F))
  (inputs : Z -> Z) (targets : option (Z -> Z)) (B T : Z) (m : mem (F:=F)) : mem :=
  let V := vocab_size (config model_consts) in
  let Vp := padded_vocab_size (config model_consts) in
  let C := channels (config model_consts) in
  let L := num_layers (config model_consts) in
  let params := params model in
  let acts := acts model in
  let m := encoder_forward (encoded acts) inputs (wte params) (wpe params) B T C m in
  let m := for_loop 0 L (layer_pipeline model_consts params acts B T) m in
  let m := layernorm_forward (lnf acts) (lnf_mean acts) (lnf_rstd acts)
             (residual3 acts +! ((L - 1) * B * T * C)) (lnfw params) (lnfb params)
             B T C m in
  let m := matmul_forward (logits acts) (lnf acts) (wte params) None B T C Vp m in
  let m := softmax_forward (probs acts) (logits acts) B T V Vp m in
  match targets with
  | Some tg => crossentropy_forward (losses acts) (probs acts) tg B T Vp m
  | None => m
  end.

Lemma layer_heap model_consts params acts B T l (s : machine (F:=F)) :
  heap (gpt2_forward_layer model_consts params acts B T l s)
  = layer_pipeline model_consts params acts B T l (heap s).
Proof. reflexivity. Qed.

Lemma layers_heap model_consts params acts B T L (s : machine (F:=F)) :
  heap (for_loop 0 L (gpt2_forward_layer model_consts params acts B T) s)
  = for_loop 0 L (layer_pipeline model_consts params acts B T) (heap s).
Proof.
  apply (for_loop_rel (fun (s' : machine (F:=F)) m => heap s' = m)); [reflexivity|].
  intros l s' m _ <-. apply layer_heap.
Qed.

Lemma mean_of_ext n (x y : Z -> F) :
  (forall i, 0 <= i < n -> x i = y i) -> mean_of n x = mean_of n y.
Proof.
  intros H. unfold mean_of. f_equal. apply for_loop_ext.
  intros i acc Hi. now rewrite H.
Qed.

(** Every position [i] of [B * T] is a position (b, t). *)
Lemma position_split B T i :
  0 <= i < B * T -> 0 <= B ->
  exists b t, 0 <= b < B /\ 0 <= t < T /\ i = b * T + t.
Proof.
  intros Hi HB.
  assert (HT : 0 < T) by nia.
  exists (i / T), (i mod T).
  pose proof (Z.div_mod i T ltac:(lia)).
  pose proof (Z.mod_pos_bound i T HT).
  repeat split; try lia.
  - apply Z.div_pos; lia.
  - apply Z.div_lt_upper_bound; lia.
Qed.

End Pipeline.



(** * Batch rows are independent *)

(** ** Two runs side by side *)

Section Agreement.

Context {F : Type} {ops : FloatOps F}.
Variable S : ptr -> Prop.

(** Two heaps hold the same values in the cells of [S]. *)
Definition agree (m1 m2 : mem (F:=F)) : Prop :=
  forall q, S q -> load m1 q = load m2 q.

Lemma agree_store m1 m2 p v1 v2 :
  agree m1 m2 -> (S p -> v1 = v2) -> agree (store m1 p v1) (store m2 p v2).
Proof.
  intros H Hv q Hq. destruct (ptr_eq_dec q p) as [->|Hne].
  - rewrite !load_store_same. now apply Hv.
  - rewrite !load_store_other by assumption. now apply H.
Qed.

(** Row [b] of a tensor at [p] with rows of [w] floats lies in [S]. *)
Definition row_low (p : ptr) (w b : Z) : Prop :=
  forall j, 0 <= j < w -> S (p +! (b * w + j)).

(** The rows other than [b], of [B] rows of [w] floats at [p], lie
    outside [S]. *)
Definition rows_high (p : ptr) (w B b : Z) : Prop :=
  forall b' j, 0 <= b' < B -> b' <> b -> 0 <= j < w -> ~ S (p +! (b' * w + j)).

(** The whole block of [p] lies in [S]. *)
Definition block_low (p : ptr) : Prop := forall q, fst q = fst p -> S q.

Lemma block_low_padd p k : block_low p -> S (p +! k).
Proof. intros H. apply H. reflexivity. Qed.

Lemma row_low_at p w b k j :
  row_low p w b -> 0 <= j < w -> k = b * w + j -> S (p +! k).
Proof. intros H Hj ->. now apply H. Qed.

Lemma rows_high_at p w B b b' k j :
  rows_high p w B b -> 0 <= b' < B -> b' <> b -> 0 <= j < w -> k = b' * w + j ->
  ~ S (p +! k).
Proof. intros H Hb Hne Hj ->. now apply H. Qed.

(** *** Residual add and GELU: loops over all the elements *)

(** The element [i] of [B] rows of [w] elements lies in row [i / w]. *)
Lemma element_row w B i :
  0 <= B -> 0 <= i < B * w ->
  0 < w /\ 0 <= i / w < B /\ 0 <= i mod w < w /\ i = i / w * w + i mod w.
Proof.
  intros HB Hi.
  assert (Hw : 0 < w) by nia.
  split; [assumption|].
  split; [split; [apply Z.div_pos; lia | apply Z.div_lt_upper_bound; lia]|].
  split; [apply Z.mod_pos_bound; lia|].
  pose proof (Z.div_mod i w ltac:(lia)). lia.
Qed.

Lemma residual_agree b out inp1 inp2 N w B m1 m2 :
  0 <= B -> N = B * w ->
  row_low inp1 w b -> row_low inp2 w b -> rows_high out w B b ->
  agree m1 m2 ->
  agree (residual_forward out inp1 inp2 N m1) (residual_forward out inp1 inp2 N m2).
Proof.
  intros HB -> H1 H2 Hout Hm. unfold residual_forward.
  apply for_loop_rel; [assumption|].
  intros i a1 a2 Hi Ha.
  destruct (element_row w B i HB Hi) as (Hw & Hb' & Hj & Ei).
  apply agree_store; [assumption|]. intros HS.
  destruct (Z.eq_dec (i / w) b) as [Eb|Hne].
  - rewrite (Ha (inp1 +! i)), (Ha (inp2 +! i)); [reflexivity | |].
    + apply (row_low_at inp2 w b i (i mod w)); [assumption | assumption | lia].
    + apply (row_low_at inp1 w b i (i mod w)); [assumption | assumption | lia].
  - exfalso. revert HS.
    now apply (rows_high_at out w B b (i / w) i (i mod w)).
Qed.

Lemma gelu_agree b out inp N w B m1 m2 :
  0 <= B -> N = B * w ->
  row_low inp w b -> rows_high out w B b ->
  agree m1 m2 ->
  agree (gelu_forward out inp N m1) (gelu_forward out inp N m2).
Proof.
  intros HB -> Hin Hout Hm. unfold gelu_forward.
  apply for_loop_rel; [assumption|].
  intros i a1 a2 Hi Ha.
  destruct (element_row w B i HB Hi) as (Hw & Hb' & Hj & Ei).
  apply agree_store; [assumption|]. intros HS. cbv zeta.
  destruct (Z.eq_dec (i / w) b) as [Eb|Hne].
  - rewrite (Ha (inp +! i)); [reflexivity|].
    apply (row_low_at inp w b i (i mod w)); [assumption | assumption | lia].
  - exfalso. revert HS.
    now apply (rows_high_at out w B b (i / w) i (i mod w)).
Qed.

(** *** Kernels that loop over the positions *)

Lemma positions_rel {S1 S2 : Type} (R : S1 -> S2 -> Prop) (B T : Z)
  (round1 : Z -> Z -> S1 -> S1) (round2 : Z -> Z -> S2 -> S2) s1 s2 :
  R s1 s2 ->
  (forall b t a1 a2, 0 <= b < B -> 0 <= t < T -> R a1 a2 ->
     R (round1 b t a1) (round2 b t a2)) ->
  R (for_loop 0 B (fun b s => for_loop 0 T (fun t s => round1 b t s) s) s1)
    (for_loop 0 B (fun b s => for_loop 0 T (fun t s => round2 b t s) s) s2).
Proof.
  intros Hs Hround. apply for_loop_rel; [assumption|].
  intros b a1 a2 Hb Ha. apply for_loop_rel; [assumption|].
  intros t c1 c2 Ht Hc. now apply Hround.
Qed.

Lemma pos_cell (p : ptr) T W b t i :
  p +! (b * T * W + t * W) +! i = p +! (b * (T * W) + (t * W + i)).
Proof. rewrite padd_padd. f_equal. ring. Qed.

Lemma encoder_agree b out inp1 inp2 wte wpe B T C m1 m2 :
  0 <= b < B ->
  (forall t, 0 <= t < T -> inp1 (b * T + t) = inp2 (b * T + t)) ->
  block_low wte -> block_low wpe -> rows_high out (T * C) B b ->
  agree m1 m2 ->
  agree (encoder_forward out inp1 wte wpe B T C m1)
        (encoder_forward out inp2 wte wpe B T C m2).
Proof.
  intros Hb Hinp Hwte Hwpe Hout Hm. unfold encoder_forward.
  apply positions_rel; [assumption|].
  intros b' t a1 a2 Hb' Ht Ha. cbv zeta.
  apply for_loop_rel; [assumption|].
  intros i c1 c2 Hi Hc. apply agree_store; [assumption|]. intros HS.
  destruct (Z.eq_dec b' b) as [->|Hne].
  - rewrite <- Hinp by assumption.
    rewrite (Hc (wte +! (inp1 (b * T + t) * C) +! i)), (Hc (wpe +! (t * C) +! i));
      [reflexivity | |]; rewrite padd_padd; now apply block_low_padd.
  - exfalso. revert HS. rewrite pos_cell.
    apply (rows_high_at out (T * C) B b b' _ (t * C + i)); try assumption;
      [now apply radix_bound | reflexivity].
Qed.

(** The locals of a round of [layernorm_forward]. *)
Definition layernorm_mean (x : ptr) (C : Z) (m : mem (F:=F)) : F :=
  fdiv (for_loop 0 C (fun i mu => fadd mu (load m (x +! i))) fzero) (of_int C).

Definition layernorm_rstd (x : ptr) (C : Z) (mu : F) (m : mem (F:=F)) : F :=
  let v := for_loop 0 C (fun i v =>
             let xshift := fsub (load m (x +! i)) mu in
             fadd v (fmul xshift xshift)) fzero in
  let v := fdiv v (of_int C) in
  fdiv fone (fsqrt (fadd v (fdec 1 (-5)))).

Lemma layernorm_rounds out mean rstd inp weight bias B T C m :
  layernorm_forward out mean rstd inp weight bias B T C m
  = for_loop 0 B (fun b m =>
      for_loop 0 T (fun t m =>
        let x := inp +! (b * T * C + t * C) in
        let mu := layernorm_mean x C m in
        let s := layernorm_rstd x C mu m in
        let out_bt := out +! (b * T * C + t * C) in
        let m := for_loop 0 C (fun i m =>
                   let n := fmul s (fsub (load m (x +! i)) mu) in
                   let o := fadd (fmul n (load m (weight +! i))) (load m (bias +! i)) in
                   store m (out_bt +! i) o) m in
        let m := store m (mean +! (b * T + t)) mu in
        store m (rstd +! (b * T + t)) s) m) m.
Proof. reflexivity. Qed.

Lemma layernorm_agree b out mean rstd inp weight bias B T C m1 m2 :
  0 <= b < B ->
  row_low inp (T * C) b -> block_low weight -> block_low bias ->
  rows_high out (T * C) B b -> rows_high mean T B b -> rows_high rstd T B b ->
  agree m1 m2 ->
  agree (layernorm_forward out mean rstd inp weight bias B T C m1)
        (layernorm_forward out mean rstd inp weight bias B T C m2).
Proof.
  intros Hb Hinp Hweight Hbias Hout Hmean Hrstd Hm. rewrite !layernorm_rounds.
  apply positions_rel; [assumption|].
  intros b' t a1 a2 Hb' Ht Ha. cbv zeta.
  destruct (Z.eq_dec b' b) as [->|Hne].
  - assert (Hx : forall c1 c2 i, agree c1 c2 -> 0 <= i < C ->
              load c1 (inp +! (b * T * C + t * C) +! i)
              = load c2 (inp +! (b * T * C + t * C) +! i)).
    { intros c1 c2 i Hc Hi. apply Hc. rewrite pos_cell.
      apply Hinp. now apply radix_bound. }
    assert (Hmu : layernorm_mean (inp +! (b * T * C + t * C)) C a1
                  = layernorm_mean (inp +! (b * T * C + t * C)) C a2).
    { unfold layernorm_mean. f_equal. apply for_loop_rel; [reflexivity|].
      intros i x1 x2 Hi ->. now rewrite (Hx a1 a2). }
    rewrite Hmu.
    assert (Hs : layernorm_rstd (inp +! (b * T * C + t * C)) C
                   (layernorm_mean (inp +! (b * T * C + t * C)) C a2) a1
                 = layernorm_rstd (inp +! (b * T * C + t * C)) C
                     (layernorm_mean (inp +! (b * T * C + t * C)) C a2) a2).
    { unfold layernorm_rstd. cbv zeta. do 4 f_equal. apply for_loop_rel; [reflexivity|].
      intros i x1 x2 Hi ->. now rewrite (Hx a1 a2). }
    rewrite Hs.
    apply agree_store; [|reflexivity]. apply agree_store; [|reflexivity].
    apply for_loop_rel; [assumption|].
    intros i c1 c2 Hi Hc. apply agree_store; [assumption|]. intros _.
    rewrite (Hx c1 c2) by assumption.
    rewrite (Hc (weight +! i)), (Hc (bias +! i)); [reflexivity | |];
      now apply block_low_padd.
  - apply agree_store.
    2:{ intros HS. exfalso. revert HS.
        apply (rows_high_at rstd T B b b' _ t); try assumption. reflexivity. }
    apply agree_store.
    2:{ intros HS. exfalso. revert HS.
        apply (rows_high_at mean T B b b' _ t); try assumption. reflexivity. }
    apply for_loop_rel; [assumption|].
    intros i c1 c2 Hi Hc. apply agree_store; [assumption|]. intros HS.
    exfalso. revert HS. rewrite pos_cell.
    apply (rows_high_at out (T * C) B b b' _ (t * C + i)); try assumption;
      [now apply radix_bound | reflexivity].
Qed.

(** *** The matrix product, in both of its forms *)

(** The same separation in terms of the flat position [bt = b * T + t]. *)
Definition flat_low (p : ptr) (B T W b : Z) : Prop :=
  forall bt i, 0 <= bt < B * T -> bt / T = b -> 0 <= i < W -> S (p +! (bt * W + i)).

Definition flat_high (p : ptr) (B T W b : Z) : Prop :=
  forall bt i, 0 <= bt < B * T -> bt / T <> b -> 0 <= i < W -> ~ S (p +! (bt * W + i)).

Lemma flat_low_of_row p B T W b :
  0 <= B -> row_low p (T * W) b -> flat_low p B T W b.
Proof.
  intros HB Hrow bt i Hbt E Hi.
  destruct (element_row T B bt HB Hbt) as (HT & Hq & Hr & Ebt).
  apply (row_low_at p (T * W) b _ (bt mod T * W + i) Hrow); [now apply radix_bound|].
  rewrite Ebt at 1. rewrite E. ring.
Qed.

Lemma flat_high_of_rows p B T W b :
  0 <= B -> rows_high p (T * W) B b -> flat_high p B T W b.
Proof.
  intros HB Hrows bt i Hbt E Hi.
  destruct (element_row T B bt HB Hbt) as (HT & Hq & Hr & Ebt).
  apply (rows_high_at p (T * W) B b (bt / T) _ (bt mod T * W + i) Hrows);
    try assumption; [now apply radix_bound|].
  rewrite Ebt at 1. ring.
Qed.

Lemma position_row B T b t : 0 <= b < B -> 0 <= t < T ->
  0 <= b * T + t < B * T /\ (b * T + t) / T = b.
Proof.
  intros Hb Ht. split; [now apply radix_bound|].
  rewrite Z.div_add_l by lia. rewrite Z.div_small by lia. lia.
Qed.

Definition bias_low (bias : option ptr) : Prop :=
  match bias with
  | Some bp => block_low bp
  | None => True
  end.

Lemma bias_agree bias o m1 m2 :
  bias_low bias -> agree m1 m2 -> bias_or_zero m1 bias o = bias_or_zero m2 bias o.
Proof.
  intros Hbias Hm. destruct bias as [bp|]; [|reflexivity].
  cbn [bias_or_zero]. apply Hm. now apply block_low_padd.
Qed.

Section MatmulAgree.

Variables (out inp weight : ptr) (bias : option ptr) (B T C OC b : Z).
Hypothesis HB : 0 <= B.
Hypothesis Hinp : flat_low inp B T C b.
Hypothesis Hweight : block_low weight.
Hypothesis Hbias : bias_low bias.
Hypothesis Hout : flat_high out B T OC b.

Lemma matmul_naive_agree m1 m2 :
  agree m1 m2 ->
  agree (matmul_forward_naive out inp weight bias B T C OC m1)
        (matmul_forward_naive out inp weight bias B T C OC m2).
Proof.
  intros Hm. unfold matmul_forward_naive.
  apply positions_rel; [assumption|].
  intros b' t a1 a2 Hb' Ht Ha. cbv zeta.
  destruct (position_row B T b' t Hb' Ht) as [Hbt Erow].
  apply for_loop_rel; [assumption|].
  intros o c1 c2 Ho Hc. apply agree_store; [assumption|]. intros HS.
  destruct (Z.eq_dec ((b' * T + t) / T) b) as [E|Hne].
  - apply for_loop_rel; [now apply bias_agree|].
    intros i x1 x2 Hi ->.
    rewrite (Hc (inp +! ((b' * T + t) * C + i))) by now apply Hinp.
    rewrite (Hc (weight +! (o * C + i))) by now apply block_low_padd.
    reflexivity.
  - exfalso. revert HS. now apply Hout.
Qed.

(** The registers [result] of a tile agree where the position is in row [b]. *)
Let registers_agree (obt : Z) (r1 r2 : Z -> F) : Prop :=
  forall ibt, 0 <= ibt < LOOP_UNROLL -> (obt + ibt) / T = b -> r1 ibt = r2 ibt.

Lemma registers_upd obt r1 r2 ibt v1 v2 :
  registers_agree obt r1 r2 -> ((obt + ibt) / T = b -> v1 = v2) ->
  registers_agree obt (upd r1 ibt v1) (upd r2 ibt v2).
Proof.
  intros Hr Hv j Hj E. unfold upd. destruct (j =? ibt) eqn:Ej.
  - apply Z.eqb_eq in Ej. subst j. now apply Hv.
  - now apply Hr.
Qed.

Lemma tile_position k ibt :
  (B * T) mod LOOP_UNROLL = 0 ->
  0 <= k < (B * T - 0 + LOOP_UNROLL - 1) / LOOP_UNROLL -> 0 <= ibt < LOOP_UNROLL ->
  0 <= 0 + k * LOOP_UNROLL + ibt < B * T.
Proof. generalize (B * T). unfold LOOP_UNROLL. intros; Z.div_mod_to_equations; lia. Qed.

Lemma matmul_agree m1 m2 :
  0 <= T ->
  agree m1 m2 ->
  agree (matmul_forward out inp weight bias B T C OC m1)
        (matmul_forward out inp weight bias B T C OC m2).
Proof.
  intros HT Hm. unfold matmul_forward.
  destruct (Z.rem (B * T) LOOP_UNROLL =? 0) eqn:Erem; cbn [negb];
    [|now apply matmul_naive_agree].
  apply Z.eqb_eq in Erem. rewrite Z.rem_mod_nonneg in Erem by (unfold LOOP_UNROLL; nia).
  rewrite !for_loop_step_rounds.
  apply for_loop_rel; [assumption|].
  intros k a1 a2 Hk Ha.
  apply for_loop_rel; [assumption|].
  intros o c1 c2 Ho Hc. cbv zeta.
  set (r1 := for_loop 0 C _ _). set (r2 := for_loop 0 C _ _).
  assert (Hr : registers_agree (0 + k * LOOP_UNROLL) r1 r2).
  { subst r1 r2. apply for_loop_rel.
    - apply for_loop_rel; [intros ibt _ _; reflexivity|].
      intros ibt x1 x2 Hibt Hx. apply registers_upd; [assumption|].
      intros _. now apply bias_agree.
    - intros i x1 x2 Hi Hx. apply for_loop_rel; [assumption|].
      intros ibt y1 y2 Hibt Hy. apply registers_upd; [assumption|].
      intros E. rewrite (Hy ibt Hibt E).
      rewrite (Hc (weight +! (i + o * C))) by now apply block_low_padd.
      rewrite (Hc (inp +! ((0 + k * LOOP_UNROLL + ibt) * C + i)));
        [reflexivity|].
      apply Hinp; [now apply tile_position | assumption | assumption]. }
  clearbody r1 r2.
  apply for_loop_rel; [assumption|].
  intros ibt d1 d2 Hibt Hd. apply agree_store; [assumption|]. intros HS.
  apply Hr; [assumption|].
  destruct (Z.eq_dec ((0 + k * LOOP_UNROLL + ibt) / T) b) as [E|Hne]; [assumption|].
  exfalso. revert HS. apply Hout; [now apply tile_position | assumption | assumption].
Qed.

End MatmulAgree.

(** *** Attention *)

Section AttentionAgree.

Variables (out preatt att inp : ptr) (B T C NH b : Z).
Hypothesis Hb : 0 <= b < B.
Hypothesis Hinp : row_low inp (T * (C * 3)) b.
Hypothesis Hpreatt_low : row_low preatt (NH * T * T) b.
Hypothesis Hatt_low : row_low att (NH * T * T) b.
Hypothesis Hout_low : row_low out (T * C) b.
Hypothesis Hpreatt_high : rows_high preatt (NH * T * T) B b.
Hypothesis Hatt_high : rows_high att (NH * T * T) B b.
Hypothesis Hout_high : rows_high out (T * C) B b.

Let hs := Z.quot C NH.

Lemma score_in_row t h t2 :
  0 <= t < T -> 0 <= h < NH -> 0 <= t2 < T ->
  0 <= h * T * T + t * T + t2 < NH * T * T.
Proof.
  intros Ht Hh Ht2.
  replace (h * T * T + t * T + t2) with ((h * T + t) * T + t2) by ring.
  apply radix_bound; [|assumption]. now apply radix_bound.
Qed.

Lemma channel_in_row t h i k :
  0 <= t < T -> 0 <= h < NH -> 0 <= i < hs -> 0 <= k < 3 ->
  0 <= t * (C * 3) + (h * hs + i + k * C) < T * (C * 3).
Proof.
  intros Ht Hh Hi Hk. pose proof (head_in_channels C NH h i Hh Hi) as Hc.
  fold hs in Hc. apply radix_bound; [assumption|]. nia.
Qed.

Lemma head_in_row t h i :
  0 <= t < T -> 0 <= h < NH -> 0 <= i < hs -> 0 <= t * C + (h * hs + i) < T * C.
Proof.
  intros Ht Hh Hi. pose proof (head_in_channels C NH h i Hh Hi) as Hc.
  fold hs in Hc. now apply radix_bound.
Qed.

Let both (R : mem (F:=F) -> mem (F:=F) -> Prop) (a c : mem (F:=F) * F) : Prop :=
  R (fst a) (fst c) /\ snd a = snd c.

(** A round of the row [b]: what it reads is the same in the two runs. *)
Lemma pass1_agree t h m1 m2 :
  0 <= t < T -> 0 <= h < NH -> agree m1 m2 ->
  both agree (attention_pass1 preatt inp T C NH b t h m1)
             (attention_pass1 preatt inp T C NH b t h m2).
Proof.
  intros Ht Hh Hm. unfold attention_pass1. cbv zeta. fold hs.
  apply (for_loop_rel (both agree)); [split; [assumption | reflexivity]|].
  intros t2 [a1 x1] [a2 x2] Ht2 [Ha Hx]. cbn [fst snd] in Ha, Hx. subst x2.
  set (v1 := for_loop 0 hs _ _). set (v2 := for_loop 0 hs _ _).
  assert (Hv : v1 = v2).
  { subst v1 v2. apply for_loop_rel; [reflexivity|].
    intros i y1 y2 Hi ->.
    rewrite (Ha (inp +! (b * T * (C * 3) + t * (C * 3) + h * hs) +! i)).
    2:{ rewrite padd_padd.
        apply (row_low_at inp _ b _ (t * (C * 3) + (h * hs + i + 0 * C)) Hinp);
          [apply channel_in_row; lia | ring]. }
    rewrite (Ha (inp +! (b * T * (C * 3) + t2 * (C * 3) + h * hs + C) +! i)).
    2:{ rewrite padd_padd.
        apply (row_low_at inp _ b _ (t2 * (C * 3) + (h * hs + i + 1 * C)) Hinp);
          [apply channel_in_row; lia | ring]. }
    reflexivity. }
  clearbody v1 v2. subst v2. split; cbn [fst snd]; [|reflexivity].
  apply agree_store; [assumption | reflexivity].
Qed.

Lemma pass2_agree t h maxval m1 m2 :
  0 <= t < T -> 0 <= h < NH -> agree m1 m2 ->
  both agree (attention_pass2 preatt att T NH b t h maxval m1)
             (attention_pass2 preatt att T NH b t h maxval m2).
Proof.
  intros Ht Hh Hm. unfold attention_pass2. cbv zeta.
  apply (for_loop_rel (both agree)); [split; [assumption | reflexivity]|].
  intros t2 [a1 x1] [a2 x2] Ht2 [Ha Hx]. cbn [fst snd] in Ha, Hx. subst x2.
  rewrite (Ha (preatt +! (b * NH * T * T + h * T * T + t * T) +! t2)).
  2:{ rewrite padd_padd.
      apply (row_low_at preatt _ b _ (h * T * T + t * T + t2) Hpreatt_low);
        [apply score_in_row; lia | ring]. }
  split; cbn [fst snd]; [|reflexivity].
  apply agree_store; [assumption | reflexivity].
Qed.

Lemma pass3_agree t h expsum_inv m1 m2 :
  0 <= t < T -> 0 <= h < NH -> agree m1 m2 ->
  agree (attention_pass3 att T NH b t h expsum_inv m1)
        (attention_pass3 att T NH b t h expsum_inv m2).
Proof.
  intros Ht Hh Hm. unfold attention_pass3. cbv zeta.
  apply for_loop_rel; [assumption|].
  intros t2 a1 a2 Ht2 Ha.
  destruct (t2 <=? t); (apply agree_store; [assumption|]); [|reflexivity].
  intros _. rewrite (Ha (att +! (b * NH * T * T + h * T * T + t * T) +! t2));
    [reflexivity|].
  rewrite padd_padd.
  apply (row_low_at att _ b _ (h * T * T + t * T + t2) Hatt_low);
    [apply score_in_row; lia | ring].
Qed.

Lemma pass4_agree t h m1 m2 :
  0 <= t < T -> 0 <= h < NH -> agree m1 m2 ->
  agree (attention_pass4 out att inp T C NH b t h m1)
        (attention_pass4 out att inp T C NH b t h m2).
Proof.
  intros Ht Hh Hm. unfold attention_pass4. cbv zeta. fold hs.
  apply for_loop_rel.
  { apply for_loop_rel; [assumption|].
    intros i a1 a2 Hi Ha. apply agree_store; [assumption | reflexivity]. }
  intros t2 a1 a2 Ht2 Ha.
  rewrite (Ha (att +! (b * NH * T * T + h * T * T + t * T) +! t2)).
  2:{ rewrite padd_padd.
      apply (row_low_at att _ b _ (h * T * T + t * T + t2) Hatt_low);
        [apply score_in_row; lia | ring]. }
  apply for_loop_rel; [assumption|].
  intros i c1 c2 Hi Hc. apply agree_store; [assumption|]. intros _.
  rewrite (Hc (out +! (b * T * C + t * C + h * hs) +! i)).
  2:{ rewrite padd_padd.
      apply (row_low_at out _ b _ (t * C + (h * hs + i)) Hout_low);
        [now apply head_in_row | ring]. }
  rewrite (Hc (inp +! (b * T * (C * 3) + t2 * (C * 3) + h * hs + C * 2) +! i)).
  2:{ rewrite padd_padd.
      apply (row_low_at inp _ b _ (t2 * (C * 3) + (h * hs + i + 2 * C)) Hinp);
        [apply channel_in_row; lia | ring]. }
  reflexivity.
Qed.

(** A round of another row: what it writes is not compared. *)
Let heaps_only (R : mem (F:=F) -> mem (F:=F) -> Prop) (a c : mem (F:=F) * F) : Prop :=
  R (fst a) (fst c).

Lemma pass1_apart b' t h m1 m2 :
  0 <= b' < B -> b' <> b -> 0 <= t < T -> 0 <= h < NH -> agree m1 m2 ->
  heaps_only agree (attention_pass1 preatt inp T C NH b' t h m1)
              (attention_pass1 preatt inp T C NH b' t h m2).
Proof.
  intros Hb' Hne Ht Hh Hm. unfold attention_pass1. cbv zeta.
  apply (for_loop_rel (heaps_only agree)); [assumption|].
  intros t2 [a1 x1] [a2 x2] Ht2 Ha. unfold heaps_only in *. cbn [fst snd] in *.
  apply agree_store; [assumption|]. intros HS. exfalso. revert HS.
  rewrite padd_padd.
  apply (rows_high_at preatt _ B b b' _ (h * T * T + t * T + t2) Hpreatt_high);
    try assumption; [apply score_in_row; lia | ring].
Qed.

Lemma pass2_apart b' t h x1 x2 m1 m2 :
  0 <= b' < B -> b' <> b -> 0 <= t < T -> 0 <= h < NH -> agree m1 m2 ->
  heaps_only agree (attention_pass2 preatt att T NH b' t h x1 m1)
              (attention_pass2 preatt att T NH b' t h x2 m2).
Proof.
  intros Hb' Hne Ht Hh Hm. unfold attention_pass2. cbv zeta.
  apply (for_loop_rel (heaps_only agree)); [assumption|].
  intros t2 [a1 y1] [a2 y2] Ht2 Ha. unfold heaps_only in *. cbn [fst snd] in *.
  apply agree_store; [assumption|]. intros HS. exfalso. revert HS.
  rewrite padd_padd.
  apply (rows_high_at att _ B b b' _ (h * T * T + t * T + t2) Hatt_high);
    try assumption; [apply score_in_row; lia | ring].
Qed.

Lemma pass3_apart b' t h x1 x2 m1 m2 :
  0 <= b' < B -> b' <> b -> 0 <= t < T -> 0 <= h < NH -> agree m1 m2 ->
  agree (attention_pass3 att T NH b' t h x1 m1)
        (attention_pass3 att T NH b' t h x2 m2).
Proof.
  intros Hb' Hne Ht Hh Hm. unfold attention_pass3. cbv zeta.
  apply for_loop_rel; [assumption|].
  intros t2 a1 a2 Ht2 Ha.
  destruct (t2 <=? t); (apply agree_store; [assumption|]);
    intros HS; exfalso; revert HS; rewrite padd_padd;
    apply (rows_high_at att _ B b b' _ (h * T * T + t * T + t2) Hatt_high);
    try assumption; try (apply score_in_row; lia); ring.
Qed.

Lemma pass4_apart b' t h m1 m2 :
  0 <= b' < B -> b' <> b -> 0 <= t < T -> 0 <= h < NH -> agree m1 m2 ->
  agree (attention_pass4 out att inp T C NH b' t h m1)
        (attention_pass4 out att inp T C NH b' t h m2).
Proof.
  intros Hb' Hne Ht Hh Hm. unfold attention_pass4. cbv zeta. fold hs.
  assert (Hcell : forall i, 0 <= i < hs ->
            ~ S (out +! (b' * T * C + t * C + h * hs) +! i)).
  { intros i Hi. rewrite padd_padd.
    apply (rows_high_at out _ B b b' _ (t * C + (h * hs + i)) Hout_high);
      try assumption; [now apply head_in_row | ring]. }
  apply for_loop_rel.
  { apply for_loop_rel; [assumption|].
    intros i a1 a2 Hi Ha. apply agree_store; [assumption|].
    intros HS. exfalso. revert HS. now apply Hcell. }
  intros t2 a1 a2 Ht2 Ha.
  apply for_loop_rel; [assumption|].
  intros i c1 c2 Hi Hc. apply agree_store; [assumption|].
  intros HS. exfalso. revert HS. now apply Hcell.
Qed.

Lemma attention_agree m1 m2 :
  agree m1 m2 ->
  agree (attention_forward out preatt att inp B T C NH m1)
        (attention_forward out preatt att inp B T C NH m2).
Proof.
  intros Hm. rewrite !attention_rounds.
  apply positions_rel; [assumption|].
  intros b' t a1 a2 Hb' Ht Ha.
  apply for_loop_rel; [assumption|].
  intros h c1 c2 Hh Hc. unfold attention_round.
  destruct (Z.eq_dec b' b) as [->|Hne].
  - pose proof (pass1_agree t h c1 c2 Ht Hh Hc) as H1.
    destruct (attention_pass1 preatt inp T C NH b t h c1) as [d1 x1].
    destruct (attention_pass1 preatt inp T C NH b t h c2) as [d2 x2].
    destruct H1 as [Hd Hx]. cbn [fst snd] in Hd, Hx. subst x2.
    pose proof (pass2_agree t h x1 d1 d2 Ht Hh Hd) as H2.
    destruct (attention_pass2 preatt att T NH b t h x1 d1) as [e1 y1].
    destruct (attention_pass2 preatt att T NH b t h x1 d2) as [e2 y2].
    destruct H2 as [He Hy]. cbn [fst snd] in He, Hy. subst y2.
    apply pass4_agree; try assumption. now apply pass3_agree.
  - pose proof (pass1_apart b' t h c1 c2 Hb' Hne Ht Hh Hc) as H1.
    destruct (attention_pass1 preatt inp T C NH b' t h c1) as [d1 x1].
    destruct (attention_pass1 preatt inp T C NH b' t h c2) as [d2 x2].
    unfold heaps_only in H1. cbn [fst] in H1.
    pose proof (pass2_apart b' t h x1 x2 d1 d2 Hb' Hne Ht Hh H1) as H2.
    destruct (attention_pass2 preatt att T NH b' t h x1 d1) as [e1 y1].
    destruct (attention_pass2 preatt att T NH b' t h x2 d2) as [e2 y2].
    unfold heaps_only in H2. cbn [fst] in H2.
    apply pass4_apart; try assumption. now apply pass3_apart.
Qed.

End AttentionAgree.

(** *** Softmax and cross-entropy *)

Lemma softmax_agree b probs logits B T V Vp m1 m2 :
  0 <= V <= Vp ->
  row_low logits (T * Vp) b -> row_low probs (T * Vp) b ->
  rows_high probs (T * Vp) B b ->
  agree m1 m2 ->
  agree (softmax_forward probs logits B T V Vp m1)
        (softmax_forward probs logits B T V Vp m2).
Proof.
  intros HV Hlogits Hprobs Hhigh Hm. unfold softmax_forward.
  apply positions_rel; [assumption|].
  intros b' t a1 a2 Hb' Ht Ha. cbv zeta.
  destruct (Z.eq_dec b' b) as [->|Hne].
  - assert (Hcell : forall p c1 c2 i, row_low p (T * Vp) b -> agree c1 c2 ->
              0 <= i < Vp ->
              load c1 (p +! (b * T * Vp + t * Vp) +! i)
              = load c2 (p +! (b * T * Vp + t * Vp) +! i)).
    { intros p c1 c2 i Hp Hc Hi. apply Hc. rewrite pos_cell.
      apply Hp. now apply radix_bound. }
    set (x1 := for_loop 0 V _ (fneg _)). set (x2 := for_loop 0 V _ (fneg _)).
    assert (Hx : x1 = x2).
    { subst x1 x2. apply for_loop_rel; [reflexivity|].
      intros i y1 y2 Hi ->. now rewrite (Hcell logits a1 a2) by (assumption || lia). }
    clearbody x1 x2. subst x2.
    set (r1 := for_loop 0 V _ (a1, fzero)). set (r2 := for_loop 0 V _ (a2, fzero)).
    assert (Hr : agree (fst r1) (fst r2) /\ snd r1 = snd r2).
    { subst r1 r2.
      apply (for_loop_rel (fun a c => agree (fst a) (fst c) /\ snd a = snd c));
        [split; [assumption | reflexivity]|].
      intros i [c1 y1] [c2 y2] Hi [Hc Hy]. cbn [fst snd] in Hc, Hy. subst y2.
      cbn [fst snd].
      rewrite (Hcell logits c1 c2) by (assumption || lia).
      split; [apply agree_store; [assumption | reflexivity]|].
      now rewrite !load_store_same. }
    clearbody r1 r2. destruct r1 as [c1 y1], r2 as [c2 y2].
    destruct Hr as [Hc Hy]. cbn [fst snd] in Hc, Hy. subst y2.
    apply for_loop_rel.
    + apply for_loop_rel; [assumption|].
      intros i d1 d2 Hi Hd. apply agree_store; [assumption|]. intros _.
      now rewrite (Hcell probs d1 d2) by (assumption || lia).
    + intros i d1 d2 Hi Hd. apply agree_store; [assumption | reflexivity].
  - assert (Hcell : forall i, 0 <= i < Vp ->
              ~ S (probs +! (b' * T * Vp + t * Vp) +! i)).
    { intros i Hi. rewrite pos_cell.
      apply (rows_high_at probs (T * Vp) B b b' _ (t * Vp + i)); try assumption;
        [now apply radix_bound | reflexivity]. }
    set (x1 := for_loop 0 V _ (fneg _)). set (x2 := for_loop 0 V _ (fneg _)).
    clearbody x1 x2.
    set (r1 := for_loop 0 V _ (a1, fzero)). set (r2 := for_loop 0 V _ (a2, fzero)).
    assert (Hr : agree (fst r1) (fst r2)).
    { subst r1 r2.
      apply (for_loop_rel (fun a c => agree (fst a) (fst c))); [assumption|].
      intros i [c1 y1] [c2 y2] Hi Hc. cbn [fst snd] in *.
      apply agree_store; [assumption|].
      intros HS. exfalso. revert HS. apply Hcell. lia. }
    clearbody r1 r2. destruct r1 as [c1 y1], r2 as [c2 y2]. cbn [fst] in Hr.
    apply for_loop_rel.
    + apply for_loop_rel; [assumption|].
      intros i d1 d2 Hi Hd. apply agree_store; [assumption|].
      intros HS. exfalso. revert HS. apply Hcell. lia.
    + intros i d1 d2 Hi Hd. apply agree_store; [assumption|].
      intros HS. exfalso. revert HS. apply Hcell. lia.
Qed.

Lemma crossentropy_agree b losses probs targets1 targets2 B T Vp m1 m2 :
  0 <= b < B ->
  (forall t, 0 <= t < T -> targets1 (b * T + t) = targets2 (b * T + t)) ->
  (forall t, 0 <= t < T -> 0 <= targets1 (b * T + t) < Vp) ->
  row_low probs (T * Vp) b -> rows_high losses T B b ->
  agree m1 m2 ->
  agree (crossentropy_forward losses probs targets1 B T Vp m1)
        (crossentropy_forward losses probs targets2 B T Vp m2).
Proof.
  intros Hb Htargets Hrange Hprobs Hlosses Hm. unfold crossentropy_forward.
  apply positions_rel; [assumption|].
  intros b' t a1 a2 Hb' Ht Ha. cbv zeta.
  apply agree_store; [assumption|]. intros HS.
  destruct (Z.eq_dec b' b) as [->|Hne].
  - rewrite <- Htargets by assumption. do 2 f_equal. apply Ha.
    rewrite pos_cell. apply Hprobs. apply radix_bound; [assumption|].
    now apply Hrange.
  - exfalso. revert HS.
    apply (rows_high_at losses T B b b' _ t); try assumption. reflexivity.
Qed.

End Agreement.

(** ** The rows of the activation tensors *)

(** For each activation tensor, in the order of the struct: the number of
    layers that it holds and the number of floats of one batch row of one
    layer.  A tensor of shape (L, B, T, C) is [(L, T * C)]. *)
Definition activation_shapes (config : GPT2Config) (T : Z) : list (Z * Z) :=
  let C := channels config in
  let NH := num_heads config in
  let L := num_layers config in
  let Vp := padded_vocab_size config in
  [ (1, T * C);            (* encoded *)
    (L, T * C);            (* ln1 *)
    (L, T);                (* ln1_mean *)
    (L, T);                (* ln1_rstd *)
    (L, T * (3 * C));      (* qkv *)
    (L, T * C);            (* atty *)
    (L, NH * T * T);       (* preatt *)
    (L, NH * T * T);       (* att *)
    (L, T * C);            (* attproj *)
    (L, T * C);            (* residual2 *)
    (L, T * C);            (* ln2 *)
    (L, T);                (* ln2_mean *)
    (L, T);                (* ln2_rstd *)
    (L, T * (4 * C));      (* fch *)
    (L, T * (4 * C));      (* fch_gelu *)
    (L, T * C);            (* fcproj *)
    (L, T * C);            (* residual3 *)
    (1, T * C);            (* lnf *)
    (1, T);                (* lnf_mean *)
    (1, T);                (* lnf_rstd *)
    (1, T * Vp);           (* logits *)
    (1, T * Vp);           (* probs *)
    (1, T) ].              (* losses *)

(** The sizes of the tensors as mathematical integers. *)
Definition exact_sizes (B : Z) (shapes : list (Z * Z)) : list Z :=
  map (fun s => fst s * B * snd s) shapes.

(** The cell [q] is element [j] of the batch row [b] of some layer [l] of
    some tensor [k]. *)
Definition in_row (ptrs : list ptr) (shapes : list (Z * Z)) (B b : Z) (q : ptr) : Prop :=
  exists (k : nat) (l j : Z),
    (k < length shapes)%nat /\
    0 <= l < fst (nth k shapes (0, 0)) /\
    0 <= j < snd (nth k shapes (0, 0)) /\
    q = nth k ptrs (acts_block, 0) +! ((l * B + b) * snd (nth k shapes (0, 0)) + j).

Section Rows.

Variables (abase : ptr) (shapes : list (Z * Z)) (B : Z).

Let sizes := exact_sizes B shapes.
Let ptrs := map (padd abase) (carve 0 sizes).

Hypothesis Hsizes : Forall (fun s => 0 <= s) sizes.

Lemma nth_exact_sizes k :
  nth k sizes 0 = fst (nth k shapes (0, 0)) * B * snd (nth k shapes (0, 0)).
Proof.
  unfold sizes, exact_sizes.
  change 0 with ((fun s : Z * Z => fst s * B * snd s) (0, 0)) at 1.
  now rewrite map_nth.
Qed.

Lemma length_exact_sizes : length sizes = length shapes.
Proof. unfold sizes, exact_sizes. apply length_map. Qed.

Lemma nth_ptrs k d : (k < length shapes)%nat ->
  nth k ptrs d = abase +! total (firstn k sizes).
Proof.
  intros Hk. unfold ptrs.
  rewrite (nth_indep _ d abase)
    by (rewrite length_map, carve_length, length_exact_sizes; assumption).
  apply nth_carve_view. now rewrite length_exact_sizes.
Qed.

(** The offset of a cell of a row within its tensor. *)
Lemma row_offset_bound Lx w l b j :
  0 <= l < Lx -> 0 <= b < B -> 0 <= j < w ->
  0 <= (l * B + b) * w + j < Lx * B * w.
Proof.
  intros Hl Hb Hj. apply radix_bound; [|assumption]. now apply radix_bound.
Qed.

(** A cell lies in the row of one batch index only. *)
Lemma rows_apart b b' q :
  0 <= b < B -> 0 <= b' < B ->
  in_row ptrs shapes B b q -> in_row ptrs shapes B b' q -> b = b'.
Proof.
  intros Hb Hb' (k & l & j & Hk & Hl & Hj & Eq) (k' & l' & j' & Hk' & Hl' & Hj' & Eq').
  rewrite nth_ptrs in Eq, Eq' by assumption. subst q.
  apply (f_equal snd) in Eq'. cbn [padd snd] in Eq'.
  pose proof (row_offset_bound _ _ l b j Hl Hb Hj) as Hin.
  pose proof (row_offset_bound _ _ l' b' j' Hl' Hb' Hj') as Hin'.
  rewrite <- nth_exact_sizes in Hin, Hin'.
  assert (Ek : k = k').
  { destruct (Nat.lt_trichotomy k k') as [Hlt|[E|Hlt]]; [|assumption|].
    - pose proof (carve_consecutive sizes k k' Hsizes Hlt
                    ltac:(rewrite length_exact_sizes; lia)). lia.
    - pose proof (carve_consecutive sizes k' k Hsizes Hlt
                    ltac:(rewrite length_exact_sizes; lia)). lia. }
  subst k'.
  destruct (radix_inj _ (l * B + b) j (l' * B + b') j' Hj Hj' ltac:(lia)) as [E _].
  destruct (radix_inj _ l b l' b' Hb Hb' E) as [_ E']. exact E'.
Qed.

Lemma in_row_block b q : in_row ptrs shapes B b q -> fst q = fst abase.
Proof.
  intros (k & l & j & Hk & Hl & Hj & Eq).
  rewrite nth_ptrs in Eq by assumption. subst q. reflexivity.
Qed.

(** The cells that the two runs are compared on: everything outside the
    activation buffer, and the row [b] of the activations. *)
Definition visible (b : Z) (q : ptr) : Prop :=
  fst q <> fst abase \/ in_row ptrs shapes B b q.

Lemma tensor_row_low b k l p off w :
  p = nth k ptrs (acts_block, 0) -> w = snd (nth k shapes (0, 0)) -> off = l * B * w ->
  (k < length shapes)%nat -> 0 <= l < fst (nth k shapes (0, 0)) ->
  row_low (visible b) (p +! off) w b.
Proof.
  intros -> -> -> Hk Hl j Hj. right. exists k, l, j.
  repeat (split; [assumption|]). rewrite padd_padd. f_equal. ring.
Qed.

Lemma tensor_rows_high b k l p off w :
  p = nth k ptrs (acts_block, 0) -> w = snd (nth k shapes (0, 0)) -> off = l * B * w ->
  (k < length shapes)%nat -> 0 <= l < fst (nth k shapes (0, 0)) ->
  0 <= b < B ->
  rows_high (visible b) (p +! off) w B b.
Proof.
  intros -> -> -> Hk Hl Hb b' j Hb' Hne Hj.
  assert (Hin : in_row ptrs shapes B b'
                  (nth k ptrs (acts_block, 0) +! (l * B * snd (nth k shapes (0, 0)))
                   +! (b' * snd (nth k shapes (0, 0)) + j))).
  { exists k, l, j. repeat (split; [assumption|]). rewrite padd_padd. f_equal. ring. }
  intros [Hblock | Hrow].
  - apply Hblock. exact (in_row_block b' _ Hin).
  - apply Hne. exact (rows_apart b' b _ Hb' Hb Hin Hrow).
Qed.

Lemma padd_zero (p : ptr) : p +! 0 = p.
Proof. destruct p as [blk off]. unfold padd. cbn [fst snd]. f_equal. lia. Qed.

(** The same for a tensor of one layer, which the code addresses without
    an offset. *)
Lemma tensor_row_low_flat b k p w :
  p = nth k ptrs (acts_block, 0) -> w = snd (nth k shapes (0, 0)) ->
  (k < length shapes)%nat -> 0 < fst (nth k shapes (0, 0)) ->
  row_low (visible b) p w b.
Proof.
  intros Ep Ew Hk Hl. rewrite <- (padd_zero p).
  apply (tensor_row_low b k 0); try assumption; [ring | lia].
Qed.

Lemma tensor_rows_high_flat b k p w :
  p = nth k ptrs (acts_block, 0) -> w = snd (nth k shapes (0, 0)) ->
  (k < length shapes)%nat -> 0 < fst (nth k shapes (0, 0)) ->
  0 <= b < B ->
  rows_high (visible b) p w B b.
Proof.
  intros Ep Ew Hk Hl Hb. rewrite <- (padd_zero p).
  apply (tensor_rows_high b k 0); try assumption; [ring | lia].
Qed.

Lemma outside_block_low b (p : ptr) :
  fst p <> fst abase -> block_low (visible b) p.
Proof. intros Hp q Eq. left. now rewrite Eq. Qed.

End Rows.

(** ** The forward pass on two batches *)

Section Forward.

Context {F : Type} {ops : FloatOps F}.
Variables (model : GPT2) (model_consts : GPT2Const (F:=F)) (abase : ptr).
Variables (B T b : Z) (maxT V Vp L NH C : Z).

Let cfg := mkConfig maxT V Vp L NH C.
Let shapes := activation_shapes cfg T.
Let visible_b := visible abase shapes B b.

Hypothesis Hconfig : config model_consts = cfg.
Hypothesis Hacts :
  acts model = malloc_and_point_activations abase (fill_in_activation_sizes cfg B T).
Hypothesis Hexact : fill_in_activation_sizes cfg B T = exact_sizes B shapes.
Hypothesis Hparams :
  forall p, In p (parameter_ptrs (params model)) -> fst p <> fst abase.
Hypothesis Hb : 0 <= b < B.
Hypothesis HT : 0 <= T.
Hypothesis HL : 0 <= L.
Hypothesis HV : 0 <= V <= Vp.

Lemma activation_ptrs_exact :
  activation_ptrs (acts model) = map (padd abase) (carve 0 (exact_sizes B shapes)).
Proof. rewrite Hacts, <- Hexact. apply activation_ptrs_carve. reflexivity. Qed.

Lemma exact_sizes_range : Forall (fun s => 0 <= s) (exact_sizes B shapes).
Proof. rewrite <- Hexact. apply activation_sizes_range. Qed.

Lemma parameter_low (p : ptr) off :
  In p (parameter_ptrs (params model)) -> block_low visible_b (p +! off).
Proof.
  intros Hin. apply outside_block_low. unfold padd. cbn [fst]. now apply Hparams.
Qed.

Ltac tensor_ptr := rewrite <- activation_ptrs_exact; reflexivity.
Ltac shape_entry :=
  unfold shapes, activation_shapes, cfg; cbv zeta;
  cbn [nth length fst snd channels num_heads num_layers padded_vocab_size].
Ltac shape_eq := shape_entry; ring.
Ltac shape_count := shape_entry; lia.
Ltac shape_layer := shape_entry; lia.

Ltac tensor k l :=
  first
    [ apply (tensor_row_low abase shapes B b k l);
      [tensor_ptr | shape_eq | shape_eq | shape_count | shape_layer]
    | apply (tensor_rows_high abase shapes B exact_sizes_range b k l);
      [tensor_ptr | shape_eq | shape_eq | shape_count | shape_layer | exact Hb] ].

Ltac tensor_flat k :=
  first
    [ apply (tensor_row_low_flat abase shapes B b k);
      [tensor_ptr | shape_eq | shape_count | shape_layer]
    | apply (tensor_rows_high_flat abase shapes B exact_sizes_range b k);
      [tensor_ptr | shape_eq | shape_count | shape_layer | exact Hb] ].

Ltac parameter := apply parameter_low; cbn [parameter_ptrs In]; tauto.

Ltac matmul_step :=
  apply (matmul_agree visible_b _ _ _ _ B T _ _ b);
  [ lia
  | apply flat_low_of_row; [lia|]
  | parameter
  | cbn [bias_low]; try exact I; try parameter
  | apply flat_high_of_rows; [lia|]
  | exact HT
  | ].

(** The residual stream that layer [l] reads. *)
Lemma residual_low l :
  0 <= l < L ->
  row_low visible_b
    (if l =? 0 then encoded (acts model)
     else residual3 (acts model) +! ((l - 1) * B * T * C)) (T * C) b.
Proof.
  intros Hl. destruct (l =? 0) eqn:El.
  - tensor_flat 0%nat.
  - apply Z.eqb_neq in El. tensor 16%nat (l - 1).
Qed.

Lemma layer_agree l (s1 s2 : machine (F:=F)) :
  0 <= l < L ->
  agree visible_b (heap s1) (heap s2) ->
  agree visible_b
    (heap (gpt2_forward_layer model_consts (params model) (acts model) B T l s1))
    (heap (gpt2_forward_layer model_consts (params model) (acts model) B T l s2)).
Proof.
  intros Hl Hs. pose proof (residual_low l Hl) as Hres.
  unfold gpt2_forward_layer. rewrite Hconfig. unfold cfg. cbn [channels num_heads].
  cbv zeta. cbn [call heap run_kernel].
  apply (residual_agree visible_b b _ _ _ _ (T * C) B);
    [lia | ring | tensor 9%nat l | tensor 15%nat l | tensor 16%nat l |].
  matmul_step; [tensor 14%nat l | tensor 15%nat l |].
  apply (gelu_agree visible_b b _ _ _ (T * (4 * C)) B);
    [lia | ring | tensor 13%nat l | tensor 14%nat l |].
  matmul_step; [tensor 10%nat l | tensor 13%nat l |].
  apply (layernorm_agree visible_b b);
    [exact Hb | tensor 9%nat l | parameter | parameter
     | tensor 10%nat l | tensor 11%nat l | tensor 12%nat l |].
  apply (residual_agree visible_b b _ _ _ _ (T * C) B);
    [lia | ring | exact Hres | tensor 8%nat l | tensor 9%nat l |].
  matmul_step; [tensor 5%nat l | tensor 8%nat l |].
  apply (attention_agree visible_b _ _ _ _ B T C NH b);
    [ tensor 4%nat l | tensor 6%nat l | tensor 7%nat l | tensor 5%nat l
    | tensor 6%nat l | tensor 7%nat l | tensor 5%nat l |].
  matmul_step; [tensor 1%nat l | tensor 4%nat l |].
  apply (layernorm_agree visible_b b);
    [exact Hb | exact Hres | parameter | parameter
     | tensor 1%nat l | tensor 2%nat l | tensor 3%nat l |].
  exact Hs.
Qed.

(** The residual stream that the final layernorm reads.  Without layers
    the tensors of the layers are empty, and the address before
    [residual3] is that of [encoded]. *)
Lemma last_residual_low :
  row_low visible_b (residual3 (acts model) +! ((L - 1) * B * T * C)) (T * C) b.
Proof.
  destruct (Z.eq_dec L 0) as [E|Hne]; [|tensor 16%nat (L - 1)].
  intros j Hj. right. exists 0%nat, 0, j.
  split; [shape_count|]. split; [shape_layer|]. split; [shape_entry; exact Hj|].
  change (residual3 (acts model))
    with (nth 16 (activation_ptrs (acts model)) (acts_block, 0)).
  rewrite activation_ptrs_exact, !nth_ptrs by shape_count.
  rewrite !padd_padd. f_equal.
  unfold exact_sizes. shape_entry.
  cbn [map firstn total fold_right fst snd]. rewrite E. ring.
Qed.

Lemma layers_agree (s1 s2 : machine (F:=F)) :
  agree visible_b (heap s1) (heap s2) ->
  agree visible_b
    (heap (for_loop 0 L (gpt2_forward_layer model_consts (params model) (acts model) B T) s1))
    (heap (for_loop 0 L (gpt2_forward_layer model_consts (params model) (acts model) B T) s2)).
Proof.
  intros Hs.
  apply (for_loop_rel (fun a c => agree visible_b (heap a) (heap c))); [assumption|].
  intros l a c Hl Ha. now apply layer_agree.
Qed.

(** The two batches have the same tokens, and the same targets if there
    are targets, in row [b]. *)
Definition same_row (inputs1 inputs2 : Z -> Z) (targets1 targets2 : option (Z -> Z))
  (T b : Z) : Prop :=
  (forall t, 0 <= t < T -> inputs1 (b * T + t) = inputs2 (b * T + t)) /\
  match targets1, targets2 with
  | Some tg1, Some tg2 => forall t, 0 <= t < T -> tg1 (b * T + t) = tg2 (b * T + t)
  | None, None => True
  | _, _ => False
  end.

Lemma forward_agree inputs1 inputs2 targets1 targets2 (s1 s2 : machine (F:=F)) :
  is_int V ->
  ids_in_vocabulary V inputs1 targets1 (B * T) ->
  ids_in_vocabulary V inputs2 targets2 (B * T) ->
  same_row inputs1 inputs2 targets1 targets2 T b ->
  agree visible_b (heap s1) (heap s2) ->
  exists s1' consts1 res1 s2' consts2 res2,
    gpt2_forward model model_consts inputs1 targets1 B T s1 = Some (s1', consts1, res1) /\
    gpt2_forward model model_consts inputs2 targets2 B T s2 = Some (s2', consts2, res2) /\
    agree visible_b (heap s1') (heap s2').
Proof.
  intros Hint Hids1 Hids2 [Hinputs Htargets] Hs.
  unfold gpt2_forward. rewrite Hconfig. unfold cfg.
  cbn [channels num_heads num_layers vocab_size padded_vocab_size].
  rewrite (validation_passes V inputs1 targets1 (B * T) Hint Hids1).
  rewrite (validation_passes V inputs2 targets2 (B * T) Hint Hids2).
  cbn [negb]. cbv zeta.
  set (a1 := call (KSoftmax _ _ _ _ _ _) _).
  set (a2 := call (KSoftmax _ _ _ _ _ _) _).
  assert (Ha : agree visible_b (heap a1) (heap a2)).
  { subst a1 a2. cbn [call heap run_kernel].
    apply (softmax_agree visible_b b); [exact HV | tensor_flat 20%nat
      | tensor_flat 21%nat | tensor_flat 21%nat |].
    apply (matmul_agree visible_b _ _ _ _ B T _ _ b);
      [ lia | apply flat_low_of_row; [lia | tensor_flat 17%nat]
      | rewrite <- (padd_zero (wte (params model))); parameter
      | exact I
      | apply flat_high_of_rows; [lia | tensor_flat 20%nat]
      | exact HT |].
    apply (layernorm_agree visible_b b);
      [ exact Hb | exact last_residual_low
      | rewrite <- (padd_zero (lnfw (params model))); parameter
      | rewrite <- (padd_zero (lnfb (params model))); parameter
      | tensor_flat 17%nat | tensor_flat 18%nat | tensor_flat 19%nat |].
    apply layers_agree. cbn [call heap run_kernel].
    apply (encoder_agree visible_b b);
      [ exact Hb | exact Hinputs
      | rewrite <- (padd_zero (wte (params model))); parameter
      | rewrite <- (padd_zero (wpe (params model))); parameter
      | tensor_flat 0%nat | exact Hs ]. }
  clearbody a1 a2.
  destruct targets1 as [tg1|], targets2 as [tg2|]; try contradiction;
    cbn [gpt2_forward_loss]; cbv zeta.
  - do 6 eexists. split; [reflexivity|]. split; [reflexivity|].
    cbn [call heap run_kernel].
    apply (crossentropy_agree visible_b b);
      [ exact Hb | exact Htargets | | tensor_flat 21%nat | tensor_flat 22%nat | exact Ha ].
    intros t Ht.
    destruct (Hids1 (b * T + t) ltac:(now apply radix_bound)) as [_ Htg]. lia.
  - do 6 eexists. split; [reflexivity|]. split; [reflexivity|]. exact Ha.
Qed.

End Forward.

(** The views of the parameters lie in the block of [params_memory]. *)
Lemma parameter_ptrs_block pbase sizes p :
  In p (parameter_ptrs (malloc_and_point_parameters pbase sizes)) -> fst p = fst pbase.
Proof.
  unfold malloc_and_point_parameters. cbv zeta.
  cbn [parameter_ptrs wte wpe ln1w ln1b qkvw qkvb attprojw attprojb ln2w ln2b
       fcw fcb fcprojw fcprojb lnfw lnfb In].
  intros Hin.
  repeat (destruct Hin as [<-|Hin]; [reflexivity|]). contradiction.
Qed.


(** Two batches of 2 rows of 4 tokens that differ in row 1 only. *)
Definition tiny_batch1 : Z -> Z := fun _ => 0.
Definition tiny_batch2 : Z -> Z := fun i => if i <? 4 then 0 else 1.


(* ================================================================== *)
(** * Part III: the sampler *)
(* ================================================================== *)

(** ** The random number generator *)

(** A [uint64_t] holds [0 .. 2^64 - 1]. *)
Definition UINT64_MAX1 : Z := 2 ^ 64.

(** [random_u32]: the xorshift* step on [*state]; the result and the new
    state.  [<<] on a [uint64_t] drops the bits that leave the word, and
    so does the product. *)
Definition random_u32 (state : Z) : Z * Z :=
  let state := Z.lxor state (Z.shiftr state 12) in
  let state := Z.lxor state (Z.shiftl state 25 mod UINT64_MAX1) in
  let state := Z.lxor state (Z.shiftr state 27) in
  (Z.shiftr ((state * 0x2545F4914F6CDD1D) mod UINT64_MAX1) 32, state).

Section Sampler.

Context {F : Type} {ops : FloatOps F}.

(** [random_f32]: a random float32 in [0, 1). *)
Definition random_f32 (state : Z) : F * Z :=
  let '(r, state) := random_u32 state in
  (fdiv (of_int (Z.shiftr r 8)) (fdec 16777216 0), state).

(** [sample_mult]: the loop returns from its round [i] when
    [coin < cdf]; [found] holds the value returned, and the later rounds
    of the counted loop do nothing. *)
Definition sample_mult (probabilities : ptr) (n : Z) (coin : F) (m : mem (F:=F)) : Z :=
  let '(_, found) :=
    for_loop 0 n (fun i '(cdf, found) =>
      match found with
      | Some _ => (cdf, found)
      | None =>
          let cdf := fadd cdf (load m (probabilities +! i)) in
          if fltb coin cdf then (cdf, Some i) else (cdf, None)
      end) (fzero, None) in
  match found with
  | Some i => i
  | None => n - 1 (* in case of rounding errors *)
  end.

End Sampler.

(** *** Words of 64 bits *)

Lemma lxor_below n a b :
  0 <= n -> 0 <= a < 2 ^ n -> 0 <= b < 2 ^ n -> 0 <= Z.lxor a b < 2 ^ n.
Proof.
  intros Hn Ha Hb.
  assert (H0 : 0 <= Z.lxor a b) by (apply Z.lxor_nonneg; lia).
  split; [assumption|].
  destruct (Z.eq_dec (Z.lxor a b) 0) as [->|Hne]; [apply Z.pow_pos_nonneg; lia|].
  apply Z.log2_lt_pow2; [lia|].
  pose proof (Z.log2_lxor a b ltac:(lia) ltac:(lia)) as Hlog.
  assert (Hla : Z.log2 a < n \/ a = 0).
  { destruct (Z.eq_dec a 0); [now right | left; apply Z.log2_lt_pow2; lia]. }
  assert (Hlb : Z.log2 b < n \/ b = 0).
  { destruct (Z.eq_dec b 0); [now right | left; apply Z.log2_lt_pow2; lia]. }
  destruct Hla as [Hla| ->], Hlb as [Hlb| ->].
  - lia.
  - rewrite Z.lxor_0_r in *. assumption.
  - rewrite Z.lxor_0_l in *. assumption.
  - rewrite Z.lxor_0_l in Hne. contradiction.
Qed.

Lemma shiftr_below n a k : 0 <= k -> 0 <= a < 2 ^ n -> 0 <= Z.shiftr a k < 2 ^ n.
Proof.
  intros Hk Ha. rewrite Z.shiftr_div_pow2 by assumption.
  assert (0 < 2 ^ k) by (apply Z.pow_pos_nonneg; lia).
  split; [apply Z.div_pos; lia|].
  apply Z.le_lt_trans with a; [|lia].
  apply Z.div_le_upper_bound; nia.
Qed.

(** [x ^= x >> k] keeps a word that is not 0 away from 0. *)
Lemma xorshift_right_zero a k :
  0 < k -> 0 <= a -> Z.lxor a (Z.shiftr a k) = 0 -> a = 0.
Proof.
  intros Hk Ha E. apply Z.lxor_eq in E.
  rewrite Z.shiftr_div_pow2 in E by lia.
  destruct (Z.eq_dec a 0) as [|Hne]; [assumption|].
  assert (2 <= 2 ^ k).
  { change 2 with (2 ^ 1) at 1. apply Z.pow_le_mono_r; lia. }
  assert (a / 2 ^ k < a) by (apply Z.div_lt; lia). lia.
Qed.

(** [x ^= x << 25] too: [2^25 - 1] is odd. *)
Lemma xorshift_left_zero a :
  0 <= a < UINT64_MAX1 -> Z.lxor a (Z.shiftl a 25 mod UINT64_MAX1) = 0 -> a = 0.
Proof.
  unfold UINT64_MAX1. intros Ha E. apply Z.lxor_eq in E.
  rewrite Z.shiftl_mul_pow2 in E by lia.
  assert (Hdiv : (2 ^ 64 | a * (2 ^ 25 - 1))).
  { exists (a * 2 ^ 25 / 2 ^ 64).
    pose proof (Z.div_mod (a * 2 ^ 25) (2 ^ 64) ltac:(lia)). lia. }
  rewrite Z.mul_comm in Hdiv.
  apply Z.gauss in Hdiv; [|vm_compute; reflexivity].
  destruct Hdiv as [c Hc].
  destruct (Z.eq_dec c 0); nia.
Qed.

Lemma random_u32_word (state : Z) :
  0 <= state < UINT64_MAX1 ->
  let '(r, state') := random_u32 state in
  0 <= r < 2 ^ 32 /\
  0 <= state' < UINT64_MAX1 /\
  (state' = 0 <-> state = 0) /\
  (state = 0 -> r = 0).
Proof.
  intros Hs. unfold random_u32. cbv zeta.
  set (s1 := Z.lxor state (Z.shiftr state 12)).
  assert (H1 : 0 <= s1 < UINT64_MAX1).
  { apply (lxor_below 64); [lia | exact Hs | apply shiftr_below; [lia | exact Hs]]. }
  set (s2 := Z.lxor s1 (Z.shiftl s1 25 mod UINT64_MAX1)).
  assert (H2 : 0 <= s2 < UINT64_MAX1).
  { apply (lxor_below 64); [lia | exact H1 |].
    apply Z.mod_pos_bound. reflexivity. }
  set (s3 := Z.lxor s2 (Z.shiftr s2 27)).
  assert (H3 : 0 <= s3 < UINT64_MAX1).
  { apply (lxor_below 64); [lia | exact H2 | apply shiftr_below; [lia | exact H2]]. }
  split; [|split; [exact H3 | split]].
  - rewrite Z.shiftr_div_pow2 by lia.
    pose proof (Z.mod_pos_bound (s3 * 0x2545F4914F6CDD1D) UINT64_MAX1 eq_refl) as Hm.
    unfold UINT64_MAX1 in *. split; [apply Z.div_pos; lia|].
    apply Z.div_lt_upper_bound; lia.
  - split.
    + intros E3. apply (xorshift_right_zero s2 27) in E3; [|lia|lia].
      fold s2 in E3. subst s2.
      apply (xorshift_left_zero s1 H1) in E3.
      now apply (xorshift_right_zero state 12) in E3; [|lia|lia].
    + intros ->. reflexivity.
  - intros ->. reflexivity.
Qed.

(** X1: for every 64-bit state, [random_u32] returns a value below 2^32 and
    leaves a 64-bit state; the new state is 0 exactly when the old one is,
    and from the state 0 the result is 0: a seed that is not 0 never
    collapses to 0, and the seed 0 yields 0 for ever. *)
Theorem random_u32_range (state : Z) :
  0 <= state < UINT64_MAX1 ->
  let '(r, state') := random_u32 state in
  0 <= r < 2 ^ 32 /\
  0 <= state' < UINT64_MAX1 /\
  (state' = 0 <-> state = 0) /\
  (state = 0 -> r = 0).
Proof. apply random_u32_word. Qed.

Lemma random_u32_range_witness :
  let '(r, state') := random_u32 1337 in
  0 <= r < 2 ^ 32 /\ 0 <= state' < UINT64_MAX1 /\
  (state' = 0 <-> 1337 = 0) /\ (1337 = 0 -> r = 0).
Proof. apply (random_u32_range 1337). unfold UINT64_MAX1. lia. Defined.

(** X2: for every 64-bit state, the value of [random_f32], in exact
    arithmetic, is k / 2^24 for an integer 0 <= k < 2^24, and so lies in [0,
    1). (An integer below 2^24 and its quotient by 2^24 are floats: the
    float operations of the function do not round.) *)
Theorem random_f32_unit_interval (state : Z) :
  0 <= state < UINT64_MAX1 ->
  let r := fst (random_f32 (F:=R) state) in
  (0 <= r < 1)%R /\ exists k, 0 <= k < 2 ^ 24 /\ (r * 16777216 = IZR k)%R.
Proof.
  intros Hs. pose proof (random_u32_word state Hs) as Hrange.
  unfold random_f32. destruct (random_u32 state) as [u state'].
  destruct Hrange as (Hu & _). cbn [fst].
  assert (Hk : 0 <= Z.shiftr u 8 < 2 ^ 24).
  { rewrite Z.shiftr_div_pow2 by lia. split; [apply Z.div_pos; lia|].
    apply Z.div_lt_upper_bound; lia. }
  assert (Hden : fdec (F:=R) 16777216 0 = 16777216%R).
  { cbn. unfold Rdec. cbn. lra. }
  cbn [fdiv of_int RealOps]. rewrite Hden.
  set (k := Z.shiftr u 8) in *.
  assert (H0 : (0 <= IZR k)%R) by (apply IZR_le; lia).
  assert (H1 : (IZR k < 16777216)%R) by (apply IZR_lt; lia).
  split; [split|].
  - apply Rmult_le_pos; [assumption|]. left. apply Rinv_0_lt_compat. lra.
  - apply (Rmult_lt_reg_r 16777216); [lra|].
    unfold Rdiv. rewrite Rmult_assoc, Rinv_l by lra. lra.
  - exists k. split; [assumption|]. unfold Rdiv. rewrite Rmult_assoc, Rinv_l by lra. lra.
Qed.

Lemma random_f32_unit_interval_witness :
  let r := fst (random_f32 (F:=R) 1337) in
  (0 <= r < 1)%R /\ exists k, 0 <= k < 2 ^ 24 /\ (r * 16777216 = IZR k)%R.
Proof. apply (random_f32_unit_interval 1337). unfold UINT64_MAX1. lia. Defined.

(** ** Sampling an index *)

Section SampleMult.

Context {F : Type} {ops : FloatOps F}.
Variables (probabilities : ptr) (coin : F) (m : mem (F:=F)).

(** The value of [cdf] after [k] additions. *)
Definition cdf_after (k : Z) : F :=
  for_loop 0 k (fun i cdf => fadd cdf (load m (probabilities +! i))) fzero.

Lemma cdf_after_succ k : 0 <= k ->
  cdf_after (k + 1) = fadd (cdf_after k) (load m (probabilities +! k)).
Proof.
  intros Hk. unfold cdf_after. rewrite for_loop_tail by lia.
  now replace (k + 1 - 1) with k by lia.
Qed.

(** The state of the loop of [sample_mult] after the rounds below [k]. *)
Definition sample_state (k : Z) (s : F * option Z) : Prop :=
  match snd s with
  | None =>
      fst s = cdf_after k /\
      forall j, 0 <= j < k -> fltb coin (cdf_after (j + 1)) = false
  | Some i =>
      0 <= i < k /\ fltb coin (cdf_after (i + 1)) = true /\
      forall j, 0 <= j < i -> fltb coin (cdf_after (j + 1)) = false
  end.

Lemma sample_loop n : 0 <= n ->
  sample_state n
    (for_loop 0 n (fun i '(cdf, found) =>
       match found with
       | Some _ => (cdf, found)
       | None =>
           let cdf := fadd cdf (load m (probabilities +! i)) in
           if fltb coin cdf then (cdf, Some i) else (cdf, None)
       end) (fzero, None)).
Proof.
  intros Hn. apply for_loop_invariant; [assumption | |].
  - split; [reflexivity | intros; lia].
  - intros k [cdf found] Hk. unfold sample_state. cbn [fst snd].
    destruct found as [i|].
    + intros (Hi & Hhit & Hmiss). cbn [snd]. repeat split; try assumption; lia.
    + intros [-> Hmiss]. cbv zeta. rewrite <- cdf_after_succ by lia.
      destruct (fltb coin (cdf_after (k + 1))) eqn:E; cbn [fst snd].
      * split; [lia | split; assumption].
      * split; [reflexivity|]. intros j Hj.
        destruct (Z.eq_dec j k) as [->|Hne]; [assumption | apply Hmiss; lia].
Qed.

End SampleMult.

Lemma sample_mult_bounds {F : Type} {ops : FloatOps F}
  (probabilities : ptr) (n : Z) (coin : F) (m : mem (F:=F)) :
  0 < n -> 0 <= sample_mult probabilities n coin m < n.
Proof.
  intros Hn. unfold sample_mult.
  pose proof (sample_loop probabilities coin m n ltac:(lia)) as H.
  destruct (for_loop 0 n _ _) as [cdf [i|]]; unfold sample_state in H; cbn [snd] in H; lia.
Qed.

(** X3: for any float arithmetic: with [n >= 1] the index that [sample_mult]
    returns is in [0, n); with [n <= 0] it returns [n - 1], a negative
    index. *)
Theorem sample_mult_in_range {F : Type} {ops : FloatOps F}
  (probabilities : ptr) (n : Z) (coin : F) (m : mem (F:=F)) :
  (0 < n -> 0 <= sample_mult probabilities n coin m < n) /\
  (n <= 0 -> sample_mult probabilities n coin m = n - 1).
Proof.
  split.
  - apply sample_mult_bounds.
  - intros Hn. unfold sample_mult. now rewrite for_loop_empty by lia.
Qed.

(** X4: for any float arithmetic and [n >= 1], [sample_mult] returns the
    first index [r] at which [coin < cdf] holds, [cdf] being the running sum
    p[0] + ... + p[r] added in this order from 0.0f; when the test fails at
    every index it returns [n - 1]. *)
Theorem sample_mult_first_crossing {F : Type} {ops : FloatOps F}
  (probabilities : ptr) (n : Z) (coin : F) (m : mem (F:=F)) :
  0 < n ->
  let r := sample_mult probabilities n coin m in
  (forall j, 0 <= j < r -> fltb coin (cdf_after probabilities m (j + 1)) = false) /\
  (fltb coin (cdf_after probabilities m (r + 1)) = true \/
   r = n - 1 /\ fltb coin (cdf_after probabilities m n) = false).
Proof.
  intros Hn. cbv zeta. unfold sample_mult.
  pose proof (sample_loop probabilities coin m n ltac:(lia)) as H.
  destruct (for_loop 0 n _ _) as [cdf [i|]]; unfold sample_state in H; cbn [fst snd] in H.
  - destruct H as (Hi & Hhit & Hmiss). split; [assumption | now left].
  - destruct H as [_ Hmiss]. split; [intros j Hj; apply Hmiss; lia|].
    right. split; [reflexivity|].
    replace n with (n - 1 + 1) by lia. apply Hmiss. lia.
Qed.

Lemma sample_mult_first_crossing_witness :
  let m : mem (F:=R) := fun _ _ => 0.25%R in
  let r := sample_mult (acts_block, 0) 4 0.6%R m in
  (forall j, 0 <= j < r -> fltb 0.6%R (cdf_after (acts_block, 0) m (j + 1)) = false) /\
  (fltb 0.6%R (cdf_after (acts_block, 0) m (r + 1)) = true \/
   r = 4 - 1 /\ fltb 0.6%R (cdf_after (acts_block, 0) m 4) = false).
Proof.
  cbv zeta. apply (sample_mult_first_crossing (acts_block, 0) 4 0.6%R). lia.
Defined.

(* ================================================================== *)
(** * Part IV: what the forward pass writes *)
(* ================================================================== *)

(** The cell [q] is none of the [n] floats at [p]. *)
Definition outside (p : ptr) (n : Z) (q : ptr) : Prop :=
  forall k, 0 <= k < n -> q <> p +! k.

(** The arrays that a kernel call writes, with their lengths. *)
Definition kernel_outputs (k : kernel_call) : list (ptr * Z) :=
  match k with
  | KEncoder out _ _ _ B T C => [(out, B * T * C)]
  | KLayernorm out mean rstd _ _ _ B T C =>
      [(out, B * T * C); (mean, B * T); (rstd, B * T)]
  | KMatmul out _ _ _ B T _ OC => [(out, B * T * OC)]
  | KAttention out preatt att _ B T C NH =>
      [(out, B * T * C); (preatt, B * NH * T * T); (att, B * NH * T * T)]
  | KGelu out _ N => [(out, N)]
  | KResidual out _ _ N => [(out, N)]
  | KSoftmax probs _ B T _ Vp => [(probs, B * T * Vp)]
  | KCrossentropy losses _ _ B T _ => [(losses, B * T)]
  end.

(** The shapes on which the loops of a kernel stay inside its arrays. *)
Definition kernel_shape_ok (k : kernel_call) : Prop :=
  match k with
  | KMatmul _ _ _ _ B T _ _ => 0 <= B /\ 0 <= T
  | KSoftmax _ _ _ _ V Vp => 0 <= V <= Vp
  | _ => True
  end.

Section Writes.

Context {F : Type} {ops : FloatOps F}.
Variable q : ptr.

Lemma encoder_writes out inp wte wpe B T C (m : mem (F:=F)) :
  outside out (B * T * C) q ->
  load (encoder_forward out inp wte wpe B T C m) q = load m q.
Proof.
  intros H. unfold encoder_forward.
  apply (keeps_for_loop (fun m => m)). intros b Hb.
  apply (keeps_for_loop (fun m => m)). intros t Ht.
  apply (keeps_for_loop (fun m => m)). intros i Hi m'.
  rewrite row_elem, load_store_other; [reflexivity|].
  apply H. now apply row_index_bound.
Qed.

Lemma layernorm_writes out mean rstd inp weight bias B T C (m : mem (F:=F)) :
  outside out (B * T * C) q -> outside mean (B * T) q -> outside rstd (B * T) q ->
  load (layernorm_forward out mean rstd inp weight bias B T C m) q = load m q.
Proof.
  intros Hout Hmean Hrstd. unfold layernorm_forward.
  apply (keeps_for_loop (fun m => m)). intros b Hb.
  apply (keeps_for_loop (fun m => m)). intros t Ht m'. cbv zeta.
  rewrite !load_store_other by (first [apply Hrstd | apply Hmean]; now apply radix_bound).
  apply (keeps_for_loop (fun m => m)). intros i Hi m''.
  rewrite row_elem, load_store_other; [reflexivity|].
  apply Hout. now apply row_index_bound.
Qed.

Lemma outside_not_out_cell out B T OC :
  outside out (B * T * OC) q -> ~ out_cell out B T OC q.
Proof.
  intros H (bt & o & Hbt & Ho & E). revert E. apply H. now apply radix_bound.
Qed.

Lemma matmul_writes out inp weight bias B T C OC (m : mem (F:=F)) :
  0 <= B -> 0 <= T -> outside out (B * T * OC) q ->
  load (matmul_forward out inp weight bias B T C OC m) q = load m q.
Proof.
  intros HB HT H. apply outside_not_out_cell in H.
  destruct (Z.eq_dec (Z.rem (B * T) LOOP_UNROLL) 0) as [E|Hne].
  - now apply tiled_frame.
  - unfold matmul_forward. apply Z.eqb_neq in Hne. rewrite Hne. cbn [negb].
    now apply naive_frame.
Qed.

Lemma attention_writes_inside out preatt att inp B T C NH (m : mem (F:=F)) :
  outside out (B * T * C) q -> outside preatt (B * NH * T * T) q ->
  outside att (B * NH * T * T) q ->
  load (attention_forward out preatt att inp B T C NH m) q = load m q.
Proof.
  intros Hout Hpreatt Hatt. apply attention_keeps.
  intros b t h Hb Ht Hh. repeat split.
  - intros t2 Ht2. apply Hpreatt. apply att_index_bound; try assumption. lia.
  - intros t2 Ht2. apply Hatt. apply att_index_bound; try assumption. lia.
  - intros t2 Ht2. apply Hatt. now apply att_index_bound.
  - intros i Hi. apply Hout. now apply out_index_bound.
Qed.

Lemma gelu_writes out inp N (m : mem (F:=F)) :
  outside out N q -> load (gelu_forward out inp N m) q = load m q.
Proof.
  intros H. unfold gelu_forward.
  apply (keeps_for_loop (fun m => m)). intros i Hi m'. cbv zeta.
  rewrite load_store_other; [reflexivity | now apply H].
Qed.

Lemma residual_writes out inp1 inp2 N (m : mem (F:=F)) :
  outside out N q -> load (residual_forward out inp1 inp2 N m) q = load m q.
Proof.
  intros H. unfold residual_forward.
  apply (keeps_for_loop (fun m => m)). intros i Hi m'.
  rewrite load_store_other; [reflexivity | now apply H].
Qed.

Lemma softmax_writes probs logits B T V Vp (m : mem (F:=F)) :
  0 <= V <= Vp -> outside probs (B * T * Vp) q ->
  load (softmax_forward probs logits B T V Vp m) q = load m q.
Proof.
  intros HV H. rewrite softmax_rounds.
  apply (keeps_for_loop (fun m => m)). intros b Hb.
  apply (keeps_for_loop (fun m => m)). intros t Ht m'.
  apply softmax_round_keeps. intros i Hi. apply H.
  apply row_index_bound; try assumption. lia.
Qed.

Lemma run_kernel_writes (k : kernel_call) (m : mem (F:=F)) :
  kernel_shape_ok k ->
  Forall (fun pn => outside (fst pn) (snd pn) q) (kernel_outputs k) ->
  load (run_kernel k m) q = load m q.
Proof.
  intros Hok Hout. destruct k; cbn [kernel_outputs kernel_shape_ok run_kernel] in *;
    repeat match goal with
           | H : Forall _ (_ :: _) |- _ => inversion H; subst; clear H
           end; cbn [fst snd] in *.
  - now apply encoder_writes.
  - now apply layernorm_writes.
  - destruct Hok. now apply matmul_writes.
  - now apply attention_writes_inside.
  - now apply gelu_writes.
  - now apply residual_writes.
  - now apply softmax_writes.
  - now apply crossentropy_keeps.
Qed.

End Writes.

(** X8: for any float arithmetic, each of the eight kernels leaves as it was
    every cell outside the arrays that it is given to write, taken with the
    lengths of their shapes ([kernel_outputs]): the encoder, GELU, residual
    and cross-entropy on every shape, the matrix product for B, T >= 0, the
    attention with its (B, NH, T, T) scores and weights, the softmax for 0
    <= V <= Vp. *)
Theorem kernel_writes_inside_outputs {F : Type} {ops : FloatOps F}
  (k : kernel_call) (m : mem (F:=F)) (q : ptr) :
  kernel_shape_ok k ->
  Forall (fun pn => outside (fst pn) (snd pn) q) (kernel_outputs k) ->
  load (run_kernel k m) q = load m q.
Proof. apply run_kernel_writes. Qed.

Lemma kernel_writes_inside_outputs_witness :
  let m : mem (F:=R) := fun _ z => IZR z in
  load (run_kernel (KSoftmax (acts_block, 0) (acts_block, 16) 2 2 3 4) m) (acts_block, 16)
  = load m (acts_block, 16).
Proof.
  cbv zeta. apply (kernel_writes_inside_outputs (F:=R)).
  - cbn. lia.
  - cbn [kernel_outputs]. constructor; [|constructor].
    cbn [fst snd]. intros k Hk E. apply (f_equal snd) in E.
    unfold padd in E. cbn [fst snd] in E. lia.
Defined.

(** ** The tensors lie in the activation buffer *)

Section TensorsInside.

Variables (abase : ptr) (shapes : list (Z * Z)) (B : Z) (q : ptr).

Let sizes := exact_sizes B shapes.
Let ptrs := map (padd abase) (carve 0 sizes).

Hypothesis Hsizes : Forall (fun s => 0 <= s) sizes.
Hypothesis Hq : ~ in_view abase (total sizes) q.

Lemma tensor_outside k l p off w n :
  p = nth k ptrs (acts_block, 0) -> w = snd (nth k shapes (0, 0)) ->
  off = l * B * w -> n = B * w ->
  (k < length shapes)%nat -> 0 <= l < fst (nth k shapes (0, 0)) ->
  outside (p +! off) n q.
Proof.
  intros -> -> -> -> Hk Hl j Hj E. apply Hq. subst q.
  pose proof (total_firstn_le sizes Hsizes k) as [Hlo _].
  pose proof (total_firstn_le sizes Hsizes (Datatypes.S k)) as [_ Hhi].
  rewrite total_firstn_succ in Hhi
    by (unfold sizes; rewrite length_exact_sizes; assumption).
  unfold sizes in Hhi. rewrite nth_exact_sizes in Hhi. fold sizes in Hhi.
  set (w := snd (nth k shapes (0, 0))) in *.
  set (Lx := fst (nth k shapes (0, 0))) in *.
  pose proof (radix_bound Lx (B * w) l j Hl Hj) as Hin.
  unfold ptrs, sizes in *. rewrite nth_ptrs by assumption.
  split; [reflexivity|]. unfold padd. cbn [fst snd].
  replace (Lx * B * w) with (Lx * (B * w)) in Hhi by ring.
  replace (l * B * w) with (l * (B * w)) by ring. lia.
Qed.

Lemma tensor_outside_flat k p w n :
  p = nth k ptrs (acts_block, 0) -> w = snd (nth k shapes (0, 0)) -> n = B * w ->
  (k < length shapes)%nat -> 0 < fst (nth k shapes (0, 0)) ->
  outside p n q.
Proof.
  intros Ep Ew En Hk Hl. rewrite <- (padd_zero p).
  apply (tensor_outside k 0 p 0 w n); try assumption; [ring | lia].
Qed.

End TensorsInside.

Section ForwardWrites.

Context {F : Type} {ops : FloatOps F}.
Variables (model : GPT2) (model_consts : GPT2Const (F:=F)) (abase : ptr).
Variables (B T : Z) (maxT V Vp L NH C : Z) (q : ptr).

Let cfg := mkConfig maxT V Vp L NH C.
Let shapes := activation_shapes cfg T.

Hypothesis Hconfig : config model_consts = cfg.
Hypothesis Hacts :
  acts model = malloc_and_point_activations abase (fill_in_activation_sizes cfg B T).
Hypothesis Hexact : fill_in_activation_sizes cfg B T = exact_sizes B shapes.
Hypothesis HB : 0 <= B.
Hypothesis HT : 0 <= T.
Hypothesis HV : 0 <= V <= Vp.
Hypothesis Hq : ~ in_view abase (total (exact_sizes B shapes)) q.

Let Hptrs :
  activation_ptrs (acts model) = map (padd abase) (carve 0 (exact_sizes B shapes)) :=
  activation_ptrs_exact model abase B T maxT V Vp L NH C Hacts Hexact.
Let Hsizes : Forall (fun s => 0 <= s) (exact_sizes B shapes) :=
  exact_sizes_range B T maxT V Vp L NH C Hexact.

Ltac shape_entry :=
  unfold shapes, activation_shapes, cfg; cbv zeta;
  cbn [nth length fst snd channels num_heads num_layers padded_vocab_size].

Ltac inside k l w :=
  apply (tensor_outside abase shapes B q Hsizes Hq k l _ _ w);
  [ rewrite <- Hptrs; reflexivity | shape_entry; ring | shape_entry; ring
  | shape_entry; ring | shape_entry; lia | shape_entry; lia ].

Ltac inside_flat k w :=
  apply (tensor_outside_flat abase shapes B q Hsizes Hq k _ w);
  [ rewrite <- Hptrs; reflexivity | shape_entry; ring | shape_entry; ring
  | shape_entry; lia | shape_entry; lia ].

Lemma layer_writes l (s : machine (F:=F)) :
  0 <= l < L ->
  load (heap (gpt2_forward_layer model_consts (params model) (acts model) B T l s)) q
  = load (heap s) q.
Proof.
  intros Hl. unfold gpt2_forward_layer. rewrite Hconfig. unfold cfg.
  cbn [channels num_heads]. cbv zeta. cbn [call heap run_kernel].
  rewrite residual_writes by inside 16%nat l (T * C).
  rewrite matmul_writes by (assumption || inside 15%nat l (T * C)).
  rewrite gelu_writes by inside 14%nat l (T * (4 * C)).
  rewrite matmul_writes by (assumption || inside 13%nat l (T * (4 * C))).
  rewrite layernorm_writes by (inside 10%nat l (T * C) || inside 11%nat l T || inside 12%nat l T).
  rewrite residual_writes by inside 9%nat l (T * C).
  rewrite matmul_writes by (assumption || inside 8%nat l (T * C)).
  rewrite attention_writes_inside by (inside 5%nat l (T * C) || inside 6%nat l (NH * T * T) || inside 7%nat l (NH * T * T)).
  rewrite matmul_writes by (assumption || inside 4%nat l (T * (3 * C))).
  rewrite layernorm_writes by (inside 1%nat l (T * C) || inside 2%nat l T || inside 3%nat l T).
  reflexivity.
Qed.

Lemma forward_writes inputs targets (s s' : machine (F:=F)) consts' res :
  gpt2_forward model model_consts inputs targets B T s = Some (s', consts', res) ->
  load (heap s') q = load (heap s) q.
Proof.
  unfold gpt2_forward. rewrite Hconfig. unfold cfg.
  cbn [channels num_heads num_layers vocab_size padded_vocab_size].
  destruct (negb _); [discriminate|]. cbv zeta.
  set (a := call (KSoftmax _ _ _ _ _ _) _).
  assert (Ha : load (heap a) q = load (heap s) q).
  { subst a. cbn [call heap run_kernel].
    rewrite softmax_writes by (assumption || inside_flat 21%nat (T * Vp)).
    rewrite matmul_writes by (assumption || inside_flat 20%nat (T * Vp)).
    rewrite layernorm_writes
      by (inside_flat 17%nat (T * C) || inside_flat 18%nat T || inside_flat 19%nat T).
    rewrite (keeps_for_loop heap q 0 L) by (intros l Hl s1; now apply layer_writes).
    cbn [call heap run_kernel].
    now rewrite encoder_writes by inside_flat 0%nat (T * C). }
  clearbody a. unfold gpt2_forward_loss.
  destruct targets as [tg|]; intros E; injection E as <- _ _.
  - cbn [call heap run_kernel].
    rewrite crossentropy_keeps; [exact Ha|].
    change (outside (losses (acts model)) (B * T) q). inside_flat 22%nat T.
  - exact Ha.
Qed.

End ForwardWrites.

(** X9: for any float arithmetic, when the activation tensors are those that
    [malloc_and_point_activations] carves for (B, T), with sizes that do not
    wrap [size_t], and 0 <= V <= Vp: a run of [gpt2_forward] that returns
    leaves as it was every cell outside the activation buffer, that is
    outside the [num_activations] floats at [acts_memory]; in particular it
    changes no parameter. *)
Theorem gpt2_forward_writes_activations_only {F : Type} {ops : FloatOps F}
  (model : GPT2) (model_consts : GPT2Const (F:=F)) (abase : ptr)
  (inputs : Z -> Z) (targets : option (Z -> Z)) (B T : Z) (s : machine (F:=F))
  (q : ptr) :
  let cfg := config model_consts in
  let sizes := fill_in_activation_sizes cfg B T in
  acts model = malloc_and_point_activations abase sizes ->
  sizes = exact_sizes B (activation_shapes cfg T) ->
  0 <= B -> 0 <= T -> 0 <= vocab_size cfg <= padded_vocab_size cfg ->
  ~ in_view abase (total sizes) q ->
  match gpt2_forward model model_consts inputs targets B T s with
  | Some (s', _, _) => load (heap s') q = load (heap s) q
  | None => True
  end.
Proof.
  intros cfg sizes Hacts Hexact HB HT HV Hq. subst sizes cfg.
  destruct (config model_consts) as [maxT V Vp L NH C] eqn:Hconfig.
  cbn [vocab_size padded_vocab_size] in HV.
  destruct (gpt2_forward model model_consts inputs targets B T s)
    as [[[s' consts'] res]|] eqn:Hrun; [|exact I].
  rewrite Hexact in Hq.
  exact (forward_writes model model_consts abase B T maxT V Vp L NH C q
           Hconfig Hacts Hexact HB HT HV Hq inputs targets s s' consts' res Hrun).
Qed.

Lemma gpt2_forward_writes_activations_only_witness :
  let s : machine (F:=R) := mkMachine (fun _ z => IZR z) [] in
  match gpt2_forward tiny_model tiny_const (fun _ => 0) (Some (fun _ => 0)) 2 4 s with
  | Some (s', _, _) => load (heap s') (wte (params tiny_model)) = load (heap s) (wte (params tiny_model))
  | None => True
  end.
Proof.
  cbv zeta.
  apply (gpt2_forward_writes_activations_only tiny_model (tiny_const (F:=R))
           (acts_block, 0)).
  - reflexivity.
  - vm_compute. reflexivity.
  - lia.
  - lia.
  - cbn. lia.
  - intros [Hblock _]. discriminate Hblock.
Defined.

(** ** The validation of the token ids *)

Lemma all_valid_loop (f : Z -> bool) n :
  for_loop 0 n (fun i ok => ok && f i) true = false <->
  exists i, 0 <= i < n /\ f i = false.
Proof.
  destruct (Z_le_gt_dec 0 n) as [Hn|Hn].
  2:{ rewrite for_loop_empty by lia. split; [discriminate | intros (i & Hi & _); lia]. }
  assert (H : (fun k ok =>
                 (ok = true /\ forall i, 0 <= i < k -> f i = true) \/
                 (ok = false /\ exists i, 0 <= i < k /\ f i = false))
                n (for_loop 0 n (fun i ok => ok && f i) true)).
  { apply for_loop_invariant; [assumption | left; split; [reflexivity | intros; lia] |].
    intros k ok Hk [[-> Hall]|[-> (i & Hi & Ei)]].
    - cbn [andb]. destruct (f k) eqn:Ek.
      + left. split; [reflexivity|]. intros i Hi.
        destruct (Z.eq_dec i k) as [->|Hne]; [assumption | apply Hall; lia].
      + right. split; [reflexivity|]. exists k. split; [lia | assumption].
    - right. split; [reflexivity|]. exists i. split; [lia | assumption]. }
  destruct H as [[E Hall]|[E Hex]]; rewrite E.
  - split; [discriminate|]. intros (i & Hi & Ei). rewrite Hall in Ei by assumption.
    discriminate.
  - split; [intros _; exact Hex | reflexivity].
Qed.

Lemma id_check V x :
  0 <= V -> is_int V -> is_int x ->
  (0 <=? x) && (to_size_t x <? to_size_t V) = true <-> 0 <= x < V.
Proof.
  unfold is_int. intros HV HVi Hx. rewrite andb_true_iff, Z.leb_le, Z.ltb_lt.
  rewrite (to_size_t_small V) by (unfold SIZE_MAX1; lia).
  split.
  - intros [H0 Hlt]. rewrite to_size_t_small in Hlt by (unfold SIZE_MAX1; lia). lia.
  - intros H. rewrite to_size_t_small by (unfold SIZE_MAX1; lia). lia.
Qed.

(** X10: for a vocabulary size 0 <= V that is an [int], and ids that are
    [int]s: an [assert] of [gpt2_forward] fails exactly when some position i
    < B * T holds a token, or with targets a target, outside [0, V). With B
    * T <= 0 no [assert] runs. *)
Theorem gpt2_forward_aborts_iff_bad_id {F : Type} {ops : FloatOps F}
  (model : GPT2) (model_consts : GPT2Const (F:=F))
  (inputs : Z -> Z) (targets : option (Z -> Z)) (B T : Z) (s : machine (F:=F)) :
  let V := vocab_size (config model_consts) in
  0 <= V -> is_int V ->
  (forall i, 0 <= i < B * T ->
     is_int (inputs i) /\
     match targets with Some tg => is_int (tg i) | None => True end) ->
  (gpt2_forward model model_consts inputs targets B T s = None <->
   exists i, 0 <= i < B * T /\
     (~ 0 <= inputs i < V \/
      match targets with Some tg => ~ 0 <= tg i < V | None => False end)).
Proof.
  intros V HV HVi Hints. unfold gpt2_forward. fold V.
  set (ok := for_loop 0 (B * T) _ true).
  assert (Hok : ok = false <->
                exists i, 0 <= i < B * T /\ valid_position V inputs targets i = false)
    by apply all_valid_loop.
  assert (Hpos : forall i, 0 <= i < B * T ->
            (valid_position V inputs targets i = false <->
             (~ 0 <= inputs i < V \/
              match targets with Some tg => ~ 0 <= tg i < V | None => False end))).
  { intros i Hi. destruct (Hints i Hi) as [Hin Htg]. unfold valid_position.
    pose proof (id_check V (inputs i) HV HVi Hin) as Hc.
    destruct ((0 <=? inputs i) && (to_size_t (inputs i) <? to_size_t V)) eqn:E1.
    - cbn [andb]. destruct targets as [tg|].
      + pose proof (id_check V (tg i) HV HVi Htg) as Hd.
        destruct ((0 <=? tg i) && (to_size_t (tg i) <? to_size_t V)) eqn:E2.
        * split; [discriminate|]. intros [H|H]; exfalso; apply H; tauto.
        * split; [|reflexivity]. intros _. right. intros H. apply Hd in H. discriminate.
      + split; [discriminate|]. intros [H|[]]. exfalso. apply H. tauto.
    - cbn [andb]. split; [|reflexivity]. intros _. left. intros H.
      apply Hc in H. discriminate. }
  destruct ok.
  - cbn [negb]. cbv zeta.
    destruct (gpt2_forward_loss _ _ _ _ _ _) as [s' loss].
    split; [discriminate|].
    intros (i & Hi & Hbad). exfalso.
    assert (Hf : true = false); [|discriminate].
    apply Hok. exists i. split; [assumption|]. now apply Hpos.
  - cbn [negb]. split; [|reflexivity]. intros _.
    destruct (proj1 Hok eq_refl) as (i & Hi & Ei).
    exists i. split; [assumption|]. now apply Hpos.
Qed.

Lemma gpt2_forward_aborts_iff_bad_id_witness :
  let s : machine (F:=R) := mkMachine (fun _ z => IZR z) [] in
  gpt2_forward tiny_model tiny_const (fun i => if i =? 5 then 16 else 0) None 2 4 s = None <->
  exists i, 0 <= i < 2 * 4 /\
    (~ 0 <= (if i =? 5 then 16 else 0) < vocab_size (config (tiny_const (F:=R))) \/ False).
Proof.
  cbv zeta.
  apply (gpt2_forward_aborts_iff_bad_id tiny_model (tiny_const (F:=R))
           (fun i => if i =? 5 then 16 else 0) None 2 4).
  - cbn. lia.
  - unfold is_int. cbn. lia.
  - intros i Hi. split; [|exact I]. unfold is_int. destruct (i =? 5); lia.
Defined.

(** ** What the update writes, and what it keeps between calls *)

Section UpdateWrites.

Context {F : Type} {ops : FloatOps F}.

Lemma element_writes pm gm mm vm lr b1 b2 eps wd t i (s : ustate (F:=F)) q :
  q <> pm +! i -> q <> gm +! i -> q <> mm +! i -> q <> vm +! i ->
  load (uheap (gpt2_update_element pm gm mm vm lr b1 b2 eps wd t i s)) q
  = load (uheap s) q.
Proof.
  intros Hp Hg Hm Hv. unfold gpt2_update_element, uload, ustore.
  destruct (i =? 0); cbn [uheap fst snd];
    now rewrite !load_store_other by assumption.
Qed.

Lemma update_writes model shadow_model (const_model : GPT2Const (F:=F))
  lr b1 b2 eps wd t (s : ustate (F:=F)) q :
  let n := num_parameters const_model in
  outside (params_memory model) n q ->
  outside (params_memory shadow_model) n q ->
  outside (fst (adam_buffers const_model)) n q ->
  outside (snd (adam_buffers const_model)) n q ->
  (adam_memory const_model = None -> fst q <> m_block /\ fst q <> v_block) ->
  load (uheap (snd (gpt2_update model shadow_model const_model lr b1 b2 eps wd t s))) q
  = load (uheap s) q.
Proof.
  intros n Hp Hg Hm Hv Hfresh. rewrite gpt2_update_loop.
  rewrite (keeps_for_loop uheap q 0 n).
  - unfold update_entry. destruct (adam_memory const_model); [reflexivity|].
    destruct (Hfresh eq_refl). cbn [uheap]. now rewrite !load_calloc_other.
  - intros i Hi s'. apply element_writes; [apply Hp | apply Hg | apply Hm | apply Hv];
      assumption.
Qed.

End UpdateWrites.

(** X11: for any float arithmetic, [gpt2_update] leaves as it was every cell
    that is none of the [num_parameters] floats of the parameters, of the
    gradients and of the two moment buffers (and, on the call that allocates
    the moment buffers, not in the blocks that [calloc] returns). *)
Theorem gpt2_update_writes_buffers_only {F : Type} {ops : FloatOps F}
  (model shadow_model : GPT2) (const_model : GPT2Const (F:=F))
  (learning_rate beta1 beta2 eps weight_decay : F) (t : Z) (s : ustate (F:=F))
  (q : ptr) :
  let n := num_parameters const_model in
  outside (params_memory model) n q ->
  outside (params_memory shadow_model) n q ->
  outside (fst (adam_buffers const_model)) n q ->
  outside (snd (adam_buffers const_model)) n q ->
  (adam_memory const_model = None -> fst q <> m_block /\ fst q <> v_block) ->
  load (uheap (snd (gpt2_update model shadow_model const_model
                      learning_rate beta1 beta2 eps weight_decay t s))) q
  = load (uheap s) q.
Proof. apply update_writes. Qed.

Lemma gpt2_update_writes_buffers_only_witness :
  let s : ustate (F:=R) := mkUstate (fun _ z => IZR z) [] in
  load (uheap (snd (gpt2_update tiny_model tiny_shadow_model tiny_const
                      1e-4%R 0.9%R 0.999%R 1e-8%R 0%R 1 s)))
       (encoded (acts tiny_model))
  = load (uheap s) (encoded (acts tiny_model)).
Proof.
  cbv zeta.
  apply (gpt2_update_writes_buffers_only tiny_model tiny_shadow_model (tiny_const (F:=R)));
    try (intros k Hk E; apply (f_equal fst) in E; discriminate E).
  intros _. split; discriminate.
Defined.

(** X12: for any float arithmetic and pairwise disjoint buffers: a call of
    [gpt2_update] on the [const_model] that an earlier call has returned
    works on the same moment buffers and does not clear them: the moments
    that it leaves are beta1 * m + (1 - beta1) * g and beta2 * v + (1 -
    beta2) * g * g of the values m and v that the buffers hold when it
    starts. The buffers are allocated once. *)
Theorem gpt2_update_keeps_moments {F : Type} {ops : FloatOps F}
  (model shadow_model : GPT2) (const_model : GPT2Const (F:=F))
  (lr beta1 beta2 eps weight_decay : F) (t t' : Z) (s s' : ustate (F:=F)) :
  let n := num_parameters const_model in
  let pm := params_memory model in
  let gm := params_memory shadow_model in
  let mm := fst (adam_buffers const_model) in
  let vm := snd (adam_buffers const_model) in
  let const1 := fst (gpt2_update model shadow_model const_model
                       lr beta1 beta2 eps weight_decay t s) in
  let r := gpt2_update model shadow_model const1 lr beta1 beta2 eps weight_decay t' s' in
  buffers_separate pm gm mm vm n ->
  adam_memory (fst r) = Some (mm, vm) /\
  num_parameters (fst r) = n /\
  forall i, 0 <= i < n ->
    load (uheap (snd r)) (mm +! i)
    = adam_m beta1 (load (uheap s') (mm +! i)) (load (uheap s') (gm +! i)) /\
    load (uheap (snd r)) (vm +! i)
    = adam_v beta2 (load (uheap s') (vm +! i)) (load (uheap s') (gm +! i)).
Proof.
  intros n pm gm mm vm const1 r (Hpg & Hpm & Hpv & Hgm & Hgv & Hmv).
  assert (Hmem : adam_memory const1 = Some (mm, vm)).
  { subst const1 mm vm. unfold gpt2_update, adam_buffers.
    destruct (adam_memory const_model) as [[mp vp]|]; reflexivity. }
  assert (Hn : num_parameters const1 = n).
  { subst const1 n. unfold gpt2_update.
    destruct (adam_memory const_model) as [[mp vp]|]; reflexivity. }
  assert (Hbuf : adam_buffers const1 = (mm, vm)).
  { unfold adam_buffers. now rewrite Hmem. }
  split; [|split].
  - subst r. unfold gpt2_update. rewrite Hmem. reflexivity.
  - subst r. unfold gpt2_update. rewrite Hmem. cbn [fst num_parameters]. exact Hn.
  - intros i Hi. subst r. rewrite gpt2_update_loop.
    rewrite Hbuf, Hn. cbn [fst snd].
    assert (Hentry : update_entry const1 s' = s').
    { unfold update_entry. now rewrite Hmem. }
    rewrite Hentry.
    destruct (update_loop pm gm mm vm n lr beta1 beta2 eps weight_decay t'
                Hpg Hpm Hpv Hgm Hgv Hmv s') as [Hval _].
    destruct (Hval i Hi) as (_ & Em & Ev & _). split; assumption.
Qed.

Lemma gpt2_update_keeps_moments_witness :
  let s : ustate (F:=R) := mkUstate (fun _ _ => 1%R) [] in
  let n := num_parameters (tiny_const (F:=R)) in
  let pm := params_memory tiny_model in
  let gm := params_memory tiny_shadow_model in
  let const1 := fst (gpt2_update tiny_model tiny_shadow_model tiny_const
                       1e-4%R 0.9%R 0.999%R 1e-8%R 0%R 1 s) in
  let r := gpt2_update tiny_model tiny_shadow_model const1
             1e-4%R 0.9%R 0.999%R 1e-8%R 0%R 2 s in
  adam_memory (fst r) = Some ((m_block, 0), (v_block, 0)) /\
  num_parameters (fst r) = n /\
  forall i, 0 <= i < n ->
    load (uheap (snd r)) ((m_block, 0) +! i)
    = adam_m 0.9%R (load (uheap s) ((m_block, 0) +! i)) (load (uheap s) (gm +! i)) /\
    load (uheap (snd r)) ((v_block, 0) +! i)
    = adam_v 0.999%R (load (uheap s) ((v_block, 0) +! i)) (load (uheap s) (gm +! i)).
Proof.
  cbv zeta.
  apply (gpt2_update_keeps_moments tiny_model tiny_shadow_model (tiny_const (F:=R))
           1e-4%R 0.9%R 0.999%R 1e-8%R 0%R 1 2).
  apply tiny_buffers_separate.
Defined.

(* ================================================================== *)
(** * Part V: what the kernels compute *)
(* ================================================================== *)

(** ** The encoder *)

(** X13: for any float arithmetic and embeddings outside the block of the
    output, [encoder_forward] leaves at [out[b, t, i]] the sum wte[inp[b,
    t], i] + wpe[t, i], the token embedding first. *)
Theorem encoder_forward_adds_embeddings {F : Type} {ops : FloatOps F}
  (out : ptr) (inp : Z -> Z) (wte wpe : ptr) (B T C : Z) (m : mem (F:=F)) (b t i : Z) :
  fst wte <> fst out -> fst wpe <> fst out ->
  0 <= b < B -> 0 <= t < T -> 0 <= i < C ->
  load (encoder_forward out inp wte wpe B T C m) (out +! row_index T C b t i)
  = fadd (load m (wte +! (inp (b * T + t) * C + i))) (load m (wpe +! (t * C + i))).
Proof.
  intros Hwte Hwpe Hb Ht Hi. unfold encoder_forward.
  set (I := fun m' : mem (F:=F) => forall q, fst q <> fst out -> load m' q = load m q).
  assert (Hround : forall b' t' m', I m' ->
            I (for_loop 0 C (fun j m'' =>
                 store m'' (out +! (b' * T * C + t' * C) +! j)
                   (fadd (load m'' (wte +! (inp (b' * T + t') * C) +! j))
                         (load m'' (wpe +! (t' * C) +! j)))) m')).
  { intros b' t' m' Hm' q Hq.
    rewrite (keeps_for_loop (fun m => m) q); [now apply Hm'|].
    intros j Hj m''. rewrite load_store_other; [reflexivity|].
    intros ->. now apply Hq. }
  apply (positions_pick_inv I
           (fun m' => load m' (out +! row_index T C b t i)
                      = fadd (load m (wte +! (inp (b * T + t) * C + i)))
                             (load m (wpe +! (t * C + i))))
           B T _ b t m Hb Ht).
  - intros q _. reflexivity.
  - intros b' t' m' _ _ Hm'. cbv zeta. now apply Hround.
  - intros m' Hm'. cbv zeta.
    apply (for_loop_pick_inv I
             (fun m'' => load m'' (out +! row_index T C b t i)
                         = fadd (load m (wte +! (inp (b * T + t) * C + i)))
                                (load m (wpe +! (t * C + i))))
             0 C _ m' i Hi Hm').
    + intros j m'' Hj Hm'' q Hq. rewrite load_store_other; [now apply Hm''|].
      intros ->. now apply Hq.
    + intros m'' Hm''. rewrite row_elem, load_store_same, !padd_padd.
      rewrite !Hm'' by assumption. reflexivity.
    + intros j m'' Hj Hne _ HQ. rewrite row_elem, load_store_other; [exact HQ|].
      apply padd_neq. unfold row_index. lia.
  - intros b' t' m' Hb' Ht' Hne _ HQ. cbv zeta.
    rewrite (keeps_for_loop (fun m => m)); [exact HQ|].
    intros j Hj m''. rewrite row_elem, load_store_other; [reflexivity|].
    intros E. apply padd_inj in E. apply row_index_inj in E; try assumption.
    destruct E as (-> & -> & _). now apply Hne.
Qed.

Lemma encoder_forward_adds_embeddings_witness :
  let m : mem (F:=R) := fun _ z => IZR z in
  load (encoder_forward (acts_block, 0) (fun _ => 3) (params_block, 0) (params_block, 128)
          2 4 8 m) ((acts_block, 0) +! row_index 4 8 1 2 5)
  = fadd (load m ((params_block, 0) +! (3 * 8 + 5)))
         (load m ((params_block, 128) +! (2 * 8 + 5))).
Proof.
  cbv zeta.
  apply (encoder_forward_adds_embeddings (F:=R) (acts_block, 0) (fun _ => 3)
           (params_block, 0) (params_block, 128) 2 4 8 (fun _ z => IZR z) 1 2 5);
    try lia; discriminate.
Defined.

(** ** Layer normalisation *)

(** The arrays that [layernorm_forward] writes lie apart from one another
    and from those that it reads. *)
Definition layernorm_separate (out mean rstd inp weight bias : ptr) (B T C : Z) : Prop :=
  disjoint out (B * T * C) mean (B * T) /\
  disjoint out (B * T * C) rstd (B * T) /\
  disjoint mean (B * T) rstd (B * T) /\
  forall p n, In (p, n) [(inp, B * T * C); (weight, C); (bias, C)] ->
    disjoint out (B * T * C) p n /\ disjoint mean (B * T) p n /\ disjoint rstd (B * T) p n.

Section LayernormValues.

Context {F : Type} {ops : FloatOps F}.

Variables (out mean rstd inp weight bias : ptr) (B T C : Z).
Hypothesis Hsep : layernorm_separate out mean rstd inp weight bias B T C.

(** The cells that the kernel does not write. *)
Let kept (q : ptr) : Prop :=
  outside out (B * T * C) q /\ outside mean (B * T) q /\ outside rstd (B * T) q.

Let frame (m m' : mem (F:=F)) : Prop := forall q, kept q -> load m' q = load m q.

Lemma read_kept p n k :
  In (p, n) [(inp, B * T * C); (weight, C); (bias, C)] -> 0 <= k < n -> kept (p +! k).
Proof.
  intros Hin Hk. destruct Hsep as (_ & _ & _ & H).
  destruct (H p n Hin) as (H1 & H2 & H3).
  repeat split; intros j Hj E; symmetry in E; revert E;
    [apply (disjoint_neq _ _ _ _ _ _ H1) | apply (disjoint_neq _ _ _ _ _ _ H2)
     | apply (disjoint_neq _ _ _ _ _ _ H3)]; assumption.
Qed.

Lemma inp_kept b t i :
  0 <= b < B -> 0 <= t < T -> 0 <= i < C -> kept (inp +! row_index T C b t i).
Proof.
  intros Hb Ht Hi. apply (read_kept inp (B * T * C)); [now left|].
  now apply row_index_bound.
Qed.

Lemma weight_kept i : 0 <= i < C -> kept (weight +! i).
Proof. intros Hi. apply (read_kept weight C); [right; now left | assumption]. Qed.

Lemma bias_kept i : 0 <= i < C -> kept (bias +! i).
Proof. intros Hi. apply (read_kept bias C); [right; right; now left | assumption]. Qed.

Definition layernorm_round (b t : Z) (m : mem (F:=F)) : mem (F:=F) :=
  let x := inp +! (b * T * C + t * C) in
  let mu := layernorm_mean x C m in
  let s := layernorm_rstd x C mu m in
  let out_bt := out +! (b * T * C + t * C) in
  let m := for_loop 0 C (fun i m =>
             let n := fmul s (fsub (load m (x +! i)) mu) in
             let o := fadd (fmul n (load m (weight +! i))) (load m (bias +! i)) in
             store m (out_bt +! i) o) m in
  let m := store m (mean +! (b * T + t)) mu in
  store m (rstd +! (b * T + t)) s.

Lemma round_frame b t m0 m :
  0 <= b < B -> 0 <= t < T -> frame m0 m -> frame m0 (layernorm_round b t m).
Proof.
  intros Hb Ht Hm q Hq. unfold layernorm_round. cbv zeta.
  destruct Hq as (Ho & Hmu & Hrs).
  rewrite !load_store_other by (first [apply Hrs | apply Hmu]; now apply radix_bound).
  rewrite (keeps_for_loop (fun m => m) q); [apply Hm; repeat split; assumption|].
  intros i Hi m'. rewrite row_elem, load_store_other; [reflexivity|].
  apply Ho. now apply row_index_bound.
Qed.

(** The statistics of the row (b, t) of the input in the heap [m]. *)
Definition row_mean (m : mem (F:=F)) (b t : Z) : F :=
  fdiv (fsum 0 C (fun i => load m (inp +! row_index T C b t i))) (of_int C).

Definition row_var (m : mem (F:=F)) (b t : Z) : F :=
  fdiv (fsum 0 C (fun i =>
          let xshift := fsub (load m (inp +! row_index T C b t i)) (row_mean m b t) in
          fmul xshift xshift))
       (of_int C).

Definition row_rstd (m : mem (F:=F)) (b t : Z) : F :=
  fdiv fone (fsqrt (fadd (row_var m b t) (fdec 1 (-5)))).

Lemma round_mean b t m0 m :
  0 <= b < B -> 0 <= t < T -> frame m0 m ->
  layernorm_mean (inp +! (b * T * C + t * C)) C m = row_mean m0 b t.
Proof.
  intros Hb Ht Hm. unfold layernorm_mean, row_mean, fsum.
  f_equal. apply for_loop_ext. intros i acc Hi.
  rewrite row_elem, Hm by now apply inp_kept. reflexivity.
Qed.

Lemma round_rstd b t m0 m :
  0 <= b < B -> 0 <= t < T -> frame m0 m ->
  layernorm_rstd (inp +! (b * T * C + t * C)) C (row_mean m0 b t) m = row_rstd m0 b t.
Proof.
  intros Hb Ht Hm. unfold layernorm_rstd, row_rstd, row_var, fsum. cbv zeta.
  do 4 f_equal. apply for_loop_ext. intros i acc Hi.
  rewrite row_elem, Hm by now apply inp_kept. reflexivity.
Qed.

Definition normalized (m0 : mem (F:=F)) (b t : Z) (m : mem (F:=F)) : Prop :=
  load m (mean +! (b * T + t)) = row_mean m0 b t /\
  load m (rstd +! (b * T + t)) = row_rstd m0 b t /\
  forall i, 0 <= i < C ->
    load m (out +! row_index T C b t i)
    = fadd (fmul (fmul (row_rstd m0 b t)
                       (fsub (load m0 (inp +! row_index T C b t i)) (row_mean m0 b t)))
                 (load m0 (weight +! i)))
           (load m0 (bias +! i)).

Lemma out_not_stat b t i k :
  0 <= b < B -> 0 <= t < T -> 0 <= i < C -> 0 <= k < B * T ->
  out +! row_index T C b t i <> mean +! k /\ out +! row_index T C b t i <> rstd +! k.
Proof.
  intros Hb Ht Hi Hk. destruct Hsep as (H1 & H2 & _).
  split; [apply (disjoint_neq _ _ _ _ _ _ H1) | apply (disjoint_neq _ _ _ _ _ _ H2)];
    try assumption; now apply row_index_bound.
Qed.

Lemma mean_not_rstd j k : 0 <= j < B * T -> 0 <= k < B * T -> mean +! j <> rstd +! k.
Proof.
  intros Hj Hk. destruct Hsep as (_ & _ & H3 & _).
  now apply (disjoint_neq _ _ _ _ _ _ H3).
Qed.

Lemma round_sets b t m0 m :
  0 <= b < B -> 0 <= t < T -> frame m0 m -> normalized m0 b t (layernorm_round b t m).
Proof.
  intros Hb Ht Hm. unfold layernorm_round. cbv zeta.
  rewrite (round_mean b t m0 m Hb Ht Hm), (round_rstd b t m0 m Hb Ht Hm).
  pose proof (radix_bound B T b t Hb Ht) as Hbt.
  set (m1 := for_loop 0 C _ m).
  split; [|split].
  - rewrite load_store_other by (now apply mean_not_rstd). now rewrite load_store_same.
  - now rewrite load_store_same.
  - intros i Hi.
    destruct (out_not_stat b t i (b * T + t) Hb Ht Hi Hbt) as [Hnm Hnr].
    rewrite !load_store_other by assumption. subst m1.
    apply (for_loop_pick_inv (frame m0)
             (fun m' => load m' (out +! row_index T C b t i)
                        = fadd (fmul (fmul (row_rstd m0 b t)
                                           (fsub (load m0 (inp +! row_index T C b t i))
                                                 (row_mean m0 b t)))
                                     (load m0 (weight +! i)))
                               (load m0 (bias +! i)))
             0 C _ m i Hi Hm).
    + intros j m' Hj Hm' q Hq. rewrite row_elem, load_store_other; [now apply Hm'|].
      destruct Hq as (Ho & _). apply Ho. now apply row_index_bound.
    + intros m' Hm'. rewrite !row_elem, load_store_same.
      rewrite (Hm' (inp +! row_index T C b t i)) by now apply inp_kept.
      rewrite (Hm' (weight +! i)) by now apply weight_kept.
      rewrite (Hm' (bias +! i)) by now apply bias_kept.
      reflexivity.
    + intros j m' Hj Hne _ HQ. rewrite row_elem, load_store_other; [exact HQ|].
      apply padd_neq. unfold row_index. lia.
Qed.

Lemma round_keeps_normalized b t b' t' m0 m :
  0 <= b < B -> 0 <= t < T -> 0 <= b' < B -> 0 <= t' < T -> (b', t') <> (b, t) ->
  normalized m0 b t m -> normalized m0 b t (layernorm_round b' t' m).
Proof.
  intros Hb Ht Hb' Ht' Hne (Hmu & Hrs & Hout). unfold layernorm_round. cbv zeta.
  pose proof (radix_bound B T b t Hb Ht) as Hbt.
  pose proof (radix_bound B T b' t' Hb' Ht') as Hbt'.
  assert (Hpos : b' * T + t' <> b * T + t).
  { intros E. apply (radix_inj T) in E; [|assumption|assumption].
    destruct E as [-> ->]. now apply Hne. }
  set (m1 := for_loop 0 C _ m).
  assert (Hm1 : forall q, outside out (B * T * C) q -> load m1 q = load m q).
  { intros q Hq. subst m1. apply (keeps_for_loop (fun m => m)). intros j Hj m'.
    rewrite row_elem, load_store_other; [reflexivity|].
    apply Hq. now apply row_index_bound. }
  assert (Hstat : forall k, 0 <= k < B * T ->
            outside out (B * T * C) (mean +! k) /\ outside out (B * T * C) (rstd +! k)).
  { intros k Hk. destruct Hsep as (H1 & H2 & _).
    split; intros j Hj E; symmetry in E; revert E;
      [apply (disjoint_neq _ _ _ _ _ _ H1) | apply (disjoint_neq _ _ _ _ _ _ H2)];
      assumption. }
  split; [|split].
  - rewrite load_store_other by (now apply mean_not_rstd).
    rewrite load_store_other by (apply padd_neq; lia).
    rewrite Hm1; [exact Hmu | now apply Hstat].
  - rewrite load_store_other by (apply padd_neq; lia).
    rewrite load_store_other
      by (intros E; symmetry in E; revert E; now apply mean_not_rstd).
    rewrite Hm1; [exact Hrs | now apply Hstat].
  - intros i Hi.
    destruct (out_not_stat b t i (b' * T + t') Hb Ht Hi Hbt') as [Hnm Hnr].
    rewrite !load_store_other by assumption. rewrite <- Hout by assumption.
    subst m1. apply (keeps_for_loop (fun m => m)). intros j Hj m'.
    rewrite row_elem, load_store_other; [reflexivity|].
    intros E. apply padd_inj in E. apply row_index_inj in E; try assumption.
    destruct E as (-> & -> & _). now apply Hne.
Qed.

Lemma layernorm_forward_normalized b t m :
  0 <= b < B -> 0 <= t < T ->
  normalized m b t (layernorm_forward out mean rstd inp weight bias B T C m).
Proof.
  intros Hb Ht. rewrite layernorm_rounds.
  apply (positions_pick_inv (frame m) (normalized m b t) B T layernorm_round b t m Hb Ht).
  - intros q _. reflexivity.
  - intros b' t' m' Hb' Ht' Hm'. now apply round_frame.
  - intros m' Hm'. now apply round_sets.
  - intros b' t' m' Hb' Ht' Hne _ HQ. now apply round_keeps_normalized.
Qed.

End LayernormValues.

(** X14: for any float arithmetic and arrays that lie apart
    ([layernorm_separate]): [layernorm_forward] caches for every position
    the mean mu = (x_0 + ... + x_(C-1)) / C of its C inputs, added in index
    order from 0.0f, and rs = 1.0f / sqrtf(var + 1e-5f), var being the sum
    of the squares (x_i - mu) * (x_i - mu) divided by C, and leaves out_i =
    rs * (x_i - mu) * weight_i + bias_i; inputs, weights and biases are
    those of the heap before the call. *)
Theorem layernorm_forward_normalizes {F : Type} {ops : FloatOps F}
  (out mean rstd inp weight bias : ptr) (B T C : Z) (m : mem (F:=F)) (b t : Z) :
  layernorm_separate out mean rstd inp weight bias B T C ->
  0 <= b < B -> 0 <= t < T ->
  let m' := layernorm_forward out mean rstd inp weight bias B T C m in
  let x i := load m (inp +! row_index T C b t i) in
  let mu := fdiv (fsum 0 C x) (of_int C) in
  let var := fdiv (fsum 0 C (fun i => fmul (fsub (x i) mu) (fsub (x i) mu))) (of_int C) in
  let rs := fdiv fone (fsqrt (fadd var (fdec 1 (-5)))) in
  load m' (mean +! (b * T + t)) = mu /\
  load m' (rstd +! (b * T + t)) = rs /\
  forall i, 0 <= i < C ->
    load m' (out +! row_index T C b t i)
    = fadd (fmul (fmul rs (fsub (x i) mu)) (load m (weight +! i))) (load m (bias +! i)).
Proof.
  intros Hsep Hb Ht. cbv zeta.
  exact (layernorm_forward_normalized out mean rstd inp weight bias B T C Hsep b t m Hb Ht).
Qed.

Lemma layernorm_forward_normalizes_witness :
  let m : mem (F:=R) := fun _ z => IZR z in
  let m' := layernorm_forward (acts_block, 0) (acts_block, 10) (acts_block, 20)
              (acts_block, 30) (params_block, 0) (params_block, 10) 1 1 2 m in
  let x i := load m ((acts_block, 30) +! row_index 1 2 0 0 i) in
  let mu := fdiv (fsum 0 2 x) (of_int 2) in
  let var := fdiv (fsum 0 2 (fun i => fmul (fsub (x i) mu) (fsub (x i) mu))) (of_int 2) in
  let rs := fdiv fone (fsqrt (fadd var (fdec 1 (-5)))) in
  load m' ((acts_block, 10) +! (0 * 1 + 0)) = mu /\
  load m' ((acts_block, 20) +! (0 * 1 + 0)) = rs /\
  forall i, 0 <= i < 2 ->
    load m' ((acts_block, 0) +! row_index 1 2 0 0 i)
    = fadd (fmul (fmul rs (fsub (x i) mu)) (load m ((params_block, 0) +! i)))
           (load m ((params_block, 10) +! i)).
Proof.
  cbv zeta.
  apply (layernorm_forward_normalizes (ops:=RealOps)
           (acts_block, 0) (acts_block, 10) (acts_block, 20)
           (acts_block, 30) (params_block, 0) (params_block, 10) 1 1 2);
    try lia.
  unfold layernorm_separate. do 3 (split; [right; left; cbn; lia|]).
  intros p n [E|[E|[E|[]]]]; injection E as <- <-;
    repeat split; first [left; discriminate | right; left; cbn; lia].
Defined.

(** ** GELU and the residual add *)

(** The value that [gelu_forward] stores for the input [x]. *)
Definition gelu {F : Type} {ops : FloatOps F} (x : F) : F :=
  let cube := fmul (fmul (fmul (fdec 44715 (-6)) x) x) x in
  fmul (fmul (fdec 5 (-1)) x)
       (fadd fone (ftanh (fmul GELU_SCALING_FACTOR (fadd x cube)))).

Lemma gelu_forward_cell {F : Type} {ops : FloatOps F}
  (out inp : ptr) (N : Z) (m : mem (F:=F)) (i : Z) :
  disjoint out N inp N -> 0 <= i < N ->
  load (gelu_forward out inp N m) (out +! i) = gelu (load m (inp +! i)).
Proof.
  intros Hsep Hi. unfold gelu_forward.
  apply (for_loop_pick_inv
           (fun m' : mem (F:=F) => forall q, outside out N q -> load m' q = load m q)
           (fun m' => load m' (out +! i) = gelu (load m (inp +! i)))
           0 N _ m i Hi).
  - intros q _. reflexivity.
  - intros j m' Hj Hm' q Hq. cbv zeta.
    rewrite load_store_other; [now apply Hm' | now apply Hq].
  - intros m' Hm'. cbv zeta. rewrite load_store_same.
    rewrite Hm'; [reflexivity|].
    intros k Hk E. symmetry in E. revert E. now apply (disjoint_neq _ _ _ _ _ _ Hsep).
  - intros j m' Hj Hne _ HQ. cbv zeta.
    rewrite load_store_other; [exact HQ | now apply padd_neq].
Qed.

Lemma residual_forward_cell {F : Type} {ops : FloatOps F}
  (out inp1 inp2 : ptr) (N : Z) (m : mem (F:=F)) (i : Z) :
  disjoint out N inp1 N -> disjoint out N inp2 N -> 0 <= i < N ->
  load (residual_forward out inp1 inp2 N m) (out +! i)
  = fadd (load m (inp1 +! i)) (load m (inp2 +! i)).
Proof.
  intros Hsep1 Hsep2 Hi. unfold residual_forward.
  apply (for_loop_pick_inv
           (fun m' : mem (F:=F) => forall q, outside out N q -> load m' q = load m q)
           (fun m' => load m' (out +! i) = fadd (load m (inp1 +! i)) (load m (inp2 +! i)))
           0 N _ m i Hi).
  - intros q _. reflexivity.
  - intros j m' Hj Hm' q Hq.
    rewrite load_store_other; [now apply Hm' | now apply Hq].
  - intros m' Hm'. rewrite load_store_same.
    rewrite !Hm'; [reflexivity | |];
      intros k Hk E; symmetry in E; revert E;
      [now apply (disjoint_neq _ _ _ _ _ _ Hsep2)
      | now apply (disjoint_neq _ _ _ _ _ _ Hsep1)].
  - intros j m' Hj Hne _ HQ.
    rewrite load_store_other; [exact HQ | now apply padd_neq].
Qed.

(** X15: for any float arithmetic and an output that lies apart from the
    inputs: [gelu_forward] leaves at [out[i]] the value 0.5f * x * (1.0f +
    tanhf(sqrtf(2.0f / pi) * (x + 0.044715f * x * x * x))) of the input x =
    inp[i] before the call, and [residual_forward] the sum inp1[i] +
    inp2[i]. *)
Theorem gelu_forward_values {F : Type} {ops : FloatOps F}
  (out inp inp2 : ptr) (N : Z) (m : mem (F:=F)) (i : Z) :
  disjoint out N inp N -> disjoint out N inp2 N -> 0 <= i < N ->
  let x := load m (inp +! i) in
  let cube := fmul (fmul (fmul (fdec 44715 (-6)) x) x) x in
  load (gelu_forward out inp N m) (out +! i)
  = fmul (fmul (fdec 5 (-1)) x)
         (fadd fone (ftanh (fmul (fsqrt (fdiv (fdec 2 0) fpi)) (fadd x cube)))) /\
  load (residual_forward out inp inp2 N m) (out +! i)
  = fadd x (load m (inp2 +! i)).
Proof.
  intros Hsep Hsep2 Hi. cbv zeta. split.
  - now apply gelu_forward_cell.
  - now apply residual_forward_cell.
Qed.

Lemma gelu_forward_values_witness :
  let m : mem (F:=R) := fun _ z => IZR (z - 20) in
  let x := load m ((acts_block, 16) +! 3) in
  let cube := fmul (fmul (fmul (fdec 44715 (-6)) x) x) x in
  load (gelu_forward (acts_block, 0) (acts_block, 16) 8 m) ((acts_block, 0) +! 3)
  = fmul (fmul (fdec 5 (-1)) x)
         (fadd fone (ftanh (fmul (fsqrt (fdiv (fdec 2 0) fpi)) (fadd x cube)))) /\
  load (residual_forward (acts_block, 0) (acts_block, 16) (acts_block, 32) 8 m)
       ((acts_block, 0) +! 3)
  = fadd x (load m ((acts_block, 32) +! 3)).
Proof.
  cbv zeta.
  apply (gelu_forward_values (ops:=RealOps) (acts_block, 0) (acts_block, 16)
           (acts_block, 32) 8); [| |lia]; right; left; cbn; lia.
Defined.

(** ** The matrix product *)

(** On either path, an output cell holds the value of [matmul_cell]. *)
Lemma matmul_forward_cell {F : Type} {ops : FloatOps F}
  (out inp weight : ptr) (bias : option ptr) (B T C OC : Z) (m : mem (F:=F)) (bt o : Z) :
  0 <= B -> 0 <= T ->
  disjoint out (B * T * OC) inp (B * T * C) ->
  disjoint out (B * T * OC) weight (OC * C) ->
  (forall bp, bias = Some bp -> disjoint out (B * T * OC) bp OC) ->
  0 <= bt < B * T -> 0 <= o < OC ->
  load (matmul_forward out inp weight bias B T C OC m) (out +! (bt * OC + o))
  = matmul_cell inp weight bias C m bt o.
Proof.
  intros HB HT Hinp Hweight Hbias Hbt Ho.
  destruct (Z.eq_dec (Z.rem (B * T) LOOP_UNROLL) 0) as [Hrem|Hrem].
  - now apply tiled_cell.
  - unfold matmul_forward. apply Z.eqb_neq in Hrem. rewrite Hrem. cbn [negb].
    assert (HTpos : 0 < T) by nia.
    assert (Ebt : bt = bt / T * T + bt mod T).
    { pose proof (Z.div_mod bt T ltac:(lia)). lia. }
    assert (Hb : 0 <= bt / T < B).
    { split; [apply Z.div_pos; lia | apply Z.div_lt_upper_bound; lia]. }
    assert (Ht : 0 <= bt mod T < T) by (apply Z.mod_pos_bound; lia).
    revert Ebt Hb Ht. generalize (bt / T) (bt mod T). intros b t -> Hb Ht.
    now apply naive_cell.
Qed.

(** X16: for any float arithmetic, B, T >= 0 and an output that lies apart
    from the input, the weights and the bias: [matmul_forward], on the tiled
    path as on the naive one, leaves at [out[bt, o]] the value that starts
    as [bias[o]] (0.0f when [bias] is NULL) and to which the products
    inp[bt, i] * weight[o, i] are added for i = 0, ..., C - 1 in this order,
    all read in the heap before the call. *)
Theorem matmul_forward_inner_products {F : Type} {ops : FloatOps F}
  (out inp weight : ptr) (bias : option ptr) (B T C OC : Z) (m : mem (F:=F)) (bt o : Z) :
  0 <= B -> 0 <= T ->
  disjoint out (B * T * OC) inp (B * T * C) ->
  disjoint out (B * T * OC) weight (OC * C) ->
  (forall bp, bias = Some bp -> disjoint out (B * T * OC) bp OC) ->
  0 <= bt < B * T -> 0 <= o < OC ->
  load (matmul_forward out inp weight bias B T C OC m) (out +! (bt * OC + o))
  = for_loop 0 C
      (fun i val =>
         fadd val (fmul (load m (inp +! (bt * C + i))) (load m (weight +! (o * C + i)))))
      (match bias with
       | Some bp => load m (bp +! o)
       | None => fzero
       end).
Proof. apply matmul_forward_cell. Qed.

(** Position 5 of a batch of 2 rows of 4 positions (the tiled loop), 3
    input and 5 output channels, with a bias. *)
Lemma matmul_forward_inner_products_witness :
  let m : mem (F:=R) := fun _ z => IZR z in
  load (matmul_forward (acts_block, 0) (acts_block, 100) (params_block, 0)
          (Some (params_block, 50)) 2 4 3 5 m) ((acts_block, 0) +! (5 * 5 + 2))
  = for_loop 0 3
      (fun i val =>
         fadd val (fmul (load m ((acts_block, 100) +! (5 * 3 + i)))
                        (load m ((params_block, 0) +! (2 * 3 + i)))))
      (load m ((params_block, 50) +! 2)).
Proof.
  apply (matmul_forward_inner_products (ops:=RealOps)
           (acts_block, 0) (acts_block, 100) (params_block, 0)
           (Some (params_block, 50)) 2 4 3 5).
  - lia.
  - lia.
  - right. cbn. lia.
  - left. discriminate.
  - intros bp [= <-]. left. discriminate.
  - lia.
  - lia.
Defined.

(** ** Attention, from the queries, keys and values *)

(** The weights of a row, from the scores of the input before the call. *)
Lemma attention_forward_input_weights {F : Type} {ops : FloatOps F}
  (out preatt att inp : ptr) (B T C NH : Z) (m : mem (F:=F)) (b t h t2 : Z) :
  attention_separate out preatt att inp B T C NH ->
  0 <= b < B -> 0 <= t < T -> 0 <= h < NH -> 0 <= t2 <= t ->
  load (attention_forward out preatt att inp B T C NH m) (att +! att_index NH T b h t t2)
  = attention_weight (attention_score inp T C NH m b t h) t t2.
Proof.
  intros Hsep Hb Ht Hh Ht2.
  pose proof Hsep as (Hpa & Hpo & Hao & _).
  pose proof (attention_forward_weights out preatt att inp B T C NH Hpa Hpo Hao
                m b h t t2 Hb Hh Ht Ht2) as Hw.
  cbv zeta in Hw. rewrite Hw.
  apply attention_weight_ext; [assumption|].
  intros j Hj.
  destruct (attention_forward_values out preatt att inp B T C NH Hsep m b t h Hb Ht Hh)
    as [Hscore _].
  now apply Hscore.
Qed.

(** X17: for any float arithmetic, four arrays that lie apart
    ([attention_separate]) and hs = C / NH: for every t2 <= t,
    [attention_forward] leaves in [preatt[b, h, t, t2]] the score of the
    pair, the products of the channels of the query of (b, t) and of the key
    of (b, t2) in head [h], added in order from 0.0f, times 1.0 / sqrtf(hs);
    and in [att[b, h, t, t2]] the value expf(score_t2 - maxval) * expsum_inv
    of these scores, [maxval] being their running maximum from -10000.0f and
    [expsum_inv] the inverse of the sum of the exponentials, or 0.0f when
    that sum is 0.0f. *)
Theorem attention_forward_softmax_scores {F : Type} {ops : FloatOps F}
  (out preatt att inp : ptr) (B T C NH : Z) (m : mem (F:=F)) (b t h : Z) :
  attention_separate out preatt att inp B T C NH ->
  0 <= b < B -> 0 <= t < T -> 0 <= h < NH ->
  let hs := Z.quot C NH in
  let m' := attention_forward out preatt att inp B T C NH m in
  let query i := load m (inp +! ((b * T + t) * (C * 3) + (h * hs + i))) in
  let key t2 i := load m (inp +! ((b * T + t2) * (C * 3) + (h * hs + i + C))) in
  let score t2 :=
    fmul (fsum 0 hs (fun i => fmul (query i) (key t2 i)))
         (fdiv fone (fsqrt (of_int hs))) in
  let maxval := fmaximum 0 (t + 1) score (fneg (fdec 10000 0)) in
  let e t2 := fexp (fsub (score t2) maxval) in
  let expsum := fsum 0 (t + 1) e in
  let expsum_inv := if feqb expsum fzero then fzero else fdiv fone expsum in
  forall t2, 0 <= t2 <= t ->
    load m' (preatt +! att_index NH T b h t t2) = score t2 /\
    load m' (att +! att_index NH T b h t t2) = fmul (e t2) expsum_inv.
Proof.
  intros Hsep Hb Ht Hh. cbv zeta. intros t2 Ht2.
  assert (Escore : forall j,
            attention_score inp T C NH m b t h j
            = fmul (fsum 0 (Z.quot C NH) (fun i =>
                      fmul (load m (inp +! ((b * T + t) * (C * 3) + (h * Z.quot C NH + i))))
                           (load m (inp +! ((b * T + j) * (C * 3)
                                            + (h * Z.quot C NH + i + C))))))
                   (fdiv fone (fsqrt (of_int (Z.quot C NH))))).
  { intros j. unfold attention_score, qkv_index. f_equal. apply fsum_ext.
    intros i Hi. do 3 f_equal; lia. }
  split.
  - destruct (attention_forward_values out preatt att inp B T C NH Hsep m b t h Hb Ht Hh)
      as [Hscore _].
    rewrite (Hscore t2 Ht2). apply Escore.
  - rewrite (attention_forward_input_weights out preatt att inp B T C NH m b t h t2)
      by assumption.
    rewrite (attention_weight_ext _ _ t t2 Ht2 (fun j _ => Escore j)).
    reflexivity.
Qed.

Lemma tiny_attention_separate :
  attention_separate (acts_block, 0) (acts_block, 100) (acts_block, 200)
    (acts_block, 300) 1 2 2 1.
Proof. unfold attention_separate, disjoint. cbn. repeat split; lia. Qed.

(** One row of two positions and one head of two channels. *)
Lemma attention_forward_softmax_scores_witness :
  let m : mem (F:=R) := fun _ z => IZR z in
  let m' := attention_forward (acts_block, 0) (acts_block, 100) (acts_block, 200)
              (acts_block, 300) 1 2 2 1 m in
  let query i := load m ((acts_block, 300) +! ((0 * 2 + 1) * (2 * 3) + (0 * 2 + i))) in
  let key t2 i := load m ((acts_block, 300) +! ((0 * 2 + t2) * (2 * 3) + (0 * 2 + i + 2))) in
  let score t2 :=
    fmul (fsum 0 2 (fun i => fmul (query i) (key t2 i)))
         (fdiv fone (fsqrt (of_int 2))) in
  let maxval := fmaximum 0 (1 + 1) score (fneg (fdec 10000 0)) in
  let e t2 := fexp (fsub (score t2) maxval) in
  let expsum := fsum 0 (1 + 1) e in
  let expsum_inv := if feqb expsum fzero then fzero else fdiv fone expsum in
  load m' ((acts_block, 100) +! att_index 1 2 0 0 1 0) = score 0 /\
  load m' ((acts_block, 200) +! att_index 1 2 0 0 1 0) = fmul (e 0) expsum_inv.
Proof.
  cbv zeta.
  apply (attention_forward_softmax_scores (ops:=RealOps)
           (acts_block, 0) (acts_block, 100) (acts_block, 200) (acts_block, 300)
           1 2 2 1 (fun _ z => IZR z) 0 1 0 tiny_attention_separate); lia.
Defined.

(** X18: for any float arithmetic and four arrays that lie apart:
    [attention_forward] leaves in [out[b, t, h * hs + i]] the sum, added
    from 0.0f in the order t2 = 0, ..., t, of the weight att[b, h, t, t2]
    that it leaves times channel [i] of the value of (b, t2) in head [h]
    before the call. *)
Theorem attention_forward_weighted_values {F : Type} {ops : FloatOps F}
  (out preatt att inp : ptr) (B T C NH : Z) (m : mem (F:=F)) (b t h i : Z) :
  attention_separate out preatt att inp B T C NH ->
  0 <= b < B -> 0 <= t < T -> 0 <= h < NH -> 0 <= i < Z.quot C NH ->
  let hs := Z.quot C NH in
  let m' := attention_forward out preatt att inp B T C NH m in
  let weight t2 := load m' (att +! att_index NH T b h t t2) in
  let value t2 := load m (inp +! ((b * T + t2) * (C * 3) + (h * hs + i + 2 * C))) in
  load m' (out +! (b * T * C + t * C + h * hs + i))
  = fsum 0 (t + 1) (fun t2 => fmul (weight t2) (value t2)).
Proof.
  intros Hsep Hb Ht Hh Hi. cbv zeta.
  destruct (attention_forward_values out preatt att inp B T C NH Hsep m b t h Hb Ht Hh)
    as [_ Hout].
  exact (Hout i Hi).
Qed.

Lemma attention_forward_weighted_values_witness :
  let m : mem (F:=R) := fun _ z => IZR z in
  let m' := attention_forward (acts_block, 0) (acts_block, 100) (acts_block, 200)
              (acts_block, 300) 1 2 2 1 m in
  let weight t2 := load m' ((acts_block, 200) +! att_index 1 2 0 0 1 t2) in
  let value t2 := load m ((acts_block, 300) +! ((0 * 2 + t2) * (2 * 3) + (0 * 2 + 1 + 2 * 2))) in
  load m' ((acts_block, 0) +! (0 * 2 * 2 + 1 * 2 + 0 * 2 + 1))
  = fsum 0 (1 + 1) (fun t2 => fmul (weight t2) (value t2)).
Proof.
  cbv zeta.
  apply (attention_forward_weighted_values (ops:=RealOps)
           (acts_block, 0) (acts_block, 100) (acts_block, 200) (acts_block, 300)
           1 2 2 1 (fun _ z => IZR z) 0 1 0 1 tiny_attention_separate); cbn; lia.
Defined.

(** ** The loss, from the logits *)

Lemma crossentropy_softmax_cell {F : Type} {ops : FloatOps F}
  (losses probs logits : ptr) (targets : Z -> Z) (B T V Vp : Z) (m : mem (F:=F)) (b t : Z) :
  0 <= V <= Vp ->
  disjoint logits (B * T * Vp) probs (B * T * Vp) ->
  disjoint losses (B * T) probs (B * T * Vp) ->
  (forall i, 0 <= i < B * T -> 0 <= targets i < V) ->
  0 <= b < B -> 0 <= t < T ->
  load (crossentropy_forward losses probs targets B T Vp
          (softmax_forward probs logits B T V Vp m)) (losses +! (b * T + t))
  = fneg (flog (softmax_value logits T V Vp m b t (targets (b * T + t)))).
Proof.
  intros HV Hlp Hsep Htargets Hb Ht.
  assert (Htg : forall i, 0 <= i < B * T -> 0 <= targets i < Vp).
  { intros i Hi. specialize (Htargets i Hi). lia. }
  rewrite (crossentropy_cell losses probs targets B T Vp Hsep Htg) by assumption.
  rewrite (softmax_forward_value probs logits B T V Vp HV Hlp) by
    (try assumption; apply Htargets; now apply radix_bound).
  reflexivity.
Qed.

(** X7: for any float arithmetic, 0 <= V <= Vp, logits and losses that lie
    apart from the probabilities and targets in [0, V): the loss that
    [crossentropy_forward] stores at (b, t) after [softmax_forward] is
    -logf(expf(l_target - maxval) / sum) on the logits of the position
    before the two calls, [maxval] being the running maximum of the first V
    logits from -10000.0f and [sum] the sum of the V exponentials expf(l_i -
    maxval), added in index order. *)
Theorem crossentropy_after_softmax {F : Type} {ops : FloatOps F}
  (losses probs logits : ptr) (targets : Z -> Z) (B T V Vp : Z) (m : mem (F:=F)) (b t : Z) :
  0 <= V <= Vp ->
  disjoint logits (B * T * Vp) probs (B * T * Vp) ->
  disjoint losses (B * T) probs (B * T * Vp) ->
  (forall i, 0 <= i < B * T -> 0 <= targets i < V) ->
  0 <= b < B -> 0 <= t < T ->
  let m' := crossentropy_forward losses probs targets B T Vp
              (softmax_forward probs logits B T V Vp m) in
  let logit i := load m (logits +! row_index T Vp b t i) in
  let maxval := fmaximum 0 V logit (fneg (fdec 10000 0)) in
  let e i := fexp (fsub (logit i) maxval) in
  load m' (losses +! (b * T + t))
  = fneg (flog (fdiv (e (targets (b * T + t))) (fsum 0 V e))).
Proof. apply crossentropy_softmax_cell. Qed.

(** Two rows of two positions, a vocabulary of 3 padded to 4. *)
Lemma crossentropy_after_softmax_witness :
  let m : mem (F:=R) := fun _ z => IZR z in
  let targets : Z -> Z := fun i => i mod 3 in
  let m' := crossentropy_forward (acts_block, 40) (acts_block, 0) targets 2 2 4
              (softmax_forward (acts_block, 0) (acts_block, 16) 2 2 3 4 m) in
  let logit i := load m ((acts_block, 16) +! row_index 2 4 1 0 i) in
  let maxval := fmaximum 0 3 logit (fneg (fdec 10000 0)) in
  let e i := fexp (fsub (logit i) maxval) in
  load m' ((acts_block, 40) +! (1 * 2 + 0))
  = fneg (flog (fdiv (e (targets (1 * 2 + 0))) (fsum 0 3 e))).
Proof.
  cbv zeta.
  apply (crossentropy_after_softmax (ops:=RealOps) (acts_block, 40) (acts_block, 0)
           (acts_block, 16) (fun i => i mod 3) 2 2 3 4 (fun _ z => IZR z) 1 0).
  - lia.
  - right. right. cbn. lia.
  - right. right. cbn. lia.
  - intros i Hi. apply Z.mod_pos_bound. lia.
  - lia.
  - lia.
Defined.

(** ** The output head of the forward pass *)

(** Two views of a carved buffer lie apart. *)
Lemma views_apart (base : ptr) (sizes : list Z) (i j : nat) :
  Forall (fun s => 0 <= s) sizes -> (i < j)%nat -> (j < length sizes)%nat ->
  disjoint (base +! total (firstn i sizes)) (nth i sizes 0)
           (base +! total (firstn j sizes)) (nth j sizes 0).
Proof.
  intros Hpos Hij Hj. right. left. unfold padd. cbn [snd].
  pose proof (carve_consecutive sizes i j Hpos Hij ltac:(lia)). lia.
Qed.

Lemma disjoint_outside p n q k i :
  disjoint p n q k -> 0 <= i < n -> outside q k (p +! i).
Proof. intros Hd Hi j Hj. now apply (disjoint_neq _ _ _ _ _ _ Hd). Qed.

Section OutputHead.

Context {F : Type} {ops : FloatOps F}.
Variables (model : GPT2) (model_consts : GPT2Const (F:=F)) (abase : ptr).
Variables (B T : Z) (maxT V Vp L NH C : Z).

Let cfg := mkConfig maxT V Vp L NH C.
Let shapes := activation_shapes cfg T.

Hypothesis Hconfig : config model_consts = cfg.
Hypothesis Hacts :
  acts model = malloc_and_point_activations abase (fill_in_activation_sizes cfg B T).
Hypothesis Hexact : fill_in_activation_sizes cfg B T = exact_sizes B shapes.
Hypothesis HB : 0 <= B.
Hypothesis HT : 0 <= T.
Hypothesis HV : 0 <= V <= Vp.
Hypothesis Hwte : fst (wte (params model)) <> fst abase.

Let Hptrs :
  activation_ptrs (acts model) = map (padd abase) (carve 0 (exact_sizes B shapes)) :=
  activation_ptrs_exact model abase B T maxT V Vp L NH C Hacts Hexact.
Let Hsizes : Forall (fun s => 0 <= s) (exact_sizes B shapes) :=
  exact_sizes_range B T maxT V Vp L NH C Hexact.

(** Two tensors of the activations lie apart. *)
Lemma tensors_apart (i j : nat) p n q k :
  p = nth i (activation_ptrs (acts model)) (acts_block, 0) ->
  q = nth j (activation_ptrs (acts model)) (acts_block, 0) ->
  n = nth i (exact_sizes B shapes) 0 -> k = nth j (exact_sizes B shapes) 0 ->
  (i < j)%nat -> (j < length shapes)%nat ->
  disjoint p n q k.
Proof.
  intros -> -> -> -> Hij Hj. rewrite Hptrs, !nth_ptrs by lia.
  apply views_apart; [exact Hsizes | exact Hij |].
  unfold exact_sizes. now rewrite length_map.
Qed.

Ltac size_entry :=
  unfold exact_sizes, shapes, activation_shapes, cfg; cbv zeta;
  cbn [map nth fst snd channels num_heads num_layers padded_vocab_size]; ring.

Ltac apart i j :=
  apply (tensors_apart i j);
  [ reflexivity | reflexivity | size_entry | size_entry
  | lia | unfold shapes, activation_shapes; cbn [length]; lia ].

Lemma lnf_logits :
  disjoint (lnf (acts model)) (B * T * C) (logits (acts model)) (B * T * Vp).
Proof. apart 17%nat 20%nat. Qed.

Lemma lnf_probs :
  disjoint (lnf (acts model)) (B * T * C) (probs (acts model)) (B * T * Vp).
Proof. apart 17%nat 21%nat. Qed.

Lemma lnf_losses :
  disjoint (lnf (acts model)) (B * T * C) (losses (acts model)) (B * T).
Proof. apart 17%nat 22%nat. Qed.

Lemma logits_probs :
  disjoint (logits (acts model)) (B * T * Vp) (probs (acts model)) (B * T * Vp).
Proof. apart 20%nat 21%nat. Qed.

Lemma logits_losses :
  disjoint (logits (acts model)) (B * T * Vp) (losses (acts model)) (B * T).
Proof. apart 20%nat 22%nat. Qed.

Lemma probs_losses :
  disjoint (probs (acts model)) (B * T * Vp) (losses (acts model)) (B * T).
Proof. apart 21%nat 22%nat. Qed.

Lemma tensor_block (k : nat) p :
  p = nth k (activation_ptrs (acts model)) (acts_block, 0) ->
  (k < length shapes)%nat -> fst p = fst abase.
Proof. intros -> Hk. rewrite Hptrs, nth_ptrs by exact Hk. reflexivity. Qed.

(** The token embeddings are no cell of a tensor of the activations. *)
Lemma wte_outside (k : nat) p n i :
  p = nth k (activation_ptrs (acts model)) (acts_block, 0) ->
  (k < length shapes)%nat -> outside p n (wte (params model) +! i).
Proof.
  intros Hp Hk j Hj E. apply Hwte. rewrite <- (tensor_block k p Hp Hk).
  apply (f_equal fst) in E. exact E.
Qed.

(** The heap after the three last kernels of the pass. *)
Definition head_heap (m : mem (F:=F)) : mem :=
  softmax_forward (probs (acts model)) (logits (acts model)) B T V Vp
    (matmul_forward (logits (acts model)) (lnf (acts model)) (wte (params model)) None
       B T C Vp m).

Lemma head_values (m : mem (F:=F)) b t :
  0 <= b < B -> 0 <= t < T ->
  let m' := head_heap m in
  (forall v, 0 <= v < Vp ->
     load m' (logits (acts model) +! row_index T Vp b t v)
     = fsum 0 C (fun c =>
         fmul (load m' (lnf (acts model) +! row_index T C b t c))
              (load m' (wte (params model) +! (v * C + c))))) /\
  (forall v, 0 <= v < V ->
     load m' (probs (acts model) +! row_index T Vp b t v)
     = softmax_value (logits (acts model)) T V Vp m' b t v).
Proof.
  intros Hb Ht. cbv zeta. unfold head_heap.
  set (m1 := matmul_forward _ _ _ _ _ _ _ _ m).
  assert (Hbt : 0 <= b * T + t < B * T) by now apply radix_bound.
  (* what the softmax keeps *)
  assert (Hlogit : forall b' t' v, 0 <= b' < B -> 0 <= t' < T -> 0 <= v < Vp ->
            load (softmax_forward (probs (acts model)) (logits (acts model)) B T V Vp m1)
                 (logits (acts model) +! row_index T Vp b' t' v)
            = load m1 (logits (acts model) +! row_index T Vp b' t' v)).
  { intros b' t' v Hb' Ht' Hv. apply softmax_writes; [lia|].
    apply (disjoint_outside _ _ _ _ _ logits_probs). now apply row_index_bound. }
  split.
  - intros v Hv. rewrite Hlogit by assumption.
    rewrite row_index_nested. unfold m1.
    rewrite (matmul_forward_cell (logits (acts model)) (lnf (acts model))
               (wte (params model)) None B T C Vp m (b * T + t) v HB HT);
      try assumption.
    + unfold matmul_cell, fsum. cbn [bias_or_zero].
      apply for_loop_ext. intros c acc Hc. fold m1. do 2 f_equal.
      * rewrite softmax_writes; [|lia|].
        2:{ apply (disjoint_outside _ _ _ _ _ lnf_probs). now apply row_index_bound. }
        unfold m1. rewrite matmul_writes; try assumption.
        -- now rewrite row_index_nested.
        -- apply (disjoint_outside _ _ _ _ _ lnf_logits). now apply row_index_bound.
      * rewrite softmax_writes; [|lia|].
        2:{ apply (wte_outside 21%nat); [reflexivity|].
            unfold shapes, activation_shapes; cbn [length]; lia. }
        unfold m1. rewrite matmul_writes; try assumption; [reflexivity|].
        apply (wte_outside 20%nat); [reflexivity|].
        unfold shapes, activation_shapes; cbn [length]; lia.
    + apply disjoint_sym, lnf_logits.
    + left. cbn [fst]. intros E. apply Hwte. rewrite <- E.
      apply (tensor_block 20%nat); [reflexivity|].
      unfold shapes, activation_shapes; cbn [length]; lia.
    + intros bp Hbp. discriminate Hbp.
  - intros v Hv.
    rewrite (softmax_forward_value (probs (acts model)) (logits (acts model)) B T V Vp
               HV logits_probs) by assumption.
    symmetry. apply softmax_value_stable; [assumption|].
    intros j Hj. apply Hlogit; (assumption || lia).
Qed.

Lemma forward_head inputs targets (s s' : machine (F:=F)) consts' res b t :
  gpt2_forward model model_consts inputs targets B T s = Some (s', consts', res) ->
  0 <= b < B -> 0 <= t < T ->
  (forall v, 0 <= v < Vp ->
     load (heap s') (logits (acts model) +! row_index T Vp b t v)
     = fsum 0 C (fun c =>
         fmul (load (heap s') (lnf (acts model) +! row_index T C b t c))
              (load (heap s') (wte (params model) +! (v * C + c))))) /\
  (forall v, 0 <= v < V ->
     load (heap s') (probs (acts model) +! row_index T Vp b t v)
     = softmax_value (logits (acts model)) T V Vp (heap s') b t v).
Proof.
  intros Hrun Hb Ht. revert Hrun.
  unfold gpt2_forward. rewrite Hconfig. unfold cfg.
  cbn [channels num_heads num_layers vocab_size padded_vocab_size].
  destruct (negb _); [discriminate|]. cbv zeta.
  set (s3 := call (KLayernorm _ _ _ _ _ _ _ _ _) _).
  cbn [call heap run_kernel].
  fold (head_heap (heap s3)).
  pose proof (head_values (heap s3) b t Hb Ht) as Hhead. cbv zeta in Hhead.
  set (h := head_heap (heap s3)) in *.
  assert (Hkeep : forall q, outside (losses (acts model)) (B * T) q ->
            forall s5, heap s5 = h ->
            load (heap (fst (gpt2_forward_loss (acts model) targets B T Vp s5))) q
            = load h q).
  { intros q Hq s5 Hs5. unfold gpt2_forward_loss. destruct targets as [tg|].
    - cbn [fst call heap run_kernel]. rewrite crossentropy_keeps; [now rewrite Hs5|].
      exact Hq.
    - cbn [fst]. now rewrite Hs5. }
  match goal with
  | |- context [gpt2_forward_loss _ _ _ _ _ ?s5] =>
      specialize (fun q Hq => Hkeep q Hq s5 eq_refl);
      destruct (gpt2_forward_loss (acts model) targets B T Vp s5) as [s6 loss]
  end.
  cbn [fst] in Hkeep. intros E. injection E as <- _ _.
  assert (Klogit : forall v, 0 <= v < Vp ->
            load (heap s6) (logits (acts model) +! row_index T Vp b t v)
            = load h (logits (acts model) +! row_index T Vp b t v)).
  { intros v Hv. apply Hkeep.
    apply (disjoint_outside _ _ _ _ _ logits_losses). now apply row_index_bound. }
  destruct Hhead as [H1 H2]. split.
  - intros v Hv. rewrite Klogit, H1 by assumption.
    apply fsum_ext. intros c Hc. rewrite !Hkeep; [reflexivity | |].
    + apply (wte_outside 22%nat); [reflexivity|].
      unfold shapes, activation_shapes; cbn [length]; lia.
    + apply (disjoint_outside _ _ _ _ _ lnf_losses). now apply row_index_bound.
  - intros v Hv. rewrite Hkeep.
    2:{ apply (disjoint_outside _ _ _ _ _ probs_losses).
        apply row_index_bound; try assumption. lia. }
    rewrite H2 by assumption.
    symmetry. apply softmax_value_stable; [assumption|].
    intros j Hj. apply Klogit. lia.
Qed.

End OutputHead.



(* ================================================================== *)
(** * Part VI: the forward pass looks back only *)
(* ================================================================== *)

(** Two runs are compared on the cells of a set of positions (b, t) that
    is closed under going back in time: with a position it holds the
    earlier positions of its row.  A kernel keeps the two heaps equal on
    these cells when, for a position of the set, it reads parameters and
    cells of the set only, and writes the cells of the other positions
    outside of it. *)

Section Causal.

Context {F : Type} {ops : FloatOps F}.
Variable S : ptr -> Prop.
Variables (B T : Z).
Variable P : Z -> Z -> Prop.

Hypothesis HB : 0 <= B.
Hypothesis HT : 0 <= T.
Hypothesis Pdec : forall b t, P b t \/ ~ P b t.
Hypothesis Pback : forall b t t2, P b t -> 0 <= t2 <= t -> P b t2.

(** The [W] floats of every position of the set, in a (B, T, W) tensor at
    [p], are cells of [S]; those of the other positions are not. *)
Definition pos_low (p : ptr) (W : Z) : Prop :=
  forall b t i, 0 <= b < B -> 0 <= t < T -> P b t -> 0 <= i < W ->
    S (p +! ((b * T + t) * W + i)).

Definition pos_high (p : ptr) (W : Z) : Prop :=
  forall b t i, 0 <= b < B -> 0 <= t < T -> ~ P b t -> 0 <= i < W ->
    ~ S (p +! ((b * T + t) * W + i)).

(** The same for a (B, NH, T, T) tensor of scores: the position of
    [p[b, h, t, t2]] is (b, t). *)
Definition score_low (p : ptr) (NH : Z) : Prop :=
  forall b h t t2, 0 <= b < B -> 0 <= h < NH -> 0 <= t < T -> 0 <= t2 < T -> P b t ->
    S (p +! att_index NH T b h t t2).

Definition score_high (p : ptr) (NH : Z) : Prop :=
  forall b h t t2, 0 <= b < B -> 0 <= h < NH -> 0 <= t < T -> 0 <= t2 < T -> ~ P b t ->
    ~ S (p +! att_index NH T b h t t2).

Lemma pos_low_at p W b t i k :
  pos_low p W -> 0 <= b < B -> 0 <= t < T -> P b t -> 0 <= i < W ->
  k = (b * T + t) * W + i -> S (p +! k).
Proof. intros H Hb Ht Hp Hi ->. now apply H. Qed.

Lemma pos_high_at p W b t i k :
  pos_high p W -> 0 <= b < B -> 0 <= t < T -> ~ P b t -> 0 <= i < W ->
  k = (b * T + t) * W + i -> ~ S (p +! k).
Proof. intros H Hb Ht Hp Hi ->. now apply H. Qed.

(** The position of the flat index [bt]. *)
Lemma flat_position bt :
  0 <= bt < B * T ->
  0 <= bt / T < B /\ 0 <= bt mod T < T /\ bt = bt / T * T + bt mod T.
Proof.
  intros Hbt. destruct (element_row T B bt HB Hbt) as (_ & Hq & Hr & E).
  repeat split; lia.
Qed.

(** The position of element [k] of a tensor of [B * T * W] floats. *)
Lemma element_position W k :
  0 <= k < B * T * W ->
  exists b t i, 0 <= b < B /\ 0 <= t < T /\ 0 <= i < W /\ k = (b * T + t) * W + i.
Proof.
  intros Hk.
  assert (HBT : 0 <= B * T) by nia.
  destruct (element_row W (B * T) k HBT Hk) as (HW & Hq & Hr & E).
  destruct (flat_position (k / W) Hq) as (Hb & Ht & Ebt).
  exists (k / W / T), ((k / W) mod T), (k mod W).
  split; [lia|]. split; [lia|]. split; [lia|]. rewrite <- Ebt. exact E.
Qed.

(** The positions of a tile, when [B * T] is a multiple of the tile. *)
Lemma tile_in_bounds k ibt :
  (B * T) mod LOOP_UNROLL = 0 ->
  0 <= k < (B * T - 0 + LOOP_UNROLL - 1) / LOOP_UNROLL -> 0 <= ibt < LOOP_UNROLL ->
  0 <= 0 + k * LOOP_UNROLL + ibt < B * T.
Proof. generalize (B * T). unfold LOOP_UNROLL. intros; Z.div_mod_to_equations; lia. Qed.

(** *** The kernels *)

Lemma causal_encoder out inp1 inp2 wte wpe C m1 m2 :
  (forall b t, 0 <= b < B -> 0 <= t < T -> P b t ->
     inp1 (b * T + t) = inp2 (b * T + t)) ->
  block_low S wte -> block_low S wpe -> pos_high out C ->
  agree S m1 m2 ->
  agree S (encoder_forward out inp1 wte wpe B T C m1)
          (encoder_forward out inp2 wte wpe B T C m2).
Proof.
  intros Hinp Hwte Hwpe Hout Hm. unfold encoder_forward.
  apply positions_rel; [assumption|].
  intros b t a1 a2 Hb Ht Ha. cbv zeta.
  apply for_loop_rel; [assumption|].
  intros i c1 c2 Hi Hc. apply agree_store; [assumption|]. intros HS.
  destruct (Pdec b t) as [Hp|Hn].
  - rewrite <- Hinp by assumption.
    rewrite (Hc (wte +! (inp1 (b * T + t) * C) +! i)), (Hc (wpe +! (t * C) +! i));
      [reflexivity | |]; rewrite padd_padd; now apply block_low_padd.
  - exfalso. revert HS. rewrite padd_padd.
    apply (pos_high_at out C b t i); try assumption. ring.
Qed.

Lemma causal_layernorm out mean rstd inp weight bias C m1 m2 :
  pos_low inp C -> block_low S weight -> block_low S bias ->
  pos_high out C -> pos_high mean 1 -> pos_high rstd 1 ->
  agree S m1 m2 ->
  agree S (layernorm_forward out mean rstd inp weight bias B T C m1)
          (layernorm_forward out mean rstd inp weight bias B T C m2).
Proof.
  intros Hinp Hweight Hbias Hout Hmean Hrstd Hm. rewrite !layernorm_rounds.
  apply positions_rel; [assumption|].
  intros b t a1 a2 Hb Ht Ha. cbv zeta.
  destruct (Pdec b t) as [Hp|Hn].
  - assert (Hx : forall (c1 c2 : mem (F:=F)) i, agree S c1 c2 -> 0 <= i < C ->
              load c1 (inp +! (b * T * C + t * C) +! i)
              = load c2 (inp +! (b * T * C + t * C) +! i)).
    { intros c1 c2 i Hc Hi. apply Hc. rewrite padd_padd.
      apply (pos_low_at inp C b t i); try assumption. ring. }
    assert (Hmu : layernorm_mean (inp +! (b * T * C + t * C)) C a1
                  = layernorm_mean (inp +! (b * T * C + t * C)) C a2).
    { unfold layernorm_mean. f_equal. apply for_loop_rel; [reflexivity|].
      intros i x1 x2 Hi ->. now rewrite (Hx a1 a2). }
    rewrite Hmu.
    assert (Hs : layernorm_rstd (inp +! (b * T * C + t * C)) C
                   (layernorm_mean (inp +! (b * T * C + t * C)) C a2) a1
                 = layernorm_rstd (inp +! (b * T * C + t * C)) C
                     (layernorm_mean (inp +! (b * T * C + t * C)) C a2) a2).
    { unfold layernorm_rstd. cbv zeta. do 4 f_equal. apply for_loop_rel; [reflexivity|].
      intros i x1 x2 Hi ->. now rewrite (Hx a1 a2). }
    rewrite Hs.
    apply agree_store; [|reflexivity]. apply agree_store; [|reflexivity].
    apply for_loop_rel; [assumption|].
    intros i c1 c2 Hi Hc. apply agree_store; [assumption|]. intros _.
    rewrite (Hx c1 c2) by assumption.
    rewrite (Hc (weight +! i)), (Hc (bias +! i)); [reflexivity | |];
      now apply block_low_padd.
  - apply agree_store.
    2:{ intros HS. exfalso. revert HS.
        apply (pos_high_at rstd 1 b t 0); try assumption; lia. }
    apply agree_store.
    2:{ intros HS. exfalso. revert HS.
        apply (pos_high_at mean 1 b t 0); try assumption; lia. }
    apply for_loop_rel; [assumption|].
    intros i c1 c2 Hi Hc. apply agree_store; [assumption|]. intros HS.
    exfalso. revert HS. rewrite padd_padd.
    apply (pos_high_at out C b t i); try assumption. ring.
Qed.

Section CausalMatmul.

Variables (out inp weight : ptr) (bias : option ptr) (C OC : Z).
Hypothesis Hinp : pos_low inp C.
Hypothesis Hweight : block_low S weight.
Hypothesis Hbias : bias_low S bias.
Hypothesis Hout : pos_high out OC.

Lemma causal_matmul_naive m1 m2 :
  agree S m1 m2 ->
  agree S (matmul_forward_naive out inp weight bias B T C OC m1)
          (matmul_forward_naive out inp weight bias B T C OC m2).
Proof.
  intros Hm. unfold matmul_forward_naive.
  apply positions_rel; [assumption|].
  intros b t a1 a2 Hb Ht Ha. cbv zeta.
  apply for_loop_rel; [assumption|].
  intros o c1 c2 Ho Hc. apply agree_store; [assumption|]. intros HS.
  destruct (Pdec b t) as [Hp|Hn].
  - apply for_loop_rel; [now apply (bias_agree S)|].
    intros i x1 x2 Hi ->.
    rewrite (Hc (inp +! ((b * T + t) * C + i))) by now apply Hinp.
    rewrite (Hc (weight +! (o * C + i))) by now apply block_low_padd.
    reflexivity.
  - exfalso. revert HS. now apply Hout.
Qed.

(** The registers [result] of a tile agree at the positions of the set. *)
Let registers (obt : Z) (r1 r2 : Z -> F) : Prop :=
  forall ibt, 0 <= ibt < LOOP_UNROLL ->
    P ((obt + ibt) / T) ((obt + ibt) mod T) -> r1 ibt = r2 ibt.

Lemma registers_set obt r1 r2 ibt v1 v2 :
  registers obt r1 r2 ->
  (P ((obt + ibt) / T) ((obt + ibt) mod T) -> v1 = v2) ->
  registers obt (upd r1 ibt v1) (upd r2 ibt v2).
Proof.
  intros Hr Hv j Hj E. unfold upd. destruct (j =? ibt) eqn:Ej.
  - apply Z.eqb_eq in Ej. subst j. now apply Hv.
  - now apply Hr.
Qed.

Lemma causal_matmul m1 m2 :
  agree S m1 m2 ->
  agree S (matmul_forward out inp weight bias B T C OC m1)
          (matmul_forward out inp weight bias B T C OC m2).
Proof.
  intros Hm. unfold matmul_forward.
  destruct (Z.rem (B * T) LOOP_UNROLL =? 0) eqn:Erem; cbn [negb];
    [|now apply causal_matmul_naive].
  apply Z.eqb_eq in Erem. rewrite Z.rem_mod_nonneg in Erem by (unfold LOOP_UNROLL; nia).
  rewrite !for_loop_step_rounds.
  apply for_loop_rel; [assumption|].
  intros k a1 a2 Hk Ha.
  apply for_loop_rel; [assumption|].
  intros o c1 c2 Ho Hc. cbv zeta.
  set (r1 := for_loop 0 C _ _). set (r2 := for_loop 0 C _ _).
  assert (Hcell : forall ibt i, 0 <= ibt < LOOP_UNROLL -> 0 <= i < C ->
            P ((0 + k * LOOP_UNROLL + ibt) / T) ((0 + k * LOOP_UNROLL + ibt) mod T) ->
            S (inp +! ((0 + k * LOOP_UNROLL + ibt) * C + i))).
  { intros ibt i Hibt Hi Hp.
    pose proof (tile_in_bounds k ibt Erem Hk Hibt) as Hbt.
    destruct (flat_position _ Hbt) as (Hb & Ht & E).
    apply (pos_low_at inp C _ _ i _ Hinp Hb Ht Hp Hi). now rewrite <- E. }
  assert (Hr : registers (0 + k * LOOP_UNROLL) r1 r2).
  { subst r1 r2. apply for_loop_rel.
    - apply for_loop_rel; [intros ibt _ _; reflexivity|].
      intros ibt x1 x2 Hibt Hx. apply registers_set; [assumption|].
      intros _. now apply (bias_agree S).
    - intros i x1 x2 Hi Hx. apply for_loop_rel; [assumption|].
      intros ibt y1 y2 Hibt Hy. apply registers_set; [assumption|].
      intros E. rewrite (Hy ibt Hibt E).
      rewrite (Hc (weight +! (i + o * C))) by now apply block_low_padd.
      rewrite (Hc (inp +! ((0 + k * LOOP_UNROLL + ibt) * C + i)));
        [reflexivity | now apply Hcell]. }
  clearbody r1 r2.
  apply for_loop_rel; [assumption|].
  intros ibt d1 d2 Hibt Hd. apply agree_store; [assumption|]. intros HS.
  apply Hr; [assumption|].
  pose proof (tile_in_bounds k ibt Erem Hk Hibt) as Hbt.
  destruct (flat_position _ Hbt) as (Hb & Ht & E).
  destruct (Pdec ((0 + k * LOOP_UNROLL + ibt) / T) ((0 + k * LOOP_UNROLL + ibt) mod T))
    as [Hp|Hn]; [assumption|].
  exfalso. revert HS.
  apply (pos_high_at out OC _ _ o _ Hout Hb Ht Hn Ho). now rewrite <- E.
Qed.

End CausalMatmul.

Lemma causal_residual out inp1 inp2 N W m1 m2 :
  N = B * T * W -> pos_low inp1 W -> pos_low inp2 W -> pos_high out W ->
  agree S m1 m2 ->
  agree S (residual_forward out inp1 inp2 N m1) (residual_forward out inp1 inp2 N m2).
Proof.
  intros -> H1 H2 Hout Hm. unfold residual_forward.
  apply for_loop_rel; [assumption|].
  intros k a1 a2 Hk Ha.
  destruct (element_position W k Hk) as (b & t & i & Hb & Ht & Hi & ->).
  apply agree_store; [assumption|]. intros HS.
  destruct (Pdec b t) as [Hp|Hn].
  - rewrite (Ha (inp1 +! ((b * T + t) * W + i))) by now apply H1.
    rewrite (Ha (inp2 +! ((b * T + t) * W + i))) by now apply H2.
    reflexivity.
  - exfalso. revert HS. now apply Hout.
Qed.

Lemma causal_gelu out inp N W m1 m2 :
  N = B * T * W -> pos_low inp W -> pos_high out W ->
  agree S m1 m2 ->
  agree S (gelu_forward out inp N m1) (gelu_forward out inp N m2).
Proof.
  intros -> Hin Hout Hm. unfold gelu_forward.
  apply for_loop_rel; [assumption|].
  intros k a1 a2 Hk Ha.
  destruct (element_position W k Hk) as (b & t & i & Hb & Ht & Hi & ->).
  apply agree_store; [assumption|]. intros HS. cbv zeta.
  destruct (Pdec b t) as [Hp|Hn].
  - rewrite (Ha (inp +! ((b * T + t) * W + i))) by now apply Hin. reflexivity.
  - exfalso. revert HS. now apply Hout.
Qed.

Lemma causal_softmax probs logits V Vp m1 m2 :
  0 <= V <= Vp ->
  pos_low logits Vp -> pos_low probs Vp -> pos_high probs Vp ->
  agree S m1 m2 ->
  agree S (softmax_forward probs logits B T V Vp m1)
          (softmax_forward probs logits B T V Vp m2).
Proof.
  intros HV Hlogits Hprobs Hhigh Hm. unfold softmax_forward.
  apply positions_rel; [assumption|].
  intros b t a1 a2 Hb Ht Ha. cbv zeta.
  destruct (Pdec b t) as [Hp|Hn].
  - assert (Hcell : forall p (c1 c2 : mem (F:=F)) i, pos_low p Vp -> agree S c1 c2 ->
              0 <= i < Vp ->
              load c1 (p +! (b * T * Vp + t * Vp) +! i)
              = load c2 (p +! (b * T * Vp + t * Vp) +! i)).
    { intros p c1 c2 i Hlow Hc Hi. apply Hc. rewrite padd_padd.
      apply (pos_low_at p Vp b t i); try assumption. ring. }
    set (x1 := for_loop 0 V _ (fneg _)). set (x2 := for_loop 0 V _ (fneg _)).
    assert (Hx : x1 = x2).
    { subst x1 x2. apply for_loop_rel; [reflexivity|].
      intros i y1 y2 Hi ->. now rewrite (Hcell logits a1 a2) by (assumption || lia). }
    clearbody x1 x2. subst x2.
    set (r1 := for_loop 0 V _ (a1, fzero)). set (r2 := for_loop 0 V _ (a2, fzero)).
    assert (Hr : agree S (fst r1) (fst r2) /\ snd r1 = snd r2).
    { subst r1 r2.
      apply (for_loop_rel (fun a c => agree S (fst a) (fst c) /\ snd a = snd c));
        [split; [assumption | reflexivity]|].
      intros i [c1 y1] [c2 y2] Hi [Hc Hy]. cbn [fst snd] in Hc, Hy. subst y2.
      cbn [fst snd].
      rewrite (Hcell logits c1 c2) by (assumption || lia).
      split; [apply agree_store; [assumption | reflexivity]|].
      now rewrite !load_store_same. }
    clearbody r1 r2. destruct r1 as [c1 y1], r2 as [c2 y2].
    destruct Hr as [Hc Hy]. cbn [fst snd] in Hc, Hy. subst y2.
    apply for_loop_rel.
    + apply for_loop_rel; [assumption|].
      intros i d1 d2 Hi Hd. apply agree_store; [assumption|]. intros _.
      now rewrite (Hcell probs d1 d2) by (assumption || lia).
    + intros i d1 d2 Hi Hd. apply agree_store; [assumption | reflexivity].
  - assert (Hcell : forall i, 0 <= i < Vp ->
              ~ S (probs +! (b * T * Vp + t * Vp) +! i)).
    { intros i Hi. rewrite padd_padd.
      apply (pos_high_at probs Vp b t i); try assumption. ring. }
    set (x1 := for_loop 0 V _ (fneg _)). set (x2 := for_loop 0 V _ (fneg _)).
    clearbody x1 x2.
    set (r1 := for_loop 0 V _ (a1, fzero)). set (r2 := for_loop 0 V _ (a2, fzero)).
    assert (Hr : agree S (fst r1) (fst r2)).
    { subst r1 r2.
      apply (for_loop_rel (fun a c => agree S (fst a) (fst c))); [assumption|].
      intros i [c1 y1] [c2 y2] Hi Hc. cbn [fst snd] in *.
      apply agree_store; [assumption|].
      intros HS. exfalso. revert HS. apply Hcell. lia. }
    clearbody r1 r2. destruct r1 as [c1 y1], r2 as [c2 y2]. cbn [fst] in Hr.
    apply for_loop_rel.
    + apply for_loop_rel; [assumption|].
      intros i d1 d2 Hi Hd. apply agree_store; [assumption|].
      intros HS. exfalso. revert HS. apply Hcell. lia.
    + intros i d1 d2 Hi Hd. apply agree_store; [assumption|].
      intros HS. exfalso. revert HS. apply Hcell. lia.
Qed.

Lemma causal_crossentropy losses probs targets1 targets2 Vp m1 m2 :
  (forall b t, 0 <= b < B -> 0 <= t < T -> P b t ->
     targets1 (b * T + t) = targets2 (b * T + t) /\ 0 <= targets1 (b * T + t) < Vp) ->
  pos_low probs Vp -> pos_high losses 1 ->
  agree S m1 m2 ->
  agree S (crossentropy_forward losses probs targets1 B T Vp m1)
          (crossentropy_forward losses probs targets2 B T Vp m2).
Proof.
  intros Htargets Hprobs Hlosses Hm. unfold crossentropy_forward.
  apply positions_rel; [assumption|].
  intros b t a1 a2 Hb Ht Ha. cbv zeta.
  apply agree_store; [assumption|]. intros HS.
  destruct (Pdec b t) as [Hp|Hn].
  - destruct (Htargets b t Hb Ht Hp) as [E Hrange].
    rewrite <- E. do 2 f_equal. apply Ha. rewrite padd_padd.
    apply (pos_low_at probs Vp b t (targets1 (b * T + t))); try assumption. ring.
  - exfalso. revert HS.
    apply (pos_high_at losses 1 b t 0); try assumption; lia.
Qed.

Section CausalAttention.

Variables (out preatt att inp : ptr) (C NH : Z).
Hypothesis Hinp : pos_low inp (C * 3).
Hypothesis Hpreatt_low : score_low preatt NH.
Hypothesis Hatt_low : score_low att NH.
Hypothesis Hout_low : pos_low out C.
Hypothesis Hpreatt_high : score_high preatt NH.
Hypothesis Hatt_high : score_high att NH.
Hypothesis Hout_high : pos_high out C.

Let hs := Z.quot C NH.

Lemma head_channel h i k :
  0 <= h < NH -> 0 <= i < hs -> 0 <= k < 3 -> 0 <= h * hs + i + k * C < C * 3.
Proof.
  intros Hh Hi Hk. pose proof (head_in_channels C NH h i Hh Hi) as Hc.
  fold hs in Hc. nia.
Qed.

Lemma inp_cell_low b t h i k :
  0 <= b < B -> 0 <= t < T -> P b t -> 0 <= h < NH -> 0 <= i < hs -> 0 <= k < 3 ->
  S (inp +! ((b * T + t) * (C * 3) + (h * hs + i + k * C))).
Proof.
  intros Hb Ht Hp Hh Hi Hk. apply Hinp; try assumption. now apply head_channel.
Qed.

Lemma out_cell_position b t h i :
  out +! (b * T * C + t * C + h * hs) +! i = out +! ((b * T + t) * C + (h * hs + i)).
Proof. rewrite padd_padd. f_equal. ring. Qed.

Let both (a c : mem (F:=F) * F) : Prop := agree S (fst a) (fst c) /\ snd a = snd c.
Let heaps (a c : mem (F:=F) * F) : Prop := agree S (fst a) (fst c).

(** A round of a position of the set reads the same in the two runs. *)
Lemma causal_pass1 b t h m1 m2 :
  0 <= b < B -> 0 <= t < T -> 0 <= h < NH -> P b t -> agree S m1 m2 ->
  both (attention_pass1 preatt inp T C NH b t h m1)
       (attention_pass1 preatt inp T C NH b t h m2).
Proof.
  intros Hb Ht Hh Hp Hm. unfold attention_pass1. cbv zeta. fold hs.
  apply (for_loop_rel both); [split; [assumption | reflexivity]|].
  intros t2 [a1 x1] [a2 x2] Ht2 [Ha Hx]. cbn [fst snd] in Ha, Hx. subst x2.
  set (v1 := for_loop 0 hs _ _). set (v2 := for_loop 0 hs _ _).
  assert (Hv : v1 = v2).
  { subst v1 v2. apply for_loop_rel; [reflexivity|].
    intros i y1 y2 Hi ->.
    rewrite (Ha (inp +! (b * T * (C * 3) + t * (C * 3) + h * hs) +! i)).
    2:{ rewrite padd_padd.
        replace (b * T * (C * 3) + t * (C * 3) + h * hs + i)
          with ((b * T + t) * (C * 3) + (h * hs + i + 0 * C)) by ring.
        apply inp_cell_low; try assumption; lia. }
    rewrite (Ha (inp +! (b * T * (C * 3) + t2 * (C * 3) + h * hs + C) +! i)).
    2:{ rewrite padd_padd.
        replace (b * T * (C * 3) + t2 * (C * 3) + h * hs + C + i)
          with ((b * T + t2) * (C * 3) + (h * hs + i + 1 * C)) by ring.
        apply inp_cell_low; try assumption; try lia.
        apply (Pback b t); [assumption | lia]. }
    reflexivity. }
  clearbody v1 v2. subst v2. split; cbn [fst snd]; [|reflexivity].
  apply agree_store; [assumption | reflexivity].
Qed.

Lemma causal_pass2 b t h maxval m1 m2 :
  0 <= b < B -> 0 <= t < T -> 0 <= h < NH -> P b t -> agree S m1 m2 ->
  both (attention_pass2 preatt att T NH b t h maxval m1)
       (attention_pass2 preatt att T NH b t h maxval m2).
Proof.
  intros Hb Ht Hh Hp Hm. unfold attention_pass2. cbv zeta.
  apply (for_loop_rel both); [split; [assumption | reflexivity]|].
  intros t2 [a1 x1] [a2 x2] Ht2 [Ha Hx]. cbn [fst snd] in Ha, Hx. subst x2.
  rewrite (Ha (preatt +! (b * NH * T * T + h * T * T + t * T) +! t2)).
  2:{ rewrite padd_padd. apply (Hpreatt_low b h t t2); try assumption. lia. }
  split; cbn [fst snd]; [|reflexivity].
  apply agree_store; [assumption | reflexivity].
Qed.

Lemma causal_pass3 b t h expsum_inv m1 m2 :
  0 <= b < B -> 0 <= t < T -> 0 <= h < NH -> P b t -> agree S m1 m2 ->
  agree S (attention_pass3 att T NH b t h expsum_inv m1)
          (attention_pass3 att T NH b t h expsum_inv m2).
Proof.
  intros Hb Ht Hh Hp Hm. unfold attention_pass3. cbv zeta.
  apply for_loop_rel; [assumption|].
  intros t2 a1 a2 Ht2 Ha.
  destruct (t2 <=? t); (apply agree_store; [assumption|]); [|reflexivity].
  intros _. rewrite (Ha (att +! (b * NH * T * T + h * T * T + t * T) +! t2));
    [reflexivity|].
  rewrite padd_padd. now apply (Hatt_low b h t t2).
Qed.

Lemma causal_pass4 b t h m1 m2 :
  0 <= b < B -> 0 <= t < T -> 0 <= h < NH -> P b t -> agree S m1 m2 ->
  agree S (attention_pass4 out att inp T C NH b t h m1)
          (attention_pass4 out att inp T C NH b t h m2).
Proof.
  intros Hb Ht Hh Hp Hm. unfold attention_pass4. cbv zeta. fold hs.
  apply for_loop_rel.
  { apply for_loop_rel; [assumption|].
    intros i a1 a2 Hi Ha. apply agree_store; [assumption | reflexivity]. }
  intros t2 a1 a2 Ht2 Ha.
  rewrite (Ha (att +! (b * NH * T * T + h * T * T + t * T) +! t2)).
  2:{ rewrite padd_padd. apply (Hatt_low b h t t2); try assumption. lia. }
  apply for_loop_rel; [assumption|].
  intros i c1 c2 Hi Hc. apply agree_store; [assumption|]. intros _.
  rewrite (Hc (out +! (b * T * C + t * C + h * hs) +! i)).
  2:{ rewrite out_cell_position. apply Hout_low; try assumption.
      now apply head_in_channels. }
  rewrite (Hc (inp +! (b * T * (C * 3) + t2 * (C * 3) + h * hs + C * 2) +! i)).
  2:{ rewrite padd_padd.
      replace (b * T * (C * 3) + t2 * (C * 3) + h * hs + C * 2 + i)
        with ((b * T + t2) * (C * 3) + (h * hs + i + 2 * C)) by ring.
      apply inp_cell_low; try assumption; try lia.
      apply (Pback b t); [assumption | lia]. }
  reflexivity.
Qed.

(** A round of another position writes cells that are not compared. *)
Lemma apart_pass1 b t h m1 m2 :
  0 <= b < B -> 0 <= t < T -> 0 <= h < NH -> ~ P b t -> agree S m1 m2 ->
  heaps (attention_pass1 preatt inp T C NH b t h m1)
        (attention_pass1 preatt inp T C NH b t h m2).
Proof.
  intros Hb Ht Hh Hn Hm. unfold attention_pass1. cbv zeta.
  apply (for_loop_rel heaps); [assumption|].
  intros t2 [a1 x1] [a2 x2] Ht2 Ha. unfold heaps in *. cbn [fst snd] in *.
  apply agree_store; [assumption|]. intros HS. exfalso. revert HS.
  rewrite padd_padd. apply (Hpreatt_high b h t t2); try assumption. lia.
Qed.

Lemma apart_pass2 b t h x1 x2 m1 m2 :
  0 <= b < B -> 0 <= t < T -> 0 <= h < NH -> ~ P b t -> agree S m1 m2 ->
  heaps (attention_pass2 preatt att T NH b t h x1 m1)
        (attention_pass2 preatt att T NH b t h x2 m2).
Proof.
  intros Hb Ht Hh Hn Hm. unfold attention_pass2. cbv zeta.
  apply (for_loop_rel heaps); [assumption|].
  intros t2 [a1 y1] [a2 y2] Ht2 Ha. unfold heaps in *. cbn [fst snd] in *.
  apply agree_store; [assumption|]. intros HS. exfalso. revert HS.
  rewrite padd_padd. apply (Hatt_high b h t t2); try assumption. lia.
Qed.

Lemma apart_pass3 b t h x1 x2 m1 m2 :
  0 <= b < B -> 0 <= t < T -> 0 <= h < NH -> ~ P b t -> agree S m1 m2 ->
  agree S (attention_pass3 att T NH b t h x1 m1)
          (attention_pass3 att T NH b t h x2 m2).
Proof.
  intros Hb Ht Hh Hn Hm. unfold attention_pass3. cbv zeta.
  apply for_loop_rel; [assumption|].
  intros t2 a1 a2 Ht2 Ha.
  destruct (t2 <=? t); (apply agree_store; [assumption|]);
    intros HS; exfalso; revert HS; rewrite padd_padd;
    now apply (Hatt_high b h t t2).
Qed.

Lemma apart_pass4 b t h m1 m2 :
  0 <= b < B -> 0 <= t < T -> 0 <= h < NH -> ~ P b t -> agree S m1 m2 ->
  agree S (attention_pass4 out att inp T C NH b t h m1)
          (attention_pass4 out att inp T C NH b t h m2).
Proof.
  intros Hb Ht Hh Hn Hm. unfold attention_pass4. cbv zeta. fold hs.
  assert (Hcell : forall i, 0 <= i < hs ->
            ~ S (out +! (b * T * C + t * C + h * hs) +! i)).
  { intros i Hi. rewrite out_cell_position. apply Hout_high; try assumption.
    now apply head_in_channels. }
  apply for_loop_rel.
  { apply for_loop_rel; [assumption|].
    intros i a1 a2 Hi Ha. apply agree_store; [assumption|].
    intros HS. exfalso. revert HS. now apply Hcell. }
  intros t2 a1 a2 Ht2 Ha.
  apply for_loop_rel; [assumption|].
  intros i c1 c2 Hi Hc. apply agree_store; [assumption|].
  intros HS. exfalso. revert HS. now apply Hcell.
Qed.

Lemma causal_attention m1 m2 :
  agree S m1 m2 ->
  agree S (attention_forward out preatt att inp B T C NH m1)
          (attention_forward out preatt att inp B T C NH m2).
Proof.
  intros Hm. rewrite !attention_rounds.
  apply positions_rel; [assumption|].
  intros b t a1 a2 Hb Ht Ha.
  apply for_loop_rel; [assumption|].
  intros h c1 c2 Hh Hc. unfold attention_round.
  destruct (Pdec b t) as [Hp|Hn].
  - pose proof (causal_pass1 b t h c1 c2 Hb Ht Hh Hp Hc) as H1.
    destruct (attention_pass1 preatt inp T C NH b t h c1) as [d1 x1].
    destruct (attention_pass1 preatt inp T C NH b t h c2) as [d2 x2].
    destruct H1 as [Hd Hx]. cbn [fst snd] in Hd, Hx. subst x2.
    pose proof (causal_pass2 b t h x1 d1 d2 Hb Ht Hh Hp Hd) as H2.
    destruct (attention_pass2 preatt att T NH b t h x1 d1) as [e1 y1].
    destruct (attention_pass2 preatt att T NH b t h x1 d2) as [e2 y2].
    destruct H2 as [He Hy]. cbn [fst snd] in He, Hy. subst y2.
    apply causal_pass4; try assumption. now apply causal_pass3.
  - pose proof (apart_pass1 b t h c1 c2 Hb Ht Hh Hn Hc) as H1.
    destruct (attention_pass1 preatt inp T C NH b t h c1) as [d1 x1].
    destruct (attention_pass1 preatt inp T C NH b t h c2) as [d2 x2].
    unfold heaps in H1. cbn [fst] in H1.
    pose proof (apart_pass2 b t h x1 x2 d1 d2 Hb Ht Hh Hn H1) as H2.
    destruct (attention_pass2 preatt att T NH b t h x1 d1) as [e1 y1].
    destruct (attention_pass2 preatt att T NH b t h x2 d2) as [e2 y2].
    unfold heaps in H2. cbn [fst] in H2.
    apply apart_pass4; try assumption. now apply apart_pass3.
Qed.

End CausalAttention.

End Causal.

(** ** The positions of the activation tensors *)

(** For each activation tensor, in the order of the struct: the number of
    layers [Lx], of heads [H] and of floats per position [W].  A tensor of
    shape (L, B, T, C) is [(L, 1, C)], the scores (L, B, NH, T, T) are
    [(L, NH, T)]; the float [j] of head [h] of position (b, t) of layer
    [l] is at index ((((l * B + b) * H + h) * T + t) * W + j. *)
Definition activation_layout (config : GPT2Config) (T : Z) : list (Z * Z * Z) :=
  let C := channels config in
  let NH := num_heads config in
  let L := num_layers config in
  let Vp := padded_vocab_size config in
  [ (1, 1, C);             (* encoded *)
    (L, 1, C);             (* ln1 *)
    (L, 1, 1);             (* ln1_mean *)
    (L, 1, 1);             (* ln1_rstd *)
    (L, 1, 3 * C);         (* qkv *)
    (L, 1, C);             (* atty *)
    (L, NH, T);            (* preatt *)
    (L, NH, T);            (* att *)
    (L, 1, C);             (* attproj *)
    (L, 1, C);             (* residual2 *)
    (L, 1, C);             (* ln2 *)
    (L, 1, 1);             (* ln2_mean *)
    (L, 1, 1);             (* ln2_rstd *)
    (L, 1, 4 * C);         (* fch *)
    (L, 1, 4 * C);         (* fch_gelu *)
    (L, 1, C);             (* fcproj *)
    (L, 1, C);             (* residual3 *)
    (1, 1, C);             (* lnf *)
    (1, 1, 1);             (* lnf_mean *)
    (1, 1, 1);             (* lnf_rstd *)
    (1, 1, Vp);            (* logits *)
    (1, 1, Vp);            (* probs *)
    (1, 1, 1) ].           (* losses *)

Definition layers_of (s : Z * Z * Z) : Z := fst (fst s).
Definition heads_of (s : Z * Z * Z) : Z := snd (fst s).
Definition width_of (s : Z * Z * Z) : Z := snd s.

Definition layout_sizes (B T : Z) (layout : list (Z * Z * Z)) : list Z :=
  map (fun s => layers_of s * B * heads_of s * T * width_of s) layout.

Definition cell_index (B T H W l b h t j : Z) : Z :=
  (((l * B + b) * H + h) * T + t) * W + j.

(** The cell [q] belongs to a position (b, t) of the set [P]. *)
Definition in_positions (ptrs : list ptr) (layout : list (Z * Z * Z)) (B T : Z)
  (P : Z -> Z -> Prop) (q : ptr) : Prop :=
  exists (k : nat) (l b h t j : Z),
    (k < length layout)%nat /\
    0 <= l < layers_of (nth k layout (0, 0, 0)) /\
    0 <= b < B /\
    0 <= h < heads_of (nth k layout (0, 0, 0)) /\
    0 <= t < T /\
    0 <= j < width_of (nth k layout (0, 0, 0)) /\
    P b t /\
    q = nth k ptrs (acts_block, 0)
        +! cell_index B T (heads_of (nth k layout (0, 0, 0)))
             (width_of (nth k layout (0, 0, 0))) l b h t j.

Lemma cell_index_inj B T H W l b h t j l' b' h' t' j' :
  0 <= b < B -> 0 <= b' < B -> 0 <= h < H -> 0 <= h' < H ->
  0 <= t < T -> 0 <= t' < T -> 0 <= j < W -> 0 <= j' < W ->
  cell_index B T H W l b h t j = cell_index B T H W l' b' h' t' j' ->
  b = b' /\ t = t'.
Proof.
  unfold cell_index. intros Hb Hb' Hh Hh' Ht Ht' Hj Hj' E.
  apply (radix_inj W) in E; [|assumption|assumption]. destruct E as [E _].
  apply (radix_inj T) in E; [|assumption|assumption]. destruct E as [E Et].
  apply (radix_inj H) in E; [|assumption|assumption]. destruct E as [E _].
  apply (radix_inj B) in E; [|assumption|assumption]. destruct E as [_ Eb].
  split; assumption.
Qed.

Lemma cell_index_bound Lx B T H W l b h t j :
  0 <= l < Lx -> 0 <= b < B -> 0 <= h < H -> 0 <= t < T -> 0 <= j < W ->
  0 <= cell_index B T H W l b h t j < Lx * B * H * T * W.
Proof.
  intros Hl Hb Hh Ht Hj. unfold cell_index.
  pose proof (radix_bound Lx B l b Hl Hb) as H1.
  pose proof (radix_bound (Lx * B) H _ h H1 Hh) as H2.
  pose proof (radix_bound (Lx * B * H) T _ t H2 Ht) as H3.
  exact (radix_bound (Lx * B * H * T) W _ j H3 Hj).
Qed.

Section Positions.

Variables (abase : ptr) (layout : list (Z * Z * Z)) (B T : Z) (P : Z -> Z -> Prop).

Let sizes := layout_sizes B T layout.
Let ptrs := map (padd abase) (carve 0 sizes).

Hypothesis Hsizes : Forall (fun s => 0 <= s) sizes.

Lemma nth_layout_sizes k :
  nth k sizes 0
  = layers_of (nth k layout (0, 0, 0)) * B * heads_of (nth k layout (0, 0, 0)) * T
    * width_of (nth k layout (0, 0, 0)).
Proof.
  unfold sizes, layout_sizes.
  change 0 with ((fun s : Z * Z * Z => layers_of s * B * heads_of s * T * width_of s)
                   (0, 0, 0)) at 1.
  now rewrite map_nth.
Qed.

Lemma length_layout_sizes : length sizes = length layout.
Proof. unfold sizes, layout_sizes. apply length_map. Qed.

Lemma nth_layout_ptrs k d : (k < length layout)%nat ->
  nth k ptrs d = abase +! total (firstn k sizes).
Proof.
  intros Hk. unfold ptrs.
  rewrite (nth_indep _ d abase)
    by (rewrite length_map, carve_length, length_layout_sizes; assumption).
  apply nth_carve_view. now rewrite length_layout_sizes.
Qed.

(** A cell belongs to one position only. *)
Lemma position_unique k l b h t j k' l' b' h' t' j' :
  let H i := heads_of (nth i layout (0, 0, 0)) in
  let W i := width_of (nth i layout (0, 0, 0)) in
  let Lx i := layers_of (nth i layout (0, 0, 0)) in
  (k < length layout)%nat -> (k' < length layout)%nat ->
  0 <= l < Lx k -> 0 <= l' < Lx k' -> 0 <= b < B -> 0 <= b' < B ->
  0 <= h < H k -> 0 <= h' < H k' -> 0 <= t < T -> 0 <= t' < T ->
  0 <= j < W k -> 0 <= j' < W k' ->
  nth k ptrs (acts_block, 0) +! cell_index B T (H k) (W k) l b h t j
  = nth k' ptrs (acts_block, 0) +! cell_index B T (H k') (W k') l' b' h' t' j' ->
  b = b' /\ t = t'.
Proof.
  intros H W Lx Hk Hk' Hl Hl' Hb Hb' Hh Hh' Ht Ht' Hj Hj' E.
  rewrite !nth_layout_ptrs in E by assumption.
  apply (f_equal snd) in E. unfold padd in E. cbn [fst snd] in E.
  pose proof (cell_index_bound _ B T _ _ l b h t j Hl Hb Hh Ht Hj) as Hin.
  pose proof (cell_index_bound _ B T _ _ l' b' h' t' j' Hl' Hb' Hh' Ht' Hj') as Hin'.
  fold (H k) (W k) (Lx k) in Hin. fold (H k') (W k') (Lx k') in Hin'.
  assert (Hsize : forall i, nth i sizes 0 = Lx i * B * H i * T * W i)
    by (intros i; apply nth_layout_sizes).
  rewrite <- Hsize in Hin, Hin'.
  assert (Ek : k = k').
  { destruct (Nat.lt_trichotomy k k') as [Hlt|[E'|Hlt]]; [|assumption|].
    - pose proof (carve_consecutive sizes k k' Hsizes Hlt
                    ltac:(rewrite length_layout_sizes; lia)). lia.
    - pose proof (carve_consecutive sizes k' k Hsizes Hlt
                    ltac:(rewrite length_layout_sizes; lia)). lia. }
  subst k'.
  apply (cell_index_inj B T (H k) (W k) l b h t j l' b' h' t' j'); try assumption. lia.
Qed.

(** The cells that the two runs are compared on: everything outside the
    activation buffer, and the cells of the positions of [P]. *)
Definition visible_positions (q : ptr) : Prop :=
  fst q <> fst abase \/ in_positions ptrs layout B T P q.

Lemma in_positions_block q : in_positions ptrs layout B T P q -> fst q = fst abase.
Proof.
  intros (k & l & b & h & t & j & Hk & _ & _ & _ & _ & _ & _ & ->).
  rewrite nth_layout_ptrs by assumption. reflexivity.
Qed.

Lemma not_visible k l b h t j :
  (k < length layout)%nat ->
  0 <= l < layers_of (nth k layout (0, 0, 0)) -> 0 <= b < B ->
  0 <= h < heads_of (nth k layout (0, 0, 0)) -> 0 <= t < T ->
  0 <= j < width_of (nth k layout (0, 0, 0)) -> ~ P b t ->
  ~ visible_positions
      (nth k ptrs (acts_block, 0)
       +! cell_index B T (heads_of (nth k layout (0, 0, 0)))
            (width_of (nth k layout (0, 0, 0))) l b h t j).
Proof.
  intros Hk Hl Hb Hh Ht Hj Hn [Hblock|Hin].
  - apply Hblock. rewrite nth_layout_ptrs by assumption. reflexivity.
  - destruct Hin as (k' & l' & b' & h' & t' & j' & Hk' & Hl' & Hb' & Hh' & Ht' & Hj'
                     & Hp & E).
    destruct (position_unique k l b h t j k' l' b' h' t' j') as [-> ->];
      try assumption.
    now apply Hn.
Qed.

(** The tensors of shape (Lx, B, T, W), at layer [l]. *)
Lemma tensor_pos_low k l p off W :
  p = nth k ptrs (acts_block, 0) ->
  heads_of (nth k layout (0, 0, 0)) = 1 -> W = width_of (nth k layout (0, 0, 0)) ->
  off = l * B * T * W ->
  (k < length layout)%nat -> 0 <= l < layers_of (nth k layout (0, 0, 0)) ->
  pos_low visible_positions B T P (p +! off) W.
Proof.
  intros -> EH -> -> Hk Hl b t i Hb Ht Hp Hi. right.
  exists k, l, b, 0, t, i. rewrite EH.
  repeat (split; [assumption || lia|]). rewrite padd_padd. f_equal.
  unfold cell_index. ring.
Qed.

Lemma tensor_pos_high k l p off W :
  p = nth k ptrs (acts_block, 0) ->
  heads_of (nth k layout (0, 0, 0)) = 1 -> W = width_of (nth k layout (0, 0, 0)) ->
  off = l * B * T * W ->
  (k < length layout)%nat -> 0 <= l < layers_of (nth k layout (0, 0, 0)) ->
  pos_high visible_positions B T P (p +! off) W.
Proof.
  intros -> EH -> -> Hk Hl b t i Hb Ht Hn Hi.
  pose proof (not_visible k l b 0 t i Hk Hl Hb ltac:(lia) Ht Hi Hn) as H.
  rewrite EH in H. rewrite padd_padd.
  replace (l * B * T * width_of (nth k layout (0, 0, 0))
           + ((b * T + t) * width_of (nth k layout (0, 0, 0)) + i))
    with (cell_index B T 1 (width_of (nth k layout (0, 0, 0))) l b 0 t i)
    by (unfold cell_index; ring).
  exact H.
Qed.

(** The scores (Lx, B, NH, T, T), at layer [l]. *)
Lemma tensor_score_low k l p off NH :
  p = nth k ptrs (acts_block, 0) ->
  NH = heads_of (nth k layout (0, 0, 0)) -> T = width_of (nth k layout (0, 0, 0)) ->
  off = l * B * NH * T * T ->
  (k < length layout)%nat -> 0 <= l < layers_of (nth k layout (0, 0, 0)) ->
  score_low visible_positions B T P (p +! off) NH.
Proof.
  intros -> EH EW -> Hk Hl b h t t2 Hb Hh Ht Ht2 Hp. right.
  exists k, l, b, h, t, t2. rewrite <- EH, <- EW.
  repeat (split; [assumption|]). rewrite padd_padd. f_equal.
  unfold cell_index, att_index. ring.
Qed.

Lemma tensor_score_high k l p off NH :
  p = nth k ptrs (acts_block, 0) ->
  NH = heads_of (nth k layout (0, 0, 0)) -> T = width_of (nth k layout (0, 0, 0)) ->
  off = l * B * NH * T * T ->
  (k < length layout)%nat -> 0 <= l < layers_of (nth k layout (0, 0, 0)) ->
  score_high visible_positions B T P (p +! off) NH.
Proof.
  intros -> EH EW -> Hk Hl b h t t2 Hb Hh Ht Ht2 Hn.
  rewrite EH in Hh. rewrite EW in Ht2.
  pose proof (not_visible k l b h t t2 Hk Hl Hb Hh Ht Ht2 Hn) as H.
  rewrite <- EH, <- EW in H. rewrite padd_padd.
  replace (l * B * NH * T * T + att_index NH T b h t t2)
    with (cell_index B T NH T l b h t t2)
    by (unfold cell_index, att_index; ring).
  exact H.
Qed.

Lemma tensor_pos_low_flat k p W :
  p = nth k ptrs (acts_block, 0) ->
  heads_of (nth k layout (0, 0, 0)) = 1 -> W = width_of (nth k layout (0, 0, 0)) ->
  (k < length layout)%nat -> 0 < layers_of (nth k layout (0, 0, 0)) ->
  pos_low visible_positions B T P p W.
Proof.
  intros Ep EH EW Hk Hl. rewrite <- (padd_zero p).
  apply (tensor_pos_low k 0); try assumption; [ring | lia].
Qed.

Lemma tensor_pos_high_flat k p W :
  p = nth k ptrs (acts_block, 0) ->
  heads_of (nth k layout (0, 0, 0)) = 1 -> W = width_of (nth k layout (0, 0, 0)) ->
  (k < length layout)%nat -> 0 < layers_of (nth k layout (0, 0, 0)) ->
  pos_high visible_positions B T P p W.
Proof.
  intros Ep EH EW Hk Hl. rewrite <- (padd_zero p).
  apply (tensor_pos_high k 0); try assumption; [ring | lia].
Qed.

Lemma outside_visible (p : ptr) :
  fst p <> fst abase -> block_low visible_positions p.
Proof. intros Hp q Eq. left. now rewrite Eq. Qed.

End Positions.

(** ** The forward pass on two batches with a common past *)

(** The two batches have the same tokens, and the same targets if there
    are targets, at the positions of [P]. *)
Definition same_positions (inputs1 inputs2 : Z -> Z) (targets1 targets2 : option (Z -> Z))
  (B T : Z) (P : Z -> Z -> Prop) : Prop :=
  (forall b t, 0 <= b < B -> 0 <= t < T -> P b t ->
     inputs1 (b * T + t) = inputs2 (b * T + t)) /\
  match targets1, targets2 with
  | Some tg1, Some tg2 =>
      forall b t, 0 <= b < B -> 0 <= t < T -> P b t -> tg1 (b * T + t) = tg2 (b * T + t)
  | None, None => True
  | _, _ => False
  end.


Section CausalForward.

Context {F : Type} {ops : FloatOps F}.
Variables (model : GPT2) (model_consts : GPT2Const (F:=F)) (abase : ptr).
Variables (B T : Z) (maxT V Vp L NH C : Z) (P : Z -> Z -> Prop).

Let cfg := mkConfig maxT V Vp L NH C.
Let layout := activation_layout cfg T.
Let visible := visible_positions abase layout B T P.

Hypothesis Hconfig : config model_consts = cfg.
Hypothesis Hacts :
  acts model = malloc_and_point_activations abase (fill_in_activation_sizes cfg B T).
Hypothesis Hexact : fill_in_activation_sizes cfg B T = layout_sizes B T layout.
Hypothesis Hparams :
  forall p, In p (parameter_ptrs (params model)) -> fst p <> fst abase.
Hypothesis HB : 0 <= B.
Hypothesis HT : 0 <= T.
Hypothesis HL : 0 <= L.
Hypothesis HV : 0 <= V <= Vp.
Hypothesis Pdec : forall b t, P b t \/ ~ P b t.
Hypothesis Pback : forall b t t2, P b t -> 0 <= t2 <= t -> P b t2.

Lemma activation_ptrs_layout :
  activation_ptrs (acts model) = map (padd abase) (carve 0 (layout_sizes B T layout)).
Proof. rewrite Hacts, <- Hexact. apply activation_ptrs_carve. reflexivity. Qed.

Lemma layout_sizes_range : Forall (fun s => 0 <= s) (layout_sizes B T layout).
Proof. rewrite <- Hexact. apply activation_sizes_range. Qed.

Lemma parameter_visible (p : ptr) off :
  In p (parameter_ptrs (params model)) -> block_low visible (p +! off).
Proof.
  intros Hin. apply outside_visible. unfold padd. cbn [fst]. now apply Hparams.
Qed.

Ltac tensor_ptr := rewrite <- activation_ptrs_layout; reflexivity.
Ltac layout_entry :=
  unfold layout, activation_layout, cfg, layers_of, heads_of, width_of; cbv zeta;
  cbn [nth length fst snd channels num_heads num_layers padded_vocab_size].
Ltac layout_eq := layout_entry; ring.
Ltac layout_arith := layout_entry; lia.

Ltac regular k l :=
  first
    [ apply (tensor_pos_low abase layout B T P k l);
      [tensor_ptr | layout_eq | layout_eq | layout_eq | layout_arith | layout_arith]
    | apply (tensor_pos_high abase layout B T P layout_sizes_range k l);
      [tensor_ptr | layout_eq | layout_eq | layout_eq | layout_arith | layout_arith] ].

Ltac scores k l :=
  first
    [ apply (tensor_score_low abase layout B T P k l);
      [tensor_ptr | layout_eq | layout_eq | layout_eq | layout_arith | layout_arith]
    | apply (tensor_score_high abase layout B T P layout_sizes_range k l);
      [tensor_ptr | layout_eq | layout_eq | layout_eq | layout_arith | layout_arith] ].

Ltac regular_flat k :=
  first
    [ apply (tensor_pos_low_flat abase layout B T P k);
      [tensor_ptr | layout_eq | layout_eq | layout_arith | layout_arith]
    | apply (tensor_pos_high_flat abase layout B T P layout_sizes_range k);
      [tensor_ptr | layout_eq | layout_eq | layout_arith | layout_arith] ].

Ltac parameter := apply parameter_visible; cbn [parameter_ptrs In]; tauto.

Ltac matmul_step :=
  apply (causal_matmul visible B T P HB HT Pdec);
  [ | parameter | cbn [bias_low]; try exact I; try parameter | | ].

(** The residual stream that layer [l] reads. *)
Lemma residual_visible l :
  0 <= l < L ->
  pos_low visible B T P
    (if l =? 0 then encoded (acts model)
     else residual3 (acts model) +! ((l - 1) * B * T * C)) C.
Proof.
  intros Hl. destruct (l =? 0) eqn:El.
  - regular_flat 0%nat.
  - apply Z.eqb_neq in El. regular 16%nat (l - 1).
Qed.

Lemma causal_layer l (s1 s2 : machine (F:=F)) :
  0 <= l < L ->
  agree visible (heap s1) (heap s2) ->
  agree visible
    (heap (gpt2_forward_layer model_consts (params model) (acts model) B T l s1))
    (heap (gpt2_forward_layer model_consts (params model) (acts model) B T l s2)).
Proof.
  intros Hl Hs. pose proof (residual_visible l Hl) as Hres.
  unfold gpt2_forward_layer. rewrite Hconfig. unfold cfg. cbn [channels num_heads].
  cbv zeta. cbn [call heap run_kernel].
  apply (causal_residual visible B T P HB HT Pdec _ _ _ _ C);
    [ring | regular 9%nat l | regular 15%nat l | regular 16%nat l |].
  matmul_step; [regular 14%nat l | regular 15%nat l |].
  apply (causal_gelu visible B T P HB HT Pdec _ _ _ (4 * C));
    [ring | regular 13%nat l | regular 14%nat l |].
  matmul_step; [regular 10%nat l | regular 13%nat l |].
  apply (causal_layernorm visible B T P Pdec);
    [ regular 9%nat l | parameter | parameter
    | regular 10%nat l | regular 11%nat l | regular 12%nat l |].
  apply (causal_residual visible B T P HB HT Pdec _ _ _ _ C);
    [ring | exact Hres | regular 8%nat l | regular 9%nat l |].
  matmul_step; [regular 5%nat l | regular 8%nat l |].
  apply (causal_attention visible B T P Pdec Pback);
    [ regular 4%nat l | scores 6%nat l | scores 7%nat l | regular 5%nat l
    | scores 6%nat l | scores 7%nat l | regular 5%nat l |].
  matmul_step; [regular 1%nat l | regular 4%nat l |].
  apply (causal_layernorm visible B T P Pdec);
    [ exact Hres | parameter | parameter
    | regular 1%nat l | regular 2%nat l | regular 3%nat l |].
  exact Hs.
Qed.

(** The residual stream that the final layernorm reads; without layers it
    is [encoded]. *)
Lemma last_residual_visible :
  pos_low visible B T P (residual3 (acts model) +! ((L - 1) * B * T * C)) C.
Proof.
  destruct (Z.eq_dec L 0) as [E|Hne]; [|regular 16%nat (L - 1)].
  intros b t i Hb Ht Hp Hi. right. exists 0%nat, 0, b, 0, t, i.
  split; [layout_arith|]. split; [layout_arith|]. split; [assumption|].
  split; [layout_arith|]. split; [assumption|].
  split; [layout_entry; exact Hi|]. split; [assumption|].
  change (residual3 (acts model))
    with (nth 16 (activation_ptrs (acts model)) (acts_block, 0)).
  rewrite activation_ptrs_layout, !nth_layout_ptrs by layout_arith.
  rewrite !padd_padd. f_equal.
  unfold layout_sizes, cell_index. layout_entry.
  cbn [map firstn total fold_right fst snd]. rewrite E. ring.
Qed.

Lemma causal_layers (s1 s2 : machine (F:=F)) :
  agree visible (heap s1) (heap s2) ->
  agree visible
    (heap (for_loop 0 L (gpt2_forward_layer model_consts (params model) (acts model) B T) s1))
    (heap (for_loop 0 L (gpt2_forward_layer model_consts (params model) (acts model) B T) s2)).
Proof.
  intros Hs.
  apply (for_loop_rel (fun a c => agree visible (heap a) (heap c))); [assumption|].
  intros l a c Hl Ha. now apply causal_layer.
Qed.

Lemma causal_forward inputs1 inputs2 targets1 targets2 (s1 s2 : machine (F:=F)) :
  is_int V ->
  ids_in_vocabulary V inputs1 targets1 (B * T) ->
  ids_in_vocabulary V inputs2 targets2 (B * T) ->
  same_positions inputs1 inputs2 targets1 targets2 B T P ->
  agree visible (heap s1) (heap s2) ->
  exists s1' consts1 res1 s2' consts2 res2,
    gpt2_forward model model_consts inputs1 targets1 B T s1 = Some (s1', consts1, res1) /\
    gpt2_forward model model_consts inputs2 targets2 B T s2 = Some (s2', consts2, res2) /\
    agree visible (heap s1') (heap s2').
Proof.
  intros Hint Hids1 Hids2 [Hinputs Htargets] Hs.
  unfold gpt2_forward. rewrite Hconfig. unfold cfg.
  cbn [channels num_heads num_layers vocab_size padded_vocab_size].
  rewrite (validation_passes V inputs1 targets1 (B * T) Hint Hids1).
  rewrite (validation_passes V inputs2 targets2 (B * T) Hint Hids2).
  cbn [negb]. cbv zeta.
  set (a1 := call (KSoftmax _ _ _ _ _ _) _).
  set (a2 := call (KSoftmax _ _ _ _ _ _) _).
  assert (Ha : agree visible (heap a1) (heap a2)).
  { subst a1 a2. cbn [call heap run_kernel].
    apply (causal_softmax visible B T P Pdec);
      [exact HV | regular_flat 20%nat | regular_flat 21%nat | regular_flat 21%nat |].
    apply (causal_matmul visible B T P HB HT Pdec);
      [ regular_flat 17%nat
      | rewrite <- (padd_zero (wte (params model))); parameter
      | exact I
      | regular_flat 20%nat |].
    apply (causal_layernorm visible B T P Pdec);
      [ exact last_residual_visible
      | rewrite <- (padd_zero (lnfw (params model))); parameter
      | rewrite <- (padd_zero (lnfb (params model))); parameter
      | regular_flat 17%nat | regular_flat 18%nat | regular_flat 19%nat |].
    apply causal_layers.
    cbn [call heap run_kernel].
    apply (causal_encoder visible B T P Pdec);
      [ exact Hinputs
      | rewrite <- (padd_zero (wte (params model))); parameter
      | rewrite <- (padd_zero (wpe (params model))); parameter
      | regular_flat 0%nat | exact Hs ]. }
  clearbody a1 a2.
  destruct targets1 as [tg1|], targets2 as [tg2|]; try contradiction;
    cbn [gpt2_forward_loss]; cbv zeta.
  - do 6 eexists. split; [reflexivity|]. split; [reflexivity|].
    cbn [call heap run_kernel].
    apply (causal_crossentropy visible B T P Pdec);
      [ | regular_flat 21%nat | regular_flat 22%nat | exact Ha ].
    intros b t Hb Ht Hp. split; [now apply Htargets|].
    destruct (Hids1 (b * T + t) ltac:(now apply radix_bound)) as [_ Htg]. lia.
  - do 6 eexists. split; [reflexivity|]. split; [reflexivity|]. exact Ha.
Qed.

End CausalForward.


(** Two batches of 2 rows of 4 tokens that differ from time 2 on. *)
Definition tiny_prefix1 : Z -> Z := fun _ => 0.
Definition tiny_prefix2 : Z -> Z := fun i => if i mod 4 <? 2 then 0 else 1.


(* ================================================================== *)
(** * Part VII: clearing the parameters *)
(* ================================================================== *)

Section ZeroParameters.

Context {F : Type} {ops : FloatOps F}.

(** [memset(p, 0, bytes)] on floats: [bytes / 4] floats become [0.0f], the
    float whose bytes are all 0. *)
Definition memset_zero (p : ptr) (bytes : Z) (m : mem (F:=F)) : mem :=
  for_loop 0 (bytes / 4) (fun i m => store m (p +! i) fzero) m.

(** [zero_parameters]: the sixteen statements
    [if (params->x != NULL) memset(params->x, 0, param_sizes[i] * sizeof(float))],
    in the order of the fields of [ParameterTensors]; [params] lists the
    fields, a NULL pointer as [None]. *)
Definition zero_parameters (params : list (option ptr)) (param_sizes : list Z)
  (m : mem (F:=F)) : mem :=
  fold_left (fun m i =>
    match nth i params None with
    | Some p => memset_zero p (size_mul (nth i param_sizes 0) 4) m
    | None => m
    end) (seq 0 NUM_PARAMETER_TENSORS) m.

Lemma memset_zero_inside p n (m : mem (F:=F)) q :
  0 <= n -> 4 * n < SIZE_MAX1 -> in_view p n q ->
  load (memset_zero p (size_mul n 4) m) q = fzero.
Proof.
  intros Hn Hfit [Hblk Hoff]. unfold memset_zero, size_mul.
  rewrite to_size_t_small by lia. rewrite Z.div_mul by discriminate.
  assert (Eq : q = p +! (snd q - snd p)).
  { destruct q as [qb qo], p as [pb po]. unfold padd. cbn [fst snd] in *.
    f_equal; [assumption | lia]. }
  rewrite Eq.
  rewrite (map_cells_loop (fun i => p +! i) (fun _ _ => fzero) 0 n m (snd q - snd p)).
  - reflexivity.
  - intros i j _ _ Hij. now apply padd_neq.
  - lia.
Qed.

Lemma memset_zero_outside p n (m : mem (F:=F)) q :
  0 <= n -> 4 * n < SIZE_MAX1 -> ~ in_view p n q ->
  load (memset_zero p (size_mul n 4) m) q = load m q.
Proof.
  intros Hn Hfit Hq. unfold memset_zero, size_mul.
  rewrite to_size_t_small by lia. rewrite Z.div_mul by discriminate.
  apply (keeps_for_loop (fun m => m)). intros i Hi m'.
  apply load_store_other. intros ->. apply Hq.
  unfold in_view, padd. cbn [fst snd]. split; [reflexivity | lia].
Qed.

Lemma memset_zero_keeps_zero p bytes (m : mem (F:=F)) q :
  load m q = fzero -> load (memset_zero p bytes m) q = fzero.
Proof.
  intros Hz. unfold memset_zero.
  apply (for_loop_preserve (fun m' : mem (F:=F) => load m' q = fzero)); [assumption|].
  intros i m' _ IH. destruct (ptr_eq_dec q (p +! i)) as [->|Hne].
  - apply load_store_same.
  - now rewrite load_store_other.
Qed.

(** The tensors that are not NULL are cleared, each over its own size;
    every other cell is left as it was. *)
Lemma zero_parameters_cells (params : list (option ptr)) (param_sizes : list Z)
  (m : mem (F:=F)) (q : ptr) :
  (forall i, (i < NUM_PARAMETER_TENSORS)%nat ->
     0 <= nth i param_sizes 0 /\ 4 * nth i param_sizes 0 < SIZE_MAX1) ->
  let m' := zero_parameters params param_sizes m in
  ((exists i p, (i < NUM_PARAMETER_TENSORS)%nat /\ nth i params None = Some p /\
      in_view p (nth i param_sizes 0) q) -> load m' q = fzero) /\
  ((forall i p, (i < NUM_PARAMETER_TENSORS)%nat -> nth i params None = Some p ->
      ~ in_view p (nth i param_sizes 0) q) -> load m' q = load m q).
Proof.
  intros Hsizes. cbv zeta. unfold zero_parameters.
  set (step := fun (m : mem (F:=F)) i =>
                 match nth i params None with
                 | Some p => memset_zero p (size_mul (nth i param_sizes 0) 4) m
                 | None => m
                 end).
  assert (Hzero : forall l (m0 : mem (F:=F)),
            load m0 q = fzero -> load (fold_left step l m0) q = fzero).
  { induction l as [|i l IH]; intros m0 Hz; [exact Hz|]. cbn [fold_left].
    apply IH. unfold step. destruct (nth i params None); [|exact Hz].
    now apply memset_zero_keeps_zero. }
  assert (Hin : forall l, (forall i, In i l -> (i < NUM_PARAMETER_TENSORS)%nat) ->
            forall (m0 : mem (F:=F)) i p, In i l -> nth i params None = Some p ->
              in_view p (nth i param_sizes 0) q ->
              load (fold_left step l m0) q = fzero).
  { induction l as [|j l IH]; intros Hl m0 i p Hi Hp Hq; [destruct Hi|].
    cbn [fold_left]. destruct Hi as [->|Hi].
    - apply Hzero. unfold step. rewrite Hp.
      destruct (Hsizes i (Hl i (or_introl eq_refl))). now apply memset_zero_inside.
    - apply (IH (fun k Hk => Hl k (or_intror Hk)) _ i p); assumption. }
  assert (Hout : forall l, (forall i, In i l -> (i < NUM_PARAMETER_TENSORS)%nat) ->
            (forall i p, (i < NUM_PARAMETER_TENSORS)%nat -> nth i params None = Some p ->
               ~ in_view p (nth i param_sizes 0) q) ->
            forall m0 : mem (F:=F), load (fold_left step l m0) q = load m0 q).
  { induction l as [|j l IH]; intros Hl Hq m0; [reflexivity|].
    cbn [fold_left]. rewrite (IH (fun k Hk => Hl k (or_intror Hk)) Hq).
    unfold step. destruct (nth j params None) as [p|] eqn:Hp; [|reflexivity].
    pose proof (Hl j (or_introl eq_refl)) as Hj. destruct (Hsizes j Hj).
    apply memset_zero_outside; try assumption. now apply (Hq j p). }
  assert (Hseq : forall i, In i (seq 0 NUM_PARAMETER_TENSORS) ->
                   (i < NUM_PARAMETER_TENSORS)%nat).
  { intros i Hi. apply in_seq in Hi. lia. }
  split.
  - intros (i & p & Hi & Hp & Hq). apply (Hin _ Hseq m i p); try assumption.
    apply in_seq. lia.
  - intros Hq. now apply Hout.
Qed.

End ZeroParameters.

Lemma nth_le_total sizes :
  Forall (fun s => 0 <= s) sizes ->
  forall i, (i < length sizes)%nat -> nth i sizes 0 <= total sizes.
Proof.
  induction 1 as [|s rest Hs Hrest IH]; intros i Hi; [cbn in Hi; lia|].
  rewrite total_cons. pose proof (total_nonneg rest Hrest).
  destruct i as [|i]; cbn [nth]; [lia|].
  cbn [length] in Hi. specialize (IH i ltac:(lia)). lia.
Qed.

(** X21: for any float arithmetic and every config whose parameter sizes do
    not wrap [size_t]: [zero_parameters] on the sixteen tensors that
    [malloc_and_point_parameters] carves leaves 0.0f in every float of the
    parameter buffer, the [num_parameters] floats at [params_memory], and
    leaves every other cell as it was; tensors that are all NULL are skipped
    and nothing is written. *)
Theorem zero_parameters_clears_buffer {F : Type} {ops : FloatOps F}
  (config : GPT2Config) (params_memory : ptr) (m : mem (F:=F)) (q : ptr) :
  let param_sizes := fill_in_parameter_sizes config in
  let params := malloc_and_point_parameters params_memory param_sizes in
  let m' := zero_parameters (map Some (parameter_ptrs params)) param_sizes m in
  4 * total param_sizes < SIZE_MAX1 ->
  (in_view params_memory (count_elements param_sizes) q -> load m' q = fzero) /\
  (~ in_view params_memory (count_elements param_sizes) q -> load m' q = load m q) /\
  zero_parameters (repeat None NUM_PARAMETER_TENSORS) param_sizes m = m.
Proof.
  intros param_sizes params m' Hfit.
  pose proof (parameter_sizes_range config) as Hrange. fold param_sizes in Hrange.
  destruct (count_exact param_sizes Hrange Hfit) as [Hcount _]. rewrite Hcount.
  assert (Hlen : length param_sizes = NUM_PARAMETER_TENSORS) by reflexivity.
  assert (Hsizes : forall i, (i < NUM_PARAMETER_TENSORS)%nat ->
            0 <= nth i param_sizes 0 /\ 4 * nth i param_sizes 0 < SIZE_MAX1).
  { intros i Hi. rewrite <- Hlen in Hi.
    assert (H0 : 0 <= nth i param_sizes 0).
    { apply (proj1 (Forall_nth _ _) Hrange i 0 Hi). }
    split; [exact H0|].
    pose proof (nth_le_total param_sizes Hrange i Hi) as Hle.
    lia. }
  destruct (carve_tiles params_memory param_sizes Hrange) as [(Hlen' & _ & Hcover) _].
  assert (Hviews : forall i, (i < NUM_PARAMETER_TENSORS)%nat ->
            nth i (map Some (parameter_ptrs params)) None
            = Some (nth i (map (padd params_memory) (carve 0 param_sizes)) params_memory)).
  { intros i Hi. unfold params. rewrite parameter_ptrs_carve by exact Hlen.
    rewrite (nth_indep _ None (Some params_memory))
      by (rewrite !length_map, carve_length, Hlen; exact Hi).
    apply map_nth. }
  pose proof (zero_parameters_cells (map Some (parameter_ptrs params)) param_sizes m q Hsizes)
    as [Hin Hout].
  fold m' in Hin, Hout.
  split; [|split].
  - intros Hq. apply Hin. apply Hcover in Hq. destruct Hq as (i & Hi & Hq).
    rewrite Hlen', Hlen in Hi.
    exists i, (nth i (map (padd params_memory) (carve 0 param_sizes)) params_memory).
    split; [exact Hi|].
    split; [now apply Hviews | exact Hq].
  - intros Hq. apply Hout. intros i p Hi Hp Hv. apply Hq. apply Hcover.
    exists i. rewrite Hlen', Hlen. split; [exact Hi|].
    rewrite Hviews in Hp by exact Hi. injection Hp as <-. exact Hv.
  - reflexivity.
Qed.

(** The GPT-2 (124M) checkpoint. *)
Lemma zero_parameters_clears_buffer_witness :
  let m : mem (F:=R) := fun _ z => IZR z in
  let param_sizes := fill_in_parameter_sizes gpt2_124M in
  let params := malloc_and_point_parameters (params_block, 0) param_sizes in
  let m' := zero_parameters (map Some (parameter_ptrs params)) param_sizes m in
  (in_view (params_block, 0) (count_elements param_sizes) (params_block, 124475903) ->
     load m' (params_block, 124475903) = fzero) /\
  (~ in_view (params_block, 0) (count_elements param_sizes) (params_block, 124475903) ->
     load m' (params_block, 124475903) = load m (params_block, 124475903)) /\
  zero_parameters (repeat None NUM_PARAMETER_TENSORS) param_sizes m = m.
Proof.
  apply (zero_parameters_clears_buffer gpt2_124M (params_block, 0)).
  vm_compute. reflexivity.
Defined.

(* ================================================================== *)
(** * Part VIII: the generation loop of [main] *)
(* ================================================================== *)

Section Generation.

Context {F : Type} {ops : FloatOps F}.

(** [gen_tokens[i] = v] *)
Definition set_token (gen_tokens : Z -> Z) (i v : Z) : Z -> Z :=
  fun j => if j =? i then v else gen_tokens j.

(** The heap with the kernel calls, [const_model], [gen_tokens] and
    [rng_state]. *)
Definition generation_state : Type := (machine (F:=F) * GPT2Const (F:=F) * (Z -> Z) * Z)%type.

(** One round of the loop [for (int t = 1; t < genT; t++)]; [None] when an
    [assert] of [gpt2_forward] has failed.  The token is printed, which
    leaves the state as it is. *)
Definition generate_token (model : GPT2) (B T : Z) (t : Z)
  (st : option generation_state) : option generation_state :=
  match st with
  | None => None
  | Some (s, const_model, gen_tokens, rng_state) =>
      match gpt2_forward model const_model gen_tokens None B T s with
      | None => None
      | Some (s, const_model, _) =>
          (* get the Vp-dimensional vector probs[0, t-1, :] *)
          let probs := probs (acts model)
                       +! ((t - 1) * padded_vocab_size (config const_model)) in
          let '(coin, rng_state) := random_f32 rng_state in
          (* note we're only sampling from the first V elements *)
          let next_token := sample_mult probs (vocab_size (config const_model)) coin (heap s) in
          Some (s, const_model, set_token gen_tokens t next_token, rng_state)
      end
  end.

(** The block of [main] that generates text: [gen_tokens] is filled with
    [tokenizer.eot_token], then [genT - 1] tokens are sampled. *)
Definition generate (model : GPT2) (eot_token : Z) (B T genT : Z)
  (st : generation_state) : option generation_state :=
  let '(s, const_model, gen_tokens, rng_state) := st in
  let gen_tokens := for_loop 0 (B * T) (fun i g => set_token g i eot_token) gen_tokens in
  for_loop 1 genT (generate_token model B T) (Some (s, const_model, gen_tokens, rng_state)).

Lemma fill_tokens (g : Z -> Z) v n i :
  0 <= i < n -> for_loop 0 n (fun i g => set_token g i v) g i = v.
Proof.
  intros Hi.
  apply (for_loop_pick (fun g' : Z -> Z => g' i = v) 0 n _ g i Hi).
  - intros g'. unfold set_token. now rewrite Z.eqb_refl.
  - intros j g' Hj Hne Hg. unfold set_token.
    destruct (Z.eqb_spec i j); [congruence | exact Hg].
Qed.

(** A pass without targets on ids of the vocabulary returns, and keeps
    the configuration. *)
Lemma forward_returns model (const_model : GPT2Const (F:=F)) gen_tokens B T
  (s : machine (F:=F)) :
  is_int (vocab_size (config const_model)) ->
  (forall i, 0 <= i < B * T -> 0 <= gen_tokens i < vocab_size (config const_model)) ->
  exists s' const_model' res,
    gpt2_forward model const_model gen_tokens None B T s = Some (s', const_model', res) /\
    config const_model' = config const_model.
Proof.
  intros HV Hids. unfold gpt2_forward.
  rewrite validation_passes;
    [| exact HV | intros i Hi; split; [now apply Hids | exact I]].
  cbn [negb gpt2_forward_loss]. cbv zeta. eexists _, _, _. split; reflexivity.
Qed.

End Generation.


